(** * Monopoly turn engine and first-visit Monte Carlo agent

    A shallow embedding of the C sources of the Monopoly reinforcement
    learning simulator: the sequential environment and agent
    ([monopoly.c]: [create_monopoly_env], [reset_monopoly_env],
    [step_monopoly_env], [select_action_mc], [update_mc] and the two chained
    hash tables) and the per-episode loop body of the CUDA kernel
    [simulate_episodes_kernel].

    Conventions of the embedding.
    - C [int] values are unbounded integers [Z]; signed overflow is undefined
      behaviour in C and no run of the simulator gets near it.  The only
      [unsigned int] arithmetic, the hash functions, is modelled with its
      wrap-around modulo [2^32].
    - The operator [%] is [Z.rem] (truncating), [/] on [int] is [Z.quot].
    - Fixed-size arrays are lists read with [rd] and written with [wr]; an
      index outside the array (undefined behaviour in C) reads a default and
      writes nothing.  [wf_env] states that no such access happens.
    - [rand()] reads the next cell of a tape of naturals; the position on the
      tape is threaded through every function that draws.
    - The reward of a step is integer valued in every path of the program
      (a sum of [int] amounts and of the constants 100 and -1000 stored in a
      [double]), so it is modelled in [Z].  The return [G], the sums of
      returns and the means of the value table are values of the type
      [double]: IEEE 754 binary64 numbers, added and divided with the
      rounding of that format.
    - An allocation that may fail takes a flag that tells whether it
      succeeds; a null pointer is [None].
    - The free text of the log ([action_desc], [card_specific_desc]) and the
      property names are informational only and are left out of the
      environment; the name of the drawn card is kept because
      [step_monopoly_env] compares it.  The string helpers of the kernel and
      the description it composes with them are modelled on their own, on
      character buffers. *)

From Stdlib Require Import ZArith List Bool Ascii String QArith Qabs Lia.
From Stdlib Require DecimalString DecimalZ DecimalPos DecimalFacts.
From Stdlib Require SpecFloat.
From stdpp Require Import base list strings.

Local Open Scope Z_scope.

(** ** Arrays *)

Section Arrays.
Context {A : Type}.

Definition rd (d : A) (l : list A) (i : Z) : A :=
  if i <? 0 then d else default d (l !! Z.to_nat i).

Definition wr (l : list A) (i : Z) (v : A) : list A :=
  if i <? 0 then l else <[Z.to_nat i := v]> l.
End Arrays.

(** ** Constants *)

Definition BOARD_SIZE : Z := 40.
Definition MAX_PLAYERS : Z := 8.
Definition Q_TABLE_INITIAL_SIZE : Z := 1024.
Definition VISITED_SET_INITIAL_SIZE : Z := 256.
Definition MAX_EPISODE_STEPS : Z := 500.

(** ** The random tape *)

Definition Tape := nat -> N.

(** [rand()]: the value read and the new position on the tape. *)
Definition rand (t : Tape) (c : nat) : Z * nat := (Z.of_N (t c), S c).

(** ** Structures *)

Inductive CardEffectFunc :=
  | card_advance_to_go
  | card_go_to_jail
  | card_bank_dividend
  | card_pay_poor_tax
  | card_doctors_fee
  | card_tax_refund.

Record Card := mkCard { card_name : string; effect : CardEffectFunc }.

Record Property := mkProperty {
  price : Z;
  rent : Z;
  owner : Z;      (* player index, -1 for unowned *)
  houses : Z;
  house_cost : Z
}.

Record LogEntry := mkLog {
  log_step : Z;
  log_player : Z;
  log_position_before : Z;
  log_dice_roll : Z;
  log_landed_on_position : Z;
  log_position_after : Z;
  log_money_before : Z;
  log_money_after : Z;
  log_reward : Z;
  log_done : bool;
  log_in_jail : bool;
  log_fee_paid : Z;
  log_agent_action : Z;
  log_num_owned_properties : Z;
  log_card_drawn : string;
  log_episode_id : Z
}.

Record MonopolyEnv := mkEnv {
  go_reward : Z;
  start_money : Z;
  board_size : Z;
  jail_position : Z;
  go_to_jail_position : Z;
  jail_turns : Z;
  num_players : Z;
  positions : list Z;
  money : list Z;
  in_jail : list bool;
  jail_counters : list Z;
  properties : list Property;
  current_player : Z;
  steps_taken : Z;
  done : bool;
  chance_deck : list Card;
  chest_deck : list Card;
  obs_money_high : Z;
  last_log : LogEntry
}.

Record StepResult := mkResult {
  reward : Z;
  res_done : bool;
  res_log : LogEntry
}.

(** Field updates of the environment. *)

Definition set_positions (v : list Z) (e : MonopolyEnv) : MonopolyEnv :=
  mkEnv (go_reward e) (start_money e) (board_size e) (jail_position e)
        (go_to_jail_position e) (jail_turns e) (num_players e)
        v (money e) (in_jail e) (jail_counters e) (properties e)
        (current_player e) (steps_taken e) (done e)
        (chance_deck e) (chest_deck e) (obs_money_high e) (last_log e).

Definition set_money (v : list Z) (e : MonopolyEnv) : MonopolyEnv :=
  mkEnv (go_reward e) (start_money e) (board_size e) (jail_position e)
        (go_to_jail_position e) (jail_turns e) (num_players e)
        (positions e) v (in_jail e) (jail_counters e) (properties e)
        (current_player e) (steps_taken e) (done e)
        (chance_deck e) (chest_deck e) (obs_money_high e) (last_log e).

Definition set_in_jail (v : list bool) (e : MonopolyEnv) : MonopolyEnv :=
  mkEnv (go_reward e) (start_money e) (board_size e) (jail_position e)
        (go_to_jail_position e) (jail_turns e) (num_players e)
        (positions e) (money e) v (jail_counters e) (properties e)
        (current_player e) (steps_taken e) (done e)
        (chance_deck e) (chest_deck e) (obs_money_high e) (last_log e).

Definition set_jail_counters (v : list Z) (e : MonopolyEnv) : MonopolyEnv :=
  mkEnv (go_reward e) (start_money e) (board_size e) (jail_position e)
        (go_to_jail_position e) (jail_turns e) (num_players e)
        (positions e) (money e) (in_jail e) v (properties e)
        (current_player e) (steps_taken e) (done e)
        (chance_deck e) (chest_deck e) (obs_money_high e) (last_log e).

Definition set_properties (v : list Property) (e : MonopolyEnv) : MonopolyEnv :=
  mkEnv (go_reward e) (start_money e) (board_size e) (jail_position e)
        (go_to_jail_position e) (jail_turns e) (num_players e)
        (positions e) (money e) (in_jail e) (jail_counters e) v
        (current_player e) (steps_taken e) (done e)
        (chance_deck e) (chest_deck e) (obs_money_high e) (last_log e).

Definition set_current_player (v : Z) (e : MonopolyEnv) : MonopolyEnv :=
  mkEnv (go_reward e) (start_money e) (board_size e) (jail_position e)
        (go_to_jail_position e) (jail_turns e) (num_players e)
        (positions e) (money e) (in_jail e) (jail_counters e) (properties e)
        v (steps_taken e) (done e)
        (chance_deck e) (chest_deck e) (obs_money_high e) (last_log e).

Definition set_steps_taken (v : Z) (e : MonopolyEnv) : MonopolyEnv :=
  mkEnv (go_reward e) (start_money e) (board_size e) (jail_position e)
        (go_to_jail_position e) (jail_turns e) (num_players e)
        (positions e) (money e) (in_jail e) (jail_counters e) (properties e)
        (current_player e) v (done e)
        (chance_deck e) (chest_deck e) (obs_money_high e) (last_log e).

Definition set_done (v : bool) (e : MonopolyEnv) : MonopolyEnv :=
  mkEnv (go_reward e) (start_money e) (board_size e) (jail_position e)
        (go_to_jail_position e) (jail_turns e) (num_players e)
        (positions e) (money e) (in_jail e) (jail_counters e) (properties e)
        (current_player e) (steps_taken e) v
        (chance_deck e) (chest_deck e) (obs_money_high e) (last_log e).

Definition set_last_log (v : LogEntry) (e : MonopolyEnv) : MonopolyEnv :=
  mkEnv (go_reward e) (start_money e) (board_size e) (jail_position e)
        (go_to_jail_position e) (jail_turns e) (num_players e)
        (positions e) (money e) (in_jail e) (jail_counters e) (properties e)
        (current_player e) (steps_taken e) (done e)
        (chance_deck e) (chest_deck e) (obs_money_high e) v.

(** Reads and writes of one cell, as the C code spells them. *)

Definition no_property : Property := mkProperty 0 0 (-1) 0 0.

Definition pos_of (e : MonopolyEnv) (p : Z) : Z := rd 0 (positions e) p.
Definition money_of (e : MonopolyEnv) (p : Z) : Z := rd 0 (money e) p.
Definition jailed (e : MonopolyEnv) (p : Z) : bool := rd false (in_jail e) p.
Definition jail_counter (e : MonopolyEnv) (p : Z) : Z := rd 0 (jail_counters e) p.
Definition prop_at (e : MonopolyEnv) (i : Z) : Property := rd no_property (properties e) i.

Definition put_money (p v : Z) (e : MonopolyEnv) : MonopolyEnv :=
  set_money (wr (money e) p v) e.

(** [env->money[p] += amount] *)
Definition add_money (p amount : Z) (e : MonopolyEnv) : MonopolyEnv :=
  put_money p (money_of e p + amount) e.

Definition put_position (p v : Z) (e : MonopolyEnv) : MonopolyEnv :=
  set_positions (wr (positions e) p v) e.

Definition put_in_jail (p : Z) (v : bool) (e : MonopolyEnv) : MonopolyEnv :=
  set_in_jail (wr (in_jail e) p v) e.

Definition put_jail_counter (p v : Z) (e : MonopolyEnv) : MonopolyEnv :=
  set_jail_counters (wr (jail_counters e) p v) e.

Definition with_owner (v : Z) (pr : Property) : Property :=
  mkProperty (price pr) (rent pr) v (houses pr) (house_cost pr).

Definition with_houses (v : Z) (pr : Property) : Property :=
  mkProperty (price pr) (rent pr) (owner pr) v (house_cost pr).

Definition put_owner (i v : Z) (e : MonopolyEnv) : MonopolyEnv :=
  set_properties (wr (properties e) i (with_owner v (prop_at e i))) e.

Definition put_houses (i v : Z) (e : MonopolyEnv) : MonopolyEnv :=
  set_properties (wr (properties e) i (with_houses v (prop_at e i))) e.

(** ** Loops

    [for (i = lo; i < hi; ++i) body] and the same loop left by [break]: the
    body returns the new state and whether it broke out. *)

Fixpoint for_loop {S : Type} (n : nat) (i : Z) (body : Z -> S -> S) (s : S) : S :=
  match n with
  | O => s
  | S k => for_loop k (i + 1) body (body i s)
  end.

Definition for_range {S : Type} (lo hi : Z) (body : Z -> S -> S) (s : S) : S :=
  for_loop (Z.to_nat (hi - lo)) lo body s.

Fixpoint for_break {S : Type} (n : nat) (i : Z) (body : Z -> S -> S * bool) (s : S) : S :=
  match n with
  | O => s
  | S k =>
      let '(s', brk) := body i s in
      if brk then s' else for_break k (i + 1) body s'
  end.

Definition for_range_break {S : Type} (lo hi : Z) (body : Z -> S -> S * bool) (s : S) : S :=
  for_break (Z.to_nat (hi - lo)) lo body s.

(** ** Helper functions *)

Definition get_fee_for_position (position : Z) : Z :=
  if position =? 4 then 200
  else if position =? 38 then 100
  else 0.

Definition is_chance_position (position : Z) : bool :=
  (position =? 7) || (position =? 22) || (position =? 36).

Definition is_chest_position (position : Z) : bool :=
  (position =? 2) || (position =? 17) || (position =? 33).

(** The card helpers return the new environment and the reward of the
    [CardEffectResult]. *)

Definition adjust_money (e : MonopolyEnv) (player amount : Z) : MonopolyEnv * Z :=
  (add_money player amount e, amount).

Definition advance_to_go (e : MonopolyEnv) (player : Z) : MonopolyEnv * Z :=
  let passed_go := negb (pos_of e player =? 0) in
  let e1 := put_position player 0 e in
  if passed_go then (add_money player (go_reward e1) e1, go_reward e1)
  else (e1, 0).

Definition go_to_jail (e : MonopolyEnv) (player : Z) : MonopolyEnv * Z :=
  let e1 := put_position player (jail_position e) e in
  let e2 := put_in_jail player true e1 in
  let e3 := put_jail_counter player 0 e2 in
  (e3, 0).

Definition run_effect (f : CardEffectFunc) (e : MonopolyEnv) (player : Z)
  : MonopolyEnv * Z :=
  match f with
  | card_advance_to_go => advance_to_go e player
  | card_go_to_jail => go_to_jail e player
  | card_bank_dividend => adjust_money e player 50
  | card_pay_poor_tax => adjust_money e player (-15)
  | card_doctors_fee => adjust_money e player (-50)
  | card_tax_refund => adjust_money e player 20
  end.

(** ** Construction and reset *)

Definition square (pr rn hc : Z) : Property := mkProperty pr rn (-1) 0 hc.

Definition initialize_properties : list Property :=
  [ no_property;        (* 0  GO *)
    square 60 2 50;     (* 1  Mediterranean Avenue *)
    no_property;        (* 2  Community Chest *)
    square 60 4 50;     (* 3  Baltic Avenue *)
    no_property;        (* 4  Income Tax *)
    square 200 25 100;  (* 5  Reading Railroad *)
    square 100 6 50;    (* 6  Oriental Avenue *)
    no_property;        (* 7  Chance *)
    square 100 6 50;    (* 8  Vermont Avenue *)
    square 120 8 50;    (* 9  Connecticut Avenue *)
    no_property;        (* 10 Jail *)
    square 140 10 100;  (* 11 St. Charles Place *)
    square 150 10 75;   (* 12 Electric Company *)
    square 140 10 100;  (* 13 States Avenue *)
    square 160 12 100;  (* 14 Virginia Avenue *)
    square 200 25 100;  (* 15 Pennsylvania Railroad *)
    square 180 14 100;  (* 16 St. James Place *)
    no_property;        (* 17 Community Chest *)
    square 180 14 100;  (* 18 Tennessee Avenue *)
    square 200 16 100;  (* 19 New York Avenue *)
    no_property;        (* 20 Free Parking *)
    square 220 18 150;  (* 21 Kentucky Avenue *)
    no_property;        (* 22 Chance *)
    square 220 18 150;  (* 23 Indiana Avenue *)
    square 240 20 150;  (* 24 Illinois Avenue *)
    square 200 25 100;  (* 25 B. & O. Railroad *)
    square 260 22 150;  (* 26 Atlantic Avenue *)
    square 260 22 150;  (* 27 Ventnor Avenue *)
    square 150 10 75;   (* 28 Water Works *)
    square 280 24 150;  (* 29 Marvin Gardens *)
    no_property;        (* 30 Go To Jail *)
    square 300 26 200;  (* 31 Pacific Avenue *)
    square 300 26 200;  (* 32 North Carolina Avenue *)
    no_property;        (* 33 Community Chest *)
    square 320 28 200;  (* 34 Pennsylvania Avenue *)
    square 200 25 100;  (* 35 Short Line Railroad *)
    no_property;        (* 36 Chance *)
    square 350 35 200;  (* 37 Park Place *)
    no_property;        (* 38 Luxury Tax *)
    square 400 50 200   (* 39 Boardwalk *) ].

Definition initial_chance_deck : list Card :=
  [ mkCard "Advance to Go" card_advance_to_go;
    mkCard "Go to Jail" card_go_to_jail;
    mkCard "Bank pays you dividend" card_bank_dividend;
    mkCard "Pay poor tax" card_pay_poor_tax ].

Definition initial_chest_deck : list Card :=
  [ mkCard "Doctor's fee" card_doctors_fee;
    mkCard "Income tax refund" card_tax_refund;
    mkCard "Go to Jail" card_go_to_jail;
    mkCard "Advance to Go" card_advance_to_go ].

(** [memset(&env->last_log, 0, sizeof(LogEntry))] *)
Definition zero_log : LogEntry :=
  mkLog 0 0 0 0 0 0 0 0 0 false false 0 0 0 "" 0.

(** The player arrays after the two initialisation loops of
    [create_monopoly_env]: slots below [n] are in use, the others cleared. *)
Definition player_slots {A : Type} (n : Z) (used unused : A) : list A :=
  (fun i => if i <? n then used else unused) <$> seqZ 0 MAX_PLAYERS.

(** The environment that [create_monopoly_env] fills in. *)
Definition new_env (n start go : Z) : MonopolyEnv :=
  {| go_reward := go;
     start_money := start;
     board_size := BOARD_SIZE;
     jail_position := 10;
     go_to_jail_position := 30;
     jail_turns := 3;
     num_players := n;
     positions := player_slots n 0 (-1);
     money := player_slots n start 0;
     in_jail := player_slots n false false;
     jail_counters := player_slots n 0 0;
     properties := initialize_properties;
     current_player := 0;
     steps_taken := 0;
     done := false;
     chance_deck := initial_chance_deck;
     chest_deck := initial_chest_deck;
     obs_money_high := start * 10;
     last_log := zero_log |}.

(** [create_monopoly_env]; [malloc_ok] tells whether the allocation of the
    environment succeeds.  [None] is the [NULL] result. *)
Definition create_monopoly_env (malloc_ok : bool) (n start go : Z)
  : option MonopolyEnv :=
  if (n <=? 0) || (n >? MAX_PLAYERS) then None
  else if negb malloc_ok then None
  else Some (new_env n start go).

(** [get_observation]: the array written to [obs]. *)
Definition get_observation (e : MonopolyEnv) : list Z :=
  let players := seqZ 0 (num_players e) in
  (pos_of e <$> players)
  ++ ((fun i => if money_of e i >? obs_money_high e
                then obs_money_high e else money_of e i) <$> players)
  ++ ((fun i => if jailed e i then 1 else 0) <$> players)
  ++ ((fun i => owner (prop_at e i)) <$> seqZ 0 (board_size e))
  ++ [current_player e].

Definition reset_property (i : Z) (e : MonopolyEnv) : MonopolyEnv :=
  put_houses i 0 (put_owner i (-1) e).

Definition reset_player (i : Z) (e : MonopolyEnv) : MonopolyEnv :=
  put_jail_counter i 0
    (put_in_jail i false
       (put_money i (start_money e)
          (put_position i 0 e))).

(** [reset_monopoly_env]: the environment after the reset and the initial
    observation. *)
Definition reset_monopoly_env (e : MonopolyEnv) : MonopolyEnv * list Z :=
  let e1 := for_range 0 (board_size e) reset_property e in
  let e2 := for_range 0 (num_players e1) reset_player e1 in
  let e3 := set_last_log zero_log
              (set_done false (set_steps_taken 0 (set_current_player 0 e2))) in
  (e3, get_observation e3).

Definition next_player (e : MonopolyEnv) : MonopolyEnv :=
  set_current_player (Z.rem (current_player e + 1) (num_players e)) e.

Definition count_owned (e : MonopolyEnv) (player : Z) : Z :=
  for_range 0 (board_size e)
    (fun i n => if owner (prop_at e i) =? player then n + 1 else n) 0.

Definition create_log_entry (e : MonopolyEnv)
    (player pos_before dice landed_on pos_after money_before money_after : Z)
    (rew fee_paid action_taken : Z) (card : string) : LogEntry :=
  {| log_step := steps_taken e;
     log_player := player;
     log_position_before := pos_before;
     log_dice_roll := dice;
     log_landed_on_position := landed_on;
     log_position_after := pos_after;
     log_money_before := money_before;
     log_money_after := money_after;
     log_reward := rew;
     log_done := done e;
     log_in_jail := jailed e player;
     log_fee_paid := fee_paid;
     log_agent_action := action_taken;
     log_num_owned_properties := count_owned e player;
     log_card_drawn := card;
     log_episode_id := 0 |}.

(** ** One step of the environment

    The local variables of [step_monopoly_env] that live across its
    sections, together with the environment and the position on the tape. *)

Record Turn := mkTurn {
  t_env : MonopolyEnv;
  t_cursor : nat;
  current_step_reward : Z;
  card_reward_contribution : Z;
  fee_paid_this_turn : Z;
  card_name_drawn : string;
  card_drawn : bool;
  dice_total : Z;
  landed_position_this_turn : Z;
  pos : Z
}.

Definition with_env (e : MonopolyEnv) (t : Turn) : Turn :=
  mkTurn e (t_cursor t) (current_step_reward t) (card_reward_contribution t)
         (fee_paid_this_turn t) (card_name_drawn t) (card_drawn t)
         (dice_total t) (landed_position_this_turn t) (pos t).

(** [(rand() % 6) + 1] *)
Definition roll_die (tape : Tape) (c : nat) : Z * nat :=
  let '(r, c') := rand tape c in (Z.rem r 6 + 1, c').

(** The loop that clears every square owned by [p]. *)
Definition forfeit_square (p i : Z) (e : MonopolyEnv) : MonopolyEnv :=
  if owner (prop_at e i) =? p
  then put_houses i 0 (put_owner i (-1) e)
  else e.

Definition forfeit_all (p : Z) (e : MonopolyEnv) : MonopolyEnv :=
  for_range 0 (board_size e) (forfeit_square p) e.

Definition Outcome : Type := StepResult * list Z * MonopolyEnv * nat.

(** The turn of a player who stays in jail: the early [return] of the jail
    section.  [crc] and [fee] are [card_reward_contribution] and
    [fee_paid_this_turn] at that point. *)
Definition jail_stay (e : MonopolyEnv) (c : nat)
    (p prev_position money_before_turn action crc fee : Z) : Outcome :=
  let e1 := set_steps_taken (steps_taken e + 1) e in
  let rew0 := crc in
  let '(e2, rew) :=
    if (money_of e1 p <? 0) && negb (done e1) then
      let '(e', crc') :=
        if money_of e1 p <? 0
        then (forfeit_all p (set_done true e1), crc - 1000)
        else (e1, crc) in
      (e', rew0 + crc')
    else (e1, rew0) in
  let log := create_log_entry e2 p prev_position 0 prev_position (pos_of e2 p)
               money_before_turn (money_of e2 p) rew fee action "" in
  let e3 := set_last_log log e2 in
  (mkResult rew (done e2) log, get_observation e3, next_player e3, c).

(** The jail section: either the turn ends there ([inl]) or the player goes
    on to the normal roll ([inr]). *)
Definition jail_phase (tape : Tape) (e : MonopolyEnv) (c : nat) (action : Z)
  : Outcome + Turn :=
  let p := current_player e in
  let money_before_turn := money_of e p in
  let prev_position := pos_of e p in
  let start e' c' crc fee :=
    mkTurn e' c' 0 crc fee "" false 0 prev_position prev_position in
  if jailed e p then
    let e1 := put_jail_counter p (jail_counter e p + 1) e in
    let '(dice1, c1) := roll_die tape c in
    let '(dice2, c2) := roll_die tape c1 in
    let rolled_doubles := dice1 =? dice2 in
    let turn_limit_reached := jail_counter e1 p >=? jail_turns e1 in
    if rolled_doubles then
      inr (start (put_jail_counter p 0 (put_in_jail p false e1)) c2 0 0)
    else if turn_limit_reached then
      let jail_fee := 50 in
      let e2 := put_jail_counter p 0 (put_in_jail p false e1) in
      inr (start (add_money p (- jail_fee) e2) c2 (- jail_fee) jail_fee)
    else
      inl (jail_stay e1 c2 p prev_position money_before_turn action 0 0)
  else inr (start e c 0 0).

(** Dice roll, movement and the pass-GO credit. *)
Definition move_phase (tape : Tape) (p prev_position : Z) (t : Turn) : Turn :=
  let e := t_env t in
  let '(dice1, c1) := roll_die tape (t_cursor t) in
  let '(dice2, c2) := roll_die tape c1 in
  let total := dice1 + dice2 in
  let landed := Z.rem (prev_position + total) (board_size e) in
  let passed_go := (landed <? prev_position) && negb (jailed e p) in
  let '(e1, csr) :=
    if passed_go && negb (prev_position =? jail_position e)
    then (add_money p (go_reward e) e, current_step_reward t + go_reward e)
    else (e, current_step_reward t) in
  let e2 := put_position p landed e1 in
  mkTurn e2 c2 csr (card_reward_contribution t) (fee_paid_this_turn t)
         (card_name_drawn t) (card_drawn t) total landed (pos_of e2 p).

Definition no_card : Card := mkCard "" card_tax_refund.

(** [deck[rand() % deck_size]] *)
Definition draw_card (tape : Tape) (c : nat) (deck : list Card) : Card * nat :=
  let '(r, c') := rand tape c in
  (rd no_card deck (Z.rem r (Z.of_nat (length deck))), c').

Definition apply_card (p : Z) (drawn : Card) (c' : nat) (t : Turn) : Turn :=
  let '(e1, card_reward) := run_effect (effect drawn) (t_env t) p in
  mkTurn e1 c' (current_step_reward t)
         (card_reward_contribution t + card_reward) (fee_paid_this_turn t)
         (card_name drawn) true
         (dice_total t) (landed_position_this_turn t) (pos_of e1 p).

(** Card handling on the square reached by the roll. *)
Definition card_phase (tape : Tape) (p : Z) (t : Turn) : Turn :=
  if is_chance_position (pos t) then
    let '(drawn, c') := draw_card tape (t_cursor t) (chance_deck (t_env t)) in
    apply_card p drawn c' t
  else if is_chest_position (pos t) then
    let '(drawn, c') := draw_card tape (t_cursor t) (chest_deck (t_env t)) in
    apply_card p drawn c' t
  else t.

(** The rent due on a square with base rent [prop_rent] and [prop_houses]
    houses: the [switch] of the rent branch. *)
Definition rent_due (prop_rent prop_houses : Z) : Z :=
  if prop_houses >? 0 then
    if prop_houses =? 1 then prop_rent * 5
    else if prop_houses =? 2 then prop_rent * 15
    else if prop_houses =? 3 then prop_rent * 45
    else if prop_houses =? 4 then prop_rent * 80
    else if prop_houses =? 5 then prop_rent * 125
    else prop_rent * (prop_houses + 1)
  else prop_rent.

(** The amount handed over: [(money < rent_due) ? money : rent_due]. *)
Definition rent_payment (cash due : Z) : Z :=
  if cash <? due then cash else due.

(** Square actions at the position reached after a possible card move. *)
Definition square_phase (p action : Z) (t : Turn) : Turn :=
  let e := t_env t in
  let ps := pos t in
  let current_property := prop_at e ps in
  let prop_price := price current_property in
  let prop_rent := rent current_property in
  let prop_owner := owner current_property in
  let prop_houses := houses current_property in
  if ps =? go_to_jail_position e then
    if negb (card_drawn t) || negb (String.eqb (card_name_drawn t) "Go to Jail") then
      let '(e1, jail_reward) := go_to_jail e p in
      mkTurn e1 (t_cursor t) (current_step_reward t)
             (card_reward_contribution t + jail_reward) (fee_paid_this_turn t)
             (card_name_drawn t) (card_drawn t)
             (dice_total t) (landed_position_this_turn t) (pos_of e1 p)
    else t
  else if get_fee_for_position ps >? 0 then
    let fee := get_fee_for_position ps in
    mkTurn (add_money p (- fee) e) (t_cursor t) (current_step_reward t)
           (card_reward_contribution t - fee) (fee_paid_this_turn t + fee)
           (card_name_drawn t) (card_drawn t)
           (dice_total t) (landed_position_this_turn t) ps
  else if prop_price >? 0 then
    if prop_owner =? -1 then
      let can_afford := money_of e p >=? prop_price in
      if can_afford then
        if action =? 1 then
          let e1 := add_money p (- prop_price) e in
          let e2 := put_owner ps p e1 in
          let e3 := put_houses ps 0 e2 in
          mkTurn e3 (t_cursor t) (current_step_reward t + 100)
                 (card_reward_contribution t) (fee_paid_this_turn t)
                 (card_name_drawn t) (card_drawn t)
                 (dice_total t) (landed_position_this_turn t) ps
        else t
      else t
    else if negb (prop_owner =? p) then
      let due := rent_due prop_rent prop_houses in
      let payment := rent_payment (money_of e p) due in
      let e1 := add_money p (- payment) e in
      let e2 :=
        if (prop_owner >=? 0) && (prop_owner <? num_players e1)
        then add_money prop_owner payment e1
        else e1 in
      mkTurn e2 (t_cursor t) (current_step_reward t)
             (card_reward_contribution t - payment) (fee_paid_this_turn t + payment)
             (card_name_drawn t) (card_drawn t)
             (dice_total t) (landed_position_this_turn t) ps
    else
      let can_buy_houses :=
        (house_cost (prop_at e ps) >? 0) && (money_of e p >=? house_cost (prop_at e ps)) in
      let current_houses := houses (prop_at e ps) in
      let max_houses := 5 in
      if can_buy_houses && (current_houses <? max_houses) then
        let affordable_houses := Z.quot (money_of e p) (house_cost (prop_at e ps)) in
        let max_new_houses := max_houses - current_houses in
        let houses_can_buy :=
          if affordable_houses <? max_new_houses then affordable_houses
          else max_new_houses in
        if (action =? 1) && (houses_can_buy >? 0) then
          let houses_to_buy := 1 in
          let cost := house_cost (prop_at e ps) in
          let e1 := put_houses ps (houses (prop_at e ps) + houses_to_buy) e in
          let e2 := add_money p (- (cost * houses_to_buy)) e1 in
          with_env e2 t
        else t
      else t
  else t.

(** Phase 1 of the bankruptcy check: one iteration of the loop that sells
    houses.  The loop state is the environment and [bankruptcy_resolved];
    the second component of the result tells whether the loop is left. *)
Definition sell_houses_body (p i : Z) (s : MonopolyEnv * bool)
  : (MonopolyEnv * bool) * bool :=
  let '(e, resolved) := s in
  if (owner (prop_at e i) =? p) && (houses (prop_at e i) >? 0) then
    let cost := house_cost (prop_at e i) in
    if cost >? 0 then
      let num_houses_to_sell := houses (prop_at e i) in
      let sell_value_per_house := Z.quot cost 2 in
      let money_from_houses := num_houses_to_sell * sell_value_per_house in
      let e1 := add_money p money_from_houses e in
      let e2 := put_houses i 0 e1 in
      if money_of e2 p >=? 0 then ((e2, true), true)
      else ((e2, resolved), false)
    else (s, false)
  else (s, false).

(** Phase 2: one iteration of the loop that sells properties. *)
Definition sell_properties_body (p i : Z) (s : MonopolyEnv * bool)
  : (MonopolyEnv * bool) * bool :=
  let '(e, resolved) := s in
  if owner (prop_at e i) =? p then
    if (houses (prop_at e i) =? 0) && (price (prop_at e i) >? 0) then
      let sell_price := Z.quot (price (prop_at e i)) 2 in
      let e1 := add_money p sell_price e in
      let e2 := put_owner i (-1) e1 in
      if money_of e2 p >=? 0 then ((e2, true), true)
      else ((e2, resolved), resolved)
    else (s, resolved)
  else (s, resolved).

Definition sell_houses (p : Z) (e : MonopolyEnv) : MonopolyEnv * bool :=
  for_range_break 0 (board_size e) (sell_houses_body p) (e, false).

Definition sell_properties (p : Z) (s : MonopolyEnv * bool) : MonopolyEnv * bool :=
  if negb (snd s) && (money_of (fst s) p <? 0)
  then for_range_break 0 (board_size (fst s)) (sell_properties_body p) s
  else s.

(** The two liquidation phases. *)
Definition liquidate (p : Z) (e : MonopolyEnv) : MonopolyEnv * bool :=
  sell_properties p (sell_houses p e).

(** The bankruptcy check that follows the square actions. *)
Definition bankruptcy_phase (p : Z) (t : Turn) : Turn :=
  let e := t_env t in
  if (money_of e p <? 0) && negb (done e) then
    let '(e1, bankruptcy_resolved) := liquidate p e in
    if negb bankruptcy_resolved && (money_of e1 p <? 0) then
      let e2 := set_done true e1 in
      mkTurn (forfeit_all p e2) (t_cursor t) (current_step_reward t)
             (card_reward_contribution t - 1000) (fee_paid_this_turn t)
             (card_name_drawn t) (card_drawn t)
             (dice_total t) (landed_position_this_turn t) (pos t)
    else with_env e1 t
  else t.

(** The end of the step: counters, result, log, observation, next player. *)
Definition finalize (p prev_position money_before_turn action : Z) (t : Turn)
  : Outcome :=
  let e1 := set_steps_taken (steps_taken (t_env t) + 1) (t_env t) in
  let rew := current_step_reward t + card_reward_contribution t in
  let log := create_log_entry e1 p prev_position (dice_total t)
               (landed_position_this_turn t) (pos_of e1 p)
               money_before_turn (money_of e1 p) rew (fee_paid_this_turn t)
               action (card_name_drawn t) in
  let e2 := set_last_log log e1 in
  let obs := get_observation e2 in
  let e3 := if negb (done e2) then next_player e2 else e2 in
  (mkResult rew (done e2) log, obs, e3, t_cursor t).

Definition with_log_step (v : Z) (l : LogEntry) : LogEntry :=
  mkLog v (log_player l) (log_position_before l) (log_dice_roll l)
        (log_landed_on_position l) (log_position_after l) (log_money_before l)
        (log_money_after l) (log_reward l) (log_done l) (log_in_jail l)
        (log_fee_paid l) (log_agent_action l) (log_num_owned_properties l)
        (log_card_drawn l) (log_episode_id l).

(** The turn of the current player from the normal roll to the bankruptcy
    check, for a turn [t] that left the jail section. *)
Definition play_turn (tape : Tape) (p prev_position action : Z) (t : Turn) : Turn :=
  bankruptcy_phase p
    (square_phase p action
       (card_phase tape p
          (move_phase tape p prev_position t))).

(** [step_monopoly_env]: the result, the observation written to [obs], the
    environment after the step and the position on the tape. *)
Definition step_monopoly_env (tape : Tape) (e : MonopolyEnv) (c : nat) (action : Z)
  : Outcome :=
  if done e then
    (mkResult 0 (done e) (with_log_step (steps_taken e) (last_log e)),
     get_observation e, e, c)
  else
    let p := current_player e in
    let money_before_turn := money_of e p in
    let prev_position := pos_of e p in
    match jail_phase tape e c action with
    | inl out => out
    | inr t => finalize p prev_position money_before_turn action
                 (play_turn tape p prev_position action t)
    end.

Definition out_result (o : Outcome) : StepResult := fst (fst (fst o)).
Definition out_obs (o : Outcome) : list Z := snd (fst (fst o)).
Definition out_env (o : Outcome) : MonopolyEnv := snd (fst o).
Definition out_cursor (o : Outcome) : nat := snd o.

(** ** Agent data structures *)

Record StateTuple := mkState {
  position : Z;
  money_bin : Z;
  current_prop_owner : Z;
  st_in_jail : Z
}.

(** ** The type [double]

    IEEE 754 binary64 numbers, with the addition and the division of the
    format (rounding to nearest, ties to even), the conversion from [int] and
    the rational number a finite [double] denotes (an infinity or a NaN reads
    as 0). *)
Definition double : Type := SpecFloat.spec_float.

Definition double_zero : double := SpecFloat.S754_zero false.

Definition double_of_int (z : Z) : double :=
  SpecFloat.binary_normalize 53 1024 z 0 false.

Definition double_add (x y : double) : double := SpecFloat.SFadd 53 1024 x y.

Definition double_div (x y : double) : double := SpecFloat.SFdiv 53 1024 x y.

Definition double_value (x : double) : Q :=
  match x with
  | SpecFloat.S754_finite s m e =>
      ((if s then -1 else 1) * inject_Z (Z.pos m) * Qpower 2 e)%Q
  | _ => 0%Q
  end.

Record QValueData := mkQValue {
  sum_returns : double;
  count : Z;
  q_value : double
}.

(** An entry of the value table; the chain it sits in is a list, head first. *)
Record QTableEntry := mkEntry {
  key : StateTuple;
  values : list QValueData
}.

Record QHashTable := mkQTable {
  table : list (list QTableEntry);
  size : Z;
  q_count : Z
}.

Record VisitedKey := mkVisited {
  vk_state : StateTuple;
  vk_action : Z
}.

Record VisitedSet := mkVisitedSet {
  vs_table : list (list VisitedKey);
  vs_size : Z;
  vs_count : Z
}.

Record EpisodeStep := mkStep {
  es_state : StateTuple;
  es_action : Z;
  es_reward : Z
}.

Record MonteCarloAgent := mkAgent {
  epsilon : Q;
  agent_num_players : Z;
  q_table : QHashTable
}.

(** ** Hash tables *)

(** Conversion of an [int] to [unsigned int]. *)
Definition u32 (x : Z) : Z := x mod 2 ^ 32.

(** One round [hash = (hash * 31 + x) % table_size] in [unsigned int]. *)
Definition hash_round (hash x table_size : Z) : Z :=
  u32 (u32 (hash * 31) + u32 x) mod u32 table_size.

Definition hash_state_tuple (s : StateTuple) (table_size : Z) : Z :=
  let hash := 17 in
  let hash := hash_round hash (position s) table_size in
  let hash := hash_round hash (money_bin s) table_size in
  let hash := hash_round hash (current_prop_owner s + 10) table_size in
  let hash := hash_round hash (st_in_jail s) table_size in
  hash.

Definition compare_state_tuples (s1 s2 : StateTuple) : bool :=
  (position s1 =? position s2) &&
  (money_bin s1 =? money_bin s2) &&
  (current_prop_owner s1 =? current_prop_owner s2) &&
  (st_in_jail s1 =? st_in_jail s2).

(** [calloc(size, ...)]: every chain empty. *)
Definition create_q_hash_table (sz : Z) : QHashTable :=
  mkQTable (replicate (Z.to_nat sz) []) sz 0.

(** The search of a chain: the place of the first entry with the key. *)
Fixpoint find_in_chain (chain : list QTableEntry) (k : StateTuple) (n : nat)
  : option nat :=
  match chain with
  | [] => None
  | en :: rest =>
      if compare_state_tuples (key en) k then Some n
      else find_in_chain rest k (S n)
  end.

Definition zero_value : QValueData := mkQValue double_zero 0 double_zero.

Definition no_entry : QTableEntry := mkEntry (mkState 0 0 0 0) [].

(** The entry pointer returned by [find_or_create_q_entry] is the place of
    the entry: the index of its chain and its rank in the chain. *)
Definition EntryRef : Type := Z * nat.

(** [find_or_create_q_entry]: the table after the call and the entry found
    or created.  When the key has no entry and the allocation of a new one
    fails ([malloc_ok] is false) the table is left as it is and the null
    pointer is returned. *)
Definition find_or_create_q_entry (malloc_ok : bool) (ht : QHashTable) (k : StateTuple)
  : QHashTable * option EntryRef :=
  let index := hash_state_tuple k (size ht) in
  let chain := rd [] (table ht) index in
  match find_in_chain chain k 0 with
  | Some n => (ht, Some (index, n))
  | None =>
      if negb malloc_ok then (ht, None)
      else
        let new_entry := mkEntry k [zero_value; zero_value] in
        (mkQTable (wr (table ht) index (new_entry :: chain)) (size ht)
                  (q_count ht + 1),
         Some (index, O))
  end.

Definition entry_at (ht : QHashTable) (r : EntryRef) : QTableEntry :=
  default no_entry (rd [] (table ht) (fst r) !! snd r).

Definition put_entry (ht : QHashTable) (r : EntryRef) (en : QTableEntry) : QHashTable :=
  mkQTable (wr (table ht) (fst r) (<[snd r := en]> (rd [] (table ht) (fst r))))
           (size ht) (q_count ht).

Definition hash_visited_key (k : VisitedKey) (table_size : Z) : Z :=
  let state_hash := hash_state_tuple (vk_state k) table_size in
  hash_round state_hash (vk_action k) table_size.

Definition compare_visited_keys (k1 k2 : VisitedKey) : bool :=
  (vk_action k1 =? vk_action k2) && compare_state_tuples (vk_state k1) (vk_state k2).

Definition create_visited_set (sz : Z) : VisitedSet :=
  mkVisitedSet (replicate (Z.to_nat sz) []) sz 0.

(** [check_and_add_visited]: the set after the call and whether the key was
    already there.  When the key is new and the allocation of its node fails
    ([malloc_ok] is false) the set is left as it is and the answer is still
    false. *)
Definition check_and_add_visited (malloc_ok : bool) (vs : VisitedSet) (k : VisitedKey)
  : VisitedSet * bool :=
  let index := hash_visited_key k (vs_size vs) in
  let chain := rd [] (vs_table vs) index in
  if existsb (fun k' => compare_visited_keys k' k) chain then (vs, true)
  else if negb malloc_ok then (vs, false)
  else (mkVisitedSet (wr (vs_table vs) index (k :: chain)) (vs_size vs) (vs_count vs + 1),
        false).

(** ** The agent *)

Section Agent.
(** [RAND_MAX] of the C library the program is built with. *)
Variable RAND_MAX : Z.

(** Whether the square under the current player can be bought. *)
Definition is_buyable (e : MonopolyEnv) : bool :=
  let p := current_player e in
  let ps := pos_of e p in
  if negb (jailed e p) && (ps >=? 0) && (ps <? board_size e) then
    (price (prop_at e ps) >? 0) && (owner (prop_at e ps) =? -1)
    && (money_of e p >=? price (prop_at e ps))
  else false.

(** [rand() % 2] *)
Definition coin (tape : Tape) (c : nat) : Z * nat :=
  let '(r, c') := rand tape c in (Z.rem r 2, c').

(** The epsilon-greedy rule over the two stored action values: the action,
    the value table (the lookup may create the entry) and the tape.
    [malloc_ok] tells whether the lookup can allocate a new entry; when it
    returns the null pointer the action is drawn at random. *)
Definition epsilon_greedy (malloc_ok : bool) (agent : MonteCarloAgent)
    (state_tuple : StateTuple) (tape : Tape) (c : nat) : Z * MonteCarloAgent * nat :=
  let '(r, c1) := rand tape c in
  if Qlt_le_dec (inject_Z r / inject_Z RAND_MAX) (epsilon agent) then
    let '(a, c2) := coin tape c1 in (a, agent, c2)
  else
    let '(ht, entry) := find_or_create_q_entry malloc_ok (q_table agent) state_tuple in
    let agent' := mkAgent (epsilon agent) (agent_num_players agent) ht in
    match entry with
    | None => let '(a, c2) := coin tape c1 in (a, agent', c2)
    | Some ref =>
        let q_val_0 :=
          double_value (q_value (rd zero_value (values (entry_at ht ref)) 0)) in
        let q_val_1 :=
          double_value (q_value (rd zero_value (values (entry_at ht ref)) 1)) in
        if Qlt_le_dec (Qabs (q_val_0 - q_val_1)) (1 # 1000000000) then
          let '(a, c2) := coin tape c1 in (a, agent', c2)
        else if Qlt_le_dec q_val_0 q_val_1 then (1, agent', c1)
        else (0, agent', c1)
    end.

Definition select_action_mc (malloc_ok : bool) (agent : MonteCarloAgent)
    (state_tuple : StateTuple) (e : MonopolyEnv) (tape : Tape) (c : nat)
  : Z * MonteCarloAgent * nat :=
  if negb (is_buyable e) then (0, agent, c)
  else epsilon_greedy malloc_ok agent state_tuple tape c.
End Agent.

(** [_get_state_tuple_c]: the key of the value table read off an
    observation. *)
Definition get_state_tuple (obs : list Z) (n bsize : Z) : StateTuple :=
  let current_player_idx := rd 0 obs (n * 3 + bsize) in
  let player_pos := rd 0 obs current_player_idx in
  let player_money := rd 0 obs (n + current_player_idx) in
  let player_in_jail := rd 0 obs (2 * n + current_player_idx) in
  let owners_start_idx := 3 * n in
  let prop_owner :=
    if (player_pos >=? 0) && (player_pos <? bsize)
    then rd 0 obs (owners_start_idx + player_pos)
    else -1 in
  mkState player_pos (Z.quot player_money 100) prop_owner player_in_jail.

(** ** The first-visit update *)

(** [for (i = n - 1; i >= 0; --i) body] *)
Fixpoint down_loop {S : Type} (n : nat) (body : Z -> S -> S) (s : S) : S :=
  match n with
  | O => s
  | S k => down_loop k body (body (Z.of_nat k) s)
  end.

Definition no_step : EpisodeStep := mkStep (mkState 0 0 0 0) 0 0.

(** [entry->values[action]] gets one more return [G]. *)
Definition record_return (ht : QHashTable) (r : EntryRef) (action : Z) (G : double)
  : QHashTable :=
  let en := entry_at ht r in
  let v := rd zero_value (values en) action in
  let sum' := double_add (sum_returns v) G in
  let count' := count v + 1 in
  let v' := mkQValue sum' count' (double_div sum' (double_of_int count')) in
  put_entry ht r (mkEntry (key en) (wr (values en) action v')).

(** The allocations of one call of [update_mc]: whether the visited set can
    be created and, for the step of an index, whether the node of the
    visited set and the entry of the value table can be allocated. *)
Record UpdateAlloc := mkAlloc {
  set_ok : bool;
  node_ok : Z -> bool;
  entry_ok : Z -> bool
}.

(** The state of the loop of [update_mc]: the value table, the visited set
    and the return [G].  A step whose entry cannot be allocated is skipped. *)
Definition update_body (al : UpdateAlloc) (steps : list EpisodeStep) (i : Z)
    (s : QHashTable * VisitedSet * double) : QHashTable * VisitedSet * double :=
  let '(ht, visited, G) := s in
  let state_tuple := es_state (rd no_step steps i) in
  let action := es_action (rd no_step steps i) in
  let G := double_add G (double_of_int (es_reward (rd no_step steps i))) in
  let '(visited', seen) :=
    check_and_add_visited (node_ok al i) visited (mkVisited state_tuple action) in
  if negb seen then
    let '(ht1, entry) := find_or_create_q_entry (entry_ok al i) ht state_tuple in
    match entry with
    | None => (ht1, visited', G)
    | Some ref => (record_return ht1 ref action G, visited', G)
    end
  else (ht, visited', G).

(** [update_mc] on the history [steps] ([history->count] is its length).
    When the visited set cannot be created the update is skipped. *)
Definition update_mc (al : UpdateAlloc) (agent : MonteCarloAgent)
    (steps : list EpisodeStep) : MonteCarloAgent :=
  if negb (set_ok al) then agent
  else
    let visited_state_actions := create_visited_set VISITED_SET_INITIAL_SIZE in
    let '(ht, _, _) :=
      down_loop (length steps) (update_body al steps)
                (q_table agent, visited_state_actions, double_zero) in
    mkAgent (epsilon agent) (agent_num_players agent) ht.

Definition create_monte_carlo_agent (n : Z) (eps : Q) : MonteCarloAgent :=
  mkAgent eps n (create_q_hash_table Q_TABLE_INITIAL_SIZE).

(** ** The episode simulator of the parallel version

    One thread of [simulate_episodes_kernel] plays one episode on its own
    [CUDAEnvState]. *)

Record CUDAEnvState := mkCuda {
  k_positions : list Z;
  k_money : list Z;
  k_in_jail : list Z;
  k_jail_counters : list Z;
  k_property_owners : list Z;
  k_property_houses : list Z;
  k_current_player : Z;
  k_steps_taken : Z;
  k_done : bool;
  k_cursor : nat        (* the thread's random state *)
}.

Record CUDAEpisodeData := mkEpisode {
  ep_steps : list EpisodeStep;
  ep_logs : list LogEntry;
  ep_episode_id : Z
}.

(** The arguments of the kernel. *)
Record KernelArgs := mkArgs {
  a_num_players : Z;
  a_start_money : Z;
  a_go_reward : Z;
  a_board_size : Z;
  a_jail_position : Z;
  a_go_to_jail_position : Z;
  a_jail_turns : Z;
  a_property_prices : list Z;
  a_property_rents : list Z;
  a_property_house_costs : list Z;
  a_epsilon : Q
}.

Definition k_set_money (v : list Z) (s : CUDAEnvState) : CUDAEnvState :=
  mkCuda (k_positions s) v (k_in_jail s) (k_jail_counters s)
         (k_property_owners s) (k_property_houses s)
         (k_current_player s) (k_steps_taken s) (k_done s) (k_cursor s).

Definition k_set_positions (v : list Z) (s : CUDAEnvState) : CUDAEnvState :=
  mkCuda v (k_money s) (k_in_jail s) (k_jail_counters s)
         (k_property_owners s) (k_property_houses s)
         (k_current_player s) (k_steps_taken s) (k_done s) (k_cursor s).

Definition k_set_in_jail (v : list Z) (s : CUDAEnvState) : CUDAEnvState :=
  mkCuda (k_positions s) (k_money s) v (k_jail_counters s)
         (k_property_owners s) (k_property_houses s)
         (k_current_player s) (k_steps_taken s) (k_done s) (k_cursor s).

Definition k_set_jail_counters (v : list Z) (s : CUDAEnvState) : CUDAEnvState :=
  mkCuda (k_positions s) (k_money s) (k_in_jail s) v
         (k_property_owners s) (k_property_houses s)
         (k_current_player s) (k_steps_taken s) (k_done s) (k_cursor s).

Definition k_set_owners (v : list Z) (s : CUDAEnvState) : CUDAEnvState :=
  mkCuda (k_positions s) (k_money s) (k_in_jail s) (k_jail_counters s)
         v (k_property_houses s)
         (k_current_player s) (k_steps_taken s) (k_done s) (k_cursor s).

Definition k_set_done (v : bool) (s : CUDAEnvState) : CUDAEnvState :=
  mkCuda (k_positions s) (k_money s) (k_in_jail s) (k_jail_counters s)
         (k_property_owners s) (k_property_houses s)
         (k_current_player s) (k_steps_taken s) v (k_cursor s).

Definition k_set_cursor (v : nat) (s : CUDAEnvState) : CUDAEnvState :=
  mkCuda (k_positions s) (k_money s) (k_in_jail s) (k_jail_counters s)
         (k_property_owners s) (k_property_houses s)
         (k_current_player s) (k_steps_taken s) (k_done s) v.

Definition k_money_of (s : CUDAEnvState) (p : Z) : Z := rd 0 (k_money s) p.

Definition k_add_money (p amount : Z) (s : CUDAEnvState) : CUDAEnvState :=
  k_set_money (wr (k_money s) p (k_money_of s p + amount)) s.

Definition k_go_to_jail (p jail : Z) (s : CUDAEnvState) : CUDAEnvState :=
  k_set_jail_counters (wr (k_jail_counters s) p 0)
    (k_set_in_jail (wr (k_in_jail s) p 1)
       (k_set_positions (wr (k_positions s) p jail) s)).

Definition k_advance_to_go (p go : Z) (s : CUDAEnvState) : CUDAEnvState :=
  k_add_money p go (k_set_positions (wr (k_positions s) p 0) s).

Section Kernel.
(** [RAND_MAX], and the value [curand_uniform] makes of a raw draw. *)
Variable RAND_MAX : Z.
Variable curand_uniform : N -> Q.

(** [curand(state) % RAND_MAX] *)
Definition cuda_rand (tape : Tape) (s : CUDAEnvState) : Z * CUDAEnvState :=
  (Z.rem (Z.of_N (tape (k_cursor s))) RAND_MAX, k_set_cursor (S (k_cursor s)) s).

Definition cuda_rand_float (tape : Tape) (s : CUDAEnvState) : Q * CUDAEnvState :=
  (curand_uniform (tape (k_cursor s)), k_set_cursor (S (k_cursor s)) s).

(** The state of a thread after the initialisation that precedes the
    episode loop. *)
Definition kernel_init (a : KernelArgs) (c : nat) : CUDAEnvState :=
  let zeros n := replicate (Z.to_nat n) 0 in
  let s0 := mkCuda (zeros MAX_PLAYERS) (zeros MAX_PLAYERS) (zeros MAX_PLAYERS)
                   (zeros MAX_PLAYERS) (zeros BOARD_SIZE) (zeros BOARD_SIZE)
                   0 0 false c in
  let s1 := for_range 0 (a_num_players a)
              (fun i s =>
                 k_set_jail_counters (wr (k_jail_counters s) i 0)
                   (k_set_in_jail (wr (k_in_jail s) i 0)
                      (k_set_money (wr (k_money s) i (a_start_money a))
                         (k_set_positions (wr (k_positions s) i 0) s)))) s0 in
  for_range 0 (a_board_size a)
    (fun i s =>
       mkCuda (k_positions s) (k_money s) (k_in_jail s) (k_jail_counters s)
              (wr (k_property_owners s) i (-1)) (wr (k_property_houses s) i 0)
              (k_current_player s) (k_steps_taken s) (k_done s) (k_cursor s)) s1.

(** Dice roll and movement of player [p]. *)
Definition kernel_move (a : KernelArgs) (tape : Tape) (p : Z) (s : CUDAEnvState)
  : CUDAEnvState * Z * Z :=
  let prev_position := rd 0 (k_positions s) p in
  let '(r1, s1) := cuda_rand tape s in
  let dice1 := Z.rem r1 6 + 1 in
  let '(r2, s2) := cuda_rand tape s1 in
  let dice2 := Z.rem r2 6 + 1 in
  let total := dice1 + dice2 in
  let new_position := Z.rem (prev_position + total) (a_board_size a) in
  let s3 :=
    if (new_position <? prev_position) && (rd 0 (k_in_jail s2) p =? 0)
    then k_add_money p (a_go_reward a) s2 else s2 in
  (k_set_positions (wr (k_positions s3) p new_position) s3, total, new_position).

(** The purchase or the rent on the square reached: the state, the action
    taken and the fee written to the log. *)
Definition kernel_square (a : KernelArgs) (tape : Tape) (p new_position : Z)
    (s : CUDAEnvState) : CUDAEnvState * Z * Z :=
  let prop_owner := rd 0 (k_property_owners s) new_position in
  let prop_price := rd 0 (a_property_prices a) new_position in
  let prop_rent := rd 0 (a_property_rents a) new_position in
  if (prop_price >? 0) && (prop_owner =? -1) && (k_money_of s p >=? prop_price) then
    let '(u, s1) := cuda_rand_float tape s in
    let '(action, s2) :=
      if Qlt_le_dec u (a_epsilon a) then
        let '(r, s') := cuda_rand tape s1 in (Z.rem r 2, s')
      else (1, s1) in
    if action =? 1 then
      let s3 := k_add_money p (- prop_price) s2 in
      (k_set_owners (wr (k_property_owners s3) new_position p) s3, action, 0)
    else (s2, action, 0)
  else if negb (prop_owner =? -1) && negb (prop_owner =? p) then
    let due := prop_rent in
    (k_add_money p (- due) s, 0, due)
  else (s, 0, 0).

(** The card drawn on a Chance or Community Chest square. *)
Definition kernel_cards (a : KernelArgs) (tape : Tape) (p new_position : Z)
    (s : CUDAEnvState) : CUDAEnvState * string :=
  if is_chance_position new_position then
    let '(r, s1) := cuda_rand tape s in
    let card_idx := Z.rem r 4 in
    let name := card_name (rd no_card initial_chance_deck card_idx) in
    if card_idx =? 0 then (k_advance_to_go p (a_go_reward a) s1, name)
    else if card_idx =? 1 then (k_go_to_jail p (a_jail_position a) s1, name)
    else if card_idx =? 2 then (k_add_money p 50 s1, name)
    else if card_idx =? 3 then (k_add_money p (-15) s1, name)
    else (s1, name)
  else if is_chest_position new_position then
    let '(r, s1) := cuda_rand tape s in
    let card_idx := Z.rem r 4 in
    let name := card_name (rd no_card initial_chest_deck card_idx) in
    if card_idx =? 0 then (k_add_money p (-50) s1, name)
    else if card_idx =? 1 then (k_add_money p 20 s1, name)
    else if card_idx =? 2 then (k_go_to_jail p (a_jail_position a) s1, name)
    else if card_idx =? 3 then (k_advance_to_go p (a_go_reward a) s1, name)
    else (s1, name)
  else (s, "").

Definition k_count_owned (a : KernelArgs) (s : CUDAEnvState) (p : Z) : Z :=
  for_range 0 (a_board_size a)
    (fun i n => if rd 0 (k_property_owners s) i =? p then n + 1 else n) 0.

(** One iteration of the episode loop. *)
Definition kernel_step (a : KernelArgs) (tape : Tape) (step_count : Z)
    (st : CUDAEnvState * CUDAEpisodeData) : CUDAEnvState * CUDAEpisodeData :=
  let '(s, ep) := st in
  let p := k_current_player s in
  let prev_money := k_money_of s p in
  let prev_position := rd 0 (k_positions s) p in
  let '(s1, total, new_position) := kernel_move a tape p s in
  let prop_owner := rd 0 (k_property_owners s1) new_position in
  let jail_at_roll := rd 0 (k_in_jail s1) p in
  let '(s2, action, fee) := kernel_square a tape p new_position s1 in
  let rew := k_money_of s2 p - prev_money in
  let '(s3, rew) :=
    if k_money_of s2 p <? 0 then (k_set_done true s2, rew - 1000) else (s2, rew) in
  let owned := k_count_owned a s3 p in
  let '(s4, card) := kernel_cards a tape p new_position s3 in
  let log :=
    {| log_step := step_count;
       log_player := p;
       log_position_before := prev_position;
       log_dice_roll := total;
       log_landed_on_position := new_position;
       log_position_after := new_position;
       log_money_before := prev_money;
       log_money_after := k_money_of s3 p;
       log_reward := rew;
       log_done := k_done s3;
       log_in_jail := negb (jail_at_roll =? 0);
       log_fee_paid := fee;
       log_agent_action := action;
       log_num_owned_properties := owned;
       log_card_drawn := card;
       log_episode_id := ep_episode_id ep |} in
  let steps' :=
    if Z.of_nat (length (ep_steps ep)) <? MAX_EPISODE_STEPS then
      ep_steps ep ++
        [mkStep (mkState prev_position (Z.quot prev_money 100) prop_owner
                         (rd 0 (k_in_jail s4) p)) action rew]
    else ep_steps ep in
  (mkCuda (k_positions s4) (k_money s4) (k_in_jail s4) (k_jail_counters s4)
          (k_property_owners s4) (k_property_houses s4)
          (Z.rem (k_current_player s4 + 1) (a_num_players a))
          (k_steps_taken s4 + 1) (k_done s4) (k_cursor s4),
   mkEpisode steps' (ep_logs ep ++ [log]) (ep_episode_id ep)).

(** [while (!done && step_count < MAX_EPISODE_STEPS)] *)
Fixpoint kernel_loop (fuel : nat) (a : KernelArgs) (tape : Tape) (step_count : Z)
    (st : CUDAEnvState * CUDAEpisodeData) : CUDAEnvState * CUDAEpisodeData :=
  match fuel with
  | O => st
  | S k =>
      if negb (k_done (fst st)) && (step_count <? MAX_EPISODE_STEPS)
      then kernel_loop k a tape (step_count + 1) (kernel_step a tape step_count st)
      else st
  end.

(** The episode played by one thread. *)
Definition simulate_episode (a : KernelArgs) (tape : Tape) (c : nat) (episode_id : Z)
  : CUDAEnvState * CUDAEpisodeData :=
  kernel_loop (Z.to_nat MAX_EPISODE_STEPS) a tape 0
              (kernel_init a c, mkEpisode [] [] episode_id).
End Kernel.

(** ** Well-formed environments *)

Definition square_ok (e : MonopolyEnv) (i : Z) : bool :=
  let pr := prop_at e i in
  (0 <=? houses pr) && (houses pr <=? 5)
  && implb (owner pr =? -1) (houses pr =? 0)
  && (-1 <=? owner pr) && (owner pr <? num_players e)
  && implb (negb (owner pr =? -1)) (price pr >? 0)
  && implb (houses pr >? 0) (house_cost pr >? 0)
  && implb (price pr >? 0)
       (negb (i =? go_to_jail_position e) && (get_fee_for_position i =? 0)).

Definition player_ok (e : MonopolyEnv) (i : Z) : bool :=
  (0 <=? pos_of e i) && (pos_of e i <? board_size e).

(** The arrays have their declared sizes, every index kept in the
    environment is inside its array, and the board obeys the rules of
    ownership: houses only on owned squares that take houses, at most five,
    and owners only on squares with a price, none of which is the Go To Jail
    square or a tax square. *)
Definition wf_env (e : MonopolyEnv) : bool :=
  (1 <=? num_players e) && (num_players e <=? MAX_PLAYERS)
  && (board_size e =? BOARD_SIZE)
  && (Z.of_nat (length (positions e)) =? MAX_PLAYERS)
  && (Z.of_nat (length (money e)) =? MAX_PLAYERS)
  && (Z.of_nat (length (in_jail e)) =? MAX_PLAYERS)
  && (Z.of_nat (length (jail_counters e)) =? MAX_PLAYERS)
  && (Z.of_nat (length (properties e)) =? BOARD_SIZE)
  && (0 <=? current_player e) && (current_player e <? num_players e)
  && (0 <=? jail_position e) && (jail_position e <? board_size e)
  && negb (Z.of_nat (length (chance_deck e)) =? 0)
  && negb (Z.of_nat (length (chest_deck e)) =? 0)
  && forallb (player_ok e) (seqZ 0 (num_players e))
  && forallb (square_ok e) (seqZ 0 (board_size e)).

(** ** The stages of a turn *)

Record Stages := mkStages {
  at_start : Turn;    (* after the jail section *)
  at_move : Turn;     (* after the roll and the pass-GO credit *)
  at_card : Turn;     (* after the card *)
  at_square : Turn;   (* after the square action *)
  at_end : Turn       (* after the bankruptcy check *)
}.

(** The stages of the step from [e], when the environment is not terminal
    and the player does not stay in jail. *)
Definition turn_stages (tape : Tape) (e : MonopolyEnv) (c : nat) (action : Z)
  : option Stages :=
  if done e then None
  else
    match jail_phase tape e c action with
    | inl _ => None
    | inr t0 =>
        let p := current_player e in
        let t1 := move_phase tape p (pos_of e p) t0 in
        let t2 := card_phase tape p t1 in
        let t3 := square_phase p action t2 in
        Some (mkStages t0 t1 t2 t3 (bankruptcy_phase p t3))
    end.

Definition cash (t : Turn) (p : Z) : Z := money_of (t_env t) p.

(** The rule of the square section that applies to player [p] on square
    [ps]. *)
Inductive SquareRule :=
  | GoToJailSquare
  | TaxSquare
  | UnownedSquare
  | OpponentSquare
  | OwnSquare
  | OtherSquare.

Definition square_rule (e : MonopolyEnv) (p ps : Z) : SquareRule :=
  if ps =? go_to_jail_position e then GoToJailSquare
  else if get_fee_for_position ps >? 0 then TaxSquare
  else if price (prop_at e ps) >? 0 then
    if owner (prop_at e ps) =? -1 then UnownedSquare
    else if negb (owner (prop_at e ps) =? p) then OpponentSquare
    else OwnSquare
  else OtherSquare.

Definition rule_of (st : Stages) (p : Z) : SquareRule :=
  square_rule (t_env (at_card st)) p (pos (at_card st)).

Definition jail_fee_delta (e : MonopolyEnv) (st : Stages) (p : Z) : Z :=
  cash (at_start st) p - money_of e p.
Definition movement_delta (st : Stages) (p : Z) : Z :=
  cash (at_move st) p - cash (at_start st) p.
Definition card_delta (st : Stages) (p : Z) : Z :=
  cash (at_card st) p - cash (at_move st) p.
Definition square_delta (st : Stages) (p : Z) : Z :=
  cash (at_square st) p - cash (at_card st) p.

Definition tax_delta (st : Stages) (p : Z) : Z :=
  match rule_of st p with TaxSquare => square_delta st p | _ => 0 end.
Definition rent_delta (st : Stages) (p : Z) : Z :=
  match rule_of st p with OpponentSquare => square_delta st p | _ => 0 end.
Definition house_purchase_delta (st : Stages) (p : Z) : Z :=
  match rule_of st p with OwnSquare => square_delta st p | _ => 0 end.
Definition property_purchase_delta (st : Stages) (p : Z) : Z :=
  match rule_of st p with UnownedSquare => square_delta st p | _ => 0 end.

(** The bankruptcy penalty of a step that ends in [e']. *)
Definition bankruptcy_penalty (e' : MonopolyEnv) : Z :=
  if done e' then -1000 else 0.

(** The reward in the words of the specification: the movement, card, tax,
    rent and house-purchase deltas, plus the bankruptcy penalty. *)
Definition spec_reward (st : Stages) (p : Z) : Z :=
  movement_delta st p + card_delta st p + tax_delta st p + rent_delta st p
  + house_purchase_delta st p + bankruptcy_penalty (t_env (at_end st)).

(** Whether the square section bought the square for [p]. *)
Definition bought_property (st : Stages) (p : Z) : bool :=
  match rule_of st p with
  | UnownedSquare =>
      owner (prop_at (t_env (at_square st)) (pos (at_card st))) =? p
  | _ => false
  end.


(** ** The resolver in the words of the specification

    Both phases walk the board in ascending order with the cash of the
    player and stop as soon as the cash is not negative. *)

Fixpoint spec_sell_houses (p cash : Z) (board : list Property) : Z * list Property :=
  match board with
  | [] => (cash, [])
  | pr :: rest =>
      if cash >=? 0 then (cash, board)
      else if (owner pr =? p) && (houses pr >? 0) then
        let '(cash', rest') :=
          spec_sell_houses p (cash + houses pr * Z.quot (house_cost pr) 2) rest in
        (cash', with_houses 0 pr :: rest')
      else
        let '(cash', rest') := spec_sell_houses p cash rest in
        (cash', pr :: rest')
  end.

Fixpoint spec_forfeit (p cash : Z) (board : list Property) : Z * list Property :=
  match board with
  | [] => (cash, [])
  | pr :: rest =>
      if cash >=? 0 then (cash, board)
      else if (owner pr =? p) && (houses pr =? 0) then
        let '(cash', rest') := spec_forfeit p (cash + Z.quot (price pr) 2) rest in
        (cash', with_owner (-1) pr :: rest')
      else
        let '(cash', rest') := spec_forfeit p cash rest in
        (cash', pr :: rest')
  end.

Definition spec_resolver (p cash : Z) (board : list Property) : Z * list Property :=
  let '(cash1, board1) := spec_sell_houses p cash board in
  spec_forfeit p cash1 board1.

(** ** Runs of the environment *)

Inductive Call :=
  | CallStep (action : Z)
  | CallReset.

(** The environment and the position on the tape after a sequence of
    calls. *)
Fixpoint run (tape : Tape) (calls : list Call) (e : MonopolyEnv) (c : nat)
  : MonopolyEnv * nat :=
  match calls with
  | [] => (e, c)
  | CallStep action :: rest =>
      run tape rest (out_env (step_monopoly_env tape e c action))
                    (out_cursor (step_monopoly_env tape e c action))
  | CallReset :: rest => run tape rest (fst (reset_monopoly_env e)) c
  end.

(** ** Reading the value table, and the returns of an episode *)

(** The entry of a key in a chain: the one the search stops at. *)
Definition chain_get (chain : list QTableEntry) (k : StateTuple)
  : option QTableEntry :=
  match find_in_chain chain k 0 with
  | Some n => chain !! n
  | None => None
  end.

(** The chain a key hashes to. *)
Definition bucket (ht : QHashTable) (k : StateTuple) : list QTableEntry :=
  rd [] (table ht) (hash_state_tuple k (size ht)).

Definition q_find (ht : QHashTable) (k : StateTuple) : option QTableEntry :=
  chain_get (bucket ht k) k.

(** The statistics stored for the pair [(k, a)]; zero when the key has no
    entry, as in a fresh entry. *)
Definition q_stat (ht : QHashTable) (k : StateTuple) (a : Z) : QValueData :=
  match q_find ht k with
  | Some en => rd zero_value (values en) a
  | None => zero_value
  end.

Definition same_pair (k : StateTuple) (a : Z) (s : EpisodeStep) : bool :=
  compare_state_tuples (es_state s) k && (es_action s =? a).

(** The undiscounted return from the first step of [steps] on, added up
    from the last step backwards, as the loop of [update_mc] adds it. *)
Fixpoint return_from (steps : list EpisodeStep) : double :=
  match steps with
  | [] => double_zero
  | s :: rest => double_add (return_from rest) (double_of_int (es_reward s))
  end.

(** The return an episode contributes for a pair: the return from the
    latest step with that pair, the one the backward scan meets first. *)
Fixpoint episode_return (steps : list EpisodeStep) (k : StateTuple) (a : Z)
  : option double :=
  match steps with
  | [] => None
  | s :: rest =>
      match episode_return rest k a with
      | Some g => Some g
      | None => if same_pair k a s then Some (return_from steps) else None
      end
  end.

(** All the returns recorded for a pair over a sequence of episodes, at most
    one for each episode. *)
Definition recorded_returns (episodes : list (list EpisodeStep))
    (k : StateTuple) (a : Z) : list double :=
  omap (fun steps => episode_return steps k a) episodes.

(** [update_mc] on a sequence of episodes, in order; [alloc] gives the
    allocations of the update of the episode of an index, [ep] is the index
    of the first episode. *)
Fixpoint train (alloc : Z -> UpdateAlloc) (ep : Z) (agent : MonteCarloAgent)
    (episodes : list (list EpisodeStep)) : MonteCarloAgent :=
  match episodes with
  | [] => agent
  | steps :: rest => train alloc (ep + 1) (update_mc (alloc ep) agent steps) rest
  end.

(** Allocations that all succeed. *)
Definition all_ok : UpdateAlloc := mkAlloc true (fun _ => true) (fun _ => true).

Definition allocated (al : UpdateAlloc) : Prop :=
  set_ok al = true /\ (forall i, node_ok al i = true) /\ (forall i, entry_ok al i = true).

(** The sum of a list of returns, added one after the other to [s]. *)
Definition double_sum (s : double) (l : list double) : double :=
  fold_left double_add l s.

Definition valid_action (s : EpisodeStep) : bool :=
  (es_action s =? 0) || (es_action s =? 1).

(** ** Sample inputs *)

(** The tape that starts with the draws [l] and goes on with zeros. *)
Definition tape_of (l : list N) : Tape := fun n => nth n l 0%N.

(** A two-player game with the parameters of [main]. *)
Definition game2 : MonopolyEnv := new_env 2 1500 200.

(** ** Well-formedness as a proposition *)

Definition SquareOk (e : MonopolyEnv) (i : Z) : Prop :=
  let pr := prop_at e i in
  0 <= houses pr <= 5
  /\ (owner pr = -1 -> houses pr = 0)
  /\ -1 <= owner pr < num_players e
  /\ (owner pr <> -1 -> 0 < price pr)
  /\ (0 < houses pr -> 0 < house_cost pr)
  /\ (0 < price pr -> i <> go_to_jail_position e /\ get_fee_for_position i = 0).

Record Wf (e : MonopolyEnv) : Prop := mkWf {
  wf_num_players : 1 <= num_players e <= MAX_PLAYERS;
  wf_board_size : board_size e = BOARD_SIZE;
  wf_len_positions : Z.of_nat (length (positions e)) = MAX_PLAYERS;
  wf_len_money : Z.of_nat (length (money e)) = MAX_PLAYERS;
  wf_len_in_jail : Z.of_nat (length (in_jail e)) = MAX_PLAYERS;
  wf_len_jail_counters : Z.of_nat (length (jail_counters e)) = MAX_PLAYERS;
  wf_len_properties : Z.of_nat (length (properties e)) = BOARD_SIZE;
  wf_current_player : 0 <= current_player e < num_players e;
  wf_jail_position : 0 <= jail_position e < board_size e;
  wf_chance_deck : Z.of_nat (length (chance_deck e)) <> 0;
  wf_chest_deck : Z.of_nat (length (chest_deck e)) <> 0;
  wf_positions : forall i, 0 <= i < num_players e -> 0 <= pos_of e i < board_size e;
  wf_squares : forall i, 0 <= i < board_size e -> SquareOk e i
}.

(** The configuration and the player to move, which only the end of a step
    changes. *)
Definition same_config (e e' : MonopolyEnv) : Prop :=
  go_reward e' = go_reward e
  /\ board_size e' = board_size e
  /\ jail_position e' = jail_position e
  /\ go_to_jail_position e' = go_to_jail_position e
  /\ jail_turns e' = jail_turns e
  /\ num_players e' = num_players e
  /\ current_player e' = current_player e
  /\ chance_deck e' = chance_deck e
  /\ chest_deck e' = chest_deck e.

(** The value of the die rolled at position [c] of the tape. *)
Definition die (tape : Tape) (c : nat) : Z := Z.rem (Z.of_N (tape c)) 6 + 1.

(** Player 0 of [game2] on square 35, and in jail on his third turn there. *)
Definition game2_at_35 : MonopolyEnv := put_position 0 35 game2.

Definition game2_in_jail : MonopolyEnv :=
  put_jail_counter 0 2 (put_in_jail 0 true (put_position 0 10 game2)).

(** What the two liquidation loops keep for player [p], from [e0] on. *)
Definition liquidation_inv (e0 : MonopolyEnv) (p : Z) (s : MonopolyEnv * bool) : Prop :=
  Wf (fst s) /\ same_config e0 (fst s) /\ done (fst s) = done e0
  /\ length (money (fst s)) = length (money e0)
  /\ (snd s = true -> 0 <= money_of (fst s) p).

(** A run of nine steps of [game2] in which player 0 buys Baltic Avenue,
    goes round the board and buys a house there. *)
Definition house_tape : Tape :=
  tape_of [0; 1; 3; 3; 5; 5; 3; 3; 5; 5; 3; 3; 5; 5; 3; 3; 1; 1]%N.

Definition house_calls : list Call :=
  [CallStep 1; CallStep 0; CallStep 0; CallStep 0; CallStep 0;
   CallStep 0; CallStep 0; CallStep 0; CallStep 1].

(** The first two steps of that run: player 0 stands on Baltic Avenue, which
    he owns, and it is his turn. *)
Definition game2_on_own_square : MonopolyEnv :=
  fst (run house_tape [CallStep 1; CallStep 0] game2 O).

(** [game2] after player 0 rolled 1 and 2 and bought Baltic Avenue; the
    tape goes on with the same roll for player 1. *)
Definition rent_tape : Tape := tape_of [0; 1; 0; 1]%N.

Definition game2_after_purchase : MonopolyEnv :=
  fst (run rent_tape [CallStep 1] game2 O).


Definition glibc_RAND_MAX : Z := 2147483647.





(** An agent that always explores, and the key of [game2_on_own_square]. *)
Definition explorer : MonteCarloAgent := create_monte_carlo_agent 2 1.

Definition own_square_key : StateTuple :=
  get_state_tuple (get_observation game2_on_own_square) 2 BOARD_SIZE.

(** The same two rolls when player 0 passes: he stands on Baltic Avenue,
    which nobody owns. *)
Definition game2_on_free_square : MonopolyEnv :=
  fst (run house_tape [CallStep 0; CallStep 0] game2 O).

Definition free_square_key : StateTuple :=
  get_state_tuple (get_observation game2_on_free_square) 2 BOARD_SIZE.

(** ** Invariants of the hash tables and of the update loop *)

(** One more return for a pair. *)
Definition bump (v : QValueData) (g : option double) : QValueData :=
  match g with
  | None => v
  | Some G =>
      mkQValue (double_add (sum_returns v) G) (count v + 1)
               (double_div (double_add (sum_returns v) G)
                           (double_of_int (count v + 1)))
  end.

(** The table has as many chains as its size says, and every entry holds
    the statistics of the two actions. *)
Definition TableOk (ht : QHashTable) : Prop :=
  size ht = Z.of_nat (length (table ht))
  /\ 0 < size ht < 2 ^ 32
  /\ forall chain en, chain ∈ table ht -> en ∈ chain -> length (values en) = 2%nat.

Definition VisitedOk (vs : VisitedSet) : Prop :=
  vs_size vs = Z.of_nat (length (vs_table vs)) /\ 0 < vs_size vs < 2 ^ 32.

(** Whether a pair is in the visited set. *)
Definition vs_mem (vs : VisitedSet) (k : VisitedKey) : bool :=
  existsb (fun k' => compare_visited_keys k' k)
          (rd [] (vs_table vs) (hash_visited_key k (vs_size vs))).

(** The state of the loop of [update_mc] once the steps [suffix] at the end
    of the episode are processed, from the table [ht0]. *)
Definition update_inv (ht0 : QHashTable) (suffix : list EpisodeStep)
    (s : QHashTable * VisitedSet * double) : Prop :=
  let '(ht, visited, G) := s in
  G = return_from suffix
  /\ TableOk ht
  /\ VisitedOk visited
  /\ (forall k a, vs_mem visited (mkVisited k a) = existsb (same_pair k a) suffix)
  /\ (forall k a, a = 0 \/ a = 1 ->
        q_stat ht k a = bump (q_stat ht0 k a) (episode_return suffix k a)).

(** ** Checks of the hash tables *)

(** The boolean form of [TableOk]. *)
Definition table_ok (ht : QHashTable) : bool :=
  (size ht =? Z.of_nat (length (table ht)))
  && (0 <? size ht) && (size ht <? 2 ^ 32)
  && forallb (forallb (fun en => Nat.eqb (length (values en)) 2)) (table ht).

(** The boolean form of [VisitedOk]. *)
Definition visited_ok (vs : VisitedSet) : bool :=
  (vs_size vs =? Z.of_nat (length (vs_table vs)))
  && (0 <? vs_size vs) && (vs_size vs <? 2 ^ 32).

(** Equality of keys is decidable. *)
#[global] Instance StateTuple_eq_dec : EqDecision StateTuple.
Proof. solve_decision. Defined.

#[global] Instance VisitedKey_eq_dec : EqDecision VisitedKey.
Proof. solve_decision. Defined.

(** The lookup whose allocation succeeds: the table and the entry, which is
    never the null pointer (lemma [find_or_create_true]). *)
Definition lookup_entry (ht : QHashTable) (k : StateTuple) : QHashTable * EntryRef :=
  (fst (find_or_create_q_entry true ht k),
   default (0, O) (snd (find_or_create_q_entry true ht k))).

(** The table after a sequence of lookups, each with the flag of its
    allocation. *)
Definition lookups (ht : QHashTable) (ks : list (bool * StateTuple)) : QHashTable :=
  fold_left (fun h k => fst (find_or_create_q_entry (fst k) h (snd k))) ks ht.

(** The keys of the lookups that could allocate. *)
Definition allocating (ks : list (bool * StateTuple)) : list StateTuple :=
  snd <$> filter (fun k => fst k = true) ks.

(** A table of four chains with two keys in it, and a visited set with one
    pair in it. *)
Definition key_a : StateTuple := mkState 3 14 (-1) 0.
Definition key_b : StateTuple := mkState 12 (-2) 1 1.

Definition small_table : QHashTable :=
  lookups (create_q_hash_table 4) [(true, key_a); (true, key_b)].

Definition small_set : VisitedSet :=
  fst (check_and_add_visited true (create_visited_set 4) (mkVisited key_b 0)).

(** ** Sample episodes *)

(** An episode of three steps in which the pair ([key_a], 1) occurs twice. *)
Definition sample_episode : list EpisodeStep :=
  [mkStep key_a 1 100; mkStep key_b 0 (-50); mkStep key_a 1 20].

Definition fresh_agent : MonteCarloAgent := create_monte_carlo_agent 2 (1 # 10).

(** Two further episodes: one without [key_a], one that ends with it. *)
Definition sample_training : list (list EpisodeStep) :=
  [sample_episode; [mkStep key_b 1 7]; [mkStep key_b 0 0; mkStep key_a 1 (-30)]].

(** ** What a turn leaves alone *)

(** The configuration, the decks and the bound of the observation. *)
Definition same_setup (e e' : MonopolyEnv) : Prop :=
  go_reward e' = go_reward e
  /\ start_money e' = start_money e
  /\ board_size e' = board_size e
  /\ jail_position e' = jail_position e
  /\ go_to_jail_position e' = go_to_jail_position e
  /\ jail_turns e' = jail_turns e
  /\ num_players e' = num_players e
  /\ chance_deck e' = chance_deck e
  /\ chest_deck e' = chest_deck e
  /\ obs_money_high e' = obs_money_high e.

Definition same_sizes (e e' : MonopolyEnv) : Prop :=
  length (positions e') = length (positions e)
  /\ length (money e') = length (money e)
  /\ length (in_jail e') = length (in_jail e)
  /\ length (jail_counters e') = length (jail_counters e)
  /\ length (properties e') = length (properties e).

(** What the turn of player [p] may change between [e] and [e']: the
    position and the jail state of [p] only, the cash of the players that take
    part only, never a price, a rent or a house cost, and of the squares only
    those that [p] owns or that nobody owns; a square changes hands between
    [p] and the bank only. *)
Definition turn_frame (p : Z) (e e' : MonopolyEnv) : Prop :=
  same_setup e e'
  /\ same_sizes e e'
  /\ (forall q, q <> p ->
        pos_of e' q = pos_of e q /\ jailed e' q = jailed e q
        /\ jail_counter e' q = jail_counter e q)
  /\ (forall q, ~ (0 <= q < num_players e) -> money_of e' q = money_of e q)
  /\ (forall i, price (prop_at e' i) = price (prop_at e i)
                /\ rent (prop_at e' i) = rent (prop_at e i)
                /\ house_cost (prop_at e' i) = house_cost (prop_at e i))
  /\ (forall i, owner (prop_at e i) <> p -> owner (prop_at e i) <> -1 ->
                prop_at e' i = prop_at e i)
  /\ (forall i, owner (prop_at e' i) = owner (prop_at e i)
                \/ (owner (prop_at e i) = -1 /\ owner (prop_at e' i) = p)
                \/ (owner (prop_at e i) = p /\ owner (prop_at e' i) = -1)).

(** What no call changes: the setup, the sizes, the slots of the players
    that do not take part, and the prices, rents and house costs. *)
Definition same_game (e e' : MonopolyEnv) : Prop :=
  same_setup e e'
  /\ same_sizes e e'
  /\ (forall q, ~ (0 <= q < num_players e) ->
        pos_of e' q = pos_of e q /\ money_of e' q = money_of e q
        /\ jailed e' q = jailed e q /\ jail_counter e' q = jail_counter e q)
  /\ (forall i, price (prop_at e' i) = price (prop_at e i)
                /\ rent (prop_at e' i) = rent (prop_at e i)
                /\ house_cost (prop_at e' i) = house_cost (prop_at e i)).

(** A square as [reset_monopoly_env] leaves it. *)
Definition clear_square (pr : Property) : Property :=
  with_houses 0 (with_owner (-1) pr).

(** Whether [q] is the index of a player that takes part. *)
Definition takes_part (e : MonopolyEnv) (q : Z) : bool :=
  (0 <=? q) && (q <? num_players e).

(** ** The observation *)

(** [get_observation_size] *)
Definition get_observation_size (n : Z) : Z := n + n + n + BOARD_SIZE + 1.

(** The key that [_get_state_tuple_c] reads off the observation of [e] when
    the observation names player [p]. *)
Definition key_of (e : MonopolyEnv) (p : Z) : StateTuple :=
  mkState (pos_of e p)
          (Z.quot (Z.min (money_of e p) (obs_money_high e)) 100)
          (owner (prop_at e (pos_of e p)))
          (if jailed e p then 1 else 0).

(** ** Sales only *)

(** From [e] to [e'] no square got an owner or a house. *)
Definition only_sells (e e' : MonopolyEnv) : Prop :=
  forall i,
    (owner (prop_at e' i) = owner (prop_at e i) \/ owner (prop_at e' i) = -1)
    /\ (houses (prop_at e' i) = houses (prop_at e i) \/ houses (prop_at e' i) = 0).

(** Player 0 of [game2] in jail on his first turn there, and the same with a
    cash of -20. *)
Definition game2_jailed : MonopolyEnv :=
  put_in_jail 0 true (put_position 0 10 game2).

Definition game2_jailed_in_debt : MonopolyEnv :=
  put_money 0 (-20) game2_jailed.

(** ** What the episode simulator leaves alone *)

(** What an iteration of the episode loop for player [p] may change between
    [s] and [s']: no house count and no jail counter other than a reset to
    zero for [p]; of the cash, the positions and the jail flags only those of
    [p]; a jail flag is only ever set; a square only goes from the bank to
    [p]. *)
Definition kernel_frame (p : Z) (s s' : CUDAEnvState) : Prop :=
  k_property_houses s' = k_property_houses s
  /\ (forall q, q <> p ->
        k_money_of s' q = k_money_of s q
        /\ rd 0 (k_positions s') q = rd 0 (k_positions s) q
        /\ rd 0 (k_in_jail s') q = rd 0 (k_in_jail s) q
        /\ rd 0 (k_jail_counters s') q = rd 0 (k_jail_counters s) q)
  /\ (rd 0 (k_in_jail s') p = rd 0 (k_in_jail s) p \/ rd 0 (k_in_jail s') p = 1)
  /\ (forall i, rd 0 (k_property_owners s') i = rd 0 (k_property_owners s) i
                \/ (rd 0 (k_property_owners s) i = -1
                    /\ rd 0 (k_property_owners s') i = p)).

(** ** Device string helpers (C_parallelized_Code.c)

    A [char] buffer is a list of characters; a C string in it ends at the
    first [NUL].  A read outside the list gives [NUL], a write outside it is
    dropped; the theorems only use buffers large enough for every access. *)

Definition NUL : ascii := Ascii.zero.

Definition is_nul (c : ascii) : bool := Ascii.eqb c NUL.

(** The conversion of an [int] to [char]. *)
Definition char_of_int (z : Z) : ascii := ascii_of_N (Z.to_N (z mod 256)).

(** A string literal: its characters and the terminator. *)
Definition c_literal (s : string) : list ascii := list_ascii_of_string s ++ [NUL].

(** [while (cond) body] run for at most [fuel] iterations. *)
Fixpoint while_do {T : Type} (fuel : nat) (cond : T -> bool) (body : T -> T) (s : T) : T :=
  match fuel with
  | O => s
  | S k => if cond s then while_do k cond body (body s) else s
  end.

Definition d_strcpy (dest src : list ascii) (max_len : Z) : list ascii :=
  let '(dest, i) :=
    while_do (Z.to_nat (max_len - 1))
      (fun '(_, i) => (i <? max_len - 1) && negb (is_nul (rd NUL src i)))
      (fun '(dest, i) => (wr dest i (rd NUL src i), i + 1))
      (dest, 0) in
  wr dest i NUL.

Definition d_strlen (str : list ascii) (max_len : Z) : Z :=
  while_do (Z.to_nat max_len)
    (fun len => (len <? max_len) && negb (is_nul (rd NUL str len)))
    (fun len => len + 1)
    0.

Definition d_strcat (dest src : list ascii) (max_len : Z) : list ascii :=
  let dest_len :=
    while_do (Z.to_nat max_len)
      (fun dest_len => (dest_len <? max_len) && negb (is_nul (rd NUL dest dest_len)))
      (fun dest_len => dest_len + 1)
      0 in
  let '(dest, i) :=
    while_do (Z.to_nat (max_len - dest_len - 1))
      (fun '(_, i) => (i <? max_len - dest_len - 1) && negb (is_nul (rd NUL src i)))
      (fun '(dest, i) => (wr dest (dest_len + i) (rd NUL src i), i + 1))
      (dest, 0) in
  wr dest (dest_len + i) NUL.

(** The body of the [do ... while] of [d_sprintf_int]: one digit into
    [temp], least significant first. *)
Definition sprintf_digit (st : list ascii * Z * Z) : list ascii * Z * Z :=
  let '(temp, idx, value) := st in
  (wr temp idx (char_of_int (48 + Z.rem value 10)), idx + 1, Z.quot value 10).

Definition d_sprintf_int (dest : list ascii) (value max_len : Z) : list ascii :=
  if max_len <=? 1 then
    if max_len =? 1 then wr dest 0 NUL else dest
  else
    let is_negative := value <? 0 in
    let value := if is_negative then - value else value in
    let temp := replicate 12 NUL in
    let '(temp, idx, _) :=
      while_do 11
        (fun '(_, idx, value) => (0 <? value) && (idx <? 11))
        sprintf_digit
        (sprintf_digit (temp, 0, value)) in
    let '(temp, idx) :=
      if is_negative && (idx <? 11) then (wr temp idx "-"%char, idx + 1)
      else (temp, idx) in
    let '(dest, _, dest_idx) :=
      while_do 12
        (fun '(_, idx, dest_idx) => (0 <? idx) && (dest_idx <? max_len - 1))
        (fun '(dest, idx, dest_idx) =>
           (wr dest dest_idx (rd NUL temp (idx - 1)), idx - 1, dest_idx + 1))
        (dest, idx, 0) in
    wr dest dest_idx NUL.

(** The decimal numeral of an integer, as the Standard Library prints it. *)
Definition decimal (value : Z) : list ascii :=
  list_ascii_of_string (DecimalString.NilZero.string_of_int (Z.to_int value)).

(** The characters of a numeral, in the order of its digits. *)
Definition lu_chars (d : Decimal.uint) : list ascii :=
  list_ascii_of_string (DecimalString.NilEmpty.string_of_uint d).

Definition MAX_DESC_LEN : Z := 256.

(** The description of a step that the kernel writes into the zeroed log
    entry: the branch for a purchase or a pass, the branch for rent, and the
    bankruptcy mark.  [action] is the action chosen in the first branch and
    [money_after] the mover's money after the branch. *)
Definition kernel_action_desc (p new_position prop_owner prop_price prop_rent : Z)
    (money action money_after : Z) (action_desc temp : list ascii)
  : list ascii * list ascii :=
  let '(action_desc, temp) :=
    if (prop_price >? 0) && (prop_owner =? -1) && (money >=? prop_price) then
      if action =? 1 then
        let temp := d_sprintf_int temp new_position MAX_DESC_LEN in
        let action_desc :=
          d_strcpy action_desc (c_literal "Bought property at position ") MAX_DESC_LEN in
        let action_desc := d_strcat action_desc temp MAX_DESC_LEN in
        let action_desc := d_strcat action_desc (c_literal " for $") MAX_DESC_LEN in
        let temp := d_sprintf_int temp prop_price MAX_DESC_LEN in
        (d_strcat action_desc temp MAX_DESC_LEN, temp)
      else
        let temp := d_sprintf_int temp new_position MAX_DESC_LEN in
        let action_desc :=
          d_strcpy action_desc (c_literal "Passed on buying property at position ")
                   MAX_DESC_LEN in
        (d_strcat action_desc temp MAX_DESC_LEN, temp)
    else if negb (prop_owner =? -1) && negb (prop_owner =? p) then
      let rent_due := prop_rent in
      let action_desc := d_strcpy action_desc (c_literal "Paid $") MAX_DESC_LEN in
      let temp := d_sprintf_int temp rent_due MAX_DESC_LEN in
      let action_desc := d_strcat action_desc temp MAX_DESC_LEN in
      let action_desc := d_strcat action_desc (c_literal " rent at position ") MAX_DESC_LEN in
      let temp := d_sprintf_int temp new_position MAX_DESC_LEN in
      let action_desc := d_strcat action_desc temp MAX_DESC_LEN in
      let action_desc := d_strcat action_desc (c_literal " to player ") MAX_DESC_LEN in
      let temp := d_sprintf_int temp prop_owner MAX_DESC_LEN in
      (d_strcat action_desc temp MAX_DESC_LEN, temp)
    else (action_desc, temp) in
  if money_after <? 0 then
    (d_strcat action_desc (c_literal " (BANKRUPT)") MAX_DESC_LEN, temp)
  else (action_desc, temp).

(** The text that [kernel_action_desc] is meant to produce. *)
Definition action_text (p new_position prop_owner prop_price prop_rent : Z)
    (money action money_after : Z) : list ascii :=
  (if (prop_price >? 0) && (prop_owner =? -1) && (money >=? prop_price) then
     if action =? 1 then
       list_ascii_of_string "Bought property at position " ++ decimal new_position
       ++ list_ascii_of_string " for $" ++ decimal prop_price
     else
       list_ascii_of_string "Passed on buying property at position " ++ decimal new_position
   else if negb (prop_owner =? -1) && negb (prop_owner =? p) then
     list_ascii_of_string "Paid $" ++ decimal prop_rent
     ++ list_ascii_of_string " rent at position " ++ decimal new_position
     ++ list_ascii_of_string " to player " ++ decimal prop_owner
   else [])
  ++ (if money_after <? 0 then list_ascii_of_string " (BANKRUPT)" else []).

(** ** CSV quoting (both programs) *)

Definition QUOTE : ascii := "034"%char.

(** [strlen] of the C library: the number of characters before the first
    terminator. *)
Fixpoint strlen (str : list ascii) : Z :=
  match str with
  | [] => 0
  | c :: rest => if is_nul c then 0 else 1 + strlen rest
  end.

(** [escape_csv_string]: [None] is the null pointer, [malloc_ok] tells whether
    the allocation succeeds.  The allocated block has [new_len] characters. *)
Definition escape_csv_string (malloc_ok : bool) (input : option (list ascii))
  : option (list ascii) :=
  match input with
  | None => None
  | Some input =>
      let '(quotes_to_escape, _) :=
        while_do (length input)
          (fun '(_, p) => negb (is_nul (rd NUL input p)))
          (fun '(quotes, p) =>
             ((if Ascii.eqb (rd NUL input p) QUOTE then quotes + 1 else quotes), p + 1))
          (0, 0) in
      let new_len := strlen input + quotes_to_escape + 2 + 1 in
      if negb malloc_ok then None
      else
        let output := replicate (Z.to_nat new_len) NUL in
        let output := wr output 0 QUOTE in
        let '(output, q, _) :=
          while_do (length input)
            (fun '(_, _, p) => negb (is_nul (rd NUL input p)))
            (fun '(output, q, p) =>
               let '(output, q) :=
                 if Ascii.eqb (rd NUL input p) QUOTE then (wr output q QUOTE, q + 1)
                 else (output, q) in
               (wr output q (rd NUL input p), q + 1, p + 1))
            (output, 1, 0) in
        let output := wr output q QUOTE in
        Some (wr output (q + 1) NUL)
  end.

(** A field in quotes, each quote inside it doubled. *)
Definition csv_quoted (s : list ascii) : list ascii :=
  QUOTE :: (s ≫= (fun c => if Ascii.eqb c QUOTE then [QUOTE; QUOTE] else [c])) ++ [QUOTE].

(** ** Episode generation and the training loop (monopoly.c) *)

Definition MAX_LOG_ENTRIES : Z := 1000.

(** The history of an episode: the steps stored so far ([count] of them
    are meaningful; [count] is -1 after a failed allocation in
    [generate_episode_mc]) and the capacity of the array. *)
Record EpisodeHistory := mkHistory {
  eh_steps : list EpisodeStep;
  eh_count : Z;
  eh_capacity : Z
}.

Definition init_episode_history (malloc_ok : bool) (initial_capacity : Z)
  : EpisodeHistory :=
  mkHistory [] 0 (if malloc_ok then initial_capacity else 0).

(** [realloc_ok] tells whether the array can be grown to a capacity. *)
Definition add_episode_step (realloc_ok : Z -> bool) (history : EpisodeHistory)
    (state : StateTuple) (action reward : Z) : EpisodeHistory :=
  if eh_count history >=? eh_capacity history then
    let new_capacity :=
      if eh_capacity history >? 0 then eh_capacity history * 2 else 10 in
    if negb (realloc_ok new_capacity) then history
    else mkHistory (eh_steps history ++ [mkStep state action reward])
                   (eh_count history + 1) new_capacity
  else mkHistory (eh_steps history ++ [mkStep state action reward])
                 (eh_count history + 1) (eh_capacity history).

Definition with_episode_id (v : Z) (l : LogEntry) : LogEntry :=
  mkLog (log_step l) (log_player l) (log_position_before l) (log_dice_roll l)
        (log_landed_on_position l) (log_position_after l) (log_money_before l)
        (log_money_after l) (log_reward l) (log_done l) (log_in_jail l)
        (log_fee_paid l) (log_agent_action l) (log_num_owned_properties l)
        (log_card_drawn l) v.

(** The variables of the loop of [generate_episode_mc]. *)
Record EpisodeLoop := mkLoop {
  lp_agent : MonteCarloAgent;
  lp_env : MonopolyEnv;
  lp_obs : list Z;
  lp_history : EpisodeHistory;
  lp_logs : list LogEntry;
  lp_cursor : nat;
  lp_done : bool;
  lp_step_count : Z
}.

Section Training.

Variable RAND_MAX : Z.

(** The allocator: whether the history of an episode and its observation
    buffer can be allocated, whether the history of an episode can be grown
    to a capacity, whether the policy can allocate an entry of the value
    table at a turn of an episode, and the allocations of the update that
    follows an episode. *)
Variable history_ok : Z -> bool.
Variable obs_ok : Z -> bool.
Variable realloc_ok : Z -> Z -> bool.
Variable lookup_ok : Z -> Z -> bool.
Variable update_alloc : Z -> UpdateAlloc.

Definition episode_body (episode_id : Z) (tape : Tape) (st : EpisodeLoop) : EpisodeLoop :=
  let state_tuple :=
    get_state_tuple (lp_obs st) (agent_num_players (lp_agent st))
                    (board_size (lp_env st)) in
  let '(action, agent, c) :=
    select_action_mc RAND_MAX (lookup_ok episode_id (lp_step_count st)) (lp_agent st)
                     state_tuple (lp_env st) tape (lp_cursor st) in
  let o := step_monopoly_env tape (lp_env st) c action in
  let history :=
    add_episode_step (realloc_ok episode_id) (lp_history st) state_tuple action
                     (reward (out_result o)) in
  let logs :=
    if Z.of_nat (length (lp_logs st)) <? MAX_LOG_ENTRIES
    then lp_logs st ++ [with_episode_id episode_id (res_log (out_result o))]
    else lp_logs st in
  mkLoop agent (out_env o) (out_obs o) history logs (out_cursor o)
         (res_done (out_result o)) (lp_step_count st + 1).

(** [generate_episode_mc]: the loop variables when the function returns;
    the history and the logs are what it hands to its caller. *)
Definition generate_episode_mc (agent : MonteCarloAgent) (e : MonopolyEnv)
    (episode_id : Z) (tape : Tape) (c : nat) : EpisodeLoop :=
  let history := init_episode_history (history_ok episode_id) 100 in
  if negb (obs_ok episode_id) then
    mkLoop agent e [] (mkHistory (eh_steps history) (-1) (eh_capacity history))
           [] c false 0
  else
    let '(e0, obs) := reset_monopoly_env e in
    while_do (Z.to_nat MAX_EPISODE_STEPS)
      (fun st => negb (lp_done st) && (lp_step_count st <? MAX_EPISODE_STEPS))
      (episode_body episode_id tape)
      (mkLoop agent e0 obs history [] c false 0).

(** The training loop of [main], [n] episodes from number [ep] on: the agent,
    the environment and the tape at the end, and the histories of the
    episodes that were played, in order. *)
Fixpoint training_loop (n : nat) (ep : Z) (tape : Tape) (agent : MonteCarloAgent)
    (e : MonopolyEnv) (c : nat)
  : MonteCarloAgent * MonopolyEnv * nat * list (list EpisodeStep) :=
  match n with
  | O => (agent, e, c, [])
  | S k =>
      let st := generate_episode_mc agent e ep tape c in
      if eh_count (lp_history st) <? 0 then (lp_agent st, lp_env st, lp_cursor st, [])
      else
        let agent' :=
          update_mc (update_alloc ep) (lp_agent st) (eh_steps (lp_history st)) in
        let '(a, e', c', hs) :=
          training_loop k (ep + 1) tape agent' (lp_env st) (lp_cursor st) in
        (a, e', c', eh_steps (lp_history st) :: hs)
  end.
End Training.

(** What the loop of [generate_episode_mc] keeps true. *)
Definition episode_inv (realloc_ok : Z -> Z -> bool) (agent : MonteCarloAgent) (e : MonopolyEnv) (ep : Z)
    (st : EpisodeLoop) : Prop :=
  eh_count (lp_history st) = Z.of_nat (length (eh_steps (lp_history st)))
  /\ Z.of_nat (length (eh_steps (lp_history st))) <= lp_step_count st
  /\ Z.of_nat (length (lp_logs st)) = lp_step_count st
  /\ 0 <= lp_step_count st <= MAX_EPISODE_STEPS
  /\ forallb valid_action (eh_steps (lp_history st)) = true
  /\ ((forall n, realloc_ok ep n = true) ->
      Z.of_nat (length (eh_steps (lp_history st))) = lp_step_count st)
  /\ epsilon (lp_agent st) = epsilon agent
  /\ agent_num_players (lp_agent st) = agent_num_players agent
  /\ (TableOk (q_table agent) ->
      TableOk (q_table (lp_agent st))
      /\ forall k a, q_stat (q_table (lp_agent st)) k a = q_stat (q_table agent) k a)
  /\ (Wf e -> Wf (lp_env st)).

(** ** The update from the episodes of the kernel (C_parallelized_Code.c) *)

(** The temporary history that [update_q_table_from_cuda_episodes] builds
    from an episode of the kernel; [episode->count] is the number of steps
    of the episode. *)
Definition copy_cuda_episode (malloc_ok : bool) (realloc_ok : Z -> bool)
    (episode : CUDAEpisodeData) : EpisodeHistory :=
  let count := Z.of_nat (length (ep_steps episode)) in
  for_range 0 count
    (fun i history =>
       let s := rd no_step (ep_steps episode) i in
       add_episode_step realloc_ok history (es_state s) (es_action s) (es_reward s))
    (init_episode_history malloc_ok count).

(** [malloc_ok] and [realloc_ok] tell, for the episode of an index, whether
    its history can be allocated and grown; [update_alloc] gives the
    allocations of its update. *)
Definition update_q_table_from_cuda_episodes (malloc_ok : Z -> bool)
    (realloc_ok : Z -> Z -> bool) (update_alloc : Z -> UpdateAlloc)
    (agent : MonteCarloAgent) (episodes : list CUDAEpisodeData) : MonteCarloAgent :=
  fst (fold_left
         (fun st episode =>
            let '(agent, ep) := st in
            (update_mc (update_alloc ep) agent
               (eh_steps (copy_cuda_episode (malloc_ok ep) (realloc_ok ep) episode)),
             ep + 1))
         episodes (agent, 0)).

(** * Properties *)

(** ** Arrays *)

Section ArrayFacts.
Context {A : Type}.
Implicit Types (l : list A) (i j : Z).

Lemma length_wr l i v : length (wr l i v) = length l.
Proof. unfold wr. destruct (i <? 0); [done | apply length_insert]. Qed.

Lemma rd_wr_eq d l i v :
  0 <= i < Z.of_nat (length l) -> rd d (wr l i v) i = v.
Proof.
  intros Hi. unfold rd, wr.
  destruct (Z.ltb_spec i 0); [lia |].
  rewrite list_lookup_insert_eq; [done | lia].
Qed.

Lemma rd_wr_ne d l i j v : i <> j -> rd d (wr l i v) j = rd d l j.
Proof.
  intros Hne. unfold rd, wr.
  destruct (Z.ltb_spec j 0); [done |].
  destruct (Z.ltb_spec i 0); [done |].
  rewrite list_lookup_insert_ne; [done | lia].
Qed.

Lemma rd_wr d l i j v :
  0 <= i < Z.of_nat (length l) ->
  rd d (wr l i v) j = if i =? j then v else rd d l j.
Proof.
  intros Hi. destruct (Z.eqb_spec i j) as [<- | Hne].
  - by apply rd_wr_eq.
  - by apply rd_wr_ne.
Qed.

Lemma rd_out d l i : ~ (0 <= i < Z.of_nat (length l)) -> rd d l i = d.
Proof.
  intros Hi. unfold rd. destruct (Z.ltb_spec i 0); [done |].
  rewrite lookup_ge_None_2; [done | lia].
Qed.

Lemma wr_out l i v : ~ (0 <= i < Z.of_nat (length l)) -> wr l i v = l.
Proof.
  intros Hi. unfold wr. destruct (Z.ltb_spec i 0); [done |].
  apply list_insert_ge. lia.
Qed.

Lemma wr_rd_id d l i : wr l i (rd d l i) = l.
Proof.
  destruct (decide (0 <= i < Z.of_nat (length l))) as [Hi | Hi].
  - unfold wr, rd. destruct (Z.ltb_spec i 0); [lia |].
    destruct (lookup_lt_is_Some_2 l (Z.to_nat i)) as [x Hx]; [lia |].
    rewrite Hx. simpl. by apply list_insert_id.
  - by apply wr_out.
Qed.
End ArrayFacts.

(** ** Terminal states *)

(** C10: a step on a terminal environment changes nothing, draws nothing,
    and returns reward 0 with the terminal flag set. *)
Theorem step_terminal_is_noop (tape : Tape) (e : MonopolyEnv) (c : nat) (action : Z) :
  done e = true ->
  out_env (step_monopoly_env tape e c action) = e
  /\ out_cursor (step_monopoly_env tape e c action) = c
  /\ reward (out_result (step_monopoly_env tape e c action)) = 0
  /\ res_done (out_result (step_monopoly_env tape e c action)) = true.
Proof.
  intros Hdone. unfold step_monopoly_env. rewrite Hdone. by cbn.
Qed.

Lemma step_terminal_is_noop_witness :
  done (set_done true game2) = true
  /\ out_env (step_monopoly_env (tape_of [3; 4]%N) (set_done true game2) 0 1)
     = set_done true game2.
Proof.
  split; [reflexivity |].
  apply (step_terminal_is_noop (tape_of [3; 4]%N) (set_done true game2) 0 1).
  reflexivity.
Defined.

(** ** Construction *)

Lemma rd_player_slots {A : Type} (d used unused : A) (n i : Z) :
  0 <= i < MAX_PLAYERS ->
  rd d (player_slots n used unused) i = if i <? n then used else unused.
Proof.
  intros Hi. unfold rd, player_slots.
  destruct (Z.ltb_spec i 0); [lia |].
  rewrite list_lookup_fmap, (lookup_seqZ_lt 0 MAX_PLAYERS) by lia.
  simpl. by replace (0 + Z.of_nat (Z.to_nat i)) with i by lia.
Qed.

(** C9 (counterexample): a game for two players with a starting cash of
    -100 is created, and both players start with -100. *)
Lemma create_accepts_negative_cash :
  exists e, create_monopoly_env true 2 (-100) 200 = Some e
            /\ start_money e = -100
            /\ money_of e 0 = -100 /\ money_of e 1 = -100.
Proof. eexists. split; [reflexivity |]. by vm_compute. Qed.

(** C9 (amended): construction fails for every player count that is not
    between 1 and [MAX_PLAYERS]; for a valid player count it succeeds when
    the allocation does, whatever the starting cash, which is stored as
    given and handed to every player. *)
Theorem create_checks_player_count_only (malloc_ok : bool) (n start go : Z) :
  (n <= 0 \/ MAX_PLAYERS < n ->
   create_monopoly_env malloc_ok n start go = None)
  /\ (1 <= n <= MAX_PLAYERS ->
      exists e, create_monopoly_env true n start go = Some e
                /\ start_money e = start
                /\ forall i, 0 <= i < n -> money_of e i = start).
Proof.
  unfold create_monopoly_env. split.
  - intros Hn.
    destruct (Z.leb_spec n 0), (Z.gtb_spec n MAX_PLAYERS); simpl; try done; lia.
  - intros Hn.
    destruct (Z.leb_spec n 0), (Z.gtb_spec n MAX_PLAYERS); simpl; try lia.
    eexists. split; [reflexivity |]. split; [reflexivity |].
    intros i Hi. unfold money_of. cbn [money new_env].
    rewrite rd_player_slots by lia.
    destruct (Z.ltb_spec i n); [done | lia].
Qed.

Lemma create_checks_player_count_only_witness :
  create_monopoly_env true 9 1500 200 = None
  /\ exists e, create_monopoly_env true 2 0 200 = Some e
               /\ start_money e = 0
               /\ forall i, 0 <= i < 2 -> money_of e i = 0.
Proof.
  split.
  - apply (create_checks_player_count_only true 9 1500 200). unfold MAX_PLAYERS. lia.
  - apply (create_checks_player_count_only true 2 0 200). unfold MAX_PLAYERS. lia.
Defined.

(** ** Well-formed environments *)

Lemma forallb_seqZ (f : Z -> bool) (lo n : Z) :
  forallb f (seqZ lo n) = true <-> forall i, lo <= i < lo + n -> f i = true.
Proof.
  rewrite forallb_forall. split; intros H i Hi.
  - apply H, list_elem_of_In, elem_of_seqZ. lia.
  - apply H. apply list_elem_of_In, elem_of_seqZ in Hi. lia.
Qed.

Lemma square_ok_iff e i : square_ok e i = true <-> SquareOk e i.
Proof.
  unfold square_ok, SquareOk. cbv zeta.
  destruct (prop_at e i) as [pr rn ow hs hc]. cbn [price rent owner houses house_cost].
  rewrite !andb_true_iff, !implb_true_iff, ?andb_true_iff, !negb_true_iff.
  rewrite !Z.leb_le, !Z.ltb_lt, !Z.eqb_eq, !Z.eqb_neq.
  rewrite !(Z.gtb_ltb), !Z.ltb_lt. intuition lia.
Qed.

Lemma player_ok_iff e i :
  player_ok e i = true <-> 0 <= pos_of e i < board_size e.
Proof. unfold player_ok. rewrite andb_true_iff, Z.leb_le, Z.ltb_lt. tauto. Qed.

Lemma wf_env_iff e : wf_env e = true <-> Wf e.
Proof.
  unfold wf_env.
  rewrite !andb_true_iff, !negb_true_iff, !forallb_seqZ.
  rewrite !Z.leb_le, !Z.ltb_lt, !Z.eqb_eq, !Z.eqb_neq.
  split.
  - intros H. decompose [and] H. clear H.
    split; try lia.
    + intros i Hi. apply player_ok_iff. auto with zarith.
    + intros i Hi. apply square_ok_iff. auto with zarith.
  - intros [].
    repeat split; try lia.
    + intros i Hi. apply player_ok_iff. auto with zarith.
    + intros i Hi. apply square_ok_iff. auto with zarith.
Qed.

Ltac env_unfold :=
  unfold add_money, put_money, put_position, put_in_jail, put_jail_counter,
         put_owner, put_houses, with_env,
         set_positions, set_money, set_in_jail, set_jail_counters, set_properties,
         set_current_player, set_steps_taken, set_done, set_last_log,
         cash, money_of, pos_of, jailed, jail_counter, prop_at in *;
  cbn [go_reward start_money board_size jail_position go_to_jail_position
       jail_turns num_players positions money in_jail jail_counters properties
       current_player steps_taken done chance_deck chest_deck obs_money_high
       last_log t_env t_cursor current_step_reward card_reward_contribution
       fee_paid_this_turn card_name_drawn card_drawn dice_total
       landed_position_this_turn pos
       price rent owner houses house_cost with_owner with_houses] in *.

Ltac env_goal :=
  unfold add_money, put_money, put_position, put_in_jail, put_jail_counter,
         put_owner, put_houses, with_env,
         set_positions, set_money, set_in_jail, set_jail_counters, set_properties,
         set_current_player, set_steps_taken, set_done, set_last_log,
         cash, money_of, pos_of, jailed, jail_counter, prop_at;
  cbn [go_reward start_money board_size jail_position go_to_jail_position
       jail_turns num_players positions money in_jail jail_counters properties
       current_player steps_taken done chance_deck chest_deck obs_money_high
       last_log t_env t_cursor current_step_reward card_reward_contribution
       fee_paid_this_turn card_name_drawn card_drawn dice_total
       landed_position_this_turn pos
       price rent owner houses house_cost with_owner with_houses].

(** An environment that agrees with a well-formed one on the configuration
    and the array sizes is well formed when its indices and squares are. *)
Lemma Wf_change e e' :
  Wf e ->
  num_players e' = num_players e ->
  board_size e' = board_size e ->
  jail_position e' = jail_position e ->
  length (positions e') = length (positions e) ->
  length (money e') = length (money e) ->
  length (in_jail e') = length (in_jail e) ->
  length (jail_counters e') = length (jail_counters e) ->
  length (properties e') = length (properties e) ->
  chance_deck e' = chance_deck e ->
  chest_deck e' = chest_deck e ->
  0 <= current_player e' < num_players e ->
  (forall i, 0 <= i < num_players e -> 0 <= pos_of e' i < board_size e) ->
  (forall i, 0 <= i < board_size e -> SquareOk e' i) ->
  Wf e'.
Proof.
  intros [] Hn Hb Hj H1 H2 H3 H4 H5 Hc1 Hc2 Hcur Hpos Hsq.
  split; rewrite ?Hn, ?Hb, ?Hj, ?H1, ?H2, ?H3, ?H4, ?H5, ?Hc1, ?Hc2; auto.
Qed.

Lemma Wf_put_money e p v : Wf e -> Wf (put_money p v e).
Proof.
  intros H. apply (Wf_change e); try done; try apply H.
  env_unfold. apply length_wr.
Qed.

Lemma Wf_add_money e p v : Wf e -> Wf (add_money p v e).
Proof. apply Wf_put_money. Qed.

Lemma Wf_put_in_jail e p v : Wf e -> Wf (put_in_jail p v e).
Proof.
  intros H. apply (Wf_change e); try done; try apply H.
  env_unfold. apply length_wr.
Qed.

Lemma Wf_put_jail_counter e p v : Wf e -> Wf (put_jail_counter p v e).
Proof.
  intros H. apply (Wf_change e); try done; try apply H.
  env_unfold. apply length_wr.
Qed.

Lemma Wf_set_done e v : Wf e -> Wf (set_done v e).
Proof. intros H. apply (Wf_change e); try done; apply H. Qed.

Lemma Wf_set_steps_taken e v : Wf e -> Wf (set_steps_taken v e).
Proof. intros H. apply (Wf_change e); try done; apply H. Qed.

Lemma Wf_set_last_log e v : Wf e -> Wf (set_last_log v e).
Proof. intros H. apply (Wf_change e); try done; apply H. Qed.

Lemma Wf_set_current_player e v :
  Wf e -> 0 <= v < num_players e -> Wf (set_current_player v e).
Proof. intros H Hv. apply (Wf_change e); try done; apply H. Qed.

Lemma Wf_put_position e p v :
  Wf e -> 0 <= v < board_size e -> Wf (put_position p v e).
Proof.
  intros H Hv. apply (Wf_change e); try done; try apply H.
  - env_unfold. apply length_wr.
  - intros i Hi. pose proof (wf_positions e H i Hi) as Hp.
    env_unfold. destruct (decide (p = i)) as [-> | Hne].
    + destruct (decide (0 <= i < Z.of_nat (length (positions e)))).
      * by rewrite rd_wr_eq.
      * by rewrite wr_out.
    + by rewrite rd_wr_ne.
Qed.

(** Writing a square that obeys the rules keeps the board well formed. *)
Lemma Wf_put_square e i pr :
  Wf e ->
  (0 <= i < board_size e ->
   SquareOk (set_properties (wr (properties e) i pr) e) i) ->
  Wf (set_properties (wr (properties e) i pr) e).
Proof.
  intros H Hpr. apply (Wf_change e); try done; try apply H.
  - env_unfold. apply length_wr.
  - intros j Hj. destruct (decide (i = j)) as [<- | Hne]; [auto |].
    pose proof (wf_squares e H j Hj) as Hs.
    unfold SquareOk in *. env_unfold. by rewrite rd_wr_ne.
Qed.

Lemma prop_at_put_square e i pr :
  0 <= i < Z.of_nat (length (properties e)) ->
  prop_at (set_properties (wr (properties e) i pr) e) i = pr.
Proof. intros Hi. env_unfold. by apply rd_wr_eq. Qed.

(** Clearing the owner of a square without houses, or of any square together
    with its houses. *)
Lemma Wf_clear_square e i :
  Wf e -> Wf (put_houses i 0 (put_owner i (-1) e)).
Proof.
  intros H.
  assert (Wf (put_owner i (-1) (put_houses i 0 e))) as H'.
  { pose proof H as [].
    apply Wf_put_square.
    - apply Wf_put_square; [done |]. intros Hi.
      pose proof (wf_squares e H i Hi) as Hs. unfold SquareOk in *.
      rewrite prop_at_put_square by lia. env_unfold. lia.
    - intros Hi. pose proof (wf_squares e H i Hi) as Hs. unfold SquareOk in *.
      rewrite prop_at_put_square by (env_unfold; rewrite length_wr; lia).
      env_unfold. rewrite rd_wr_eq by lia. cbn. lia. }
  replace (put_houses i 0 (put_owner i (-1) e))
    with (put_owner i (-1) (put_houses i 0 e)); [done |].
  destruct (decide (0 <= i < Z.of_nat (length (properties e)))).
  - env_unfold. rewrite !rd_wr_eq by lia. cbn.
    f_equal. unfold wr. destruct (i <? 0); [done |].
    by rewrite !list_insert_insert_eq.
  - env_unfold. by rewrite !wr_out by (rewrite ?wr_out by done; done).
Qed.

(** ** Loops *)

Lemma for_loop_inv {S : Type} (P : S -> Prop) n i (body : Z -> S -> S) s :
  P s ->
  (forall j s', i <= j < i + Z.of_nat n -> P s' -> P (body j s')) ->
  P (for_loop n i body s).
Proof.
  revert i s. induction n as [| n IH]; intros i s Hs Hbody; simpl; [done |].
  apply IH.
  - apply Hbody; [lia | done].
  - intros j s' Hj. apply Hbody. lia.
Qed.

Lemma for_range_inv {S : Type} (P : S -> Prop) lo hi (body : Z -> S -> S) s :
  P s ->
  (forall j s', lo <= j < hi -> P s' -> P (body j s')) ->
  P (for_range lo hi body s).
Proof.
  intros Hs Hbody. unfold for_range. apply for_loop_inv; [done |].
  intros j s' Hj. apply Hbody. lia.
Qed.

Lemma for_break_inv {S : Type} (P : S -> Prop) n i (body : Z -> S -> S * bool) s :
  P s ->
  (forall j s', i <= j < i + Z.of_nat n -> P s' -> P (fst (body j s'))) ->
  P (for_break n i body s).
Proof.
  revert i s. induction n as [| n IH]; intros i s Hs Hbody; simpl; [done |].
  pose proof (Hbody i s ltac:(lia) Hs) as H1.
  destruct (body i s) as [s1 brk]. simpl in H1.
  destruct brk; [done |].
  apply IH; [done |]. intros j s' Hj. apply Hbody. lia.
Qed.

Lemma for_range_break_inv {S : Type} (P : S -> Prop) lo hi
    (body : Z -> S -> S * bool) s :
  P s ->
  (forall j s', lo <= j < hi -> P s' -> P (fst (body j s'))) ->
  P (for_range_break lo hi body s).
Proof.
  intros Hs Hbody. unfold for_range_break. apply for_break_inv; [done |].
  intros j s' Hj. apply Hbody. lia.
Qed.

(** ** The configuration is kept *)

Lemma same_config_refl e : same_config e e.
Proof. by repeat split. Qed.

Lemma same_config_trans e1 e2 e3 :
  same_config e1 e2 -> same_config e2 e3 -> same_config e1 e3.
Proof. unfold same_config. intuition congruence. Qed.

Ltac same_config_step := apply same_config_refl || (repeat split; done).

Lemma same_config_forfeit_square p i e : same_config e (forfeit_square p i e).
Proof. unfold forfeit_square. destruct (_ =? _); by repeat split. Qed.

Lemma same_config_forfeit_all p e : same_config e (forfeit_all p e).
Proof.
  unfold forfeit_all.
  apply (for_range_inv (same_config e)); [apply same_config_refl |].
  intros j s' _ H. eapply same_config_trans; [exact H |].
  apply same_config_forfeit_square.
Qed.

Lemma same_config_run_effect f e p : same_config e (fst (run_effect f e p)).
Proof.
  destruct f; simpl; unfold advance_to_go, go_to_jail, adjust_money;
    try destruct (negb _); by repeat split.
Qed.

(** ** Well-formedness is kept *)

Lemma Wf_forfeit_square p i e : Wf e -> Wf (forfeit_square p i e).
Proof.
  intros H. unfold forfeit_square. destruct (_ =? _); [| done].
  by apply Wf_clear_square.
Qed.

Lemma Wf_forfeit_all p e : Wf e -> Wf (forfeit_all p e).
Proof.
  intros H. unfold forfeit_all. apply (for_range_inv Wf); [done |].
  intros j s' _. apply Wf_forfeit_square.
Qed.

Lemma Wf_go_to_jail e p : Wf e -> Wf (fst (go_to_jail e p)).
Proof.
  intros H. unfold go_to_jail. simpl.
  apply Wf_put_jail_counter, Wf_put_in_jail, Wf_put_position; [done |].
  apply H.
Qed.

Lemma Wf_run_effect f e p : Wf e -> Wf (fst (run_effect f e p)).
Proof.
  intros H. destruct f; simpl; try by apply Wf_add_money.
  - unfold advance_to_go.
    assert (Wf (put_position p 0 e)) as H0.
    { apply Wf_put_position; [done |]. rewrite (wf_board_size e H). by compute. }
    destruct (negb _); simpl; [by apply Wf_add_money | done].
  - by apply Wf_go_to_jail.
Qed.

Lemma Wf_next_player e : Wf e -> Wf (next_player e).
Proof.
  intros H. unfold next_player. apply Wf_set_current_player; [done |].
  pose proof (wf_current_player e H). pose proof (wf_num_players e H).
  apply Z.rem_bound_pos; lia.
Qed.

(** ** The jail section *)

Lemma roll_die_eq tape c : roll_die tape c = (die tape c, S c).
Proof. reflexivity. Qed.

Lemma die_range tape c : 1 <= die tape c <= 6.
Proof.
  unfold die. pose proof (Z.rem_bound_pos (Z.of_N (tape c)) 6). lia.
Qed.

Lemma Wf_player e i : Wf e -> 0 <= i < num_players e ->
  0 <= i < Z.of_nat (length (positions e))
  /\ 0 <= i < Z.of_nat (length (money e))
  /\ 0 <= i < Z.of_nat (length (in_jail e))
  /\ 0 <= i < Z.of_nat (length (jail_counters e)).
Proof. intros []. lia. Qed.

Lemma valid_player e : Wf e ->
  0 <= current_player e < Z.of_nat (length (positions e))
  /\ 0 <= current_player e < Z.of_nat (length (money e))
  /\ 0 <= current_player e < Z.of_nat (length (in_jail e))
  /\ 0 <= current_player e < Z.of_nat (length (jail_counters e)).
Proof. intros H. apply Wf_player; [done | apply H]. Qed.

(** The player to move of [e] is a valid player of every well-formed
    environment with the same configuration. *)
Lemma valid_player_later e e' : Wf e -> same_config e e' -> Wf e' ->
  let p := current_player e in
  0 <= p < Z.of_nat (length (positions e'))
  /\ 0 <= p < Z.of_nat (length (money e'))
  /\ 0 <= p < Z.of_nat (length (in_jail e'))
  /\ 0 <= p < Z.of_nat (length (jail_counters e')).
Proof.
  intros H Hc H' p. apply Wf_player; [done |].
  destruct Hc as (_ & _ & _ & _ & _ & -> & _). apply H.
Qed.

(** The three ways through the jail section. *)
Lemma jail_phase_cases tape e c action :
  let p := current_player e in
  let e1 := put_jail_counter p (jail_counter e p + 1) e in
  let out := put_jail_counter p 0 (put_in_jail p false e1) in
  let start e' c' crc fee :=
    mkTurn e' c' 0 crc fee "" false 0 (pos_of e p) (pos_of e p) in
  (jailed e p = false /\ jail_phase tape e c action = inr (start e c 0 0))
  \/ (jailed e p = true /\ die tape c = die tape (S c)
      /\ jail_phase tape e c action = inr (start out (S (S c)) 0 0))
  \/ (jailed e p = true /\ die tape c <> die tape (S c)
      /\ jail_turns e <= jail_counter e1 p
      /\ jail_phase tape e c action
         = inr (start (add_money p (-50) out) (S (S c)) (-50) 50))
  \/ (jailed e p = true /\ die tape c <> die tape (S c)
      /\ jail_counter e1 p < jail_turns e
      /\ jail_phase tape e c action
         = inl (jail_stay e1 (S (S c)) p (pos_of e p) (money_of e p) action 0 0)).
Proof.
  intros p e1 out start. unfold jail_phase. fold p. rewrite !roll_die_eq.
  destruct (jailed e p); [| by left].
  right. fold e1.
  destruct (Z.eqb_spec (die tape c) (die tape (S c))); [by left |].
  right. replace (jail_turns e1) with (jail_turns e) by reflexivity.
  destruct (Z.geb_spec (jail_counter e1 p) (jail_turns e)).
  - left. repeat split; try done; lia.
  - right. repeat split; try done; lia.
Qed.

Lemma jail_phase_inr tape e c action t0 :
  jail_phase tape e c action = inr t0 ->
  same_config e (t_env t0)
  /\ (Wf e -> Wf (t_env t0))
  /\ jailed (t_env t0) (current_player e) = false
  /\ positions (t_env t0) = positions e
  /\ properties (t_env t0) = properties e
  /\ done (t_env t0) = done e
  /\ current_step_reward t0 = 0
  /\ card_name_drawn t0 = ""%string
  /\ card_drawn t0 = false.
Proof.
  intros Ht.
  assert (forall e', in_jail e' = wr (in_jail e) (current_player e) false ->
                     jailed e (current_player e) = true ->
                     jailed e' (current_player e) = false) as Hout.
  { intros e' He' Hj. unfold jailed in *. rewrite He'.
    destruct (decide (0 <= current_player e < Z.of_nat (length (in_jail e)))).
    - by rewrite rd_wr_eq.
    - by rewrite rd_out in Hj. }
  destruct (jail_phase_cases tape e c action)
    as [[Hj H] | [(Hj & _ & H) | [(Hj & _ & _ & H) | (_ & _ & _ & H)]]];
    rewrite H in Ht; inversion Ht; subst t0; clear Ht H;
    cbn [t_env current_step_reward card_name_drawn card_drawn].
  - by split_and!.
  - split_and!; try done.
    + intros H. by apply Wf_put_jail_counter, Wf_put_in_jail, Wf_put_jail_counter.
    + by apply Hout.
  - split_and!; try done.
    + intros H.
      by apply Wf_add_money, Wf_put_jail_counter, Wf_put_in_jail, Wf_put_jail_counter.
    + by apply Hout.
Qed.

Lemma Wf_jail_stay e c p prev m action crc fee :
  Wf e -> Wf (out_env (jail_stay e c p prev m action crc fee)).
Proof.
  intros H. unfold jail_stay.
  destruct ((_ <? 0) && _).
  - destruct (_ <? 0); cbn [out_env fst snd];
      apply Wf_next_player, Wf_set_last_log.
    + by apply Wf_forfeit_all, Wf_set_done, Wf_set_steps_taken.
    + by apply Wf_set_steps_taken.
  - cbn [out_env fst snd]. by apply Wf_next_player, Wf_set_last_log, Wf_set_steps_taken.
Qed.

Lemma jail_phase_inl tape e c action out :
  jail_phase tape e c action = inl out ->
  Wf e -> Wf (out_env out).
Proof.
  intros Ht H.
  destruct (jail_phase_cases tape e c action)
    as [[Hj H'] | [(Hj & _ & H') | [(Hj & _ & _ & H') | (_ & _ & _ & H')]]];
    rewrite H' in Ht; inversion Ht; subst out.
  by apply Wf_jail_stay, Wf_put_jail_counter.
Qed.

(** ** The roll *)

(** The pass-GO credit of a roll from [prev] that lands on [landed]. *)
Lemma move_phase_spec tape p prev t :
  jailed (t_env t) p = false ->
  let e := t_env t in
  let total := die tape (t_cursor t) + die tape (S (t_cursor t)) in
  let landed := Z.rem (prev + total) (board_size e) in
  let credit :=
    if (landed <? prev) && negb (prev =? jail_position e) then go_reward e else 0 in
  let t' := move_phase tape p prev t in
  t_env t' = put_position p landed (add_money p credit e)
  /\ t_cursor t' = S (S (t_cursor t))
  /\ current_step_reward t' = current_step_reward t + credit
  /\ card_reward_contribution t' = card_reward_contribution t
  /\ fee_paid_this_turn t' = fee_paid_this_turn t
  /\ card_name_drawn t' = card_name_drawn t
  /\ card_drawn t' = card_drawn t
  /\ dice_total t' = total
  /\ landed_position_this_turn t' = landed
  /\ pos t' = pos_of (t_env t') p.
Proof.
  intros Hj e total landed credit t'.
  unfold t', move_phase. rewrite !roll_die_eq. cbv zeta. rewrite Hj.
  fold e. fold total. fold landed. rewrite andb_true_r.
  unfold credit. destruct ((landed <? prev) && negb (prev =? jail_position e)).
  - by split_and!.
  - cbn [t_env t_cursor current_step_reward card_reward_contribution
         fee_paid_this_turn card_name_drawn card_drawn dice_total
         landed_position_this_turn pos].
    split_and!; try done; try lia.
    unfold add_money, put_money. rewrite Z.add_0_r.
    unfold money_of. rewrite wr_rd_id. by destruct e.
Qed.

Lemma cash_put_position p v e q : money_of (put_position p v e) q = money_of e q.
Proof. reflexivity. Qed.

Lemma cash_add_money e p x :
  0 <= p < Z.of_nat (length (money e)) ->
  money_of (add_money p x e) p = money_of e p + x.
Proof. intros Hp. env_unfold. by rewrite rd_wr_eq. Qed.

Lemma cash_add_money_ne e p q x :
  p <> q -> money_of (add_money p x e) q = money_of e q.
Proof. intros Hp. env_unfold. by rewrite rd_wr_ne. Qed.

Lemma pos_put_position e p v :
  0 <= p < Z.of_nat (length (positions e)) ->
  pos_of (put_position p v e) p = v.
Proof. intros Hp. env_unfold. by rewrite rd_wr_eq. Qed.

Lemma move_phase_Wf tape p prev t :
  jailed (t_env t) p = false ->
  0 <= prev ->
  Wf (t_env t) -> Wf (t_env (move_phase tape p prev t)).
Proof.
  intros Hj Hprev H.
  destruct (move_phase_spec tape p prev t Hj) as (-> & _).
  apply Wf_put_position; [by apply Wf_add_money |].
  replace (board_size (add_money _ _ _)) with (board_size (t_env t)) by reflexivity.
  rewrite (wf_board_size _ H).
  pose proof (die_range tape (t_cursor t)).
  pose proof (die_range tape (S (t_cursor t))).
  apply Z.rem_bound_pos; unfold BOARD_SIZE; lia.
Qed.

Lemma move_phase_config tape p prev t :
  same_config (t_env t) (t_env (move_phase tape p prev t)).
Proof.
  unfold move_phase. rewrite !roll_die_eq. cbv zeta.
  destruct (_ && negb (prev =? _)); by repeat split.
Qed.

Lemma move_phase_done tape p prev t :
  done (t_env (move_phase tape p prev t)) = done (t_env t)
  /\ properties (t_env (move_phase tape p prev t)) = properties (t_env t).
Proof.
  unfold move_phase. rewrite !roll_die_eq. cbv zeta.
  by destruct (_ && negb (prev =? _)).
Qed.

(** ** The stages of a step *)

Lemma turn_stages_Some tape e c action st :
  turn_stages tape e c action = Some st ->
  done e = false
  /\ jail_phase tape e c action = inr (at_start st)
  /\ at_move st = move_phase tape (current_player e) (pos_of e (current_player e)) (at_start st)
  /\ at_card st = card_phase tape (current_player e) (at_move st)
  /\ at_square st = square_phase (current_player e) action (at_card st)
  /\ at_end st = bankruptcy_phase (current_player e) (at_square st).
Proof.
  unfold turn_stages. destruct (done e); [done |].
  destruct (jail_phase tape e c action) as [out | t0]; [done |].
  intros [= <-]. by cbn.
Qed.

Lemma step_of_stages tape e c action st :
  turn_stages tape e c action = Some st ->
  step_monopoly_env tape e c action
  = finalize (current_player e) (pos_of e (current_player e))
             (money_of e (current_player e)) action (at_end st).
Proof.
  intros Hst. destruct (turn_stages_Some _ _ _ _ _ Hst) as (Hd & Hj & Hm & Hc & Hs & He).
  unfold step_monopoly_env, play_turn. rewrite Hd, Hj. cbv zeta.
  by rewrite He, Hs, Hc, Hm.
Qed.

(** C8: in a step that reaches the roll, the cash of the player to move
    grows by the pass-GO credit exactly when the square reached by the roll
    has a smaller index than the square the roll started from and that
    square is not the jail square; otherwise the roll leaves the cash as it
    is.  The credit is also what the roll adds to the reward.  The stage
    after the roll is the one [step_monopoly_env] goes through: the step is
    the card, square and bankruptcy sections and the final bookkeeping
    applied to it. *)
Theorem pass_go_credit (tape : Tape) (e : MonopolyEnv) (c : nat) (action : Z)
    (st : Stages) :
  wf_env e = true ->
  turn_stages tape e c action = Some st ->
  let p := current_player e in
  let prev := pos_of e p in
  let landed := pos_of (t_env (at_move st)) p in
  let credit :=
    if (landed <? prev) && negb (prev =? jail_position e) then go_reward e else 0 in
  landed = Z.rem (prev + dice_total (at_move st)) (board_size e)
  /\ movement_delta st p = credit
  /\ current_step_reward (at_move st) = credit
  /\ at_move st = move_phase tape p prev (at_start st)
  /\ step_monopoly_env tape e c action
     = finalize p prev (money_of e p) action
         (bankruptcy_phase p
            (square_phase p action (card_phase tape p (at_move st)))).
Proof.
  intros Hwf Hst p prev landed credit.
  apply wf_env_iff in Hwf.
  destruct (turn_stages_Some _ _ _ _ _ Hst) as (Hd & Hj & Hm & Hcd & Hsq & Hend).
  destruct (jail_phase_inr _ _ _ _ _ Hj)
    as (Hcfg & HWf & Hjail & Hpos & _ & _ & Hcsr & _).
  specialize (HWf Hwf).
  destruct (valid_player_later _ _ Hwf Hcfg HWf) as (Hp1 & Hp2 & _).
  destruct Hcfg as (Hgo & Hbs & Hjp & _).
  destruct (move_phase_spec tape p prev (at_start st) Hjail)
    as (Henv & _ & Hcsr' & _ & _ & _ & _ & Hdice & Hland & _).
  assert (step_monopoly_env tape e c action
          = finalize p prev (money_of e p) action
              (bankruptcy_phase p
                 (square_phase p action (card_phase tape p (at_move st))))) as Hstep.
  { rewrite (step_of_stages _ _ _ _ _ Hst). fold p prev. by rewrite Hend, Hsq, Hcd. }
  fold p prev in Hm. rewrite <- Hm in Henv, Hcsr', Hdice, Hland.
  rewrite Hgo, Hbs, Hjp in *.
  assert (landed = Z.rem (prev + dice_total (at_move st)) (board_size e)) as Hl.
  { unfold landed. rewrite Henv, pos_put_position, Hdice; [done |].
    replace (positions (add_money _ _ _)) with (positions (t_env (at_start st)))
      by reflexivity.
    done. }
  rewrite Hdice in Hl. rewrite <- Hl in *.
  split_and!.
  - by rewrite Hdice.
  - unfold movement_delta, cash. rewrite Henv, cash_put_position, cash_add_money by lia.
    fold credit. lia.
  - rewrite Hcsr', Hcsr. done.
  - exact Hm.
  - exact Hstep.
Qed.

Lemma pass_go_credit_witness :
  wf_env game2_at_35 = true
  /\ exists st,
       turn_stages (tape_of [2; 3]%N) game2_at_35 0 0 = Some st
       /\ movement_delta st 0 = 200
       /\ step_monopoly_env (tape_of [2; 3]%N) game2_at_35 0 0
          = finalize 0 35 1500 0
              (bankruptcy_phase 0
                 (square_phase 0 0 (card_phase (tape_of [2; 3]%N) 0 (at_move st)))).
Proof.
  split; [reflexivity |].
  eexists. split; [vm_compute; reflexivity |].
  match goal with
  | |- context [at_move ?st] =>
      destruct (pass_go_credit (tape_of [2; 3]%N) game2_at_35 0 0 st)
        as (_ & H2 & _ & _ & H5); [reflexivity | reflexivity |]
  end.
  split; [exact H2 | exact H5].
Defined.

(** ** Release from jail at the turn limit *)

(** C7 (counterexample): player 0 is in jail on square 10, on his third turn
    there.  The jail dice are 1 and 2, the next two dice 2 and 3: the player
    ends on square 15, five squares on, not on square 13 where the jail dice
    would take him. *)
Lemma jail_release_rolls_again :
  jailed game2_in_jail 0 = true
  /\ jail_turns game2_in_jail <= jail_counter game2_in_jail 0 + 1
  /\ die (tape_of [0; 1; 1; 2]%N) 0 = 1
  /\ die (tape_of [0; 1; 1; 2]%N) 1 = 2
  /\ pos_of (out_env (step_monopoly_env (tape_of [0; 1; 1; 2]%N) game2_in_jail 0 0)) 0
     = 15
  /\ log_dice_roll (res_log (out_result
       (step_monopoly_env (tape_of [0; 1; 1; 2]%N) game2_in_jail 0 0))) = 5
  /\ pos_of (out_env (step_monopoly_env (tape_of [0; 1; 1; 2]%N) game2_in_jail 0 0)) 0
     <> Z.rem (pos_of game2_in_jail 0
               + (die (tape_of [0; 1; 1; 2]%N) 0 + die (tape_of [0; 1; 1; 2]%N) 1))
              (board_size game2_in_jail).
Proof. by vm_compute. Qed.

(** C7 (amended): when the player to move is in jail, the turn counter
    reaches the limit with this turn and the two jail dice differ, the player
    is released, 50 is debited as a fee, and the turn goes on the same step
    with two dice rolled anew, the next two draws of the tape: the player
    moves by their sum, and the card, square and bankruptcy sections
    follow. *)
Theorem jail_turn_limit_release (tape : Tape) (e : MonopolyEnv) (c : nat)
    (action : Z) :
  wf_env e = true ->
  done e = false ->
  jailed e (current_player e) = true ->
  jail_turns e <= jail_counter e (current_player e) + 1 ->
  die tape c <> die tape (S c) ->
  exists st,
    turn_stages tape e c action = Some st
    /\ jailed (t_env (at_start st)) (current_player e) = false
    /\ jail_counter (t_env (at_start st)) (current_player e) = 0
    /\ jail_fee_delta e st (current_player e) = -50
    /\ fee_paid_this_turn (at_start st) = 50
    /\ dice_total (at_move st) = die tape (S (S c)) + die tape (S (S (S c)))
    /\ pos_of (t_env (at_move st)) (current_player e)
       = Z.rem (pos_of e (current_player e) + dice_total (at_move st)) (board_size e)
    /\ step_monopoly_env tape e c action
       = finalize (current_player e) (pos_of e (current_player e))
           (money_of e (current_player e)) action
           (bankruptcy_phase (current_player e)
              (square_phase (current_player e) action
                 (card_phase tape (current_player e) (at_move st)))).
Proof.
  intros Hwf Hd Hj Hlim Hdice. apply wf_env_iff in Hwf.
  set (p := current_player e) in *.
  destruct (valid_player _ Hwf) as (Hp1 & Hp2 & Hp3 & Hp4). fold p in Hp1, Hp2, Hp3, Hp4.
  assert (jail_counter (put_jail_counter p (jail_counter e p + 1) e) p
          = jail_counter e p + 1) as Hcnt.
  { env_goal. by rewrite rd_wr_eq. }
  pose proof (jail_phase_cases tape e c action) as Hcases.
  cbv zeta in Hcases. fold p in Hcases.
  destruct Hcases
    as [[Hj' _] | [(_ & Heq & _) | [(_ & _ & _ & H) | (_ & _ & Hlt & _)]]];
    try congruence; try lia.
  unfold turn_stages. rewrite Hd, H. fold p. eexists. split; [reflexivity |].
  cbn [at_start at_move at_card at_square at_end].
  set (t0 := mkTurn _ _ _ _ _ _ _ _ _ _) in *.
  assert (jailed (t_env t0) p = false) as Hout.
  { unfold t0. env_goal. by rewrite rd_wr_eq by (rewrite ?length_wr; lia). }
  destruct (move_phase_spec tape p (pos_of e p) t0 Hout)
    as (Henv & _ & _ & _ & _ & _ & _ & Htot & _).
  split_and!.
  - done.
  - unfold t0. env_goal. by rewrite rd_wr_eq by (rewrite ?length_wr; lia).
  - unfold jail_fee_delta. cbn [at_start]. unfold t0. env_goal.
    rewrite rd_wr_eq by done. lia.
  - done.
  - by rewrite Htot.
  - rewrite Henv, pos_put_position, Htot; [done |]. unfold t0. exact Hp1.
  - unfold step_monopoly_env, play_turn. by rewrite Hd, H.
Qed.

Lemma jail_turn_limit_release_witness :
  wf_env game2_in_jail = true
  /\ exists st,
       turn_stages (tape_of [0; 1; 1; 2]%N) game2_in_jail 0 0 = Some st
       /\ jail_fee_delta game2_in_jail st 0 = -50
       /\ dice_total (at_move st) = 5.
Proof.
  split; [reflexivity |].
  destruct (jail_turn_limit_release (tape_of [0; 1; 1; 2]%N) game2_in_jail 0 0)
    as (st & H1 & _ & _ & H4 & _ & H6 & _);
    [reflexivity | reflexivity | reflexivity | by vm_compute | by vm_compute |].
  exists st. split_and!; [exact H1 | exact H4 | exact H6].
Defined.

(** ** The cards *)

Lemma run_effect_reward f e p :
  0 <= p < Z.of_nat (length (money e)) ->
  money_of (fst (run_effect f e p)) p = money_of e p + snd (run_effect f e p).
Proof.
  intros Hp. destruct f; simpl; try by apply cash_add_money.
  - unfold advance_to_go. destruct (negb _); simpl.
    + by rewrite cash_add_money.
    + rewrite cash_put_position. lia.
  - unfold money_of. simpl. lia.
Qed.

Lemma run_effect_keeps f e p :
  done (fst (run_effect f e p)) = done e
  /\ properties (fst (run_effect f e p)) = properties e
  /\ length (money (fst (run_effect f e p))) = length (money e).
Proof.
  destruct f; simpl; unfold advance_to_go; try destruct (negb _); simpl;
    rewrite ?length_wr; done.
Qed.

Lemma run_effect_pos f e p :
  Wf e -> 0 <= p < num_players e ->
  0 <= pos_of (fst (run_effect f e p)) p < board_size e.
Proof.
  intros H Hp.
  pose proof (same_config_run_effect f e p) as (_ & Hb & _ & _ & _ & Hn & _).
  rewrite <- Hb. apply (wf_positions _ (Wf_run_effect f e p H)). by rewrite Hn.
Qed.

Lemma card_phase_cases tape p t :
  card_phase tape p t = t
  \/ exists drawn c', card_phase tape p t = apply_card p drawn c' t.
Proof.
  unfold card_phase.
  destruct (is_chance_position (pos t)).
  - destruct (draw_card _ _ _) as [drawn c']. right. eauto.
  - destruct (is_chest_position (pos t)); [| by left].
    destruct (draw_card _ _ _) as [drawn c']. right. eauto.
Qed.

Lemma apply_card_spec p drawn c' t :
  let t' := apply_card p drawn c' t in
  t_env t' = fst (run_effect (effect drawn) (t_env t) p)
  /\ current_step_reward t' = current_step_reward t
  /\ card_reward_contribution t'
     = card_reward_contribution t + snd (run_effect (effect drawn) (t_env t) p)
  /\ fee_paid_this_turn t' = fee_paid_this_turn t
  /\ pos t' = pos_of (t_env t') p.
Proof.
  unfold apply_card. by destruct (run_effect _ _ _) as [e1 r].
Qed.

Lemma card_phase_spec tape p t :
  0 <= p < Z.of_nat (length (money (t_env t))) ->
  pos t = pos_of (t_env t) p ->
  let t' := card_phase tape p t in
  same_config (t_env t) (t_env t')
  /\ (Wf (t_env t) -> Wf (t_env t'))
  /\ done (t_env t') = done (t_env t)
  /\ properties (t_env t') = properties (t_env t)
  /\ length (money (t_env t')) = length (money (t_env t))
  /\ current_step_reward t' = current_step_reward t
  /\ card_reward_contribution t' - card_reward_contribution t = cash t' p - cash t p
  /\ fee_paid_this_turn t' = fee_paid_this_turn t
  /\ pos t' = pos_of (t_env t') p.
Proof.
  intros Hp Hpos t'. unfold t'.
  destruct (card_phase_cases tape p t) as [-> | (drawn & c' & ->)].
  - split_and!; try done; lia.
  - unfold cash.
    destruct (apply_card_spec p drawn c' t) as (-> & -> & -> & -> & ->).
    destruct (run_effect_keeps (effect drawn) (t_env t) p) as (Hd & Hpr & Hlen).
    split_and!; try done.
    + apply same_config_run_effect.
    + apply Wf_run_effect.
    + rewrite run_effect_reward by done. lia.
Qed.

(** ** The square section *)

Ltac square_cases :=
  unfold square_phase; cbv zeta;
  repeat match goal with
         | |- context [if ?b then _ else _] => destruct b eqn:?
         end.

Lemma square_phase_config p action t :
  same_config (t_env t) (t_env (square_phase p action t)).
Proof. square_cases; by repeat split. Qed.

Lemma square_phase_done p action t :
  done (t_env (square_phase p action t)) = done (t_env t)
  /\ length (money (t_env (square_phase p action t))) = length (money (t_env t))
  /\ t_cursor (square_phase p action t) = t_cursor t.
Proof. square_cases; env_unfold; rewrite ?length_wr; done. Qed.

Lemma Wf_buy_property e p ps :
  Wf e -> 0 <= p < num_players e ->
  0 < price (prop_at e ps) -> owner (prop_at e ps) = -1 ->
  Wf (put_houses ps 0 (put_owner ps p e)).
Proof.
  intros H Hp Hprice Hown.
  assert (0 <= ps < Z.of_nat (length (properties e))) as Hps.
  { destruct (decide (0 <= ps < Z.of_nat (length (properties e)))); [done |].
    unfold prop_at in Hprice. rewrite rd_out in Hprice by done. by cbn in Hprice. }
  assert (0 <= ps < board_size e) as Hps'.
  { rewrite (wf_board_size e H), <- (wf_len_properties e H). done. }
  pose proof (wf_squares e H ps Hps') as Hs. unfold SquareOk in Hs. cbv zeta in Hs.
  assert (Wf (put_owner ps p e)) as H1.
  { apply Wf_put_square; [done |]. intros _. unfold SquareOk.
    rewrite prop_at_put_square by done. env_unfold. lia. }
  unfold put_houses. apply Wf_put_square; [done |]. intros _. unfold SquareOk.
  rewrite prop_at_put_square by (env_unfold; by rewrite length_wr).
  env_unfold. rewrite rd_wr_eq by done. cbn. lia.
Qed.

Lemma Wf_buy_house e p ps :
  Wf e -> 0 <= p ->
  owner (prop_at e ps) = p ->
  0 < house_cost (prop_at e ps) ->
  houses (prop_at e ps) < 5 ->
  Wf (put_houses ps (houses (prop_at e ps) + 1) e).
Proof.
  intros H Hp Hown Hcost Hh.
  apply Wf_put_square; [done |]. intros Hps.
  pose proof (wf_squares e H ps Hps) as Hs. unfold SquareOk in *. cbv zeta in *.
  rewrite prop_at_put_square
    by (rewrite (wf_len_properties e H), <- (wf_board_size e H); done).
  env_unfold. lia.
Qed.

(** Boolean tests of the code as propositions. *)
Ltac prop_of_bool :=
  repeat match goal with
         | H : (_ && _) = true |- _ => apply andb_true_iff in H; destruct H
         | H : negb _ = true |- _ => apply negb_true_iff in H
         | H : negb _ = false |- _ => apply negb_false_iff in H
         | H : (_ =? _) = true |- _ => apply Z.eqb_eq in H
         | H : (_ =? _) = false |- _ => apply Z.eqb_neq in H
         | H : (_ <? _) = true |- _ => apply Z.ltb_lt in H
         | H : (_ <? _) = false |- _ => apply Z.ltb_ge in H
         | H : (_ <=? _) = true |- _ => apply Z.leb_le in H
         | H : (_ <=? _) = false |- _ => apply Z.leb_gt in H
         | H : (_ >? _) = true |- _ => rewrite Z.gtb_ltb in H; apply Z.ltb_lt in H
         | H : (_ >? _) = false |- _ => rewrite Z.gtb_ltb in H; apply Z.ltb_ge in H
         | H : (_ >=? _) = true |- _ => rewrite Z.geb_leb in H; apply Z.leb_le in H
         | H : (_ >=? _) = false |- _ => rewrite Z.geb_leb in H; apply Z.leb_gt in H
         end.

Lemma square_phase_Wf p action t :
  Wf (t_env t) -> 0 <= p < num_players (t_env t) ->
  Wf (t_env (square_phase p action t)).
Proof.
  intros H Hp. square_cases; try done; cbn [t_env]; prop_of_bool.
  - by apply Wf_go_to_jail.
  - by apply Wf_add_money.
  - apply Wf_buy_property.
    + by apply Wf_add_money.
    + done.
    + change (0 < price (prop_at (t_env t) (pos t))). lia.
    + change (owner (prop_at (t_env t) (pos t)) = -1). lia.
  - by apply Wf_add_money, Wf_add_money.
  - by apply Wf_add_money.
  - unfold with_env. cbn [t_env]. apply Wf_add_money.
    apply (Wf_buy_house _ p); try lia; done.
Qed.

Lemma priced_square_in_board e ps :
  0 < price (prop_at e ps) -> 0 <= ps < Z.of_nat (length (properties e)).
Proof.
  intros Hprice.
  destruct (decide (0 <= ps < Z.of_nat (length (properties e)))); [done |].
  unfold prop_at in Hprice. rewrite rd_out in Hprice by done. by cbn in Hprice.
Qed.

(** What the square section adds to the two reward accumulators, rule by
    rule, against what it does to the cash of the player. *)
Lemma square_phase_reward p action t :
  0 <= p < Z.of_nat (length (money (t_env t))) ->
  let t' := square_phase p action t in
  let delta := cash t' p - cash t p in
  let csr := current_step_reward t' - current_step_reward t in
  let crc := card_reward_contribution t' - card_reward_contribution t in
  match square_rule (t_env t) p (pos t) with
  | GoToJailSquare => csr = 0 /\ crc = 0 /\ delta = 0
  | TaxSquare => csr = 0 /\ crc = delta
  | UnownedSquare =>
      crc = 0
      /\ csr = if owner (prop_at (t_env t') (pos t)) =? p then 100 else 0
  | OpponentSquare => csr = 0 /\ crc = delta
  | OwnSquare => csr = 0 /\ crc = 0
  | OtherSquare => csr = 0 /\ crc = 0 /\ delta = 0
  end.
Proof.
  intros Hp. cbv zeta. unfold square_rule, square_phase. cbv zeta.
  repeat match goal with
         | |- context [if ?b then _ else _] =>
             lazymatch b with
             | (owner (prop_at (t_env _) _) =? p) => fail
             | _ => destruct b eqn:?
             end
         end;
    cbn [t_env current_step_reward card_reward_contribution fst snd go_to_jail];
    prop_of_bool; unfold cash, with_env;
    cbn [t_env current_step_reward card_reward_contribution];
    try (split_and!; lia).
  - (* the Go To Jail square *)
    split_and!; try lia. env_unfold. lia.
  - (* the fee *)
    rewrite cash_add_money by done. split; lia.
  - (* the purchase *)
    match goal with H : 0 < price _ |- _ => pose proof (priced_square_in_board _ _ H) end.
    split; [lia |].
    env_unfold. rewrite !rd_wr_eq by (rewrite ?length_wr; lia). cbn.
    rewrite Z.eqb_refl. lia.
  - (* no purchase: the action *)
    split; [lia |].
    destruct (Z.eqb_spec (owner (prop_at (t_env t) (pos t))) p); lia.
  - (* no purchase: the price *)
    split; [lia |].
    destruct (Z.eqb_spec (owner (prop_at (t_env t) (pos t))) p); lia.
  - (* the rent, handed to the owner *)
    rewrite cash_add_money_ne by lia.
    rewrite cash_add_money by done. split; lia.
  - (* the rent, owner out of range *)
    rewrite cash_add_money by done. split; lia.
Qed.

(** ** The bankruptcy check keeps the environment well formed *)

Lemma Wf_put_houses_zero e i : Wf e -> Wf (put_houses i 0 e).
Proof.
  intros H. apply Wf_put_square; [done |]. intros Hi.
  pose proof (wf_squares e H i Hi) as Hs. unfold SquareOk in *. cbv zeta in *.
  rewrite prop_at_put_square
    by (rewrite (wf_len_properties e H), <- (wf_board_size e H); done).
  env_unfold. lia.
Qed.

Lemma Wf_put_owner_none e i :
  Wf e -> houses (prop_at e i) = 0 -> Wf (put_owner i (-1) e).
Proof.
  intros H Hh. apply Wf_put_square; [done |]. intros Hi.
  pose proof (wf_squares e H i Hi) as Hs. unfold SquareOk in *. cbv zeta in *.
  rewrite prop_at_put_square
    by (rewrite (wf_len_properties e H), <- (wf_board_size e H); done).
  env_unfold. pose proof (wf_num_players e H). lia.
Qed.

Lemma cash_add_money_ge e p x :
  0 <= x -> money_of e p <= money_of (add_money p x e) p.
Proof.
  intros Hx. destruct (decide (0 <= p < Z.of_nat (length (money e)))).
  - rewrite cash_add_money by done. lia.
  - env_unfold. rewrite wr_out by done. lia.
Qed.

Lemma sell_houses_body_inv e0 p i s :
  liquidation_inv e0 p s -> liquidation_inv e0 p (fst (sell_houses_body p i s)).
Proof.
  destruct s as [e r]. unfold liquidation_inv, sell_houses_body. cbn [fst snd].
  intros (HWf & Hcfg & Hd & Hlen & Hr).
  repeat match goal with
         | |- context [if ?b then _ else _] => destruct b eqn:?
         end; cbn [fst snd]; try (by split_and!); prop_of_bool;
    (split_and!;
     [ by apply Wf_put_houses_zero, Wf_add_money
     | eapply same_config_trans; [exact Hcfg |]; by repeat split
     | done
     | env_unfold; by rewrite length_wr
     | intros Hx;
       first [ lia
             | specialize (Hr Hx);
               change (0 <= money_of (add_money p
                 (houses (prop_at e i) * Z.quot (house_cost (prop_at e i)) 2) e) p);
               etrans; [exact Hr |]; apply cash_add_money_ge;
               apply Z.mul_nonneg_nonneg; [lia |]; apply Z.quot_pos; lia ] ]).
Qed.

Lemma sell_properties_body_inv e0 p i s :
  liquidation_inv e0 p s -> liquidation_inv e0 p (fst (sell_properties_body p i s)).
Proof.
  destruct s as [e r]. unfold liquidation_inv, sell_properties_body. cbn [fst snd].
  intros (HWf & Hcfg & Hd & Hlen & Hr).
  repeat match goal with
         | |- context [if ?b then _ else _] => destruct b eqn:?
         end; cbn [fst snd]; try (by split_and!); prop_of_bool;
    (split_and!;
     [ apply Wf_put_owner_none; [by apply Wf_add_money | done]
     | eapply same_config_trans; [exact Hcfg |]; by repeat split
     | done
     | env_unfold; by rewrite length_wr
     | intros Hx;
       first [ lia
             | specialize (Hr Hx);
               change (0 <= money_of (add_money p (Z.quot (price (prop_at e i)) 2) e) p);
               etrans; [exact Hr |]; apply cash_add_money_ge; apply Z.quot_pos; lia ] ]).
Qed.

Lemma liquidate_inv p e :
  Wf e -> liquidation_inv e p (liquidate p e).
Proof.
  intros H. unfold liquidate, sell_properties, sell_houses.
  assert (liquidation_inv e p
            (for_range_break 0 (board_size e) (sell_houses_body p) (e, false))) as H1.
  { apply (for_range_break_inv (liquidation_inv e p)).
    - unfold liquidation_inv. by split_and!.
    - intros j s' _. apply sell_houses_body_inv. }
  destruct (negb _ && _); [| done].
  apply (for_range_break_inv (liquidation_inv e p)); [done |].
  intros j s' _. apply sell_properties_body_inv.
Qed.

Lemma bankruptcy_phase_spec p t :
  Wf (t_env t) -> done (t_env t) = false ->
  let t' := bankruptcy_phase p t in
  Wf (t_env t')
  /\ same_config (t_env t) (t_env t')
  /\ length (money (t_env t')) = length (money (t_env t))
  /\ current_step_reward t' = current_step_reward t
  /\ card_reward_contribution t'
     = card_reward_contribution t + bankruptcy_penalty (t_env t')
  /\ fee_paid_this_turn t' = fee_paid_this_turn t
  /\ t_cursor t' = t_cursor t
  /\ (done (t_env t') = false -> 0 <= money_of (t_env t') p).
Proof.
  intros H Hd. cbv zeta. unfold bankruptcy_phase, bankruptcy_penalty.
  destruct (Z.ltb_spec (money_of (t_env t) p) 0); rewrite Hd; cbn [andb negb].
  - destruct (liquidate_inv p (t_env t) H) as (HWf & Hcfg & Hd' & Hlen & Hr).
    destruct (liquidate p (t_env t)) as [e1 r]. cbn [fst snd] in *.
    destruct (negb r && (money_of e1 p <? 0)) eqn:Hverdict.
    + cbn [t_env current_step_reward card_reward_contribution fee_paid_this_turn
           t_cursor].
      pose proof (same_config_forfeit_all p (set_done true e1)) as Hf.
      assert (done (forfeit_all p (set_done true e1)) = true) as Hdone.
      { unfold forfeit_all.
        apply (for_range_inv (fun e => done e = true)); [done |].
        intros j s' _. unfold forfeit_square. by destruct (_ =? _). }
      assert (length (money (forfeit_all p (set_done true e1)))
              = length (money e1)) as Hlen'.
      { unfold forfeit_all.
        apply (for_range_inv (fun e => length (money e) = length (money e1)));
          [done |].
        intros j s' _. unfold forfeit_square. by destruct (_ =? _). }
      rewrite Hdone. split_and!; try done.
      * by apply Wf_forfeit_all, Wf_set_done.
      * eapply same_config_trans; [exact Hcfg |].
        eapply same_config_trans; [| exact Hf]. by repeat split.
      * congruence.
    + unfold with_env.
      cbn [t_env current_step_reward card_reward_contribution fee_paid_this_turn
           t_cursor].
      rewrite Hd', Hd. split_and!; try done; try lia.
      intros _. destruct r; [by apply Hr |].
      cbn [negb andb] in Hverdict. prop_of_bool. lia.
  - rewrite Hd. split_and!; try done; lia.
Qed.

(** ** The stages of a step, together *)

Lemma stages_facts tape e c action st :
  Wf e ->
  turn_stages tape e c action = Some st ->
  let p := current_player e in
  (Wf (t_env (at_start st)) /\ same_config e (t_env (at_start st))
   /\ done (t_env (at_start st)) = false)
  /\ (Wf (t_env (at_move st)) /\ same_config e (t_env (at_move st))
      /\ done (t_env (at_move st)) = false
      /\ pos (at_move st) = pos_of (t_env (at_move st)) p)
  /\ (Wf (t_env (at_card st)) /\ same_config e (t_env (at_card st))
      /\ done (t_env (at_card st)) = false
      /\ pos (at_card st) = pos_of (t_env (at_card st)) p)
  /\ (Wf (t_env (at_square st)) /\ same_config e (t_env (at_square st))
      /\ done (t_env (at_square st)) = false)
  /\ (Wf (t_env (at_end st)) /\ same_config e (t_env (at_end st))).
Proof.
  intros Hwf Hst p.
  destruct (turn_stages_Some _ _ _ _ _ Hst) as (Hd & Hj & Hm & Hc & Hs & He).
  fold p in Hm, Hc, Hs, He.
  destruct (jail_phase_inr _ _ _ _ _ Hj)
    as (Hcfg0 & HWf0 & Hjail & Hpos & _ & Hd0 & _).
  specialize (HWf0 Hwf). rewrite Hd in Hd0. fold p in Hjail.
  assert (0 <= pos_of e p) as Hprev by (apply (wf_positions e Hwf), Hwf).
  (* the roll *)
  pose proof (move_phase_Wf tape p (pos_of e p) _ Hjail Hprev HWf0) as HWf1.
  pose proof (move_phase_config tape p (pos_of e p) (at_start st)) as Hcfg1.
  destruct (move_phase_done tape p (pos_of e p) (at_start st)) as (Hd1 & _).
  destruct (move_phase_spec tape p (pos_of e p) _ Hjail) as (_ & _ & _ & _ & _ & _ & _ & _ & _ & Hp1).
  rewrite <- Hm in HWf1, Hcfg1, Hd1, Hp1. rewrite Hd0 in Hd1.
  pose proof (same_config_trans _ _ _ Hcfg0 Hcfg1) as Hc1.
  (* the card *)
  destruct (valid_player_later _ _ Hwf Hc1 HWf1) as (_ & Hm1 & _). fold p in Hm1.
  destruct (card_phase_spec tape p (at_move st) Hm1 Hp1)
    as (Hcfg2 & HWf2 & Hd2 & _ & _ & _ & _ & _ & Hp2).
  rewrite <- Hc in Hcfg2, HWf2, Hd2, Hp2. specialize (HWf2 HWf1). rewrite Hd1 in Hd2.
  pose proof (same_config_trans _ _ _ Hc1 Hcfg2) as Hc2.
  (* the square *)
  assert (0 <= p < num_players (t_env (at_card st))) as Hpn.
  { destruct Hc2 as (_ & _ & _ & _ & _ & -> & _). apply Hwf. }
  pose proof (square_phase_Wf p action _ HWf2 Hpn) as HWf3.
  pose proof (square_phase_config p action (at_card st)) as Hcfg3.
  destruct (square_phase_done p action (at_card st)) as (Hd3 & _).
  rewrite <- Hs in HWf3, Hcfg3, Hd3. rewrite Hd2 in Hd3.
  pose proof (same_config_trans _ _ _ Hc2 Hcfg3) as Hc3.
  (* the bankruptcy check *)
  destruct (bankruptcy_phase_spec p _ HWf3 Hd3) as (HWf4 & Hcfg4 & _).
  rewrite <- He in HWf4, Hcfg4.
  pose proof (same_config_trans _ _ _ Hc3 Hcfg4) as Hc4.
  by split_and!.
Qed.

Lemma finalize_spec p prev m action t :
  let o := finalize p prev m action t in
  reward (out_result o) = current_step_reward t + card_reward_contribution t
  /\ res_done (out_result o) = done (t_env t)
  /\ done (out_env o) = done (t_env t)
  /\ properties (out_env o) = properties (t_env t)
  /\ money (out_env o) = money (t_env t)
  /\ positions (out_env o) = positions (t_env t)
  /\ out_cursor o = t_cursor t
  /\ (Wf (t_env t) -> Wf (out_env o)).
Proof.
  cbv zeta. unfold finalize. cbv zeta. cbn [out_result out_env out_cursor fst snd reward res_done].
  replace (done (set_last_log _ _)) with (done (t_env t)) by reflexivity.
  destruct (done (t_env t)) eqn:Hd; cbn [negb]; split_and!; try done;
    try exact Hd.
  - intros H. by apply Wf_set_last_log, Wf_set_steps_taken.
  - intros H. by apply Wf_next_player, Wf_set_last_log, Wf_set_steps_taken.
Qed.

(** A step keeps the environment well formed. *)
Lemma step_Wf tape e c action :
  Wf e -> Wf (out_env (step_monopoly_env tape e c action)).
Proof.
  intros H. destruct (turn_stages tape e c action) as [st |] eqn:Hst.
  - rewrite (step_of_stages _ _ _ _ _ Hst).
    apply finalize_spec.
    by destruct (stages_facts _ _ _ _ _ H Hst) as (_ & _ & _ & _ & ? & _).
  - unfold step_monopoly_env. unfold turn_stages in Hst.
    destruct (done e); [done |].
    destruct (jail_phase tape e c action) as [out | t0] eqn:Hj; [| done].
    by apply (jail_phase_inl _ _ _ _ _ Hj).
Qed.

(** ** Fresh and reset environments, and runs *)

Lemma Wf_new_env n start go :
  1 <= n <= MAX_PLAYERS -> Wf (new_env n start go).
Proof.
  intros Hn. unfold MAX_PLAYERS in Hn. apply wf_env_iff.
  assert (n = 1 \/ n = 2 \/ n = 3 \/ n = 4 \/ n = 5 \/ n = 6 \/ n = 7 \/ n = 8)
    as Hcases by lia.
  destruct Hcases as [-> | [-> | [-> | [-> | [-> | [-> | [-> | ->]]]]]]];
    reflexivity.
Qed.

Lemma Wf_create malloc_ok n start go e :
  create_monopoly_env malloc_ok n start go = Some e -> Wf e.
Proof.
  unfold create_monopoly_env.
  destruct (Z.leb_spec n 0), (Z.gtb_spec n MAX_PLAYERS); simpl; try done.
  destruct malloc_ok; simpl; [| done].
  intros [= <-]. apply Wf_new_env. lia.
Qed.

Lemma Wf_reset e : Wf e -> Wf (fst (reset_monopoly_env e)).
Proof.
  intros H. unfold reset_monopoly_env. cbn [fst].
  apply Wf_set_last_log, Wf_set_done, Wf_set_steps_taken.
  assert (Wf (for_range 0 (board_size e) reset_property e)) as H1.
  { apply (for_range_inv Wf); [done |].
    intros j s' _ Hs. by apply Wf_clear_square. }
  set (e1 := for_range 0 (board_size e) reset_property e) in *.
  assert (Wf (for_range 0 (num_players e1) reset_player e1)) as H2.
  { apply (for_range_inv Wf); [done |].
    intros j s' _ Hs. unfold reset_player.
    apply Wf_put_jail_counter, Wf_put_in_jail, Wf_put_money, Wf_put_position;
      [done |].
    rewrite (wf_board_size _ Hs). by compute. }
  apply Wf_set_current_player; [done |].
  pose proof (wf_num_players _ H2). lia.
Qed.

Lemma Wf_run tape calls e c : Wf e -> Wf (fst (run tape calls e c)).
Proof.
  revert e c. induction calls as [| x calls IH]; intros e c H; [done |].
  destruct x as [action |]; cbn [run]; apply IH.
  - by apply step_Wf.
  - by apply Wf_reset.
Qed.

(** C5: in every environment reached from a created one by steps and resets,
    every square has between 0 and 5 houses, and none when it has no
    owner. *)
Theorem house_count_invariant (malloc_ok : bool) (n start go : Z)
    (e : MonopolyEnv) (tape : Tape) (calls : list Call) (c : nat) (i : Z) :
  create_monopoly_env malloc_ok n start go = Some e ->
  0 <= houses (prop_at (fst (run tape calls e c)) i) <= 5
  /\ (owner (prop_at (fst (run tape calls e c)) i) = -1 ->
      houses (prop_at (fst (run tape calls e c)) i) = 0).
Proof.
  intros Hc. pose proof (Wf_create _ _ _ _ _ Hc) as H.
  pose proof (Wf_run tape calls e c H) as Hr.
  set (e' := fst (run tape calls e c)) in *.
  destruct (decide (0 <= i < board_size e')) as [Hi | Hi].
  - pose proof (wf_squares e' Hr i Hi) as Hs. unfold SquareOk in Hs. tauto.
  - unfold prop_at. rewrite rd_out; [by cbn |].
    rewrite (wf_len_properties e' Hr), <- (wf_board_size e' Hr). done.
Qed.

Lemma house_count_invariant_witness :
  create_monopoly_env true 2 1500 200 = Some game2
  /\ 0 <= houses (prop_at (fst (run house_tape house_calls game2 O)) 3) <= 5.
Proof.
  split; [reflexivity |].
  apply (house_count_invariant true 2 1500 200 game2 house_tape house_calls O 3).
  reflexivity.
Defined.

(** ** The reward *)

Lemma jail_phase_reward tape e c action t0 :
  Wf e ->
  jail_phase tape e c action = inr t0 ->
  current_step_reward t0 = 0
  /\ card_reward_contribution t0 = cash t0 (current_player e) - money_of e (current_player e).
Proof.
  intros Hwf Ht. destruct (valid_player e Hwf) as (_ & Hp & _).
  destruct (jail_phase_cases tape e c action)
    as [[Hj H] | [(Hj & _ & H) | [(Hj & _ & _ & H) | (_ & _ & _ & H)]]];
    rewrite H in Ht; inversion Ht; subst t0; clear Ht H;
    unfold cash; cbn [t_env current_step_reward card_reward_contribution].
  - split; [done | lia].
  - split; [done |]. env_unfold. lia.
  - split; [done |]. env_unfold. rewrite rd_wr_eq by done. lia.
Qed.

Lemma move_phase_reward tape p prev t :
  jailed (t_env t) p = false ->
  0 <= p < Z.of_nat (length (money (t_env t))) ->
  let t' := move_phase tape p prev t in
  current_step_reward t' - current_step_reward t = cash t' p - cash t p
  /\ card_reward_contribution t' = card_reward_contribution t
  /\ length (money (t_env t')) = length (money (t_env t)).
Proof.
  intros Hj Hp. cbv zeta.
  destruct (move_phase_spec tape p prev t Hj)
    as (Henv & _ & Hcsr & Hcrc & _).
  unfold cash. rewrite Henv, Hcsr, Hcrc, cash_put_position, cash_add_money by done.
  split_and!; try lia. env_unfold. by rewrite length_wr.
Qed.

Lemma jail_stay_reward e c p prev m action :
  done e = false ->
  let o := jail_stay e c p prev m action 0 0 in
  reward (out_result o) = bankruptcy_penalty (out_env o).
Proof.
  intros Hd. cbv zeta. unfold jail_stay, bankruptcy_penalty.
  replace (done (set_steps_taken _ e)) with (done e) by reflexivity.
  rewrite Hd. cbn [negb]. rewrite andb_true_r.
  destruct (money_of _ p <? 0); cbn [out_result out_env fst snd reward].
  - replace (done (next_player _)) with
      (done (forfeit_all p (set_done true (set_steps_taken (steps_taken e + 1) e))))
      by reflexivity.
    assert (done (forfeit_all p (set_done true (set_steps_taken (steps_taken e + 1) e)))
            = true) as ->; [| done].
    unfold forfeit_all. apply (for_range_inv (fun e => done e = true)); [done |].
    intros j s' _. unfold forfeit_square. by destruct (_ =? _).
  - replace (done (next_player _)) with (done e) by reflexivity. by rewrite Hd.
Qed.

(** C1 (counterexample): in a fresh game player 0 rolls 1 and 2, lands on
    Baltic Avenue and buys it: the reward is 100 although no pass-GO, card,
    tax, rent or house-purchase amount moved and nobody went bankrupt (the 60
    paid for the square are no part of the reward).  In the last step of
    [house_calls] he passes GO for 200 and buys a house for 50: the reward
    is 200, not 150. *)
Lemma reward_is_not_the_sum_of_deltas :
  (exists st,
     turn_stages (tape_of [0; 1]%N) game2 0 1 = Some st
     /\ reward (out_result (step_monopoly_env (tape_of [0; 1]%N) game2 0 1)) = 100
     /\ spec_reward st 0 = 0
     /\ property_purchase_delta st 0 = -60)
  /\ (exists st,
        turn_stages house_tape (fst (run house_tape (removelast house_calls) game2 O))
                    16 1 = Some st
        /\ reward (out_result
             (step_monopoly_env house_tape
                (fst (run house_tape (removelast house_calls) game2 O)) 16 1)) = 200
        /\ movement_delta st 0 = 200
        /\ house_purchase_delta st 0 = -50
        /\ spec_reward st 0 = 150).
Proof.
  split; (eexists; split; [vm_compute; reflexivity |]); by vm_compute.
Qed.

(** C1 (amended): the reward of a step from a non-terminal state is the sum
    of the jail fee, the pass-GO credit, the card amount, the tax and the
    rent paid by the player to move, plus a bonus of 100 when the step buys
    the square, plus the bankruptcy penalty of 1000 when the step ends the
    game.  The price of a bought square and the cost of a bought house
    change the cash but not the reward.  The reward of a turn spent in jail
    is the penalty alone. *)
Theorem reward_decomposition (tape : Tape) (e : MonopolyEnv) (c : nat) (action : Z) :
  wf_env e = true ->
  done e = false ->
  reward (out_result (step_monopoly_env tape e c action))
  = match turn_stages tape e c action with
    | Some st =>
        jail_fee_delta e st (current_player e)
        + movement_delta st (current_player e)
        + card_delta st (current_player e)
        + tax_delta st (current_player e)
        + rent_delta st (current_player e)
        + (if bought_property st (current_player e) then 100 else 0)
    | None => 0
    end
    + bankruptcy_penalty (out_env (step_monopoly_env tape e c action)).
Proof.
  intros Hwf Hd. apply wf_env_iff in Hwf. set (p := current_player e).
  destruct (turn_stages tape e c action) as [st |] eqn:Hst.
  - rewrite (step_of_stages _ _ _ _ _ Hst). fold p.
    destruct (stages_facts _ _ _ _ _ Hwf Hst)
      as ((HW0 & Hc0 & Hd0) & (HW1 & Hc1 & Hd1 & Hp1) & (HW2 & Hc2 & Hd2 & Hp2)
          & (HW3 & Hc3 & Hd3) & _).
    fold p in Hp1, Hp2.
    destruct (turn_stages_Some _ _ _ _ _ Hst) as (_ & Hj & Hm & Hc & Hs & He).
    fold p in Hm, Hc, Hs, He.
    destruct (finalize_spec p (pos_of e p) (money_of e p) action (at_end st))
      as (-> & _ & Hdone & _).
    unfold bankruptcy_penalty at 1. rewrite Hdone. fold (bankruptcy_penalty (t_env (at_end st))).
    (* the bankruptcy check *)
    destruct (bankruptcy_phase_spec p _ HW3 Hd3) as (_ & _ & _ & Hcsr4 & Hcrc4 & _).
    rewrite <- He in Hcsr4, Hcrc4. rewrite Hcsr4, Hcrc4.
    (* the jail section *)
    destruct (jail_phase_reward _ _ _ _ _ Hwf Hj) as (Hcsr0 & Hcrc0). fold p in Hcrc0.
    destruct (jail_phase_inr _ _ _ _ _ Hj) as (_ & _ & Hjail & _). fold p in Hjail.
    (* the roll *)
    destruct (valid_player_later _ _ Hwf Hc0 HW0) as (_ & Hm0 & _). fold p in Hm0.
    destruct (move_phase_reward tape p (pos_of e p) _ Hjail Hm0) as (Hcsr1 & Hcrc1 & Hl1).
    rewrite <- Hm in Hcsr1, Hcrc1, Hl1.
    (* the card *)
    destruct (valid_player_later _ _ Hwf Hc1 HW1) as (_ & Hm1 & _). fold p in Hm1.
    destruct (card_phase_spec tape p (at_move st) Hm1 Hp1)
      as (_ & _ & _ & _ & Hl2 & Hcsr2 & Hcrc2 & _).
    rewrite <- Hc in Hl2, Hcsr2, Hcrc2.
    (* the square *)
    destruct (valid_player_later _ _ Hwf Hc2 HW2) as (_ & Hm2 & _). fold p in Hm2.
    pose proof (square_phase_reward p action (at_card st) Hm2) as Hsq.
    cbv zeta in Hsq. rewrite <- Hs in Hsq.
    unfold jail_fee_delta, movement_delta, card_delta, tax_delta, rent_delta,
      bought_property, square_delta, rule_of.
    destruct (square_rule (t_env (at_card st)) p (pos (at_card st)));
      try (destruct (owner _ =? p)); lia.
  - unfold turn_stages in Hst. unfold step_monopoly_env. rewrite Hd in *.
    pose proof (jail_phase_cases tape e c action) as Hcases. cbv zeta in Hcases.
    destruct Hcases
      as [[_ H] | [(_ & _ & H) | [(_ & _ & _ & H) | (_ & _ & _ & H)]]];
      rewrite H in Hst; try done.
    rewrite H. rewrite jail_stay_reward; [lia | done].
Qed.

Lemma reward_decomposition_witness :
  wf_env game2 = true
  /\ done game2 = false
  /\ reward (out_result (step_monopoly_env (tape_of [0; 1]%N) game2 0 1)) = 100.
Proof.
  split; [reflexivity |]. split; [reflexivity |].
  rewrite (reward_decomposition (tape_of [0; 1]%N) game2 0 1) by reflexivity.
  by vm_compute.
Defined.

(** ** Rent *)









(** ** Action selection *)

(** C2 (counterexample): player 0 stands on Baltic Avenue, which he owns
    without houses, and has 1440, enough for a house of 50.  The agent
    returns Pass and draws nothing, although the epsilon-greedy rule on the
    same tape, with epsilon 1, explores and returns Buy. *)
Lemma no_exploration_on_own_square :
  current_player game2_on_own_square = 0
  /\ jailed game2_on_own_square 0 = false
  /\ owner (prop_at game2_on_own_square (pos_of game2_on_own_square 0)) = 0
  /\ houses (prop_at game2_on_own_square (pos_of game2_on_own_square 0)) < 5
  /\ house_cost (prop_at game2_on_own_square (pos_of game2_on_own_square 0))
     <= money_of game2_on_own_square 0
  /\ select_action_mc glibc_RAND_MAX true explorer own_square_key game2_on_own_square
       (tape_of [0; 1]%N) 0
     = (0, explorer, O)
  /\ epsilon_greedy glibc_RAND_MAX true explorer own_square_key (tape_of [0; 1]%N) 0
     = (1, explorer, 2%nat).
Proof. by vm_compute. Qed.

Lemma coin_range tape c : fst (coin tape c) = 0 \/ fst (coin tape c) = 1.
Proof.
  unfold coin, rand. cbn [fst].
  pose proof (Z.rem_bound_pos (Z.of_N (tape c)) 2). lia.
Qed.

Lemma epsilon_greedy_range RAND_MAX malloc_ok agent k tape c :
  fst (fst (epsilon_greedy RAND_MAX malloc_ok agent k tape c)) = 0
  \/ fst (fst (epsilon_greedy RAND_MAX malloc_ok agent k tape c)) = 1.
Proof.
  unfold epsilon_greedy, rand.
  destruct (Qlt_le_dec _ _).
  - pose proof (coin_range tape (S c)). by destruct (coin tape (S c)).
  - destruct (find_or_create_q_entry _ _ _) as [ht [ref |]].
    + destruct (Qlt_le_dec _ _).
      * pose proof (coin_range tape (S c)). by destruct (coin tape (S c)).
      * destruct (Qlt_le_dec _ _); cbn; auto.
    + pose proof (coin_range tape (S c)). by destruct (coin tape (S c)).
Qed.

(** C2 (amended): the agent returns Pass, without a draw and without
    touching the value table, unless the player to move is out of jail and
    stands on a square of the board that has a price, has no owner and costs
    no more than his cash; on such a square, and only there, it applies the
    epsilon-greedy rule over the two stored action values.  A square owned
    by the player himself is never a decision, whatever its houses and his
    cash.  The action is always Pass (0) or Buy (1).  All this holds whether
    or not the lookup of the rule can allocate an entry. *)
Theorem select_action_gate (RAND_MAX : Z) (malloc_ok : bool) (agent : MonteCarloAgent)
    (k : StateTuple) (e : MonopolyEnv) (tape : Tape) (c : nat) :
  let p := current_player e in
  let sq := prop_at e (pos_of e p) in
  let decision :=
    jailed e p = false /\ 0 <= pos_of e p < board_size e
    /\ 0 < price sq /\ owner sq = -1 /\ price sq <= money_of e p in
  (decision ->
   select_action_mc RAND_MAX malloc_ok agent k e tape c
   = epsilon_greedy RAND_MAX malloc_ok agent k tape c)
  /\ (~ decision -> select_action_mc RAND_MAX malloc_ok agent k e tape c = (0, agent, c))
  /\ (fst (fst (select_action_mc RAND_MAX malloc_ok agent k e tape c)) = 0
      \/ fst (fst (select_action_mc RAND_MAX malloc_ok agent k e tape c)) = 1).
Proof.
  intros p sq decision.
  assert (is_buyable e = true <-> decision) as Hiff.
  { unfold is_buyable, decision. fold p. fold sq.
    destruct (jailed e p); cbn [negb andb].
    - split; [done | by intros [? _]].
    - destruct (Z.geb_spec (pos_of e p) 0), (Z.ltb_spec (pos_of e p) (board_size e));
        cbn [andb]; try (split; [done | intros (_ & ? & _); lia]).
      rewrite !andb_true_iff, Z.gtb_ltb, Z.ltb_lt, Z.eqb_eq, Z.geb_leb, Z.leb_le.
      split; [intros [[? ?] ?] | intros (_ & _ & ? & ? & ?)]; split_and!; done || lia. }
  unfold select_action_mc. split_and!.
  - intros Hd. apply Hiff in Hd. by rewrite Hd.
  - intros Hd. destruct (is_buyable e); [| done]. destruct Hd. by apply Hiff.
  - destruct (is_buyable e); cbn [negb]; [| by left].
    apply epsilon_greedy_range.
Qed.


Lemma select_action_gate_witness :
  select_action_mc glibc_RAND_MAX true explorer own_square_key game2_on_own_square
    (tape_of [0; 1]%N) 0 = (0, explorer, O)
  /\ select_action_mc glibc_RAND_MAX true explorer free_square_key game2_on_free_square
       (tape_of [0; 1]%N) 0
     = (1, explorer, 2%nat).
Proof.
  split.
  - apply (select_action_gate glibc_RAND_MAX true explorer own_square_key
             game2_on_own_square (tape_of [0; 1]%N) 0).
    intros (_ & _ & _ & H & _). by vm_compute in H.
  - rewrite (proj1 (select_action_gate glibc_RAND_MAX true explorer free_square_key
                      game2_on_free_square (tape_of [0; 1]%N) 0));
      by vm_compute.
Defined.

(** ** The hash tables *)

Lemma compare_state_tuples_eq s1 s2 :
  compare_state_tuples s1 s2 = true <-> s1 = s2.
Proof.
  unfold compare_state_tuples. rewrite !andb_true_iff, !Z.eqb_eq.
  destruct s1, s2; cbn. split.
  - intros [[[-> ->] ->] ->]. done.
  - intros [= -> -> -> ->]. done.
Qed.

Lemma compare_state_tuples_refl s : compare_state_tuples s s = true.
Proof. by apply compare_state_tuples_eq. Qed.

Lemma compare_state_tuples_neq s1 s2 :
  compare_state_tuples s1 s2 = false <-> s1 <> s2.
Proof.
  rewrite <- compare_state_tuples_eq. by destruct (compare_state_tuples s1 s2).
Qed.

Lemma compare_visited_keys_eq k1 k2 :
  compare_visited_keys k1 k2 = true <-> k1 = k2.
Proof.
  unfold compare_visited_keys.
  rewrite andb_true_iff, Z.eqb_eq, compare_state_tuples_eq.
  destruct k1, k2; cbn. split.
  - intros [-> ->]. done.
  - intros [= -> ->]. done.
Qed.

Lemma hash_round_range h x sz :
  0 < sz < 2 ^ 32 -> 0 <= hash_round h x sz < sz.
Proof.
  intros Hsz. unfold hash_round, u32.
  rewrite (Z.mod_small sz) by lia. apply Z.mod_pos_bound. lia.
Qed.

Lemma hash_state_tuple_range k sz :
  0 < sz < 2 ^ 32 -> 0 <= hash_state_tuple k sz < sz.
Proof. intros Hsz. unfold hash_state_tuple. by apply hash_round_range. Qed.

Lemma hash_visited_key_range k sz :
  0 < sz < 2 ^ 32 -> 0 <= hash_visited_key k sz < sz.
Proof. intros Hsz. unfold hash_visited_key. by apply hash_round_range. Qed.

(** From here on the hash functions are used through their range only. *)
Opaque hash_round hash_state_tuple hash_visited_key.

Lemma find_in_chain_shift chain k n :
  find_in_chain chain k (S n) = S <$> find_in_chain chain k n.
Proof.
  revert n. induction chain as [| en rest IH]; intros n; simpl; [done |].
  destruct (compare_state_tuples (key en) k); [done | apply IH].
Qed.

Lemma chain_get_cons en rest k :
  chain_get (en :: rest) k
  = if compare_state_tuples (key en) k then Some en else chain_get rest k.
Proof.
  unfold chain_get. simpl.
  destruct (compare_state_tuples (key en) k); [done |].
  rewrite find_in_chain_shift. by destruct (find_in_chain rest k 0).
Qed.

Lemma chain_get_key chain k en : chain_get chain k = Some en -> key en = k.
Proof.
  induction chain as [| en' rest IH]; [done |].
  rewrite chain_get_cons.
  destruct (compare_state_tuples (key en') k) eqn:Hc; [| done].
  intros [= <-]. by apply compare_state_tuples_eq.
Qed.

Lemma chain_get_elem chain k en : chain_get chain k = Some en -> en ∈ chain.
Proof.
  induction chain as [| en' rest IH]; [done |].
  rewrite chain_get_cons.
  destruct (compare_state_tuples (key en') k).
  - intros [= <-]. apply list_elem_of_here.
  - intros H. apply list_elem_of_further. auto.
Qed.

(** Replacing the entry found for [k] by one with the same key. *)
Lemma chain_get_insert chain k n en' k' :
  find_in_chain chain k 0 = Some n ->
  key en' = k ->
  chain_get (<[n := en']> chain) k'
  = if compare_state_tuples k k' then Some en' else chain_get chain k'.
Proof.
  revert n. induction chain as [| en rest IH]; intros n Hfind Hkey; [done |].
  simpl in Hfind.
  destruct (compare_state_tuples (key en) k) eqn:Hc.
  - injection Hfind as <-. simpl. rewrite !chain_get_cons, Hkey.
    apply compare_state_tuples_eq in Hc. rewrite Hc.
    by destruct (compare_state_tuples k k').
  - rewrite find_in_chain_shift in Hfind.
    destruct (find_in_chain rest k 0) as [m |] eqn:Hm; [| done].
    injection Hfind as <-. simpl. rewrite !chain_get_cons.
    rewrite (IH m eq_refl Hkey).
    destruct (compare_state_tuples (key en) k') eqn:Hc'; [| done].
    apply compare_state_tuples_eq in Hc'. subst k'.
    apply compare_state_tuples_neq in Hc.
    destruct (compare_state_tuples k (key en)) eqn:Hc2; [| done].
    apply compare_state_tuples_eq in Hc2. congruence.
Qed.

Lemma find_in_chain_get chain k n :
  find_in_chain chain k 0 = Some n ->
  exists en, chain !! n = Some en /\ chain_get chain k = Some en /\ key en = k.
Proof.
  intros Hfind. unfold chain_get. rewrite Hfind.
  assert (is_Some (chain !! n)) as [en Hen].
  { clear -Hfind. revert n Hfind.
    induction chain as [| en rest IH]; intros n Hfind; [done |].
    simpl in Hfind. destruct (compare_state_tuples (key en) k).
    - injection Hfind as <-. by eexists.
    - rewrite find_in_chain_shift in Hfind.
      destruct (find_in_chain rest k 0) as [m |] eqn:Hm; [| done].
      injection Hfind as <-. simpl. by apply IH. }
  exists en. split_and!; try done.
  apply (chain_get_key chain). unfold chain_get. by rewrite Hfind.
Qed.

Lemma bucket_index ht k :
  TableOk ht ->
  0 <= hash_state_tuple k (size ht) < Z.of_nat (length (table ht)).
Proof.
  intros (Hsz & Hrange & _). rewrite <- Hsz. by apply hash_state_tuple_range.
Qed.

Lemma bucket_elem ht k :
  TableOk ht -> bucket ht k = [] \/ bucket ht k ∈ table ht.
Proof.
  intros Hok. pose proof (bucket_index ht k Hok) as Hi.
  unfold bucket, rd. destruct (Z.ltb_spec (hash_state_tuple k (size ht)) 0); [lia |].
  destruct (table ht !! Z.to_nat (hash_state_tuple k (size ht))) as [chain |] eqn:Hc.
  - right. simpl. by eapply list_elem_of_lookup_2.
  - by left.
Qed.

(** Writing the chain of a key. *)
Lemma bucket_write ht k chain q k' :
  TableOk ht ->
  bucket (mkQTable (wr (table ht) (hash_state_tuple k (size ht)) chain)
                   (size ht) q) k'
  = if hash_state_tuple k (size ht) =? hash_state_tuple k' (size ht)
    then chain else bucket ht k'.
Proof.
  intros Hok. unfold bucket. cbn [table size].
  pose proof (bucket_index ht k Hok) as Hi. revert Hi.
  generalize (hash_state_tuple k (size ht)) (hash_state_tuple k' (size ht)).
  intros i j Hi. by apply rd_wr.
Qed.

Lemma TableOk_write_at ht i chain q :
  TableOk ht ->
  (forall en, en ∈ chain -> length (values en) = 2%nat) ->
  TableOk (mkQTable (wr (table ht) i chain) (size ht) q).
Proof.
  intros (Hsz & Hrange & Hval) Hchain. unfold TableOk. cbn [table size].
  rewrite length_wr. split; [exact Hsz |]. split; [exact Hrange |].
  intros chain' en Hc Hen.
  destruct (decide (0 <= i < Z.of_nat (length (table ht)))) as [Hi | Hi].
  - unfold wr in Hc. destruct (Z.ltb_spec i 0); [lia |].
    apply list_elem_of_lookup in Hc as [j Hj].
    destruct (decide (j = Z.to_nat i)) as [-> | Hne].
    + rewrite list_lookup_insert_eq in Hj by lia. injection Hj as <-. auto.
    + rewrite list_lookup_insert_ne in Hj by done. eapply Hval; [| done].
      by eapply list_elem_of_lookup_2.
  - rewrite wr_out in Hc by done. by eapply Hval.
Qed.

Lemma q_stat_zero a : rd zero_value [zero_value; zero_value] a = zero_value.
Proof.
  unfold rd. destruct (a <? 0); [done |].
  destruct (Z.to_nat a) as [| [| n]]; done.
Qed.

Lemma bucket_eq ht k :
  bucket ht k = rd [] (table ht) (hash_state_tuple k (size ht)).
Proof. unfold bucket. reflexivity. Qed.

(** The three outcomes of [find_or_create_q_entry]. *)
Lemma find_or_create_cases malloc_ok ht k :
  find_or_create_q_entry malloc_ok ht k
  = match find_in_chain (bucket ht k) k 0 with
    | Some n => (ht, Some (hash_state_tuple k (size ht), n))
    | None =>
        if malloc_ok then
          (mkQTable (wr (table ht) (hash_state_tuple k (size ht))
                        (mkEntry k [zero_value; zero_value] :: bucket ht k))
                    (size ht) (q_count ht + 1),
           Some (hash_state_tuple k (size ht), O))
        else (ht, None)
    end.
Proof.
  unfold find_or_create_q_entry, bucket. cbv zeta.
  destruct (find_in_chain _ _ _); [reflexivity |]. by destruct malloc_ok.
Qed.

Lemma find_or_create_unfold ht k :
  lookup_entry ht k
  = match find_in_chain (bucket ht k) k 0 with
    | Some n => (ht, (hash_state_tuple k (size ht), n))
    | None =>
        (mkQTable (wr (table ht) (hash_state_tuple k (size ht))
                      (mkEntry k [zero_value; zero_value] :: bucket ht k))
                  (size ht) (q_count ht + 1),
         (hash_state_tuple k (size ht), O))
    end.
Proof.
  unfold lookup_entry. rewrite find_or_create_cases.
  by destruct (find_in_chain _ _ _).
Qed.

(** A lookup that can allocate returns an entry. *)
Lemma find_or_create_true ht k :
  find_or_create_q_entry true ht k
  = (fst (lookup_entry ht k), Some (snd (lookup_entry ht k))).
Proof.
  rewrite find_or_create_unfold, find_or_create_cases.
  by destruct (find_in_chain _ _ _).
Qed.

(** A lookup that cannot allocate leaves the table as it is, and returns the
    entry of the key if there is one. *)
Lemma find_or_create_false ht k :
  find_or_create_q_entry false ht k
  = (ht, match find_in_chain (bucket ht k) k 0 with
         | Some n => Some (hash_state_tuple k (size ht), n)
         | None => None
         end).
Proof. rewrite find_or_create_cases. by destruct (find_in_chain _ _ _). Qed.

(** The lookup that creates: the statistics read from the table do not
    change, and the entry returned is the one a search for the key finds. *)
Lemma find_or_create_spec ht k :
  TableOk ht ->
  let ht1 := fst (lookup_entry ht k) in
  let ref := snd (lookup_entry ht k) in
  TableOk ht1
  /\ size ht1 = size ht
  /\ fst ref = hash_state_tuple k (size ht)
  /\ find_in_chain (bucket ht1 k) k 0 = Some (snd ref)
  /\ forall k' a, q_stat ht1 k' a = q_stat ht k' a.
Proof.
  intros Hok. cbv zeta. rewrite find_or_create_unfold.
  destruct (find_in_chain (bucket ht k) k 0) as [n |] eqn:Hfind; cbn [fst snd].
  - by split_and!.
  - split_and!; try done.
    + apply TableOk_write_at; [done |]. intros en Hen.
      apply elem_of_cons in Hen as [-> | Hen]; [done |].
      destruct (bucket_elem ht k Hok) as [Hb | Hb].
      * rewrite Hb in Hen. by apply elem_of_nil in Hen.
      * destruct Hok as (_ & _ & Hval). by eapply Hval.
    + rewrite bucket_write by done. rewrite Z.eqb_refl. simpl.
      by rewrite compare_state_tuples_refl.
    + intros k' a. unfold q_stat, q_find. rewrite bucket_write by done.
      destruct (Z.eqb_spec (hash_state_tuple k (size ht)) (hash_state_tuple k' (size ht)))
        as [Heq | Hne]; [| done].
      rewrite chain_get_cons. cbn [key].
      destruct (compare_state_tuples k k') eqn:Hc.
      * apply compare_state_tuples_eq in Hc. subst k'. cbn [values].
        unfold chain_get. rewrite Hfind. apply q_stat_zero.
      * unfold bucket. by rewrite Heq.
Qed.

(** ** The value table as a map *)

Lemma table_ok_iff ht : table_ok ht = true <-> TableOk ht.
Proof.
  unfold table_ok, TableOk.
  rewrite !andb_true_iff, Z.eqb_eq, !Z.ltb_lt, forallb_forall.
  split.
  - intros [[[H1 H2] H3] H4]. split_and!; try done.
    intros chain en Hc Hen. apply list_elem_of_In in Hc, Hen.
    specialize (H4 chain Hc). rewrite forallb_forall in H4.
    by apply Nat.eqb_eq, H4.
  - intros (H1 & [H2 H3] & H4). split_and!; try done.
    intros chain Hc. apply forallb_forall. intros en Hen.
    apply Nat.eqb_eq. apply (H4 chain); by apply list_elem_of_In.
Qed.

Lemma visited_ok_iff vs : visited_ok vs = true <-> VisitedOk vs.
Proof.
  unfold visited_ok, VisitedOk.
  rewrite !andb_true_iff, Z.eqb_eq, !Z.ltb_lt. tauto.
Qed.

Lemma TableOk_create sz : 0 < sz < 2 ^ 32 -> TableOk (create_q_hash_table sz).
Proof.
  intros Hsz. unfold TableOk, create_q_hash_table. cbn [table size].
  rewrite length_replicate. split_and!; try lia.
  intros chain en Hc Hen. apply elem_of_replicate in Hc as [-> _].
  by apply elem_of_nil in Hen.
Qed.

Lemma VisitedOk_create sz : 0 < sz < 2 ^ 32 -> VisitedOk (create_visited_set sz).
Proof.
  intros Hsz. unfold VisitedOk, create_visited_set. cbn [vs_table vs_size].
  rewrite length_replicate. lia.
Qed.

Lemma chain_get_None chain k :
  chain_get chain k = None <-> find_in_chain chain k 0 = None.
Proof.
  unfold chain_get. destruct (find_in_chain chain k 0) as [n |] eqn:Hf; [| done].
  destruct (find_in_chain_get chain k n Hf) as (en & Hen & _). rewrite Hen.
  split; done.
Qed.

Lemma entry_at_bucket ht k n :
  entry_at ht (hash_state_tuple k (size ht), n)
  = default no_entry (bucket ht k !! n).
Proof. unfold entry_at. cbn [fst snd]. by rewrite bucket_eq. Qed.

Lemma entry_at_written ht i chain q n :
  0 <= i < Z.of_nat (length (table ht)) ->
  entry_at (mkQTable (wr (table ht) i chain) (size ht) q) (i, n)
  = default no_entry (chain !! n).
Proof.
  intros Hi. unfold entry_at. cbn [fst snd table]. by rewrite rd_wr_eq.
Qed.

Lemma find_in_chain_head k v rest n :
  find_in_chain (mkEntry k v :: rest) k n = Some n.
Proof. simpl. by rewrite compare_state_tuples_refl. Qed.

(** A second lookup finds the entry of the first one. *)
Lemma find_or_create_again ht k :
  TableOk ht ->
  lookup_entry (fst (lookup_entry ht k)) k
  = lookup_entry ht k
  /\ q_count (fst (lookup_entry ht k))
     = q_count ht + (if q_find ht k is Some _ then 0 else 1)
  /\ q_find (fst (lookup_entry ht k)) k
     = Some (entry_at (fst (lookup_entry ht k))
                      (snd (lookup_entry ht k)))
  /\ key (entry_at (fst (lookup_entry ht k))
                   (snd (lookup_entry ht k))) = k.
Proof.
  intros Hok.
  rewrite (find_or_create_unfold ht k).
  destruct (find_in_chain (bucket ht k) k 0) as [n |] eqn:Hm; cbn [fst snd].
  - destruct (find_in_chain_get _ _ _ Hm) as (en & Hen & Hget & Hkey).
    rewrite entry_at_bucket, Hen. unfold q_find. rewrite Hget. cbn [default].
    split_and!; [| lia | done | done].
    by rewrite find_or_create_unfold, Hm.
  - assert (bucket (mkQTable (wr (table ht) (hash_state_tuple k (size ht))
                       (mkEntry k [zero_value; zero_value] :: bucket ht k))
                       (size ht) (q_count ht + 1)) k
            = mkEntry k [zero_value; zero_value] :: bucket ht k) as Hb.
    { rewrite bucket_write by done. by rewrite Z.eqb_refl. }
    apply chain_get_None in Hm.
    rewrite find_or_create_unfold. cbn [size table q_count].
    rewrite entry_at_written by (by apply bucket_index). unfold q_find.
    rewrite Hb, Hm.
    rewrite chain_get_cons, find_in_chain_head. cbn [key].
    rewrite compare_state_tuples_refl.
    split_and!; try done.
Qed.

(** X1: the lookup that creates is idempotent.  The lookup returns the null
    pointer exactly when the key has no entry and the allocation fails, and
    then the table is left as it is; the entry count grows by one exactly
    when the key had no entry and the allocation succeeded.  When an entry is
    returned it carries the key, and a second lookup of the same key, whether
    or not it can allocate, returns the same entry and leaves the table as it
    is. *)
Theorem find_or_create_idempotent (ok1 ok2 : bool) (ht : QHashTable) (k : StateTuple) :
  table_ok ht = true ->
  let r := find_or_create_q_entry ok1 ht k in
  (snd r = None <-> q_find ht k = None /\ ok1 = false)
  /\ (snd r = None -> fst r = ht)
  /\ q_count (fst r)
     = q_count ht + (if q_find ht k is Some _ then 0 else if ok1 then 1 else 0)
  /\ forall ref, snd r = Some ref ->
       find_or_create_q_entry ok2 (fst r) k = (fst r, Some ref)
       /\ q_find (fst r) k = Some (entry_at (fst r) ref)
       /\ key (entry_at (fst r) ref) = k.
Proof.
  intros Hok%table_ok_iff. cbv zeta. destruct ok1.
  - pose proof (find_or_create_true ht k) as E. revert E.
    generalize (find_or_create_q_entry true ht k). intros [h r] E.
    cbn [fst snd]. apply pair_equal_spec in E as [-> ->].
    destruct (find_or_create_again ht k Hok) as (_ & Hcount & Hfind & Hkey).
    destruct (find_or_create_spec ht k Hok) as (_ & Hsz & Href & Hchain & _).
    cbv zeta in Hsz, Href, Hchain.
    split; [| split; [| split]].
    + split; [intros H; discriminate H | intros [_ H]; discriminate H].
    + intros H; discriminate H.
    + rewrite Hcount. generalize (q_find ht k). intros [en |]; reflexivity.
    + intros ref Hr. apply (inj Some) in Hr. subst ref.
      split; [| split; [exact Hfind | exact Hkey]].
      rewrite find_or_create_cases, Hchain, Hsz, <- Href.
      generalize (snd (lookup_entry ht k)). intros [i n].
      destruct ok2; reflexivity.
  - pose proof (find_or_create_false ht k) as E. revert E.
    generalize (find_or_create_q_entry false ht k). intros [h r] E.
    cbn [fst snd]. apply pair_equal_spec in E as [-> ->].
    destruct (find_in_chain (bucket ht k) k 0) as [n |] eqn:Hm.
    + destruct (find_in_chain_get _ _ _ Hm) as (en & Hen & Hget & Hkey).
      unfold q_find. rewrite Hget.
      split; [| split; [| split]].
      * split; [intros H; discriminate H | intros [H _]; discriminate H].
      * intros H; discriminate H.
      * lia.
      * intros ref Hr. apply (inj Some) in Hr. subst ref.
        rewrite find_or_create_cases, Hm, entry_at_bucket, Hen.
        split; [reflexivity |]. split; [reflexivity | exact Hkey].
    + apply chain_get_None in Hm. unfold q_find. rewrite Hm.
      split; [| split; [| split]].
      * split; [intros _; split; reflexivity | reflexivity].
      * reflexivity.
      * lia.
      * intros ref H; discriminate H.
Qed.

Lemma find_or_create_idempotent_witness :
  table_ok small_table = true
  /\ q_count (fst (find_or_create_q_entry true small_table key_a))
     = q_count small_table
       + (if q_find small_table key_a is Some _ then 0 else if true then 1 else 0).
Proof.
  assert (table_ok small_table = true) as Hok by (by vm_compute).
  split; [exact Hok |].
  exact (proj1 (proj2 (proj2 (find_or_create_idempotent true false small_table key_a Hok)))).
Defined.

(** X2: the index a key hashes to lies inside the table, for the keys of the
    value table and for those of the visited set, whatever the fields of the
    key are (a negative money bin is converted to [unsigned int]). *)
Theorem hash_index_in_table (s : StateTuple) (a table_size : Z) :
  0 < table_size < 2 ^ 32 ->
  0 <= hash_state_tuple s table_size < table_size
  /\ 0 <= hash_visited_key (mkVisited s a) table_size < table_size.
Proof.
  intros Hsz. split.
  - by apply hash_state_tuple_range.
  - by apply hash_visited_key_range.
Qed.

Lemma hash_index_in_table_witness :
  0 < Q_TABLE_INITIAL_SIZE < 2 ^ 32
  /\ 0 <= hash_state_tuple (mkState 3 (-7) (-1) 0) Q_TABLE_INITIAL_SIZE
     < Q_TABLE_INITIAL_SIZE.
Proof.
  assert (0 < Q_TABLE_INITIAL_SIZE < 2 ^ 32) as Hsz by (by vm_compute).
  split; [exact Hsz |].
  exact (proj1 (hash_index_in_table (mkState 3 (-7) (-1) 0) 0
                  Q_TABLE_INITIAL_SIZE Hsz)).
Defined.

(** *** Lookups of other keys *)

Lemma q_find_create sz k : q_find (create_q_hash_table sz) k = None.
Proof.
  unfold q_find. rewrite bucket_eq. cbn [table create_q_hash_table].
  generalize (hash_state_tuple k (size (create_q_hash_table sz))). intros i.
  unfold rd. destruct (i <? 0); [done |].
  destruct (replicate (Z.to_nat sz) [] !! Z.to_nat i) as [chain |] eqn:Hc; [| done].
  apply lookup_replicate in Hc as [-> _]. done.
Qed.

Lemma q_find_other ht k k' :
  TableOk ht -> k' <> k ->
  q_find (fst (lookup_entry ht k)) k' = q_find ht k'.
Proof.
  intros Hok Hne. rewrite find_or_create_unfold.
  destruct (find_in_chain (bucket ht k) k 0) as [n |] eqn:Hm; cbn [fst]; [done |].
  unfold q_find. rewrite bucket_write by done.
  destruct (Z.eqb_spec (hash_state_tuple k (size ht)) (hash_state_tuple k' (size ht)))
    as [Heq | Hneq]; [| done].
  rewrite chain_get_cons. cbn [key].
  destruct (compare_state_tuples k k') eqn:Hc.
  - apply compare_state_tuples_eq in Hc. congruence.
  - by rewrite !bucket_eq, Heq.
Qed.

Lemma q_find_same ht k :
  TableOk ht -> is_Some (q_find (fst (lookup_entry ht k)) k).
Proof.
  intros Hok.
  destruct (find_or_create_again ht k Hok) as (_ & _ & -> & _). by eexists.
Qed.

Lemma TableOk_find_or_create ht k :
  TableOk ht -> TableOk (fst (lookup_entry ht k)).
Proof. intros Hok. by destruct (find_or_create_spec ht k Hok) as (? & _). Qed.

Lemma find_or_create_true_fst ht k :
  fst (find_or_create_q_entry true ht k) = fst (lookup_entry ht k).
Proof.
  pose proof (find_or_create_true ht k) as E. revert E.
  generalize (find_or_create_q_entry true ht k).
  generalize (lookup_entry ht k). intros p q ->. reflexivity.
Qed.

Lemma find_or_create_false_fst ht k :
  fst (find_or_create_q_entry false ht k) = ht.
Proof.
  pose proof (find_or_create_false ht k) as E. revert E.
  generalize (find_or_create_q_entry false ht k).
  generalize (find_in_chain (bucket ht k) k 0). intros p q ->. reflexivity.
Qed.

Lemma lookups_snoc ht ks ok k :
  lookups ht (ks ++ [(ok, k)])
  = fst (find_or_create_q_entry ok (lookups ht ks) k).
Proof. unfold lookups. rewrite fold_left_app. reflexivity. Qed.

Lemma lookups_snoc_true ht ks k :
  lookups ht (ks ++ [(true, k)]) = fst (lookup_entry (lookups ht ks) k).
Proof. rewrite lookups_snoc. apply find_or_create_true_fst. Qed.

Lemma lookups_snoc_false ht ks k :
  lookups ht (ks ++ [(false, k)]) = lookups ht ks.
Proof. rewrite lookups_snoc. apply find_or_create_false_fst. Qed.

Lemma allocating_snoc ks ok k :
  allocating (ks ++ [(ok, k)]) = allocating ks ++ (if ok then [k] else []).
Proof.
  unfold allocating. rewrite filter_app, fmap_app. f_equal.
  by destruct ok.
Qed.

Lemma remove_dups_snoc_length (ks : list StateTuple) k :
  length (remove_dups (ks ++ [k]))
  = (length (remove_dups ks) + (if decide (k ∈ ks) then 0 else 1))%nat.
Proof.
  destruct (decide (k ∈ ks)) as [Hin | Hnin].
  - rewrite Nat.add_0_r. apply Permutation_length, NoDup_Permutation.
    + apply NoDup_remove_dups.
    + apply NoDup_remove_dups.
    + intros x. rewrite !elem_of_remove_dups, elem_of_app, list_elem_of_singleton.
      split; [intros [? | ->]; done | by left].
  - transitivity (length (k :: remove_dups ks)); [| simpl; lia].
    apply Permutation_length, NoDup_Permutation.
    + apply NoDup_remove_dups.
    + apply NoDup_cons. split; [by rewrite elem_of_remove_dups |].
      apply NoDup_remove_dups.
    + intros x. rewrite elem_of_cons, !elem_of_remove_dups, elem_of_app,
        list_elem_of_singleton. tauto.
Qed.

Lemma lookups_spec sz ks :
  0 < sz < 2 ^ 32 ->
  TableOk (lookups (create_q_hash_table sz) ks)
  /\ (forall k, is_Some (q_find (lookups (create_q_hash_table sz) ks) k)
                <-> k ∈ allocating ks)
  /\ q_count (lookups (create_q_hash_table sz) ks)
     = Z.of_nat (length (remove_dups (allocating ks))).
Proof.
  intros Hsz. induction ks as [| [ok k] ks IH] using rev_ind.
  - split_and!.
    + by apply TableOk_create.
    + intros k. cbn [lookups fold_left]. rewrite q_find_create.
      split; [by intros [? ?] | by intros ?%elem_of_nil].
    + done.
  - destruct IH as (Hok & Hmem & Hcount). rewrite allocating_snoc.
    destruct ok.
    + rewrite lookups_snoc_true. split_and!.
      * by apply TableOk_find_or_create.
      * intros k'. rewrite elem_of_app, list_elem_of_singleton.
        destruct (decide (k' = k)) as [-> | Hne].
        -- split; [by right | intros _; by apply q_find_same].
        -- rewrite q_find_other by done. rewrite Hmem. tauto.
      * destruct (find_or_create_again _ k Hok) as (_ & -> & _).
        rewrite remove_dups_snoc_length, Hcount.
        destruct (decide (k ∈ allocating ks)) as [Hin | Hnin].
        -- apply Hmem in Hin as [en ->]. lia.
        -- destruct (q_find (lookups (create_q_hash_table sz) ks) k)
             as [en |] eqn:Hq.
           ++ exfalso. apply Hnin, Hmem. by eexists.
           ++ lia.
    + rewrite lookups_snoc_false, app_nil_r. done.
Qed.

(** X3: the entry count of a table is the number of distinct keys entered
    since its creation.  Each lookup comes with the outcome of its
    allocation, should it need one; a lookup whose allocation fails leaves
    the table as it is, so the keys entered are those of the lookups that
    can allocate.  A key has an entry exactly when it was entered: chains
    never hold a key twice and never lose one. *)
Theorem q_count_is_number_of_keys (sz : Z) (ks : list (bool * StateTuple)) :
  0 < sz < 2 ^ 32 ->
  q_count (lookups (create_q_hash_table sz) ks)
  = Z.of_nat (length (remove_dups (allocating ks)))
  /\ (forall k, is_Some (q_find (lookups (create_q_hash_table sz) ks) k)
                <-> k ∈ allocating ks)
  /\ (allocating ks = [] -> lookups (create_q_hash_table sz) ks
                            = create_q_hash_table sz).
Proof.
  intros Hsz. destruct (lookups_spec sz ks Hsz) as (_ & H1 & H2).
  split; [exact H2 |]. split; [exact H1 |].
  clear. induction ks as [| [ok k] ks IH] using rev_ind; [done |].
  rewrite allocating_snoc. destruct ok.
  - intros H. by apply app_eq_nil in H as [_ ?].
  - rewrite app_nil_r, lookups_snoc_false. exact IH.
Qed.

Lemma q_count_is_number_of_keys_witness :
  0 < 4 < 2 ^ 32
  /\ q_count (lookups (create_q_hash_table 4)
                [(true, key_a); (false, key_b); (true, key_b); (false, key_a)])
     = Z.of_nat (length (remove_dups (allocating
         [(true, key_a); (false, key_b); (true, key_b); (false, key_a)]))).
Proof.
  assert (0 < 4 < 2 ^ 32) as Hsz by lia.
  split; [exact Hsz |].
  exact (proj1 (q_count_is_number_of_keys 4
    [(true, key_a); (false, key_b); (true, key_b); (false, key_a)] Hsz)).
Defined.

(** ** The visited set *)

Lemma vs_mem_create sz k : vs_mem (create_visited_set sz) k = false.
Proof.
  unfold vs_mem. cbn [vs_table vs_size create_visited_set].
  generalize (hash_visited_key k sz). intros i.
  unfold rd. destruct (i <? 0); [done |].
  destruct (replicate (Z.to_nat sz) [] !! Z.to_nat i) as [chain |] eqn:Hc; [| done].
  apply lookup_replicate in Hc as [-> _]. done.
Qed.

Lemma compare_visited_keys_decide k1 k2 :
  compare_visited_keys k1 k2 = bool_decide (k1 = k2).
Proof.
  destruct (compare_visited_keys k1 k2) eqn:Hc.
  - apply compare_visited_keys_eq in Hc. by rewrite bool_decide_eq_true_2.
  - rewrite bool_decide_eq_false_2; [done |].
    intros Heq. apply compare_visited_keys_eq in Heq. congruence.
Qed.

Lemma vs_mem_eq vs k :
  vs_mem vs k
  = existsb (fun k' => compare_visited_keys k' k)
            (rd [] (vs_table vs) (hash_visited_key k (vs_size vs))).
Proof. unfold vs_mem. reflexivity. Qed.

Lemma vs_mem_at tbl sz cnt k :
  vs_mem (mkVisitedSet tbl sz cnt) k
  = existsb (fun k' => compare_visited_keys k' k)
            (rd [] tbl (hash_visited_key k sz)).
Proof. unfold vs_mem. reflexivity. Qed.

Lemma check_and_add_unfold vs k :
  check_and_add_visited true vs k
  = if vs_mem vs k then (vs, true)
    else (mkVisitedSet
            (wr (vs_table vs) (hash_visited_key k (vs_size vs))
                (k :: rd [] (vs_table vs) (hash_visited_key k (vs_size vs))))
            (vs_size vs) (vs_count vs + 1), false).
Proof.
  unfold check_and_add_visited, vs_mem. cbv zeta. by destruct (existsb _ _).
Qed.

(** A pair put at the head of chain [i], seen from chain [j]. *)
Lemma visited_insert_at (tbl : list (list VisitedKey)) i j k k' :
  0 <= i < Z.of_nat (length tbl) ->
  (k = k' -> i = j) ->
  existsb (fun x => compare_visited_keys x k') (rd [] (wr tbl i (k :: rd [] tbl i)) j)
  = existsb (fun x => compare_visited_keys x k') (rd [] tbl j) || bool_decide (k = k').
Proof.
  intros Hi Hk. rewrite rd_wr by done.
  destruct (Z.eqb_spec i j) as [<- | Hne].
  - simpl. rewrite compare_visited_keys_decide. apply orb_comm.
  - rewrite bool_decide_eq_false_2, orb_false_r; [done |]. intros Heq. auto.
Qed.

Lemma check_and_add_spec vs k :
  VisitedOk vs ->
  snd (check_and_add_visited true vs k) = vs_mem vs k
  /\ VisitedOk (fst (check_and_add_visited true vs k))
  /\ (forall k', vs_mem (fst (check_and_add_visited true vs k)) k'
                 = vs_mem vs k' || bool_decide (k = k'))
  /\ vs_count (fst (check_and_add_visited true vs k))
     = vs_count vs + (if vs_mem vs k then 0 else 1).
Proof.
  intros (Hsz & Hrange). rewrite check_and_add_unfold.
  destruct (vs_mem vs k) eqn:Hmem; cbn [fst snd vs_count].
  - split_and!; [done | done | | lia].
    intros k'. destruct (decide (k = k')) as [<- | Hne].
    + by rewrite Hmem.
    + by rewrite bool_decide_eq_false_2, orb_false_r.
  - split_and!; [done | | | done].
    + split; [exact (eq_trans Hsz (eq_sym (f_equal Z.of_nat (length_wr _ _ _)))) | done].
    + intros k'.
      assert (0 <= hash_visited_key k (vs_size vs)
              < Z.of_nat (length (vs_table vs))) as Hi.
      { rewrite <- Hsz. by apply hash_visited_key_range. }
      etrans; [apply vs_mem_at |].
      rewrite visited_insert_at; [by rewrite <- vs_mem_eq | done | by intros <-].
Qed.

(** When the node cannot be allocated the set is left as it is. *)
Lemma check_and_add_false vs k :
  check_and_add_visited false vs k = (vs, vs_mem vs k).
Proof.
  unfold check_and_add_visited, vs_mem. cbv zeta. by destruct (existsb _ _).
Qed.

(** X4: the visited set is a set of pairs.  [check_and_add_visited] answers
    whether the pair was added before.  When the node of a new pair can be
    allocated, the pair is a member afterwards and the count has grown by
    one; when it cannot, or when the pair was a member already, the set is
    left as it is.  The membership of every other pair is as it was. *)
Theorem check_and_add_visited_is_set_insert (malloc_ok : bool) (vs : VisitedSet)
    (k : VisitedKey) :
  visited_ok vs = true ->
  snd (check_and_add_visited malloc_ok vs k) = vs_mem vs k
  /\ visited_ok (fst (check_and_add_visited malloc_ok vs k)) = true
  /\ (forall k', vs_mem (fst (check_and_add_visited malloc_ok vs k)) k'
                 = vs_mem vs k' || (malloc_ok && bool_decide (k = k')))
  /\ vs_count (fst (check_and_add_visited malloc_ok vs k))
     = vs_count vs + (if vs_mem vs k then 0 else if malloc_ok then 1 else 0)
  /\ (vs_mem vs k || negb malloc_ok = true ->
      fst (check_and_add_visited malloc_ok vs k) = vs).
Proof.
  intros Hok. destruct malloc_ok.
  - apply visited_ok_iff in Hok.
    destruct (check_and_add_spec vs k Hok) as (H1 & H2 & H3 & H4).
    split; [exact H1 |]. split; [by apply visited_ok_iff |].
    split; [exact H3 |]. split; [exact H4 |].
    rewrite orb_false_r. intros Hmem. rewrite check_and_add_unfold, Hmem.
    reflexivity.
  - rewrite check_and_add_false. cbn [fst snd andb].
    split; [reflexivity |]. split; [exact Hok |].
    split; [intros k'; by rewrite orb_false_r |].
    split; [destruct (vs_mem vs k); lia | reflexivity].
Qed.

Lemma check_and_add_visited_is_set_insert_witness :
  visited_ok small_set = true
  /\ snd (check_and_add_visited true small_set (mkVisited key_b 0))
     = vs_mem small_set (mkVisited key_b 0).
Proof.
  assert (visited_ok small_set = true) as Hok by (by vm_compute).
  split; [exact Hok |].
  exact (proj1 (check_and_add_visited_is_set_insert
                  true small_set (mkVisited key_b 0) Hok)).
Defined.

(** ** Arithmetic in [double] *)

(** One third is stored rounded to the nearest [double]. *)
Example double_div_third :
  double_value (double_div (double_of_int 1) (double_of_int 3))
  = (6004799503160661 # 18014398509481984)%Q.
Proof. by vm_compute. Qed.

(** Small integers are added without rounding; past [2^53] a sum is rounded. *)
Example double_add_small :
  double_add (double_of_int 100) (double_of_int 20) = double_of_int 120.
Proof. by vm_compute. Qed.

Example double_add_rounds :
  double_add (double_of_int (2 ^ 53)) (double_of_int 1) = double_of_int (2 ^ 53).
Proof. by vm_compute. Qed.

(** In the sample episode the pair ([key_a], 1) occurs at the first and at
    the last step; the return recorded for it is the one of the last step. *)
Example sample_episode_return :
  episode_return sample_episode key_a 1 = Some (double_of_int 20).
Proof. by vm_compute. Qed.

(** ** The first-visit update *)

Lemma put_entry_at ht i n en :
  put_entry ht (i, n) en
  = mkQTable (wr (table ht) i (<[n := en]> (rd [] (table ht) i)))
             (size ht) (q_count ht).
Proof. reflexivity. Qed.

Lemma entry_at_pair ht i n :
  entry_at ht (i, n) = default no_entry (rd [] (table ht) i !! n).
Proof. reflexivity. Qed.

Lemma record_return_at ht i n action G :
  record_return ht (i, n) action G
  = let en := default no_entry (rd [] (table ht) i !! n) in
    mkQTable
      (wr (table ht) i
          (<[n := mkEntry (key en)
                    (wr (values en) action
                        (bump (rd zero_value (values en) action) (Some G)))]>
             (rd [] (table ht) i)))
      (size ht) (q_count ht).
Proof. reflexivity. Qed.

Lemma record_return_found ht i n en action G :
  rd [] (table ht) i !! n = Some en ->
  record_return ht (i, n) action G
  = mkQTable
      (wr (table ht) i
          (<[n := mkEntry (key en)
                    (wr (values en) action
                        (bump (rd zero_value (values en) action) (Some G)))]>
             (rd [] (table ht) i)))
      (size ht) (q_count ht).
Proof. intros H. rewrite record_return_at. cbv zeta. by rewrite H. Qed.

Lemma chain_elem_ok ht i en :
  TableOk ht -> en ∈ rd [] (table ht) i -> length (values en) = 2%nat.
Proof.
  intros (_ & _ & Hval) Hen. unfold rd in Hen.
  destruct (i <? 0); [by apply elem_of_nil in Hen |].
  destruct (table ht !! Z.to_nat i) as [chain |] eqn:Hc.
  - apply (Hval chain); [by eapply list_elem_of_lookup_2 | done].
  - by apply elem_of_nil in Hen.
Qed.

Lemma q_stat_eq ht k a :
  q_stat ht k a
  = match chain_get (bucket ht k) k with
    | Some en => rd zero_value (values en) a
    | None => zero_value
    end.
Proof. reflexivity. Qed.

(** One more return for the pair [(k, action)], whose entry is at rank [n]
    of its chain. *)
Lemma record_return_spec ht k n action G :
  TableOk ht ->
  find_in_chain (bucket ht k) k 0 = Some n ->
  action = 0 \/ action = 1 ->
  TableOk (record_return ht (hash_state_tuple k (size ht), n) action G)
  /\ forall k' a,
       q_stat (record_return ht (hash_state_tuple k (size ht), n) action G) k' a
       = if compare_state_tuples k k' && (action =? a)
         then bump (q_stat ht k action) (Some G)
         else q_stat ht k' a.
Proof.
  intros Hok Hfind Hact.
  destruct (find_in_chain_get _ _ _ Hfind) as (en & Hen & Hget & Hkey).
  assert (rd [] (table ht) (hash_state_tuple k (size ht)) !! n = Some en) as Hen'.
  { by rewrite <- bucket_eq. }
  rewrite (record_return_found _ _ _ en) by done. rewrite <- !bucket_eq.
  assert (length (values en) = 2%nat) as Hlen.
  { apply (chain_elem_ok ht (hash_state_tuple k (size ht))); [done |].
    rewrite <- bucket_eq. by eapply list_elem_of_lookup_2. }
  split.
  - apply TableOk_write_at; [done |]. intros en' Hin.
    apply list_elem_of_lookup in Hin as [j Hj].
    destruct (decide (j = n)) as [-> | Hne].
    + rewrite list_lookup_insert_eq in Hj by (by eapply lookup_lt_Some).
      injection Hj as <-. cbn [values]. by rewrite length_wr.
    + rewrite list_lookup_insert_ne in Hj by done.
      apply (chain_elem_ok ht (hash_state_tuple k (size ht))); [done |].
      rewrite <- bucket_eq. by eapply list_elem_of_lookup_2.
  - intros k' a. rewrite !q_stat_eq, bucket_write by done.
    rewrite Hget.
    destruct (Z.eqb_spec (hash_state_tuple k (size ht)) (hash_state_tuple k' (size ht)))
      as [Heq | Hneq].
    + rewrite (chain_get_insert _ k n (mkEntry (key en) _) k' Hfind Hkey).
      destruct (compare_state_tuples k k') eqn:Hc; cbn [andb].
      * apply compare_state_tuples_eq in Hc. subst k'. cbn [values].
        rewrite rd_wr by (rewrite Hlen; lia).
        rewrite Hget. by destruct (action =? a).
      * assert (bucket ht k = bucket ht k') as ->; [| done].
        by rewrite !bucket_eq, Heq.
    + destruct (compare_state_tuples k k') eqn:Hc; cbn [andb]; [| reflexivity].
      apply compare_state_tuples_eq in Hc. congruence.
Qed.

Lemma find_or_create_ref ht k :
  TableOk ht ->
  exists n,
    snd (lookup_entry ht k)
    = (hash_state_tuple k (size (fst (lookup_entry ht k))), n)
    /\ find_in_chain (bucket (fst (lookup_entry ht k)) k) k 0 = Some n.
Proof.
  intros Hok.
  destruct (find_or_create_spec ht k Hok) as (_ & Hsz & Href & Hfind & _).
  cbv zeta in Hsz, Href, Hfind.
  exists (snd (snd (lookup_entry ht k))). split; [| done].
  rewrite Hsz, <- Href. by destruct (snd (lookup_entry ht k)).
Qed.

Lemma episode_return_None steps k a :
  episode_return steps k a = None <-> existsb (same_pair k a) steps = false.
Proof.
  induction steps as [| s rest IH]; [done |]. cbn [episode_return existsb].
  destruct (episode_return rest k a) as [g |].
  - split; [done |]. intros H. apply orb_false_iff in H as [_ H].
    by apply IH in H.
  - destruct (same_pair k a s); [done |]. cbn [orb]. split; [| done].
    intros _. by apply IH.
Qed.

Lemma same_pair_decide k a s :
  same_pair k a s = bool_decide (mkVisited (es_state s) (es_action s) = mkVisited k a).
Proof.
  unfold same_pair.
  destruct (compare_state_tuples (es_state s) k) eqn:Hc; cbn [andb].
  - apply compare_state_tuples_eq in Hc. rewrite Hc.
    destruct (Z.eqb_spec (es_action s) a) as [-> | Hne].
    + by rewrite bool_decide_eq_true_2.
    + rewrite bool_decide_eq_false_2; [done |]. intros [= ?]. done.
  - rewrite bool_decide_eq_false_2; [done |]. intros [= Hs _].
    apply compare_state_tuples_neq in Hc. done.
Qed.

Lemma update_body_unfold steps i ht visited G :
  update_body all_ok steps i (ht, visited, G)
  = let s := rd no_step steps i in
    let r := check_and_add_visited true visited (mkVisited (es_state s) (es_action s)) in
    if negb (snd r) then
      (record_return (fst (lookup_entry ht (es_state s)))
                     (snd (lookup_entry ht (es_state s)))
                     (es_action s) (double_add G (double_of_int (es_reward s))),
       fst r, double_add G (double_of_int (es_reward s)))
    else (ht, fst r, double_add G (double_of_int (es_reward s))).
Proof.
  unfold update_body. cbv zeta. cbn [node_ok entry_ok all_ok].
  destruct (check_and_add_visited true _ _) as [visited' seen]. cbn [fst snd].
  destruct (negb seen); [| done].
  by rewrite find_or_create_true.
Qed.

(** One iteration of the backward scan. *)
Lemma update_body_inv ht0 steps i s rest st :
  steps !! i = Some s ->
  valid_action s = true ->
  update_inv ht0 rest st ->
  update_inv ht0 (s :: rest) (update_body all_ok steps (Z.of_nat i) st).
Proof.
  intros Hs Hvalid. destruct st as [[ht visited] G].
  intros (HG & Hok & Hvok & Hmem & Hstat).
  rewrite update_body_unfold. cbv zeta.
  assert (rd no_step steps (Z.of_nat i) = s) as ->.
  { unfold rd. destruct (Z.ltb_spec (Z.of_nat i) 0); [lia |].
    by rewrite Nat2Z.id, Hs. }
  destruct (check_and_add_spec visited (mkVisited (es_state s) (es_action s)) Hvok)
    as (Hseen & Hvok' & Hmem' & _).
  assert (forall k a,
            vs_mem (fst (check_and_add_visited true visited
                           (mkVisited (es_state s) (es_action s)))) (mkVisited k a)
            = existsb (same_pair k a) (s :: rest)) as Hmem2.
  { intros k a. rewrite Hmem', Hmem. cbn [existsb].
    rewrite same_pair_decide. apply orb_comm. }
  assert (double_add G (double_of_int (es_reward s)) = return_from (s :: rest))
    as HG'.
  { cbn [return_from]. by rewrite HG. }
  rewrite Hseen, Hmem.
  destruct (existsb (same_pair (es_state s) (es_action s)) rest) eqn:Hex;
    cbn [negb].
  - (* the pair was met later in the episode *)
    split_and!; try done.
    intros k a Ha. rewrite (Hstat k a Ha). cbn [episode_return].
    destruct (episode_return rest k a) as [g |] eqn:Hg; [done |].
    destruct (same_pair k a s) eqn:Hp; [| done].
    apply episode_return_None in Hg.
    rewrite same_pair_decide in Hp. apply bool_decide_eq_true_1 in Hp.
    injection Hp as <- <-. congruence.
  - (* the latest occurrence of the pair, met first by the backward scan *)
    destruct (find_or_create_spec ht (es_state s) Hok) as (Hok1 & _ & _ & _ & Hq).
    cbv zeta in Hok1, Hq.
    destruct (find_or_create_ref ht (es_state s) Hok) as (n & -> & Hfind).
    assert (es_action s = 0 \/ es_action s = 1) as Hact.
    { unfold valid_action in Hvalid. lia. }
    destruct (record_return_spec _ (es_state s) n (es_action s)
                (double_add G (double_of_int (es_reward s)))
                Hok1 Hfind Hact) as (Hok2 & Hq2).
    split_and!; try done.
    intros k a Ha. rewrite Hq2, !Hq, (Hstat k a Ha), (Hstat _ _ Hact).
    apply episode_return_None in Hex. rewrite Hex. cbn [episode_return bump].
    destruct (compare_state_tuples (es_state s) k) eqn:Hc; cbn [andb].
    + apply compare_state_tuples_eq in Hc. subst k.
      destruct (Z.eqb_spec (es_action s) a) as [<- | Hne].
      * rewrite Hex. unfold same_pair.
        rewrite compare_state_tuples_refl, Z.eqb_refl. cbn [andb bump].
        by rewrite HG'.
      * assert (same_pair (es_state s) a s = false) as ->.
        { unfold same_pair. rewrite compare_state_tuples_refl. cbn [andb]. lia. }
        by destruct (episode_return rest (es_state s) a).
    + assert (same_pair k a s = false) as ->.
      { unfold same_pair. by rewrite Hc. }
      by destruct (episode_return rest k a).
Qed.

Lemma down_loop_update_inv ht0 steps n st :
  (n <= length steps)%nat ->
  forallb valid_action steps = true ->
  update_inv ht0 (drop n steps) st ->
  update_inv ht0 steps (down_loop n (update_body all_ok steps) st).
Proof.
  intros Hn Hvalid. revert st. induction n as [| n IH]; intros st Hinv.
  - by rewrite drop_0 in Hinv.
  - cbn [down_loop]. apply IH; [lia |].
    destruct (lookup_lt_is_Some_2 steps n) as [s Hs]; [lia |].
    rewrite (drop_S _ _ _ Hs).
    apply update_body_inv; [done | | done].
    rewrite forallb_forall in Hvalid. apply Hvalid.
    apply list_elem_of_In. by eapply list_elem_of_lookup_2.
Qed.

Lemma update_mc_unfold agent steps :
  q_table (update_mc all_ok agent steps)
  = fst (fst (down_loop (length steps) (update_body all_ok steps)
                (q_table agent, create_visited_set VISITED_SET_INITIAL_SIZE,
                 double_zero))).
Proof.
  unfold update_mc. cbn [set_ok all_ok negb].
  by destruct (down_loop _ _ _) as [[ht visited] G].
Qed.

Lemma bump_None v : bump v None = v.
Proof. reflexivity. Qed.

Lemma episode_return_nil k a : episode_return [] k a = None.
Proof. reflexivity. Qed.

Lemma update_inv_init ht0 :
  TableOk ht0 ->
  update_inv ht0 [] (ht0, create_visited_set VISITED_SET_INITIAL_SIZE, double_zero).
Proof.
  intros Hok. unfold update_inv. split; [reflexivity |].
  split; [exact Hok |]. split; [apply VisitedOk_create; by vm_compute |].
  split.
  - intros k a. rewrite vs_mem_create. reflexivity.
  - intros k a _. by rewrite episode_return_nil, bump_None.
Qed.

Lemma update_mc_spec agent steps :
  TableOk (q_table agent) ->
  forallb valid_action steps = true ->
  TableOk (q_table (update_mc all_ok agent steps))
  /\ forall k a, a = 0 \/ a = 1 ->
       q_stat (q_table (update_mc all_ok agent steps)) k a
       = bump (q_stat (q_table agent) k a) (episode_return steps k a).
Proof.
  intros Hok Hvalid. rewrite update_mc_unfold.
  pose proof (down_loop_update_inv (q_table agent) steps (length steps)
                (q_table agent, create_visited_set VISITED_SET_INITIAL_SIZE,
                 double_zero)
                (le_n _) Hvalid) as Hinv.
  rewrite drop_all in Hinv. specialize (Hinv (update_inv_init _ Hok)).
  destruct (down_loop _ _ _) as [[ht visited] G]. cbn [fst].
  destruct Hinv as (_ & Hok' & _ & _ & Hstat). split; [exact Hok' | exact Hstat].
Qed.

(** The update with allocations that all succeed. *)
Lemma down_loop_ext {S : Type} (f g : Z -> S -> S) n s :
  (forall i s', f i s' = g i s') -> down_loop n f s = down_loop n g s.
Proof.
  intros Hfg. revert s. induction n as [| n IH]; intros s; [done |].
  cbn [down_loop]. by rewrite Hfg, IH.
Qed.

Lemma update_body_allocated al steps i s :
  node_ok al i = true -> entry_ok al i = true ->
  update_body al steps i s = update_body all_ok steps i s.
Proof.
  intros Hn He. unfold update_body. cbn [node_ok entry_ok all_ok].
  rewrite Hn, He. reflexivity.
Qed.

Lemma update_mc_allocated al agent steps :
  allocated al -> update_mc al agent steps = update_mc all_ok agent steps.
Proof.
  intros (Hs & Hn & He). unfold update_mc. cbn [set_ok all_ok]. rewrite Hs.
  cbn [negb].
  rewrite (down_loop_ext (update_body al steps) (update_body all_ok steps));
    [reflexivity |].
  intros i s. by apply update_body_allocated.
Qed.

Lemma update_mc_no_set al agent steps :
  set_ok al = false -> update_mc al agent steps = agent.
Proof. intros Hs. unfold update_mc. rewrite Hs. reflexivity. Qed.

(** X5: [update_mc] records one return for each pair of an episode.  When the
    visited set cannot be created the agent is left as it is.  When every
    allocation of the update succeeds, then for every pair of a state and an
    action the statistics after the update are those before it with one more
    return, if the pair occurs in the episode, and are unchanged if it does
    not; the return recorded is the sum of the rewards from the latest
    occurrence of the pair to the end of the episode, added up in [double]
    from the last step backwards, and the mean is the [double] quotient of
    the new sum by the new count. *)
Theorem update_mc_first_visit (al : UpdateAlloc) (agent : MonteCarloAgent)
    (steps : list EpisodeStep) (k : StateTuple) (a : Z) :
  table_ok (q_table agent) = true ->
  forallb valid_action steps = true ->
  a = 0 \/ a = 1 ->
  (set_ok al = false -> update_mc al agent steps = agent)
  /\ (allocated al ->
      table_ok (q_table (update_mc al agent steps)) = true
      /\ q_stat (q_table (update_mc al agent steps)) k a
         = match episode_return steps k a with
           | Some G =>
               let v := q_stat (q_table agent) k a in
               mkQValue (double_add (sum_returns v) G) (count v + 1)
                        (double_div (double_add (sum_returns v) G)
                                    (double_of_int (count v + 1)))
           | None => q_stat (q_table agent) k a
           end).
Proof.
  intros Hok%table_ok_iff Hvalid Ha.
  split; [apply update_mc_no_set |].
  intros Hal. rewrite (update_mc_allocated al agent steps Hal).
  destruct (update_mc_spec agent steps Hok Hvalid) as (Hok' & Hstat).
  split; [by apply table_ok_iff |].
  rewrite (Hstat k a Ha). by destruct (episode_return steps k a).
Qed.

Lemma update_mc_first_visit_witness :
  table_ok (q_table fresh_agent) = true
  /\ forallb valid_action sample_episode = true
  /\ (1 = 0 \/ 1 = 1)
  /\ allocated all_ok
  /\ q_stat (q_table (update_mc all_ok fresh_agent sample_episode)) key_a 1
     = match episode_return sample_episode key_a 1 with
       | Some G =>
           let v := q_stat (q_table fresh_agent) key_a 1 in
           mkQValue (double_add (sum_returns v) G) (count v + 1)
                    (double_div (double_add (sum_returns v) G)
                                (double_of_int (count v + 1)))
       | None => q_stat (q_table fresh_agent) key_a 1
       end.
Proof.
  assert (table_ok (q_table fresh_agent) = true) as H1 by (by vm_compute).
  assert (forallb valid_action sample_episode = true) as H2 by (by vm_compute).
  assert (1 = 0 \/ 1 = 1) as H3 by (by right).
  assert (allocated all_ok) as H4 by (split; [| split]; reflexivity).
  split; [exact H1 |]. split; [exact H2 |]. split; [exact H3 |].
  split; [exact H4 |].
  exact (proj2 (proj2 (update_mc_first_visit all_ok fresh_agent sample_episode
                         key_a 1 H1 H2 H3) H4)).
Defined.

(** ** Training over several episodes *)

Lemma train_nil alloc ep agent : train alloc ep agent [] = agent.
Proof. reflexivity. Qed.

Lemma recorded_returns_nil k a : recorded_returns [] k a = [].
Proof. reflexivity. Qed.

Lemma train_cons alloc ep agent steps episodes :
  train alloc ep agent (steps :: episodes)
  = train alloc (ep + 1) (update_mc (alloc ep) agent steps) episodes.
Proof. reflexivity. Qed.

Lemma recorded_returns_cons steps episodes k a :
  recorded_returns (steps :: episodes) k a
  = match episode_return steps k a with
    | Some g => g :: recorded_returns episodes k a
    | None => recorded_returns episodes k a
    end.
Proof. reflexivity. Qed.

Lemma q_stat_find ht k a :
  q_stat ht k a
  = match q_find ht k with
    | Some en => rd zero_value (values en) a
    | None => zero_value
    end.
Proof. reflexivity. Qed.

Lemma q_stat_create sz k a : q_stat (create_q_hash_table sz) k a = zero_value.
Proof. by rewrite q_stat_find, q_find_create. Qed.

Lemma double_sum_cons s g rs :
  double_sum s (g :: rs) = double_sum (double_add s g) rs.
Proof. reflexivity. Qed.

Lemma train_spec alloc episodes : forall ep agent k a,
  (forall i, allocated (alloc i)) ->
  TableOk (q_table agent) ->
  forallb (forallb valid_action) episodes = true ->
  a = 0 \/ a = 1 ->
  let v0 := q_stat (q_table agent) k a in
  let v := q_stat (q_table (train alloc ep agent episodes)) k a in
  let rs := recorded_returns episodes k a in
  TableOk (q_table (train alloc ep agent episodes))
  /\ count v = count v0 + Z.of_nat (length rs)
  /\ sum_returns v = double_sum (sum_returns v0) rs
  /\ (rs = [] -> v = v0)
  /\ (rs <> [] ->
      q_value v = double_div (sum_returns v) (double_of_int (count v))).
Proof.
  induction episodes as [| steps episodes IH]; intros ep agent k a Hal Hok Hvalid Ha;
    cbv zeta.
  - rewrite train_nil, recorded_returns_nil.
    generalize (q_stat (q_table agent) k a). intros v0.
    cbn [length double_sum fold_left]. split_and!; [done | lia | done | done | done].
  - cbn [forallb] in Hvalid. apply andb_true_iff in Hvalid as [Hv1 Hv2].
    rewrite train_cons, (update_mc_allocated _ agent steps (Hal ep)).
    destruct (update_mc_spec agent steps Hok Hv1) as (Hok' & Hstat).
    specialize (IH (ep + 1) (update_mc all_ok agent steps) k a Hal Hok' Hv2 Ha).
    cbv zeta in IH. destruct IH as (Hok2 & IH). split; [exact Hok2 |].
    rewrite (Hstat k a Ha) in IH.
    rewrite recorded_returns_cons.
    generalize dependent
      (q_stat (q_table (train alloc (ep + 1) (update_mc all_ok agent steps)
                          episodes)) k a).
    generalize (q_stat (q_table agent) k a).
    generalize (recorded_returns episodes k a).
    intros rs v0 v (Hcount & Hsum & Hnil & Hcons).
    destruct (episode_return steps k a) as [g |]; cbn [bump] in *.
    + cbn [count sum_returns length] in *. rewrite double_sum_cons.
      split_and!; [lia | done | done |].
      intros _. destruct rs as [| r rs'].
      * rewrite Hnil by done. reflexivity.
      * by apply Hcons.
    + by split_and!.
Qed.

(** X6: the value table holds the mean of the returns.  After training a
    fresh agent on any sequence of episodes, every allocation of the updates
    succeeding, the count stored for a pair is the number of episodes in
    which the pair occurs, the sum is the [double] sum of the returns
    recorded for it (one for each such episode, added in the order of the
    episodes), and the value is the [double] quotient of that sum by that
    count; a pair that never occurred reads as zero. *)
Theorem training_mean (alloc : Z -> UpdateAlloc) (n : Z) (eps : Q)
    (episodes : list (list EpisodeStep)) (k : StateTuple) (a : Z) :
  (forall i, allocated (alloc i)) ->
  forallb (forallb valid_action) episodes = true ->
  a = 0 \/ a = 1 ->
  let v := q_stat (q_table (train alloc 0 (create_monte_carlo_agent n eps)
                              episodes)) k a in
  let rs := recorded_returns episodes k a in
  count v = Z.of_nat (length rs)
  /\ sum_returns v = double_sum double_zero rs
  /\ (rs = [] -> v = zero_value)
  /\ (rs <> [] ->
      q_value v = double_div (double_sum double_zero rs)
                             (double_of_int (Z.of_nat (length rs)))).
Proof.
  intros Hal Hvalid Ha. cbv zeta.
  assert (TableOk (q_table (create_monte_carlo_agent n eps))) as Hok.
  { apply TableOk_create. by vm_compute. }
  pose proof (train_spec alloc episodes 0 (create_monte_carlo_agent n eps) k a
                Hal Hok Hvalid Ha) as Hs.
  cbv zeta in Hs. destruct Hs as (_ & Hs).
  assert (q_stat (q_table (create_monte_carlo_agent n eps)) k a = zero_value) as Hz.
  { apply q_stat_create. }
  rewrite Hz in Hs.
  generalize dependent
    (q_stat (q_table (train alloc 0 (create_monte_carlo_agent n eps) episodes)) k a).
  intros v (Hcount & Hsum & Hnil & Hcons). cbn [count sum_returns zero_value] in *.
  split_and!; [lia | done | done |].
  intros Hne. rewrite (Hcons Hne), Hsum. do 2 f_equal. lia.
Qed.

Lemma training_mean_witness :
  (forall i, allocated ((fun _ : Z => all_ok) i))
  /\ forallb (forallb valid_action) sample_training = true
  /\ (1 = 0 \/ 1 = 1)
  /\ count (q_stat (q_table (train (fun _ => all_ok) 0 fresh_agent sample_training))
                   key_a 1)
     = Z.of_nat (length (recorded_returns sample_training key_a 1)).
Proof.
  assert (forall i, allocated ((fun _ : Z => all_ok) i)) as H0
    by (intros i; split; [| split]; reflexivity).
  assert (forallb (forallb valid_action) sample_training = true) as H1
    by (by vm_compute).
  assert (1 = 0 \/ 1 = 1) as H2 by (by right).
  split; [exact H0 |]. split; [exact H1 |]. split; [exact H2 |].
  exact (proj1 (training_mean (fun _ => all_ok) 2 (1 # 10) sample_training
                  key_a 1 H0 H1 H2)).
Defined.

(** ** What a turn leaves alone *)

Lemma rd_wr_cases {A : Type} (d : A) l i j v :
  (i = j /\ 0 <= i < Z.of_nat (length l) /\ rd d (wr l i v) j = v)
  \/ rd d (wr l i v) j = rd d l j.
Proof.
  destruct (decide (i = j)) as [<- | Hne].
  - destruct (decide (0 <= i < Z.of_nat (length l))) as [Hi | Hi].
    + left. split; [done |]. split; [done |]. by apply rd_wr_eq.
    + right. by rewrite wr_out.
  - right. by apply rd_wr_ne.
Qed.

Lemma same_setup_refl e : same_setup e e.
Proof. by repeat split. Qed.

Lemma same_setup_trans e1 e2 e3 :
  same_setup e1 e2 -> same_setup e2 e3 -> same_setup e1 e3.
Proof. unfold same_setup. intros H1 H2. split_and!; etrans; apply H2 || apply H1. Qed.

Lemma same_sizes_refl e : same_sizes e e.
Proof. by repeat split. Qed.

Lemma same_sizes_trans e1 e2 e3 :
  same_sizes e1 e2 -> same_sizes e2 e3 -> same_sizes e1 e3.
Proof. unfold same_sizes. intros H1 H2. split_and!; etrans; apply H2 || apply H1. Qed.

Lemma turn_frame_refl p e : turn_frame p e e.
Proof.
  unfold turn_frame. split; [apply same_setup_refl |].
  split; [apply same_sizes_refl |]. split_and!; try done. intros i. by left.
Qed.

Lemma turn_frame_trans p e1 e2 e3 :
  turn_frame p e1 e2 -> turn_frame p e2 e3 -> turn_frame p e1 e3.
Proof.
  intros (Hs1 & Hz1 & Hq1 & Hm1 & Hst1 & Ho1 & Hx1) (Hs2 & Hz2 & Hq2 & Hm2 & Hst2 & Ho2 & Hx2).
  unfold turn_frame. split; [by eapply same_setup_trans |].
  split; [by eapply same_sizes_trans |]. split_and!.
  - intros q Hq. destruct (Hq1 q Hq) as (? & ? & ?), (Hq2 q Hq) as (? & ? & ?).
    split_and!; congruence.
  - intros q Hq. rewrite Hm2, Hm1; [done | done |].
    destruct Hs1 as (_ & _ & _ & _ & _ & _ & -> & _). done.
  - intros i. destruct (Hst1 i) as (? & ? & ?), (Hst2 i) as (? & ? & ?).
    split_and!; congruence.
  - intros i Hp Hn. rewrite Ho2; rewrite (Ho1 i Hp Hn); done.
  - intros i. destruct (Hx1 i) as [Ha | [[Ha Ha'] | [Ha Ha']]],
      (Hx2 i) as [Hb | [[Hb Hb'] | [Hb Hb']]];
      first [ left; congruence | right; left; split; congruence
            | right; right; split; congruence | left; lia ].
Qed.

Ltac frame_scalars :=
  unfold turn_frame, same_setup, same_sizes; env_goal; rewrite ?length_wr;
  split; [by split_and! |]; split; [by split_and! |].

Lemma frame_put_money p e q v :
  0 <= q < num_players e -> turn_frame p e (put_money q v e).
Proof.
  intros Hq. frame_scalars. split_and!; try done.
  - intros q' Hq'. rewrite rd_wr_ne; [done | lia].
  - intros i. by left.
Qed.

Lemma frame_add_money p e q x :
  0 <= q < num_players e -> turn_frame p e (add_money q x e).
Proof. apply frame_put_money. Qed.

Lemma frame_put_position p e v : turn_frame p e (put_position p v e).
Proof.
  frame_scalars. split_and!; try done.
  - intros q Hq. rewrite rd_wr_ne; [done | lia].
  - intros i. by left.
Qed.

Lemma frame_put_in_jail p e v : turn_frame p e (put_in_jail p v e).
Proof.
  frame_scalars. split_and!; try done.
  - intros q Hq. rewrite rd_wr_ne; [done | lia].
  - intros i. by left.
Qed.

Lemma frame_put_jail_counter p e v : turn_frame p e (put_jail_counter p v e).
Proof.
  frame_scalars. split_and!; try done.
  - intros q Hq. rewrite rd_wr_ne; [done | lia].
  - intros i. by left.
Qed.

Lemma frame_set_done p e v : turn_frame p e (set_done v e).
Proof. frame_scalars. split_and!; try done. intros i. by left. Qed.

Lemma frame_set_steps_taken p e v : turn_frame p e (set_steps_taken v e).
Proof. frame_scalars. split_and!; try done. intros i. by left. Qed.

Lemma frame_set_last_log p e v : turn_frame p e (set_last_log v e).
Proof. frame_scalars. split_and!; try done. intros i. by left. Qed.

Lemma frame_set_current_player p e v : turn_frame p e (set_current_player v e).
Proof. frame_scalars. split_and!; try done. intros i. by left. Qed.

Lemma frame_put_owner p e i v :
  (owner (prop_at e i) = -1 /\ v = p) \/ (owner (prop_at e i) = p /\ v = -1) ->
  turn_frame p e (put_owner i v e).
Proof.
  intros Hv. frame_scalars. split_and!; try done.
  - intros j. destruct (rd_wr_cases no_property (properties e) i j
                          (with_owner v (rd no_property (properties e) i)))
      as [(<- & _ & ->) | ->]; done.
  - intros j Hp Hn.
    destruct (rd_wr_cases no_property (properties e) i j
                (with_owner v (rd no_property (properties e) i)))
      as [(<- & _ & ->) | ->]; [| done].
    unfold prop_at in Hv. lia.
  - intros j.
    destruct (rd_wr_cases no_property (properties e) i j
                (with_owner v (rd no_property (properties e) i)))
      as [(<- & _ & ->) | ->]; [| by left].
    unfold prop_at in Hv. cbn [owner with_owner]. lia.
Qed.

Lemma frame_put_houses p e i v :
  owner (prop_at e i) = p \/ owner (prop_at e i) = -1 ->
  turn_frame p e (put_houses i v e).
Proof.
  intros Hv. frame_scalars. split_and!; try done.
  - intros j. destruct (rd_wr_cases no_property (properties e) i j
                          (with_houses v (rd no_property (properties e) i)))
      as [(<- & _ & ->) | ->]; done.
  - intros j Hp Hn.
    destruct (rd_wr_cases no_property (properties e) i j
                (with_houses v (rd no_property (properties e) i)))
      as [(<- & _ & ->) | ->]; [| done].
    unfold prop_at in Hv. lia.
  - intros j.
    destruct (rd_wr_cases no_property (properties e) i j
                (with_houses v (rd no_property (properties e) i)))
      as [(<- & _ & ->) | ->]; by left.
Qed.

Lemma owner_put_owner e i v :
  owner (prop_at (put_owner i v e) i) = v
  \/ owner (prop_at (put_owner i v e) i) = owner (prop_at e i).
Proof.
  env_goal.
  destruct (rd_wr_cases no_property (properties e) i i
              (with_owner v (rd no_property (properties e) i)))
    as [(_ & _ & ->) | ->]; [by left | by right].
Qed.

Lemma owner_add_money e q x i :
  prop_at (add_money q x e) i = prop_at e i.
Proof. reflexivity. Qed.

Lemma owner_put_houses e i v j :
  owner (prop_at (put_houses i v e) j) = owner (prop_at e j).
Proof.
  env_goal.
  destruct (rd_wr_cases no_property (properties e) i j
              (with_houses v (rd no_property (properties e) i)))
    as [(<- & _ & ->) | ->]; done.
Qed.

(** Chains of updates are framed update by update. *)
Ltac frame_step :=
  first
    [ apply turn_frame_refl
    | assumption
    | eapply turn_frame_trans;
      [| first [ apply frame_put_position | apply frame_put_in_jail
               | apply frame_put_jail_counter | apply frame_set_done
               | apply frame_set_steps_taken | apply frame_set_last_log
               | apply frame_set_current_player
               | apply frame_add_money | apply frame_put_money
               | apply frame_put_owner | apply frame_put_houses ] ] ].

Ltac frame_chain := repeat frame_step.

Lemma frame_forfeit_square p i e :
  turn_frame p e (forfeit_square p i e).
Proof.
  unfold forfeit_square.
  destruct (Z.eqb_spec (owner (prop_at e i)) p) as [Ho | Ho];
    [| apply turn_frame_refl].
  eapply turn_frame_trans; [apply frame_put_owner; right; done |].
  apply frame_put_houses.
  destruct (owner_put_owner e i (-1)) as [-> | ->]; [by right | by left].
Qed.

Lemma frame_forfeit_all p e0 e :
  turn_frame p e0 e -> turn_frame p e0 (forfeit_all p e).
Proof.
  intros H. unfold forfeit_all.
  apply (for_range_inv (turn_frame p e0)); [done |].
  intros j s' _ Hs. eapply turn_frame_trans; [exact Hs |].
  apply frame_forfeit_square.
Qed.

Lemma frame_num_players p e e' : turn_frame p e e' -> num_players e' = num_players e.
Proof. by intros ((_ & _ & _ & _ & _ & _ & ? & _) & _). Qed.

Lemma frame_run_effect f p e :
  0 <= p < num_players e -> turn_frame p e (fst (run_effect f e p)).
Proof.
  intros Hp. destruct f; cbn [run_effect]; unfold adjust_money, go_to_jail, advance_to_go;
    cbv zeta; try destruct (negb _); cbn [fst]; frame_chain; done.
Qed.

Lemma frame_card_phase tape p t :
  0 <= p < num_players (t_env t) ->
  turn_frame p (t_env t) (t_env (card_phase tape p t)).
Proof.
  intros Hp. destruct (card_phase_cases tape p t) as [-> | (drawn & c' & ->)];
    [apply turn_frame_refl |].
  destruct (apply_card_spec p drawn c' t) as (-> & _).
  by apply frame_run_effect.
Qed.

Lemma frame_move_phase tape p prev t :
  jailed (t_env t) p = false ->
  0 <= p < num_players (t_env t) ->
  turn_frame p (t_env t) (t_env (move_phase tape p prev t)).
Proof.
  intros Hj Hp.
  destruct (move_phase_spec tape p prev t Hj) as (-> & _).
  frame_chain; done.
Qed.

Lemma frame_square_phase p action t :
  0 <= p < num_players (t_env t) ->
  turn_frame p (t_env t) (t_env (square_phase p action t)).
Proof.
  intros Hp. square_cases; cbn [t_env with_env go_to_jail fst]; prop_of_bool;
    frame_chain; try done.
  - left. split; [| done].
    change (owner (prop_at (t_env t) (pos t)) = -1). lia.
  - match goal with
    | |- context [put_owner ?i ?v ?e] =>
        destruct (owner_put_owner e i v) as [-> | ->]
    end; [by left | right].
    change (owner (prop_at (t_env t) (pos t)) = -1). lia.
  - left. lia.
Qed.

Lemma frame_sell_houses_body p i s :
  0 <= p < num_players (fst s) ->
  turn_frame p (fst s) (fst (fst (sell_houses_body p i s))).
Proof.
  destruct s as [e r]. unfold sell_houses_body. cbn [fst snd]. intros Hp.
  repeat match goal with
         | |- context [if ?b then _ else _] => destruct b eqn:?
         end; cbn [fst snd]; try apply turn_frame_refl; prop_of_bool.
  all: eapply turn_frame_trans; [by apply (frame_add_money p e p) |];
    apply frame_put_houses; left;
    change (owner (prop_at e i) = p); done.
Qed.

Lemma frame_sell_properties_body p i s :
  0 <= p < num_players (fst s) ->
  turn_frame p (fst s) (fst (fst (sell_properties_body p i s))).
Proof.
  destruct s as [e r]. unfold sell_properties_body. cbn [fst snd]. intros Hp.
  repeat match goal with
         | |- context [if ?b then _ else _] => destruct b eqn:?
         end; cbn [fst snd]; try apply turn_frame_refl; prop_of_bool.
  all: eapply turn_frame_trans; [by apply (frame_add_money p e p) |];
    apply frame_put_owner; right; split; [| done];
    change (owner (prop_at e i) = p); done.
Qed.

Lemma frame_liquidate p e :
  0 <= p < num_players e -> turn_frame p e (fst (liquidate p e)).
Proof.
  intros Hp. unfold liquidate, sell_properties, sell_houses.
  set (P := fun s : MonopolyEnv * bool => turn_frame p e (fst s)).
  assert (P (for_range_break 0 (board_size e) (sell_houses_body p) (e, false))) as H1.
  { apply (for_range_break_inv P); [apply turn_frame_refl |].
    intros j s' _ Hs. unfold P in *. eapply turn_frame_trans; [exact Hs |].
    apply frame_sell_houses_body. by rewrite (frame_num_players _ _ _ Hs). }
  destruct (negb _ && _); [| exact H1].
  apply (for_range_break_inv P); [exact H1 |].
  intros j s' _ Hs. unfold P in *. eapply turn_frame_trans; [exact Hs |].
  apply frame_sell_properties_body. by rewrite (frame_num_players _ _ _ Hs).
Qed.

Lemma frame_bankruptcy_phase p t :
  0 <= p < num_players (t_env t) ->
  turn_frame p (t_env t) (t_env (bankruptcy_phase p t)).
Proof.
  intros Hp. unfold bankruptcy_phase. cbv zeta.
  destruct (_ && _); [| apply turn_frame_refl].
  pose proof (frame_liquidate p (t_env t) Hp) as Hl.
  destruct (liquidate p (t_env t)) as [e1 r]. cbn [fst] in Hl.
  destruct (_ && _); cbn [t_env with_env]; [| done].
  apply frame_forfeit_all. eapply turn_frame_trans; [exact Hl |].
  apply frame_set_done.
Qed.

Lemma frame_next_player p e : turn_frame p e (next_player e).
Proof. apply frame_set_current_player. Qed.

Lemma frame_finalize p prev m action t :
  turn_frame p (t_env t) (out_env (finalize p prev m action t)).
Proof.
  unfold finalize. cbv zeta. cbn [out_env fst snd].
  destruct (negb _); frame_chain.
Qed.

Lemma frame_jail_stay p e c prev m action :
  turn_frame p e (out_env (jail_stay e c p prev m action 0 0)).
Proof.
  unfold jail_stay. cbv zeta.
  destruct (_ && _).
  - destruct (_ <? _); cbn [out_env fst snd].
    + eapply turn_frame_trans; [| apply frame_next_player].
      eapply turn_frame_trans; [| apply frame_set_last_log].
      apply frame_forfeit_all. frame_chain.
    + frame_chain.
  - cbn [out_env fst snd]. frame_chain.
Qed.

(** A step is a turn of the current player. *)
Lemma frame_step tape e c action :
  Wf e ->
  turn_frame (current_player e) e (out_env (step_monopoly_env tape e c action)).
Proof.
  intros Hwf. set (p := current_player e).
  assert (0 <= p < num_players e) as Hp by apply Hwf.
  destruct (turn_stages tape e c action) as [st |] eqn:Hst.
  - rewrite (step_of_stages _ _ _ _ _ Hst). fold p.
    destruct (turn_stages_Some _ _ _ _ _ Hst) as (Hd & Hj & Hm & Hc & Hs & He).
    fold p in Hm, Hc, Hs, He.
    destruct (stages_facts _ _ _ _ _ Hwf Hst)
      as ((_ & Hc0 & _) & (_ & Hc1 & _) & (_ & Hc2 & _) & (_ & Hc3 & _) & _).
    destruct (jail_phase_inr _ _ _ _ _ Hj) as (_ & _ & Hjail & _).
    fold p in Hjail.
    assert (forall e', same_config e e' -> 0 <= p < num_players e') as Hpn.
    { intros e' (_ & _ & _ & _ & _ & -> & _). done. }
    assert (turn_frame p e (t_env (at_start st))) as H0.
    { destruct (jail_phase_cases tape e c action)
        as [(_ & Hx) | [(_ & _ & Hx) | [(_ & _ & _ & Hx) | (_ & _ & _ & Hx)]]];
        fold p in Hx; rewrite Hx in Hj; try discriminate;
        injection Hj as <-; cbn [t_env]; frame_chain; done. }
    assert (turn_frame p e (t_env (at_move st))) as H1.
    { eapply turn_frame_trans; [exact H0 |]. rewrite Hm.
      apply frame_move_phase; [done | by apply Hpn]. }
    assert (turn_frame p e (t_env (at_card st))) as H2.
    { eapply turn_frame_trans; [exact H1 |]. rewrite Hc.
      apply frame_card_phase. by apply Hpn. }
    assert (turn_frame p e (t_env (at_square st))) as H3.
    { eapply turn_frame_trans; [exact H2 |]. rewrite Hs.
      apply frame_square_phase. by apply Hpn. }
    assert (turn_frame p e (t_env (at_end st))) as H4.
    { eapply turn_frame_trans; [exact H3 |]. rewrite He.
      apply frame_bankruptcy_phase. by apply Hpn. }
    eapply turn_frame_trans; [exact H4 |]. apply frame_finalize.
  - unfold step_monopoly_env. unfold turn_stages in Hst.
    destruct (done e) eqn:Hd; [apply turn_frame_refl |].
    destruct (jail_phase_cases tape e c action)
      as [(_ & Hx) | [(_ & _ & Hx) | [(_ & _ & _ & Hx) | (_ & _ & _ & Hx)]]];
      fold p in Hx; rewrite Hx in Hst |- *; try discriminate.
    eapply turn_frame_trans; [| apply frame_jail_stay].
    apply frame_put_jail_counter.
Qed.

(** X7: a step is the turn of the current player only.  It leaves the
    position and the jail state of every other player as they are, never
    changes a price, a rent or a house cost, does not touch a square owned by
    another player, and a square changes hands only between the current
    player and the bank. *)
Theorem step_is_the_turn_of_the_current_player (tape : Tape) (e : MonopolyEnv)
    (c : nat) (action : Z) :
  wf_env e = true ->
  let p := current_player e in
  let e' := out_env (step_monopoly_env tape e c action) in
  (forall q, q <> p ->
     pos_of e' q = pos_of e q /\ jailed e' q = jailed e q
     /\ jail_counter e' q = jail_counter e q)
  /\ (forall i, price (prop_at e' i) = price (prop_at e i)
                /\ rent (prop_at e' i) = rent (prop_at e i)
                /\ house_cost (prop_at e' i) = house_cost (prop_at e i))
  /\ (forall i, owner (prop_at e i) <> p -> owner (prop_at e i) <> -1 ->
                prop_at e' i = prop_at e i)
  /\ (forall i, owner (prop_at e' i) = owner (prop_at e i)
                \/ (owner (prop_at e i) = -1 /\ owner (prop_at e' i) = p)
                \/ (owner (prop_at e i) = p /\ owner (prop_at e' i) = -1)).
Proof.
  intros Hwf%wf_env_iff. cbv zeta.
  destruct (frame_step tape e c action Hwf) as (_ & _ & H1 & _ & H2 & H3 & H4).
  done.
Qed.

Lemma step_is_the_turn_of_the_current_player_witness :
  wf_env game2_after_purchase = true
  /\ forall q, q <> current_player game2_after_purchase ->
       pos_of (out_env (step_monopoly_env rent_tape game2_after_purchase 2 1)) q
       = pos_of game2_after_purchase q
       /\ jailed (out_env (step_monopoly_env rent_tape game2_after_purchase 2 1)) q
          = jailed game2_after_purchase q
       /\ jail_counter (out_env (step_monopoly_env rent_tape game2_after_purchase 2 1)) q
          = jail_counter game2_after_purchase q.
Proof.
  assert (wf_env game2_after_purchase = true) as H by (by vm_compute).
  split; [exact H |].
  exact (proj1 (step_is_the_turn_of_the_current_player
                  rent_tape game2_after_purchase 2 1 H)).
Defined.

(** ** Reset *)

Lemma same_game_refl e : same_game e e.
Proof.
  unfold same_game. split; [apply same_setup_refl |].
  split; [apply same_sizes_refl |]. done.
Qed.

Lemma same_game_trans e1 e2 e3 :
  same_game e1 e2 -> same_game e2 e3 -> same_game e1 e3.
Proof.
  intros (Hs1 & Hz1 & Hq1 & Hst1) (Hs2 & Hz2 & Hq2 & Hst2).
  unfold same_game. split; [by eapply same_setup_trans |].
  split; [by eapply same_sizes_trans |]. split.
  - intros q Hq. destruct (Hq1 q Hq) as (? & ? & ? & ?).
    destruct (Hq2 q) as (? & ? & ? & ?).
    { destruct Hs1 as (_ & _ & _ & _ & _ & _ & -> & _). done. }
    split_and!; congruence.
  - intros i. destruct (Hst1 i) as (? & ? & ?), (Hst2 i) as (? & ? & ?).
    split_and!; congruence.
Qed.

Lemma same_game_of_frame p e e' :
  0 <= p < num_players e -> turn_frame p e e' -> same_game e e'.
Proof.
  intros Hp (Hs & Hz & Hq & Hm & Hst & _). unfold same_game.
  split; [done |]. split; [done |]. split; [| done].
  intros q Hn. destruct (Hq q) as (? & ? & ?); [lia |].
  split_and!; try done. by apply Hm.
Qed.

Lemma for_loop_ind {T : Type} (P : Z -> T -> Prop) n i (body : Z -> T -> T) s :
  P i s ->
  (forall j s', i <= j < i + Z.of_nat n -> P j s' -> P (j + 1) (body j s')) ->
  P (i + Z.of_nat n) (for_loop n i body s).
Proof.
  revert i s. induction n as [| n IH]; intros i s Hs Hbody.
  - cbn. by rewrite Z.add_0_r.
  - cbn [for_loop]. replace (i + Z.of_nat (S n)) with ((i + 1) + Z.of_nat n) by lia.
    apply IH.
    + apply Hbody; [lia | done].
    + intros j s' Hj. apply Hbody. lia.
Qed.

Lemma for_range_ind {T : Type} (P : Z -> T -> Prop) lo hi (body : Z -> T -> T) s :
  lo <= hi ->
  P lo s ->
  (forall j s', lo <= j < hi -> P j s' -> P (j + 1) (body j s')) ->
  P hi (for_range lo hi body s).
Proof.
  intros Hle Hs Hbody. unfold for_range.
  replace hi with (lo + Z.of_nat (Z.to_nat (hi - lo))) at 1 by lia.
  apply for_loop_ind; [done |]. intros j s' Hj. apply Hbody. lia.
Qed.

Lemma list_eq_rd {A : Type} (d : A) (l l' : list A) :
  length l = length l' ->
  (forall i, 0 <= i < Z.of_nat (length l) -> rd d l i = rd d l' i) ->
  l = l'.
Proof.
  intros Hlen H. apply list_eq. intros n.
  destruct (decide (n < length l)%nat) as [Hn | Hn].
  - destruct (lookup_lt_is_Some_2 l n Hn) as [x Hx].
    destruct (lookup_lt_is_Some_2 l' n) as [y Hy]; [lia |].
    specialize (H (Z.of_nat n)). unfold rd in H.
    destruct (Z.ltb_spec (Z.of_nat n) 0); [lia |].
    rewrite Nat2Z.id, Hx, Hy in H. cbn in H. rewrite Hx, Hy, H; [done | lia].
  - rewrite !lookup_ge_None_2; [done | lia | lia].
Qed.

Lemma env_ext e1 e2 :
  go_reward e1 = go_reward e2 -> start_money e1 = start_money e2 ->
  board_size e1 = board_size e2 -> jail_position e1 = jail_position e2 ->
  go_to_jail_position e1 = go_to_jail_position e2 ->
  jail_turns e1 = jail_turns e2 -> num_players e1 = num_players e2 ->
  positions e1 = positions e2 -> money e1 = money e2 ->
  in_jail e1 = in_jail e2 -> jail_counters e1 = jail_counters e2 ->
  properties e1 = properties e2 -> current_player e1 = current_player e2 ->
  steps_taken e1 = steps_taken e2 -> done e1 = done e2 ->
  chance_deck e1 = chance_deck e2 -> chest_deck e1 = chest_deck e2 ->
  obs_money_high e1 = obs_money_high e2 -> last_log e1 = last_log e2 ->
  e1 = e2.
Proof. destruct e1, e2. cbn. intros. by subst. Qed.

Lemma property_ext pr1 pr2 :
  price pr1 = price pr2 -> rent pr1 = rent pr2 -> owner pr1 = owner pr2 ->
  houses pr1 = houses pr2 -> house_cost pr1 = house_cost pr2 -> pr1 = pr2.
Proof. destruct pr1, pr2. cbn. intros. by subst. Qed.

(** The squares after the first loop of [reset_monopoly_env]. *)
Lemma reset_properties_spec e :
  Wf e ->
  let e1 := for_range 0 (board_size e) reset_property e in
  same_setup e e1 /\ same_sizes e e1
  /\ positions e1 = positions e /\ money e1 = money e
  /\ in_jail e1 = in_jail e /\ jail_counters e1 = jail_counters e
  /\ forall i, prop_at e1 i = clear_square (prop_at e i).
Proof.
  intros Hwf. cbv zeta.
  set (P := fun (j : Z) (s : MonopolyEnv) =>
              same_setup e s /\ same_sizes e s
              /\ positions s = positions e /\ money s = money e
              /\ in_jail s = in_jail e /\ jail_counters s = jail_counters e
              /\ forall i, prop_at s i
                           = if (0 <=? i) && (i <? j) then clear_square (prop_at e i)
                             else prop_at e i).
  assert (P (board_size e) (for_range 0 (board_size e) reset_property e)) as H.
  { apply for_range_ind.
    - rewrite (wf_board_size e Hwf). by compute.
    - unfold P. split; [apply same_setup_refl |].
      split; [apply same_sizes_refl |]. split_and!; try done.
      intros i. destruct (0 <=? i) eqn:H0; cbn [andb]; [| done].
      destruct (Z.ltb_spec i 0); [lia | done].
    - intros j s (Hj1 & Hj2) (Hs & Hz & Hpos & Hm & Hjl & Hjc & Hsq). unfold P.
      split; [done |].
      split; [unfold same_sizes, reset_property in *; env_goal;
              rewrite !length_wr; done |].
      split_and!; try done.
      intros i. unfold reset_property.
      assert (0 <= j < Z.of_nat (length (properties s))) as Hjr.
      { destruct Hz as (_ & _ & _ & _ & ->).
        rewrite (wf_len_properties e Hwf), <- (wf_board_size e Hwf). lia. }
      destruct (decide (i = j)) as [-> | Hne].
      + unfold put_houses at 1. rewrite prop_at_put_square
          by (unfold put_owner, set_properties; cbn [properties];
              by rewrite length_wr).
        unfold put_owner. rewrite prop_at_put_square by done.
        rewrite Hsq. destruct (Z.leb_spec 0 j); [| lia].
        destruct (Z.ltb_spec j j); [lia |]. cbn [andb].
        destruct (Z.ltb_spec j (j + 1)); [done | lia].
      + env_goal. rewrite !rd_wr_ne by done.
        specialize (Hsq i). unfold prop_at in Hsq. rewrite Hsq.
        destruct (Z.leb_spec 0 i); cbn [andb]; [| done].
        destruct (Z.ltb_spec i j), (Z.ltb_spec i (j + 1)); try done; lia. }
  destruct H as (Hs & Hz & Hpos & Hm & Hjl & Hjc & Hsq).
  split_and!; try done.
  intros i. rewrite Hsq.
  destruct (Z.leb_spec 0 i); cbn [andb].
  - destruct (Z.ltb_spec i (board_size e)); [done |].
    unfold prop_at. rewrite rd_out; [done |].
    rewrite (wf_len_properties e Hwf), <- (wf_board_size e Hwf). lia.
  - unfold prop_at. rewrite rd_out; [done | lia].
Qed.

(** The players after the second loop. *)
Lemma reset_players_spec e :
  Wf e ->
  let e2 := for_range 0 (num_players e) reset_player e in
  same_setup e e2 /\ same_sizes e e2 /\ properties e2 = properties e
  /\ forall q,
       pos_of e2 q = (if takes_part e q then 0 else pos_of e q)
       /\ money_of e2 q = (if takes_part e q then start_money e else money_of e q)
       /\ jailed e2 q = (if takes_part e q then false else jailed e q)
       /\ jail_counter e2 q = (if takes_part e q then 0 else jail_counter e q).
Proof.
  intros Hwf. cbv zeta.
  set (P := fun (j : Z) (s : MonopolyEnv) =>
              same_setup e s /\ same_sizes e s /\ properties s = properties e
              /\ forall q,
                   pos_of s q = (if (0 <=? q) && (q <? j) then 0 else pos_of e q)
                   /\ money_of s q
                      = (if (0 <=? q) && (q <? j) then start_money e else money_of e q)
                   /\ jailed s q
                      = (if (0 <=? q) && (q <? j) then false else jailed e q)
                   /\ jail_counter s q
                      = (if (0 <=? q) && (q <? j) then 0 else jail_counter e q)).
  assert (P (num_players e) (for_range 0 (num_players e) reset_player e)) as H.
  { apply for_range_ind.
    - pose proof (wf_num_players e Hwf). lia.
    - unfold P. split; [apply same_setup_refl |].
      split; [apply same_sizes_refl |]. split; [done |].
      intros q. destruct (0 <=? q) eqn:H0; cbn [andb]; [| done].
      destruct (Z.ltb_spec q 0); [lia | done].
    - intros j s Hj (Hs & Hz & Hpr & Hq). unfold P.
      assert (start_money s = start_money e) as Hstart by apply Hs.
      split; [done |].
      split; [unfold same_sizes, reset_player in *; env_goal;
              rewrite !length_wr; done |].
      split; [done |].
      pose proof (wf_num_players e Hwf) as Hn. unfold MAX_PLAYERS in *.
      destruct Hz as (Hz1 & Hz2 & Hz3 & Hz4 & _).
      pose proof (wf_len_positions e Hwf). pose proof (wf_len_money e Hwf).
      pose proof (wf_len_in_jail e Hwf). pose proof (wf_len_jail_counters e Hwf).
      unfold MAX_PLAYERS in *.
      intros q. destruct (Hq q) as (Hq1 & Hq2 & Hq3 & Hq4).
      unfold reset_player. env_goal. unfold pos_of, money_of, jailed, jail_counter in *.
      destruct (decide (q = j)) as [-> | Hne].
      + rewrite !rd_wr_eq by lia.
        destruct (Z.leb_spec 0 j); [| lia].
        destruct (Z.ltb_spec j (j + 1)); [| lia]. cbn [andb]. by rewrite Hstart.
      + rewrite !rd_wr_ne by done. rewrite Hq1, Hq2, Hq3, Hq4.
        destruct (Z.leb_spec 0 q); cbn [andb]; [| done].
        destruct (Z.ltb_spec q j), (Z.ltb_spec q (j + 1)); try done; lia. }
  exact H.
Qed.

(** The environment after [reset_monopoly_env]. *)
Lemma reset_spec e :
  Wf e ->
  let r := fst (reset_monopoly_env e) in
  same_setup e r /\ same_sizes e r
  /\ (forall q,
        pos_of r q = (if takes_part e q then 0 else pos_of e q)
        /\ money_of r q = (if takes_part e q then start_money e else money_of e q)
        /\ jailed r q = (if takes_part e q then false else jailed e q)
        /\ jail_counter r q = (if takes_part e q then 0 else jail_counter e q))
  /\ (forall i, prop_at r i = clear_square (prop_at e i))
  /\ current_player r = 0 /\ steps_taken r = 0 /\ done r = false
  /\ last_log r = zero_log.
Proof.
  intros Hwf. cbv zeta. unfold reset_monopoly_env. cbv zeta. cbn [fst].
  destruct (reset_properties_spec e Hwf) as (Hs1 & Hz1 & Hp1 & Hm1 & Hj1 & Hc1 & Hsq).
  cbv zeta in *.
  set (e1 := for_range 0 (board_size e) reset_property e) in *.
  assert (Wf e1) as Hwf1.
  { apply (for_range_inv Wf); [done |].
    intros j s' _ Hs. by apply Wf_clear_square. }
  destruct (reset_players_spec e1 Hwf1) as (Hs2 & Hz2 & Hpr2 & Hq).
  cbv zeta in *.
  set (e2 := for_range 0 (num_players e1) reset_player e1) in *.
  assert (num_players e1 = num_players e) as Hn by apply Hs1.
  assert (start_money e1 = start_money e) as Hst by apply Hs1.
  split; [exact (same_setup_trans _ _ _ Hs1 Hs2) |].
  split; [exact (same_sizes_trans _ _ _ Hz1 Hz2) |].
  split_and!; try done.
  - intros q. destruct (Hq q) as (Hq1 & Hq2 & Hq3 & Hq4).
    unfold takes_part in *. rewrite Hn, Hst in *.
    unfold pos_of, money_of, jailed, jail_counter in *.
    rewrite Hp1, Hm1, Hj1, Hc1 in *. done.
  - intros i. specialize (Hsq i). unfold prop_at in *.
    change (rd no_property (properties e2) i
            = clear_square (rd no_property (properties e) i)).
    by rewrite Hpr2.
Qed.

Lemma same_game_reset e : Wf e -> same_game e (fst (reset_monopoly_env e)).
Proof.
  intros Hwf. destruct (reset_spec e Hwf) as (Hs & Hz & Hq & Hsq & _).
  cbv zeta in *. unfold same_game. split; [done |]. split; [done |]. split.
  - intros q Hn. destruct (Hq q) as (H1 & H2 & H3 & H4).
    assert (takes_part e q = false) as Ht.
    { unfold takes_part. destruct (Z.leb_spec 0 q); cbn [andb]; [| done].
      destruct (Z.ltb_spec q (num_players e)); [lia | done]. }
    rewrite Ht in *. done.
  - intros i. by rewrite Hsq.
Qed.

Lemma same_game_run tape calls e c :
  Wf e -> same_game e (fst (run tape calls e c)).
Proof.
  revert e c. induction calls as [| x calls IH]; intros e c Hwf;
    [apply same_game_refl |].
  destruct x as [action |]; cbn [run].
  - eapply same_game_trans; [| apply IH; by apply step_Wf].
    apply (same_game_of_frame (current_player e)); [apply Hwf |].
    by apply frame_step.
  - eapply same_game_trans; [| apply IH; by apply Wf_reset].
    by apply same_game_reset.
Qed.

Lemma new_env_squares n start go i :
  owner (prop_at (new_env n start go) i) = -1
  /\ houses (prop_at (new_env n start go) i) = 0.
Proof.
  unfold prop_at. cbn [properties new_env].
  destruct (decide (0 <= i < 40)) as [Hi | Hi].
  - assert (forallb (fun pr => (owner pr =? -1) && (houses pr =? 0))
              initialize_properties = true) as H by reflexivity.
    rewrite forallb_forall in H.
    unfold rd. destruct (Z.ltb_spec i 0); [lia |].
    destruct (lookup_lt_is_Some_2 initialize_properties (Z.to_nat i)) as [pr Hpr].
    { change (length initialize_properties) with 40%nat. lia. }
    rewrite Hpr. cbn [default from_option id].
    specialize (H pr). rewrite andb_true_iff, !Z.eqb_eq in H. apply H.
    apply list_elem_of_In. by eapply list_elem_of_lookup_2.
  - rewrite rd_out; [done |].
    change (length initialize_properties) with 40%nat. lia.
Qed.

(** X8: a reset gives back the environment as it was created.  Whatever
    steps and resets were made since [create_monopoly_env], the environment
    after [reset_monopoly_env] is equal to the created one in every field:
    nothing of an episode survives into the next one. *)
Theorem reset_restores_the_created_environment (malloc_ok : bool)
    (n start go : Z) (e : MonopolyEnv) (tape : Tape) (calls : list Call) (c : nat) :
  create_monopoly_env malloc_ok n start go = Some e ->
  fst (reset_monopoly_env (fst (run tape calls e c))) = e.
Proof.
  intros Hcreate. pose proof (Wf_create _ _ _ _ _ Hcreate) as Hwf.
  assert (e = new_env n start go /\ 1 <= n <= MAX_PLAYERS) as [He Hn].
  { unfold create_monopoly_env in Hcreate.
    destruct (Z.leb_spec n 0), (Z.gtb_spec n MAX_PLAYERS); simpl in Hcreate;
      try done.
    destruct malloc_ok; simpl in Hcreate; [| done].
    injection Hcreate as <-. split; [done | lia]. }
  pose proof (Wf_run tape calls e c Hwf) as Hwf'.
  pose proof (same_game_run tape calls e c Hwf) as (Hs & Hz & Hq & Hst).
  destruct (reset_spec _ Hwf') as (Hs' & Hz' & Hq' & Hsq' & Hcp & Hsteps & Hd & Hlog).
  cbv zeta in *.
  set (e' := fst (run tape calls e c)) in *.
  set (r := fst (reset_monopoly_env e')) in *.
  pose proof (same_setup_trans _ _ _ Hs Hs') as Hsr.
  pose proof (same_sizes_trans _ _ _ Hz Hz') as Hzr.
  assert (forall q, takes_part e' q = takes_part e q) as Htp.
  { intros q. unfold takes_part.
    destruct Hs as (_ & _ & _ & _ & _ & _ & -> & _). done. }
  assert (forall q, 0 <= q < MAX_PLAYERS ->
            pos_of e q = (if takes_part e q then 0 else pos_of e q)
            /\ money_of e q = (if takes_part e q then start_money e else money_of e q)
            /\ jailed e q = (if takes_part e q then false else jailed e q)
            /\ jail_counter e q = (if takes_part e q then 0 else jail_counter e q))
    as Hfresh.
  { intros q Hq0. unfold takes_part. rewrite He.
    unfold pos_of, money_of, jailed, jail_counter.
    cbn [positions money in_jail jail_counters new_env num_players start_money].
    rewrite !rd_player_slots by done.
    destruct (Z.leb_spec 0 q); [| lia]. cbn [andb]. by destruct (q <? n). }
  assert (forall q, ~ (0 <= q < num_players e) -> takes_part e q = false) as Hout.
  { intros q Hq0. unfold takes_part.
    destruct (Z.leb_spec 0 q); cbn [andb]; [| done].
    destruct (Z.ltb_spec q (num_players e)); [lia | done]. }
  destruct Hsr as (? & ? & ? & ? & ? & ? & ? & ? & ? & ?).
  destruct Hzr as (Hl1 & Hl2 & Hl3 & Hl4 & Hl5).
  apply env_ext; try done; try (rewrite He; done).
  - apply (list_eq_rd 0); [done |]. intros q Hq0.
    rewrite Hl1, (wf_len_positions e Hwf) in Hq0.
    change (pos_of r q = pos_of e q).
    destruct (Hq' q) as (-> & _). rewrite Htp.
    destruct (Hfresh q Hq0) as (Hf & _). rewrite Hf.
    destruct (takes_part e q) eqn:Ht; [done |].
    apply Hq. intros Hx. unfold takes_part in Ht.
    destruct (Z.leb_spec 0 q), (Z.ltb_spec q (num_players e)); cbn in Ht; lia.
  - apply (list_eq_rd 0); [done |]. intros q Hq0.
    rewrite Hl2, (wf_len_money e Hwf) in Hq0.
    change (money_of r q = money_of e q).
    destruct (Hq' q) as (_ & -> & _). rewrite Htp.
    destruct (Hfresh q Hq0) as (_ & Hf & _). rewrite Hf.
    destruct (takes_part e q) eqn:Ht; [apply Hs |].
    apply Hq. intros Hx. unfold takes_part in Ht.
    destruct (Z.leb_spec 0 q), (Z.ltb_spec q (num_players e)); cbn in Ht; lia.
  - apply (list_eq_rd false); [done |]. intros q Hq0.
    rewrite Hl3, (wf_len_in_jail e Hwf) in Hq0.
    change (jailed r q = jailed e q).
    destruct (Hq' q) as (_ & _ & -> & _). rewrite Htp.
    destruct (Hfresh q Hq0) as (_ & _ & Hf & _). rewrite Hf.
    destruct (takes_part e q) eqn:Ht; [done |].
    apply Hq. intros Hx. unfold takes_part in Ht.
    destruct (Z.leb_spec 0 q), (Z.ltb_spec q (num_players e)); cbn in Ht; lia.
  - apply (list_eq_rd 0); [done |]. intros q Hq0.
    rewrite Hl4, (wf_len_jail_counters e Hwf) in Hq0.
    change (jail_counter r q = jail_counter e q).
    destruct (Hq' q) as (_ & _ & _ & ->). rewrite Htp.
    destruct (Hfresh q Hq0) as (_ & _ & _ & Hf). rewrite Hf.
    destruct (takes_part e q) eqn:Ht; [done |].
    apply Hq. intros Hx. unfold takes_part in Ht.
    destruct (Z.leb_spec 0 q), (Z.ltb_spec q (num_players e)); cbn in Ht; lia.
  - apply (list_eq_rd no_property); [done |]. intros i _.
    change (prop_at r i = prop_at e i). rewrite Hsq'.
    destruct (Hst i) as (Hp1 & Hp2 & Hp3).
    assert (owner (prop_at e i) = -1 /\ houses (prop_at e i) = 0) as [Ho Hh].
    { rewrite He. apply new_env_squares. }
    apply property_ext; cbn; congruence.
Qed.

Lemma reset_restores_the_created_environment_witness :
  create_monopoly_env true 2 1500 200 = Some game2
  /\ fst (reset_monopoly_env (fst (run house_tape house_calls game2 O))) = game2.
Proof.
  assert (create_monopoly_env true 2 1500 200 = Some game2) as H by reflexivity.
  split; [exact H |].
  exact (reset_restores_the_created_environment true 2 1500 200 game2
           house_tape house_calls O H).
Defined.

(** ** The end of a turn: solvent, or over *)

(** The squares after the loop that forfeits the squares of [p]. *)
Lemma forfeit_all_spec p e :
  Wf e ->
  money (forfeit_all p e) = money e
  /\ done (forfeit_all p e) = done e
  /\ forall i, prop_at (forfeit_all p e) i
               = if owner (prop_at e i) =? p then clear_square (prop_at e i)
                 else prop_at e i.
Proof.
  intros Hwf. unfold forfeit_all.
  set (P := fun (j : Z) (s : MonopolyEnv) =>
              money s = money e /\ done s = done e
              /\ length (properties s) = length (properties e)
              /\ forall i, prop_at s i
                           = if (0 <=? i) && (i <? j) && (owner (prop_at e i) =? p)
                             then clear_square (prop_at e i) else prop_at e i).
  assert (P (board_size e) (for_range 0 (board_size e) (forfeit_square p) e)) as H.
  { apply for_range_ind.
    - rewrite (wf_board_size e Hwf). by compute.
    - unfold P. split_and!; try done. intros i.
      destruct (Z.leb_spec 0 i); cbn [andb]; [| done].
      destruct (Z.ltb_spec i 0); [lia | done].
    - intros j s Hj (Hm & Hd & Hlen & Hsq). unfold P.
      assert (0 <= j < Z.of_nat (length (properties s))) as Hjr.
      { rewrite Hlen, (wf_len_properties e Hwf), <- (wf_board_size e Hwf). lia. }
      assert (prop_at s j = prop_at e j) as Hsj.
      { rewrite Hsq. destruct (Z.ltb_spec j j); [lia |].
        by rewrite andb_false_r. }
      unfold forfeit_square. rewrite Hsj.
      destruct (Z.eqb_spec (owner (prop_at e j)) p) as [Ho | Ho].
      + split; [done |]. split; [done |].
        split; [env_goal; by rewrite !length_wr |].
        intros i. destruct (decide (i = j)) as [-> | Hne].
        * unfold put_houses at 1. rewrite prop_at_put_square
            by (unfold put_owner, set_properties; cbn [properties];
                by rewrite length_wr).
          unfold put_owner. rewrite prop_at_put_square by done. rewrite Hsj.
          destruct (Z.leb_spec 0 j); [| lia].
          destruct (Z.ltb_spec j (j + 1)); [| lia].
          destruct (Z.eqb_spec (owner (prop_at e j)) p); [done | lia].
        * env_goal. rewrite !rd_wr_ne by done.
          specialize (Hsq i). unfold prop_at in Hsq. rewrite Hsq.
          destruct (Z.leb_spec 0 i); cbn [andb]; [| done].
          destruct (Z.ltb_spec i j), (Z.ltb_spec i (j + 1)); try done; lia.
      + split_and!; try done. intros i. rewrite Hsq.
        destruct (decide (i = j)) as [-> | Hne].
        * destruct (Z.eqb_spec (owner (prop_at e j)) p); [lia |].
          by rewrite !andb_false_r.
        * destruct (Z.leb_spec 0 i); cbn [andb]; [| done].
          destruct (Z.ltb_spec i j), (Z.ltb_spec i (j + 1)); try done; lia. }
  destruct H as (Hm & Hd & _ & Hsq). split_and!; try done.
  intros i. rewrite Hsq.
  destruct (Z.eqb_spec (owner (prop_at e i)) p) as [Ho | Ho];
    [| by rewrite andb_false_r].
  rewrite andb_true_r.
  destruct (Z.leb_spec 0 i); cbn [andb].
  - destruct (Z.ltb_spec i (board_size e)); [done |].
    unfold prop_at. rewrite rd_out; [done |].
    rewrite (wf_len_properties e Hwf), <- (wf_board_size e Hwf). lia.
  - unfold prop_at. rewrite rd_out; [done | lia].
Qed.

Lemma forfeit_all_owns_nothing p e i :
  Wf e -> 0 <= p -> owner (prop_at (forfeit_all p e) i) <> p.
Proof.
  intros Hwf Hp. destruct (forfeit_all_spec p e Hwf) as (_ & _ & ->).
  destruct (Z.eqb_spec (owner (prop_at e i)) p); [cbn; lia | done].
Qed.

(** The verdict of the bankruptcy check. *)
Lemma bankruptcy_phase_verdict p t :
  Wf (t_env t) -> 0 <= p -> done (t_env t) = false ->
  let e' := t_env (bankruptcy_phase p t) in
  (done e' = false /\ 0 <= money_of e' p)
  \/ (done e' = true /\ money_of e' p < 0
      /\ forall i, owner (prop_at e' i) <> p).
Proof.
  intros Hwf Hp Hd. cbv zeta.
  destruct (bankruptcy_phase_spec p t Hwf Hd) as (_ & _ & _ & _ & _ & _ & _ & Hsolv).
  cbv zeta in Hsolv. unfold bankruptcy_phase in *. cbv zeta in *.
  destruct (Z.ltb_spec (money_of (t_env t) p) 0); rewrite Hd in *; cbn [andb negb] in *.
  - destruct (liquidate_inv p (t_env t) Hwf) as (HWf1 & _ & Hd1 & _).
    destruct (liquidate p (t_env t)) as [e1 r]. cbn [fst snd] in *.
    destruct (negb r && (money_of e1 p <? 0)) eqn:Hverdict; cbn [t_env with_env] in *.
    + right. apply andb_true_iff in Hverdict as [_ Hneg%Z.ltb_lt].
      destruct (forfeit_all_spec p (set_done true e1)) as (Hm & Hdn & _);
        [by apply Wf_set_done |].
      split_and!.
      * by rewrite Hdn.
      * unfold money_of in *. by rewrite Hm.
      * intros i. apply forfeit_all_owns_nothing; [by apply Wf_set_done | done].
    + left. rewrite Hd1, Hd in *. split; [done |]. by apply Hsolv.
  - left. split; [done | lia].
Qed.

(** X9: a turn ends solvent, or the game is over.  After a step from a
    state that is not terminal, either the game goes on and the cash of the
    player who moved is not negative, or the game is over, that player's
    cash is negative and he owns no square; the flag returned is the flag
    of the environment. *)
Theorem step_ends_solvent_or_over (tape : Tape) (e : MonopolyEnv) (c : nat)
    (action : Z) :
  wf_env e = true ->
  done e = false ->
  let p := current_player e in
  let o := step_monopoly_env tape e c action in
  res_done (out_result o) = done (out_env o)
  /\ ((done (out_env o) = false /\ 0 <= money_of (out_env o) p)
      \/ (done (out_env o) = true /\ money_of (out_env o) p < 0
          /\ forall i, owner (prop_at (out_env o) i) <> p)).
Proof.
  intros Hwf%wf_env_iff Hd. cbv zeta. set (p := current_player e).
  assert (0 <= p < num_players e) as Hp by apply Hwf.
  destruct (turn_stages tape e c action) as [st |] eqn:Hst.
  - rewrite (step_of_stages _ _ _ _ _ Hst). fold p.
    destruct (turn_stages_Some _ _ _ _ _ Hst) as (_ & _ & _ & _ & _ & He).
    destruct (stages_facts _ _ _ _ _ Hwf Hst)
      as (_ & _ & _ & (Hwf3 & _ & Hd3) & _).
    destruct (finalize_spec p (pos_of e p) (money_of e p) action (at_end st))
      as (_ & Hrd & Hdn & Hpr & Hm & _).
    cbv zeta in *. rewrite Hrd, Hdn. split; [done |].
    unfold money_of, prop_at in *. rewrite Hm, Hpr.
    pose proof (bankruptcy_phase_verdict p (at_square st) Hwf3 (proj1 Hp) Hd3) as Hv.
    cbv zeta in Hv. fold p in He. rewrite <- He in Hv. exact Hv.
  - unfold step_monopoly_env. unfold turn_stages in Hst. rewrite Hd in *.
    destruct (jail_phase_cases tape e c action)
      as [(_ & Hx) | [(_ & _ & Hx) | [(_ & _ & _ & Hx) | (_ & _ & _ & Hx)]]];
      fold p in Hx; rewrite Hx in Hst |- *; try discriminate.
    set (e1 := put_jail_counter p (jail_counter e p + 1) e).
    assert (Wf e1) as Hwf1 by (by apply Wf_put_jail_counter).
    assert (done e1 = false) as Hd1 by exact Hd.
    unfold jail_stay. cbv zeta.
    replace (done (set_steps_taken (steps_taken e1 + 1) e1)) with false
      by (symmetry; exact Hd1).
    replace (money_of (set_steps_taken (steps_taken e1 + 1) e1) p)
      with (money_of e1 p) by reflexivity.
    cbn [negb]. rewrite andb_true_r.
    destruct (Z.ltb_spec (money_of e1 p) 0) as [Hneg | Hpos];
      cbn [out_result out_env fst snd res_done].
    + set (e2 := set_done true (set_steps_taken (steps_taken e1 + 1) e1)).
      assert (Wf e2) as Hwf2 by (by apply Wf_set_done, Wf_set_steps_taken).
      destruct (forfeit_all_spec p e2 Hwf2) as (Hm & Hdn & _).
      split; [done |]. right.
      replace (done (next_player (set_last_log _ (forfeit_all p e2))))
        with (done (forfeit_all p e2)) by reflexivity.
      replace (money_of (next_player (set_last_log _ (forfeit_all p e2))) p)
        with (money_of (forfeit_all p e2) p) by reflexivity.
      split_and!.
      * by rewrite Hdn.
      * unfold money_of in *. by rewrite Hm.
      * intros i. apply (forfeit_all_owns_nothing p e2 i Hwf2). lia.
    + split; [done |]. left. split; [exact Hd1 | exact Hpos].
Qed.

Lemma step_ends_solvent_or_over_witness :
  wf_env game2 = true
  /\ done game2 = false
  /\ res_done (out_result (step_monopoly_env (tape_of [0; 1]%N) game2 0 1))
     = done (out_env (step_monopoly_env (tape_of [0; 1]%N) game2 0 1)).
Proof.
  assert (wf_env game2 = true) as H1 by (by vm_compute).
  assert (done game2 = false) as H2 by reflexivity.
  split; [exact H1 |]. split; [exact H2 |].
  exact (proj1 (step_ends_solvent_or_over (tape_of [0; 1]%N) game2 0 1 H1 H2)).
Defined.

(** ** A pass buys nothing *)

Lemma only_sells_same e e' : properties e' = properties e -> only_sells e e'.
Proof. intros H i. unfold prop_at. rewrite H. split; by left. Qed.

Lemma only_sells_trans e1 e2 e3 :
  only_sells e1 e2 -> only_sells e2 e3 -> only_sells e1 e3.
Proof.
  intros H1 H2 i. destruct (H1 i) as [Ha Hb], (H2 i) as [Hc Hd].
  split.
  - destruct Ha as [Ha | Ha], Hc as [Hc | Hc];
      first [left; congruence | right; congruence].
  - destruct Hb as [Hb | Hb], Hd as [Hd | Hd];
      first [left; congruence | right; congruence].
Qed.

Lemma only_sells_put_houses e i : only_sells e (put_houses i 0 e).
Proof.
  intros j. env_goal.
  destruct (rd_wr_cases no_property (properties e) i j
              (with_houses 0 (rd no_property (properties e) i)))
    as [(<- & _ & ->) | ->]; cbn; split; try (by left); by right.
Qed.

Lemma only_sells_put_owner e i : only_sells e (put_owner i (-1) e).
Proof.
  intros j. env_goal.
  destruct (rd_wr_cases no_property (properties e) i j
              (with_owner (-1) (rd no_property (properties e) i)))
    as [(<- & _ & ->) | ->]; cbn; split; try (by left); by right.
Qed.

Lemma only_sells_forfeit_all p e : Wf e -> only_sells e (forfeit_all p e).
Proof.
  intros Hwf i. destruct (forfeit_all_spec p e Hwf) as (_ & _ & ->).
  destruct (owner (prop_at e i) =? p); cbn; split; try (by left); by right.
Qed.

Lemma only_sells_liquidate p e : only_sells e (fst (liquidate p e)).
Proof.
  unfold liquidate, sell_properties, sell_houses.
  set (P := fun s : MonopolyEnv * bool => only_sells e (fst s)).
  assert (P (for_range_break 0 (board_size e) (sell_houses_body p) (e, false))) as H1.
  { apply (for_range_break_inv P); [by apply only_sells_same |].
    intros j [s r] _ Hs. unfold P in *. cbn [fst] in *.
    eapply only_sells_trans; [exact Hs |]. unfold sell_houses_body.
    repeat match goal with
           | |- context [if ?b then _ else _] => destruct b eqn:?
           end; cbn [fst]; try (by apply only_sells_same).
    all: eapply only_sells_trans; [| apply only_sells_put_houses];
      by apply only_sells_same. }
  destruct (negb _ && _); [| exact H1].
  apply (for_range_break_inv P); [exact H1 |].
  intros j [s r] _ Hs. unfold P in *. cbn [fst] in *.
  eapply only_sells_trans; [exact Hs |]. unfold sell_properties_body.
  repeat match goal with
         | |- context [if ?b then _ else _] => destruct b eqn:?
         end; cbn [fst]; try (by apply only_sells_same).
  all: eapply only_sells_trans; [| apply only_sells_put_owner];
    by apply only_sells_same.
Qed.

Lemma only_sells_bankruptcy_phase p t :
  Wf (t_env t) -> only_sells (t_env t) (t_env (bankruptcy_phase p t)).
Proof.
  intros Hwf. unfold bankruptcy_phase. cbv zeta.
  destruct (_ && _); [| by apply only_sells_same].
  pose proof (only_sells_liquidate p (t_env t)) as Hl.
  destruct (liquidate_inv p (t_env t) Hwf) as (Hwf1 & _).
  destruct (liquidate p (t_env t)) as [e1 r]. cbn [fst] in *.
  destruct (_ && _); cbn [t_env with_env]; [| done].
  eapply only_sells_trans; [exact Hl |].
  eapply only_sells_trans; [| apply only_sells_forfeit_all; by apply Wf_set_done].
  by apply only_sells_same.
Qed.

Lemma square_phase_pass p action t :
  action <> 1 -> properties (t_env (square_phase p action t)) = properties (t_env t).
Proof.
  intros Hact. square_cases; cbn [t_env with_env go_to_jail fst]; prop_of_bool;
    try done; lia.
Qed.

(** X10: a pass buys nothing.  When the action is not 1, no square has a new
    owner or more houses after the step: the owner of every square is the
    one it had or nobody, and its houses are those it had or none (the
    liquidation of the player who moved can only take away). *)
Theorem pass_buys_nothing (tape : Tape) (e : MonopolyEnv) (c : nat)
    (action : Z) (i : Z) :
  wf_env e = true ->
  action <> 1 ->
  let e' := out_env (step_monopoly_env tape e c action) in
  (owner (prop_at e' i) = owner (prop_at e i) \/ owner (prop_at e' i) = -1)
  /\ (houses (prop_at e' i) = houses (prop_at e i) \/ houses (prop_at e' i) = 0).
Proof.
  intros Hwf%wf_env_iff Hact. cbv zeta. revert i.
  change (only_sells e (out_env (step_monopoly_env tape e c action))).
  set (p := current_player e).
  destruct (turn_stages tape e c action) as [st |] eqn:Hst.
  - rewrite (step_of_stages _ _ _ _ _ Hst). fold p.
    destruct (turn_stages_Some _ _ _ _ _ Hst) as (Hd & Hj & Hm & Hc & Hs & He).
    fold p in Hm, Hc, Hs, He.
    destruct (stages_facts _ _ _ _ _ Hwf Hst)
      as (_ & (Hwf1 & Hc1 & _ & Hp1) & _ & (Hwf3 & _) & _).
    destruct (jail_phase_inr _ _ _ _ _ Hj) as (_ & _ & _ & _ & Hpr0 & _).
    destruct (move_phase_done tape p (pos_of e p) (at_start st)) as (_ & Hpr1).
    rewrite <- Hm in Hpr1.
    destruct (valid_player_later _ _ Hwf Hc1 Hwf1) as (_ & Hm1 & _). fold p in Hm1.
    destruct (card_phase_spec tape p (at_move st) Hm1 Hp1)
      as (_ & _ & _ & Hpr2 & _).
    cbv zeta in Hpr2. rewrite <- Hc in Hpr2.
    pose proof (square_phase_pass p action (at_card st) Hact) as Hpr3.
    rewrite <- Hs in Hpr3.
    destruct (finalize_spec p (pos_of e p) (money_of e p) action (at_end st))
      as (_ & _ & _ & Hpr5 & _).
    cbv zeta in Hpr5.
    apply (only_sells_trans _ (t_env (at_end st))); [| by apply only_sells_same].
    apply (only_sells_trans _ (t_env (at_square st)));
      [| rewrite He; by apply only_sells_bankruptcy_phase].
    apply only_sells_same. congruence.
  - unfold step_monopoly_env. unfold turn_stages in Hst.
    destruct (done e) eqn:Hd; [by apply only_sells_same |].
    destruct (jail_phase_cases tape e c action)
      as [(_ & Hx) | [(_ & _ & Hx) | [(_ & _ & _ & Hx) | (_ & _ & _ & Hx)]]];
      fold p in Hx; rewrite Hx in Hst |- *; try discriminate.
    unfold jail_stay. cbv zeta.
    destruct (_ && _); [destruct (_ <? _) |]; cbn [out_env fst snd];
      try (by apply only_sells_same).
    set (e1 := put_jail_counter p (jail_counter e p + 1) e).
    set (e2 := set_done true (set_steps_taken (steps_taken e1 + 1) e1)).
    apply (only_sells_trans _ (forfeit_all p e2)); [| by apply only_sells_same].
    apply (only_sells_trans _ e2); [by apply only_sells_same |].
    apply only_sells_forfeit_all.
    by apply Wf_set_done, Wf_set_steps_taken, Wf_put_jail_counter.
Qed.

Lemma pass_buys_nothing_witness :
  wf_env game2 = true
  /\ 0 <> 1
  /\ (owner (prop_at (out_env (step_monopoly_env (tape_of [0; 1]%N) game2 0 0)) 3)
      = owner (prop_at game2 3)
      \/ owner (prop_at (out_env (step_monopoly_env (tape_of [0; 1]%N) game2 0 0)) 3)
         = -1).
Proof.
  assert (wf_env game2 = true) as H1 by (by vm_compute).
  assert (0 <> 1) as H2 by lia.
  split; [exact H1 |]. split; [exact H2 |].
  exact (proj1 (pass_buys_nothing (tape_of [0; 1]%N) game2 0 0 3 H1 H2)).
Defined.

(** ** The observation *)

Lemma rd_app_l {A : Type} (d : A) l1 l2 i :
  0 <= i < Z.of_nat (length l1) -> rd d (l1 ++ l2) i = rd d l1 i.
Proof.
  intros Hi. unfold rd. destruct (Z.ltb_spec i 0); [lia |].
  rewrite lookup_app_l; [done | lia].
Qed.

Lemma rd_app_r {A : Type} (d : A) l1 l2 i :
  Z.of_nat (length l1) <= i -> rd d (l1 ++ l2) i = rd d l2 (i - Z.of_nat (length l1)).
Proof.
  intros Hi. unfold rd.
  destruct (Z.ltb_spec i 0); [lia |].
  destruct (Z.ltb_spec (i - Z.of_nat (length l1)) 0); [lia |].
  rewrite lookup_app_r by lia. f_equal. f_equal. lia.
Qed.

Lemma rd_fmap_seqZ {A : Type} (d : A) (f : Z -> A) n i :
  0 <= i < n -> rd d (f <$> seqZ 0 n) i = f i.
Proof.
  intros Hi. unfold rd. destruct (Z.ltb_spec i 0); [lia |].
  rewrite list_lookup_fmap, (lookup_seqZ_lt 0 n) by lia.
  simpl. f_equal. lia.
Qed.

Lemma length_fmap_seqZ {A : Type} (f : Z -> A) n :
  0 <= n -> Z.of_nat (length (f <$> seqZ 0 n)) = n.
Proof. intros Hn. rewrite length_fmap, length_seqZ. lia. Qed.

Lemma get_observation_spec e :
  0 <= num_players e -> 0 <= board_size e ->
  let obs := get_observation e in
  let n := num_players e in
  Z.of_nat (length obs) = 3 * n + board_size e + 1
  /\ (forall q, 0 <= q < n ->
        rd 0 obs q = pos_of e q
        /\ rd 0 obs (n + q) = Z.min (money_of e q) (obs_money_high e)
        /\ rd 0 obs (2 * n + q) = (if jailed e q then 1 else 0))
  /\ (forall i, 0 <= i < board_size e -> rd 0 obs (3 * n + i) = owner (prop_at e i))
  /\ rd 0 obs (3 * n + board_size e) = current_player e.
Proof.
  intros Hn Hb. cbv zeta. unfold get_observation. cbv zeta.
  set (n := num_players e) in *. set (b := board_size e) in *.
  set (l1 := pos_of e <$> seqZ 0 n).
  set (l2 := (fun i => if money_of e i >? obs_money_high e
                       then obs_money_high e else money_of e i) <$> seqZ 0 n).
  set (l3 := (fun i => if jailed e i then 1 else 0) <$> seqZ 0 n).
  set (l4 := (fun i => owner (prop_at e i)) <$> seqZ 0 b).
  assert (Z.of_nat (length l1) = n) as H1 by (by apply length_fmap_seqZ).
  assert (Z.of_nat (length l2) = n) as H2 by (by apply length_fmap_seqZ).
  assert (Z.of_nat (length l3) = n) as H3 by (by apply length_fmap_seqZ).
  assert (Z.of_nat (length l4) = b) as H4 by (by apply length_fmap_seqZ).
  split; [rewrite !length_app; cbn [length]; lia |].
  split; [| split].
  - intros q Hq. split; [| split].
    + rewrite rd_app_l by lia. unfold l1. by rewrite rd_fmap_seqZ.
    + rewrite rd_app_r by lia. rewrite rd_app_l by lia.
      replace (n + q - Z.of_nat (length l1)) with q by lia.
      unfold l2. rewrite rd_fmap_seqZ by done.
      destruct (Z.gtb_spec (money_of e q) (obs_money_high e)); lia.
    + rewrite rd_app_r by lia. rewrite rd_app_r by lia. rewrite rd_app_l by lia.
      replace (2 * n + q - Z.of_nat (length l1) - Z.of_nat (length l2)) with q by lia.
      unfold l3. by rewrite rd_fmap_seqZ.
  - intros i Hi. rewrite rd_app_r by lia. rewrite rd_app_r by lia.
    rewrite rd_app_r by lia. rewrite rd_app_l by lia.
    replace (3 * n + i - Z.of_nat (length l1) - Z.of_nat (length l2)
             - Z.of_nat (length l3)) with i by lia.
    unfold l4. by rewrite rd_fmap_seqZ.
  - rewrite rd_app_r by lia. rewrite rd_app_r by lia.
    rewrite rd_app_r by lia. rewrite rd_app_r by lia.
    replace (3 * n + b - Z.of_nat (length l1) - Z.of_nat (length l2)
             - Z.of_nat (length l3) - Z.of_nat (length l4)) with 0 by lia.
    reflexivity.
Qed.

(** X11: the observation fills its buffer exactly.  For a well-formed
    environment [get_observation] writes [get_observation_size] integers:
    the positions, the cash of each player capped at [obs_money_high], the
    jail flags, the owner of each square, and the current player last. *)
Theorem observation_layout (e : MonopolyEnv) :
  wf_env e = true ->
  let obs := get_observation e in
  let n := num_players e in
  Z.of_nat (length obs) = get_observation_size n
  /\ (forall q, 0 <= q < n ->
        rd 0 obs q = pos_of e q
        /\ rd 0 obs (n + q) = Z.min (money_of e q) (obs_money_high e)
        /\ rd 0 obs (2 * n + q) = (if jailed e q then 1 else 0))
  /\ (forall i, 0 <= i < BOARD_SIZE -> rd 0 obs (3 * n + i) = owner (prop_at e i))
  /\ rd 0 obs (3 * n + BOARD_SIZE) = current_player e.
Proof.
  intros Hwf%wf_env_iff. cbv zeta.
  pose proof (wf_num_players e Hwf) as Hn.
  pose proof (wf_board_size e Hwf) as Hb.
  destruct (get_observation_spec e) as (H1 & H2 & H3 & H4); [lia | | ].
  { rewrite Hb. by compute. }
  cbv zeta in *. rewrite Hb in *. unfold get_observation_size.
  split; [lia |]. done.
Qed.

Lemma observation_layout_witness :
  wf_env game2_after_purchase = true
  /\ Z.of_nat (length (get_observation game2_after_purchase))
     = get_observation_size (num_players game2_after_purchase).
Proof.
  assert (wf_env game2_after_purchase = true) as H by (by vm_compute).
  split; [exact H |].
  exact (proj1 (observation_layout game2_after_purchase H)).
Defined.

Lemma get_state_tuple_observation e p :
  Wf e -> 0 <= p < num_players e ->
  get_state_tuple (get_observation (set_current_player p e))
                  (num_players e) (board_size e)
  = key_of e p.
Proof.
  intros Hwf Hp.
  pose proof (wf_num_players e Hwf) as Hn.
  pose proof (wf_board_size e Hwf) as Hb.
  destruct (get_observation_spec (set_current_player p e)) as (_ & H2 & H3 & H4).
  { cbn. lia. }
  { cbn. rewrite Hb. by compute. }
  cbv zeta in *. cbn [num_players board_size set_current_player current_player] in *.
  destruct (H2 p Hp) as (Hq1 & Hq2 & Hq3).
  unfold get_state_tuple. cbv zeta.
  replace (num_players e * 3 + board_size e) with (3 * num_players e + board_size e)
    by lia.
  rewrite H4, Hq1, Hq2, Hq3.
  pose proof (wf_positions e Hwf p Hp) as Hpos.
  change (pos_of (set_current_player p e) p) with (pos_of e p) in *.
  destruct (Z.geb_spec (pos_of e p) 0); [| lia].
  destruct (Z.ltb_spec (pos_of e p) (board_size e)); [| lia]. cbn [andb].
  rewrite (H3 (pos_of e p)) by lia. reflexivity.
Qed.

(** X12: the key of the value table, read off the observation.  On the
    observation of a well-formed environment [_get_state_tuple_c] returns the
    position of the current player, his cash capped at [obs_money_high] and
    divided by 100, the owner of the square he stands on, and his jail
    flag. *)
Theorem state_tuple_of_observation (e : MonopolyEnv) :
  wf_env e = true ->
  let p := current_player e in
  get_state_tuple (get_observation e) (num_players e) (board_size e)
  = mkState (pos_of e p)
            (Z.quot (Z.min (money_of e p) (obs_money_high e)) 100)
            (owner (prop_at e (pos_of e p)))
            (if jailed e p then 1 else 0).
Proof.
  intros Hwf%wf_env_iff. cbv zeta.
  pose proof (get_state_tuple_observation e (current_player e) Hwf) as H.
  replace (set_current_player (current_player e) e) with e in H
    by (by destruct e).
  apply H. apply Hwf.
Qed.

Lemma state_tuple_of_observation_witness :
  wf_env game2_on_own_square = true
  /\ get_state_tuple (get_observation game2_on_own_square)
       (num_players game2_on_own_square) (board_size game2_on_own_square)
     = mkState (pos_of game2_on_own_square (current_player game2_on_own_square))
         (Z.quot (Z.min (money_of game2_on_own_square
                           (current_player game2_on_own_square))
                        (obs_money_high game2_on_own_square)) 100)
         (owner (prop_at game2_on_own_square
                   (pos_of game2_on_own_square
                      (current_player game2_on_own_square))))
         (if jailed game2_on_own_square (current_player game2_on_own_square)
          then 1 else 0).
Proof.
  assert (wf_env game2_on_own_square = true) as H by (by vm_compute).
  split; [exact H |].
  exact (state_tuple_of_observation game2_on_own_square H).
Defined.

(** ** The step counter and the turn order *)

Lemma steps_forfeit_all p e : steps_taken (forfeit_all p e) = steps_taken e.
Proof.
  unfold forfeit_all.
  apply (for_range_inv (fun s => steps_taken s = steps_taken e)); [done |].
  intros j s _ Hs. unfold forfeit_square. by destruct (_ =? _).
Qed.

Lemma steps_liquidate p e : steps_taken (fst (liquidate p e)) = steps_taken e.
Proof.
  unfold liquidate, sell_properties, sell_houses.
  set (P := fun s : MonopolyEnv * bool => steps_taken (fst s) = steps_taken e).
  assert (P (for_range_break 0 (board_size e) (sell_houses_body p) (e, false))) as H1.
  { apply (for_range_break_inv P); [done |].
    intros j [s r] _ Hs. unfold P in *. cbn [fst] in *. unfold sell_houses_body.
    repeat match goal with
           | |- context [if ?b then _ else _] => destruct b eqn:?
           end; cbn [fst]; done. }
  destruct (negb _ && _); [| exact H1].
  apply (for_range_break_inv P); [exact H1 |].
  intros j [s r] _ Hs. unfold P in *. cbn [fst] in *. unfold sell_properties_body.
  repeat match goal with
         | |- context [if ?b then _ else _] => destruct b eqn:?
         end; cbn [fst]; done.
Qed.

Lemma steps_bankruptcy_phase p t :
  steps_taken (t_env (bankruptcy_phase p t)) = steps_taken (t_env t).
Proof.
  unfold bankruptcy_phase. cbv zeta. destruct (_ && _); [| done].
  pose proof (steps_liquidate p (t_env t)) as Hl.
  destruct (liquidate p (t_env t)) as [e1 r]. cbn [fst] in Hl.
  destruct (_ && _); cbn [t_env with_env]; [| done].
  by rewrite steps_forfeit_all.
Qed.

Lemma steps_square_phase p action t :
  steps_taken (t_env (square_phase p action t)) = steps_taken (t_env t).
Proof. square_cases; done. Qed.

Lemma steps_card_phase tape p t :
  steps_taken (t_env (card_phase tape p t)) = steps_taken (t_env t).
Proof.
  destruct (card_phase_cases tape p t) as [-> | (drawn & c' & ->)]; [done |].
  destruct (apply_card_spec p drawn c' t) as (-> & _).
  destruct (effect drawn); cbn [run_effect]; unfold adjust_money, go_to_jail,
    advance_to_go; cbv zeta; try destruct (negb _); done.
Qed.

Lemma steps_stages tape e c action st :
  Wf e ->
  turn_stages tape e c action = Some st ->
  steps_taken (t_env (at_end st)) = steps_taken e.
Proof.
  intros Hwf Hst. set (p := current_player e).
  destruct (turn_stages_Some _ _ _ _ _ Hst) as (Hd & Hj & Hm & Hc & Hs & He).
  fold p in Hm, Hc, Hs, He.
  destruct (jail_phase_inr _ _ _ _ _ Hj) as (_ & _ & Hjail & _). fold p in Hjail.
  rewrite He, steps_bankruptcy_phase, Hs, steps_square_phase, Hc, steps_card_phase, Hm.
  destruct (move_phase_spec tape p (pos_of e p) _ Hjail) as (-> & _).
  destruct (jail_phase_cases tape e c action)
    as [(_ & Hx) | [(_ & _ & Hx) | [(_ & _ & _ & Hx) | (_ & _ & _ & Hx)]]];
    fold p in Hx; rewrite Hx in Hj; try discriminate;
    injection Hj as <-; done.
Qed.

Lemma set_current_player_id e : set_current_player (current_player e) e = e.
Proof. by destruct e. Qed.

(** X13: the observation of a step names the player who moved.  The
    observation is taken before the turn passes: it is the observation of the
    new state with the player who moved as the current player, so the key
    read off it describes that player; the step counter grows by one, and if
    the game goes on the turn passes to the next player in cyclic order. *)
Theorem step_observation_names_the_mover (tape : Tape) (e : MonopolyEnv)
    (c : nat) (action : Z) :
  wf_env e = true ->
  done e = false ->
  let p := current_player e in
  let o := step_monopoly_env tape e c action in
  let e' := out_env o in
  out_obs o = get_observation (set_current_player p e')
  /\ get_state_tuple (out_obs o) (num_players e) (board_size e)
     = mkState (pos_of e' p)
               (Z.quot (Z.min (money_of e' p) (obs_money_high e')) 100)
               (owner (prop_at e' (pos_of e' p)))
               (if jailed e' p then 1 else 0)
  /\ steps_taken e' = steps_taken e + 1
  /\ (done e' = false -> current_player e' = Z.rem (p + 1) (num_players e)).
Proof.
  intros Hwf%wf_env_iff Hd. cbv zeta. set (p := current_player e).
  assert (0 <= p < num_players e) as Hp by apply Hwf.
  pose proof (step_Wf tape e c action Hwf) as Hwf'.
  destruct (frame_step tape e c action Hwf) as (Hsetup & _).
  fold p in Hsetup.
  assert (out_obs (step_monopoly_env tape e c action)
          = get_observation
              (set_current_player p (out_env (step_monopoly_env tape e c action)))
          /\ steps_taken (out_env (step_monopoly_env tape e c action))
             = steps_taken e + 1
          /\ (done (out_env (step_monopoly_env tape e c action)) = false ->
              current_player (out_env (step_monopoly_env tape e c action))
              = Z.rem (p + 1) (num_players e))) as (Hobs & Hsteps & Hturn).
  { destruct (turn_stages tape e c action) as [st |] eqn:Hst.
    - rewrite (step_of_stages _ _ _ _ _ Hst). fold p.
      destruct (stages_facts _ _ _ _ _ Hwf Hst) as (_ & _ & _ & _ & (_ & Hcfg)).
      pose proof (steps_stages _ _ _ _ _ Hwf Hst) as Hsteps.
      destruct Hcfg as (_ & _ & _ & _ & _ & Hn & Hcp & _). fold p in Hcp.
      unfold finalize. cbv zeta. cbn [out_obs out_env fst snd].
      set (e1 := set_steps_taken (steps_taken (t_env (at_end st)) + 1)
                   (t_env (at_end st))).
      set (log := create_log_entry e1 _ _ _ _ _ _ _ _ _ _ _).
      assert (set_current_player p (set_last_log log e1) = set_last_log log e1)
        as Hid.
      { rewrite <- Hcp. apply (set_current_player_id (set_last_log log e1)). }
      replace (done (set_last_log log e1)) with (done (t_env (at_end st)))
        by reflexivity.
      destruct (done (t_env (at_end st))) eqn:Hd4; cbn [negb].
      + split; [by rewrite Hid |]. split; [cbn; lia |].
        intros Hx. change (done (t_env (at_end st)) = false) in Hx. congruence.
      + split; [by rewrite <- Hid at 1 |].
        split; [cbn; lia |]. intros _. cbn. by rewrite Hcp, Hn.
    - unfold step_monopoly_env. unfold turn_stages in Hst. rewrite Hd in *.
      destruct (jail_phase_cases tape e c action)
        as [(_ & Hx) | [(_ & _ & Hx) | [(_ & _ & _ & Hx) | (_ & _ & _ & Hx)]]];
        fold p in Hx; rewrite Hx in Hst |- *; try discriminate.
      unfold jail_stay. cbv zeta.
      set (e1 := put_jail_counter p (jail_counter e p + 1) e).
      destruct (_ && _); [destruct (_ <? _) |]; cbn [out_obs out_env fst snd].
      + set (e2 := forfeit_all p _).
        set (log := create_log_entry e2 _ _ _ _ _ _ _ _ _ _ _).
        assert (current_player e2 = p) as Hcp.
        { destruct (same_config_forfeit_all p
                      (set_done true (set_steps_taken (steps_taken e1 + 1) e1)))
            as (_ & _ & _ & _ & _ & _ & Hcp & _). exact Hcp. }
        assert (num_players e2 = num_players e) as Hn.
        { destruct (same_config_forfeit_all p
                      (set_done true (set_steps_taken (steps_taken e1 + 1) e1)))
            as (_ & _ & _ & _ & _ & Hn & _). exact Hn. }
        assert (set_current_player p (set_last_log log e2) = set_last_log log e2)
          as Hid.
        { rewrite <- Hcp. apply (set_current_player_id (set_last_log log e2)). }
        split.
        { change (set_current_player p (next_player (set_last_log log e2)))
            with (set_current_player p (set_last_log log e2)).
          by rewrite Hid. }
        split; [unfold e2; cbn; rewrite steps_forfeit_all; cbn; lia |].
        intros _. cbn. by rewrite Hcp, Hn.
      + set (e2 := set_steps_taken (steps_taken e1 + 1) e1).
        set (log := create_log_entry e2 _ _ _ _ _ _ _ _ _ _ _).
        assert (set_current_player p (set_last_log log e2) = set_last_log log e2)
          as Hid by apply (set_current_player_id (set_last_log log e2)).
        split.
        { change (set_current_player p (next_player (set_last_log log e2)))
            with (set_current_player p (set_last_log log e2)).
          by rewrite Hid. }
        split; [cbn; lia |]. intros _. reflexivity.
      + set (e2 := set_steps_taken (steps_taken e1 + 1) e1).
        set (log := create_log_entry e2 _ _ _ _ _ _ _ _ _ _ _).
        assert (set_current_player p (set_last_log log e2) = set_last_log log e2)
          as Hid by apply (set_current_player_id (set_last_log log e2)).
        split.
        { change (set_current_player p (next_player (set_last_log log e2)))
            with (set_current_player p (set_last_log log e2)).
          by rewrite Hid. }
        split; [cbn; lia |]. intros _. reflexivity. }
  split; [exact Hobs |]. split; [| split; [exact Hsteps | exact Hturn]].
  rewrite Hobs.
  destruct Hsetup as (_ & _ & Hb & _ & _ & _ & Hn & _ & _ & _).
  rewrite <- Hn, <- Hb.
  apply (get_state_tuple_observation _ p Hwf'). by rewrite Hn.
Qed.

Lemma step_observation_names_the_mover_witness :
  wf_env game2 = true
  /\ done game2 = false
  /\ out_obs (step_monopoly_env (tape_of [0; 1]%N) game2 0 1)
     = get_observation
         (set_current_player (current_player game2)
            (out_env (step_monopoly_env (tape_of [0; 1]%N) game2 0 1))).
Proof.
  assert (wf_env game2 = true) as H1 by (by vm_compute).
  assert (done game2 = false) as H2 by reflexivity.
  split; [exact H1 |]. split; [exact H2 |].
  exact (proj1 (step_observation_names_the_mover (tape_of [0; 1]%N) game2 0 1
                  H1 H2)).
Defined.

(** ** Turns in jail *)

(** X14: a release by doubles is free, and the doubles do not move the
    player.  When the player to move is in jail and the two jail dice are
    equal, he is released with his counter at zero and pays nothing; the turn
    goes on the same step with two dice rolled anew, the next two draws of
    the tape, and he moves by their sum; the card, square and bankruptcy
    sections of [step_monopoly_env] follow. *)
Theorem jail_release_by_doubles (tape : Tape) (e : MonopolyEnv) (c : nat)
    (action : Z) :
  wf_env e = true ->
  done e = false ->
  jailed e (current_player e) = true ->
  die tape c = die tape (S c) ->
  exists st,
    turn_stages tape e c action = Some st
    /\ jailed (t_env (at_start st)) (current_player e) = false
    /\ jail_counter (t_env (at_start st)) (current_player e) = 0
    /\ jail_fee_delta e st (current_player e) = 0
    /\ fee_paid_this_turn (at_start st) = 0
    /\ dice_total (at_move st) = die tape (S (S c)) + die tape (S (S (S c)))
    /\ pos_of (t_env (at_move st)) (current_player e)
       = Z.rem (pos_of e (current_player e) + dice_total (at_move st)) (board_size e)
    /\ step_monopoly_env tape e c action
       = finalize (current_player e) (pos_of e (current_player e))
           (money_of e (current_player e)) action
           (bankruptcy_phase (current_player e)
              (square_phase (current_player e) action
                 (card_phase tape (current_player e) (at_move st)))).
Proof.
  intros Hwf Hd Hj Hdice. apply wf_env_iff in Hwf.
  set (p := current_player e) in *.
  destruct (valid_player _ Hwf) as (Hp1 & Hp2 & Hp3 & Hp4). fold p in Hp1, Hp2, Hp3, Hp4.
  pose proof (jail_phase_cases tape e c action) as Hcases.
  cbv zeta in Hcases. fold p in Hcases.
  destruct Hcases
    as [[Hj' _] | [(_ & _ & H) | [(_ & Hne & _) | (_ & Hne & _)]]];
    try congruence.
  unfold turn_stages. rewrite Hd, H. fold p. eexists. split; [reflexivity |].
  cbn [at_start at_move at_card at_square at_end].
  set (t0 := mkTurn _ _ _ _ _ _ _ _ _ _) in *.
  assert (jailed (t_env t0) p = false) as Hout.
  { unfold t0. env_goal. by rewrite rd_wr_eq by (rewrite ?length_wr; lia). }
  destruct (move_phase_spec tape p (pos_of e p) t0 Hout)
    as (Henv & _ & _ & _ & _ & _ & _ & Htot & _).
  split_and!.
  - done.
  - unfold t0. env_goal. by rewrite rd_wr_eq by (rewrite ?length_wr; lia).
  - unfold jail_fee_delta. cbn [at_start]. unfold t0. env_goal. lia.
  - done.
  - by rewrite Htot.
  - rewrite Henv, pos_put_position, Htot; [done |]. unfold t0. exact Hp1.
  - unfold step_monopoly_env, play_turn. by rewrite Hd, H.
Qed.

Lemma jail_release_by_doubles_witness :
  wf_env game2_jailed = true
  /\ exists st,
       turn_stages (tape_of [2; 2; 0; 1]%N) game2_jailed 0 0 = Some st
       /\ jail_fee_delta game2_jailed st 0 = 0
       /\ dice_total (at_move st) = 3
       /\ step_monopoly_env (tape_of [2; 2; 0; 1]%N) game2_jailed 0 0
          = finalize (current_player game2_jailed)
              (pos_of game2_jailed (current_player game2_jailed))
              (money_of game2_jailed (current_player game2_jailed)) 0
              (bankruptcy_phase (current_player game2_jailed)
                 (square_phase (current_player game2_jailed) 0
                    (card_phase (tape_of [2; 2; 0; 1]%N) (current_player game2_jailed)
                       (at_move st)))).
Proof.
  split; [by vm_compute |].
  destruct (jail_release_by_doubles (tape_of [2; 2; 0; 1]%N) game2_jailed 0 0)
    as (st & H1 & _ & _ & H4 & _ & H6 & _ & H8);
    [by vm_compute | reflexivity | by vm_compute | by vm_compute |].
  exists st. split_and!; [exact H1 | exact H4 | exact H6 | exact H8].
Defined.

(** X15: a turn spent in jail.  When the player to move is in jail, the two
    jail dice differ and the turn limit is not reached, the turn ends there:
    two draws are consumed, the player stays where he is, still in jail, with
    one more turn on his counter, and the turn passes.  If his cash is not
    negative nothing else changes and the reward is 0.  If it is negative the
    game is over at once, with the penalty of 1000 as the reward: his squares
    go back to the bank with their houses and his cash stays as it was,
    nothing is sold. *)
Theorem jail_turn_without_release (tape : Tape) (e : MonopolyEnv) (c : nat)
    (action : Z) :
  wf_env e = true ->
  done e = false ->
  jailed e (current_player e) = true ->
  die tape c <> die tape (S c) ->
  jail_counter e (current_player e) + 1 < jail_turns e ->
  let p := current_player e in
  let o := step_monopoly_env tape e c action in
  let e' := out_env o in
  out_cursor o = S (S c)
  /\ positions e' = positions e /\ money e' = money e /\ in_jail e' = in_jail e
  /\ jail_counter e' p = jail_counter e p + 1
  /\ current_player e' = Z.rem (p + 1) (num_players e)
  /\ (0 <= money_of e p ->
      reward (out_result o) = 0 /\ done e' = false
      /\ properties e' = properties e)
  /\ (money_of e p < 0 ->
      reward (out_result o) = -1000 /\ done e' = true
      /\ forall i, prop_at e' i
                   = if owner (prop_at e i) =? p then clear_square (prop_at e i)
                     else prop_at e i).
Proof.
  intros Hwf Hd Hj Hdice Hlim. apply wf_env_iff in Hwf. cbv zeta.
  set (p := current_player e) in *.
  destruct (valid_player _ Hwf) as (Hp1 & Hp2 & Hp3 & Hp4). fold p in Hp1, Hp2, Hp3, Hp4.
  assert (jail_counter (put_jail_counter p (jail_counter e p + 1) e) p
          = jail_counter e p + 1) as Hcnt.
  { env_goal. by rewrite rd_wr_eq. }
  pose proof (jail_phase_cases tape e c action) as Hcases.
  cbv zeta in Hcases. fold p in Hcases.
  destruct Hcases
    as [[Hj' _] | [(_ & Heq & _) | [(_ & _ & Hge & _) | (_ & _ & _ & H)]]];
    try congruence; try lia.
  unfold step_monopoly_env. rewrite Hd, H.
  set (e1 := put_jail_counter p (jail_counter e p + 1) e) in *.
  assert (Wf e1) as Hwf1 by (by apply Wf_put_jail_counter).
  unfold jail_stay. cbv zeta.
  replace (done (set_steps_taken (steps_taken e1 + 1) e1)) with false
    by (symmetry; exact Hd).
  replace (money_of (set_steps_taken (steps_taken e1 + 1) e1) p)
    with (money_of e p) by reflexivity.
  cbn [negb]. rewrite andb_true_r.
  destruct (Z.ltb_spec (money_of e p) 0) as [Hneg | Hpos];
    cbn [out_result out_env out_cursor fst snd reward].
  - set (e2 := set_done true (set_steps_taken (steps_taken e1 + 1) e1)).
    assert (Wf e2) as Hwf2 by (by apply Wf_set_done, Wf_set_steps_taken).
    destruct (forfeit_all_spec p e2 Hwf2) as (Hm & Hdn & Hsq).
    destruct (frame_forfeit_all p e2 e2 (turn_frame_refl p e2))
      as (Hsetup & _ & _).
    assert (positions (forfeit_all p e2) = positions e2
            /\ in_jail (forfeit_all p e2) = in_jail e2
            /\ jail_counters (forfeit_all p e2) = jail_counters e2) as (Hf1 & Hf2 & Hf3).
    { unfold forfeit_all.
      apply (for_range_inv (fun s => positions s = positions e2
                                     /\ in_jail s = in_jail e2
                                     /\ jail_counters s = jail_counters e2));
        [done |].
      intros j s _ Hs. unfold forfeit_square. by destruct (_ =? _). }
    destruct (same_config_forfeit_all p e2) as (_ & _ & _ & _ & _ & Hn & Hcp & _).
    split; [done |].
    split; [exact Hf1 |]. split; [exact Hm |]. split; [exact Hf2 |].
    split.
    { unfold jail_counter in *.
      change (rd 0 (jail_counters (forfeit_all p e2)) p = rd 0 (jail_counters e) p + 1).
      rewrite Hf3. exact Hcnt. }
    split.
    { change (Z.rem (current_player (forfeit_all p e2) + 1)
                    (num_players (forfeit_all p e2))
              = Z.rem (p + 1) (num_players e)).
      by rewrite Hcp, Hn. }
    split; [lia |]. intros _.
    split; [lia |]. split; [exact Hdn |].
    intros i.
    change (prop_at (forfeit_all p e2) i
            = if owner (prop_at e i) =? p then clear_square (prop_at e i)
              else prop_at e i).
    by rewrite Hsq.
  - split; [done |]. split; [done |]. split; [done |]. split; [done |].
    split; [exact Hcnt |]. split; [done |].
    split; [| lia]. intros _. split_and!; done.
Qed.

Lemma jail_turn_without_release_witness :
  wf_env game2_jailed_in_debt = true
  /\ done game2_jailed_in_debt = false
  /\ jailed game2_jailed_in_debt (current_player game2_jailed_in_debt) = true
  /\ die (tape_of [0; 1]%N) 0 <> die (tape_of [0; 1]%N) 1
  /\ jail_counter game2_jailed_in_debt (current_player game2_jailed_in_debt) + 1
     < jail_turns game2_jailed_in_debt
  /\ out_cursor (step_monopoly_env (tape_of [0; 1]%N) game2_jailed_in_debt 0 0)
     = 2%nat.
Proof.
  assert (wf_env game2_jailed_in_debt = true) as H1 by (by vm_compute).
  assert (done game2_jailed_in_debt = false) as H2 by reflexivity.
  assert (jailed game2_jailed_in_debt (current_player game2_jailed_in_debt) = true)
    as H3 by (by vm_compute).
  assert (die (tape_of [0; 1]%N) 0 <> die (tape_of [0; 1]%N) 1) as H4
    by (by vm_compute).
  assert (jail_counter game2_jailed_in_debt (current_player game2_jailed_in_debt) + 1
          < jail_turns game2_jailed_in_debt) as H5 by (by vm_compute).
  split; [exact H1 |]. split; [exact H2 |]. split; [exact H3 |].
  split; [exact H4 |]. split; [exact H5 |].
  exact (proj1 (jail_turn_without_release (tape_of [0; 1]%N) game2_jailed_in_debt
                  0 0 H1 H2 H3 H4 H5)).
Defined.

(** ** The episode simulator of the parallel version *)

Section KernelFacts.
Variable RAND_MAX : Z.
Variable curand_uniform : N -> Q.

Lemma kernel_frame_refl p s : kernel_frame p s s.
Proof. unfold kernel_frame. split_and!; try done; [by left | intros i; by left]. Qed.

Lemma kernel_frame_trans p s1 s2 s3 :
  kernel_frame p s1 s2 -> kernel_frame p s2 s3 -> kernel_frame p s1 s3.
Proof.
  intros (Hh1 & Hq1 & Hj1 & Ho1) (Hh2 & Hq2 & Hj2 & Ho2). unfold kernel_frame.
  split; [congruence |]. split; [| split].
  - intros q Hq. destruct (Hq1 q Hq) as (? & ? & ? & ?), (Hq2 q Hq) as (? & ? & ? & ?).
    split_and!; congruence.
  - destruct Hj1 as [Hj1 | Hj1], Hj2 as [Hj2 | Hj2];
      first [left; congruence | right; congruence].
  - intros i. destruct (Ho1 i) as [Ha | [Ha Ha']], (Ho2 i) as [Hb | [Hb Hb']];
      first [left; congruence | right; split; congruence].
Qed.

Ltac kernel_goal :=
  unfold kernel_frame, k_add_money, k_go_to_jail, k_advance_to_go, k_money_of,
         k_set_money, k_set_positions, k_set_in_jail, k_set_jail_counters,
         k_set_owners, k_set_done, k_set_cursor;
  cbn [k_positions k_money k_in_jail k_jail_counters k_property_owners
       k_property_houses k_current_player k_steps_taken k_done k_cursor].

Lemma kernel_frame_cursor p s c : kernel_frame p s (k_set_cursor c s).
Proof. kernel_goal. split_and!; try done; [by left | intros i; by left]. Qed.

Lemma kernel_frame_done p s v : kernel_frame p s (k_set_done v s).
Proof. kernel_goal. split_and!; try done; [by left | intros i; by left]. Qed.

Lemma kernel_frame_add_money p s x : kernel_frame p s (k_add_money p x s).
Proof.
  kernel_goal. split_and!; try done; [| by left | intros i; by left].
  intros q Hq. by rewrite rd_wr_ne by done.
Qed.

Lemma kernel_frame_position p s v :
  kernel_frame p s (k_set_positions (wr (k_positions s) p v) s).
Proof.
  kernel_goal. split_and!; try done; [| by left | intros i; by left].
  intros q Hq. by rewrite rd_wr_ne by done.
Qed.

Lemma kernel_frame_go_to_jail p s jail : kernel_frame p s (k_go_to_jail p jail s).
Proof.
  kernel_goal. split_and!; try done.
  - intros q Hq. by rewrite !rd_wr_ne by done.
  - destruct (rd_wr_cases 0 (k_in_jail s) p p 1) as [(_ & _ & ->) | ->];
      [by right | by left].
  - intros i. by left.
Qed.

Lemma kernel_frame_advance_to_go p s go : kernel_frame p s (k_advance_to_go p go s).
Proof.
  unfold k_advance_to_go.
  eapply kernel_frame_trans; [apply kernel_frame_position |].
  apply kernel_frame_add_money.
Qed.

Lemma kernel_frame_buy p s i :
  rd 0 (k_property_owners s) i = -1 ->
  kernel_frame p s (k_set_owners (wr (k_property_owners s) i p) s).
Proof.
  intros Ho. kernel_goal. split_and!; try done; [by left |].
  intros j. destruct (rd_wr_cases 0 (k_property_owners s) i j p)
    as [(<- & _ & ->) | ->]; [by right | by left].
Qed.

Ltac kframe :=
  repeat first
    [ apply kernel_frame_refl
    | eapply kernel_frame_trans;
      [| first [ apply kernel_frame_cursor | apply kernel_frame_done
               | apply kernel_frame_add_money | apply kernel_frame_position
               | apply kernel_frame_go_to_jail | apply kernel_frame_advance_to_go ] ] ].

Lemma kernel_frame_move a tape p s :
  kernel_frame p s (fst (fst (kernel_move RAND_MAX a tape p s))).
Proof.
  unfold kernel_move, cuda_rand. cbv zeta. cbn [fst].
  destruct (_ && _); kframe.
Qed.

Lemma kernel_frame_square a tape p new_position s :
  kernel_frame p s
    (fst (fst (kernel_square RAND_MAX curand_uniform a tape p new_position s))).
Proof.
  unfold kernel_square, cuda_rand, cuda_rand_float. cbv zeta.
  destruct ((rd 0 (a_property_prices a) new_position >? 0)
            && (rd 0 (k_property_owners s) new_position =? -1)
            && (k_money_of s p >=? rd 0 (a_property_prices a) new_position))
    eqn:Hbuy.
  - apply andb_true_iff in Hbuy as [Hbuy _].
    apply andb_true_iff in Hbuy as [_ Ho%Z.eqb_eq].
    destruct (Qlt_le_dec _ _); cbn [fst snd].
    + destruct (_ =? 1); cbn [fst]; [| kframe].
      eapply kernel_frame_trans; [| by apply kernel_frame_buy]. kframe.
    + cbn [Z.eqb Pos.eqb fst].
      eapply kernel_frame_trans; [| by apply kernel_frame_buy]. kframe.
  - clear Hbuy. destruct (_ && _); cbn [fst]; kframe.
Qed.

Lemma kernel_frame_cards a tape p new_position s :
  kernel_frame p s (fst (kernel_cards RAND_MAX a tape p new_position s)).
Proof.
  unfold kernel_cards, cuda_rand. cbv zeta.
  repeat match goal with
         | |- context [if ?b then _ else _] => destruct b
         end; cbn [fst]; kframe.
Qed.

Lemma kernel_square_action a tape p new_position s :
  let action :=
    snd (fst (kernel_square RAND_MAX curand_uniform a tape p new_position s)) in
  action = 0 \/ action = 1.
Proof.
  cbv zeta. unfold kernel_square, cuda_rand, cuda_rand_float. cbv zeta.
  destruct ((rd 0 (a_property_prices a) new_position >? 0)
            && (rd 0 (k_property_owners s) new_position =? -1)
            && (k_money_of s p >=? rd 0 (a_property_prices a) new_position)).
  - destruct (Qlt_le_dec _ _); cbn [fst snd].
    + set (r := Z.rem (Z.of_N _) RAND_MAX).
      assert (0 <= r) as Hr.
      { unfold r. destruct (Z.eq_dec RAND_MAX 0) as [-> | Hne].
        - clear r.
          match goal with
          | |- context [Z.of_N ?n] =>
              pose proof (N2Z.is_nonneg n) as Hz; revert Hz; generalize (Z.of_N n)
          end.
          intros x Hx. destruct x; unfold Z.rem; cbn; lia.
        - apply Z.rem_nonneg; [done | lia]. }
      pose proof (Z.rem_bound_pos r 2 Hr ltac:(lia)) as Hb.
      destruct (Z.eqb_spec (Z.rem r 2) 1); cbn [fst snd]; lia.
    + cbn [Z.eqb Pos.eqb fst snd]. by right.
  - destruct (_ && _); cbn [fst snd]; by left.
Qed.

Lemma kernel_step_unfold a tape step_count s ep :
  let p := k_current_player s in
  let m := kernel_move RAND_MAX a tape p s in
  let sq := kernel_square RAND_MAX curand_uniform a tape p (snd m) (fst (fst m)) in
  let s2 := fst (fst sq) in
  let s3 := if k_money_of s2 p <? 0 then k_set_done true s2 else s2 in
  let cd := kernel_cards RAND_MAX a tape p (snd m) s3 in
  let s4 := fst cd in
  exists log step,
    kernel_step RAND_MAX curand_uniform a tape step_count (s, ep)
    = (mkCuda (k_positions s4) (k_money s4) (k_in_jail s4) (k_jail_counters s4)
              (k_property_owners s4) (k_property_houses s4)
              (Z.rem (k_current_player s4 + 1) (a_num_players a))
              (k_steps_taken s4 + 1) (k_done s4) (k_cursor s4),
       mkEpisode (if Z.of_nat (length (ep_steps ep)) <? MAX_EPISODE_STEPS
                  then ep_steps ep ++ [step] else ep_steps ep)
                 (ep_logs ep ++ [log]) (ep_episode_id ep))
    /\ log_step log = step_count
    /\ log_done log = k_done s3
    /\ valid_action step = true.
Proof.
  cbv zeta. unfold kernel_step.
  pose proof (kernel_square_action a tape (k_current_player s)
                (snd (kernel_move RAND_MAX a tape (k_current_player s) s))
                (fst (fst (kernel_move RAND_MAX a tape (k_current_player s) s))))
    as Hact. cbv zeta in Hact.
  destruct (kernel_move RAND_MAX a tape (k_current_player s) s)
    as [[s1 total] new_position]. cbn [fst snd] in *.
  destruct (kernel_square RAND_MAX curand_uniform a tape (k_current_player s)
              new_position s1) as [[s2 action] fee]. cbn [fst snd] in *.
  assert (forall st r, valid_action (mkStep st action r) = true) as Hv.
  { intros st r. unfold valid_action. cbn [es_action]. lia. }
  destruct (k_money_of s2 (k_current_player s) <? 0);
    destruct (kernel_cards RAND_MAX a tape (k_current_player s) new_position _)
      as [s4 card]; cbn [fst snd];
    eexists; eexists; (split; [reflexivity |]); split_and!; try done; apply Hv.
Qed.

Lemma kernel_frame_step a tape step_count st :
  kernel_frame (k_current_player (fst st)) (fst st)
    (fst (kernel_step RAND_MAX curand_uniform a tape step_count st)).
Proof.
  destruct st as [s ep]. cbn [fst].
  destruct (kernel_step_unfold a tape step_count s ep) as (log & step & -> & _).
  cbn [fst]. set (p := k_current_player s).
  set (m := kernel_move RAND_MAX a tape p s).
  set (sq := kernel_square RAND_MAX curand_uniform a tape p (snd m) (fst (fst m))).
  set (s3 := if k_money_of (fst (fst sq)) p <? 0
             then k_set_done true (fst (fst sq)) else fst (fst sq)).
  set (s4 := fst (kernel_cards RAND_MAX a tape p (snd m) s3)).
  assert (kernel_frame p s s4) as H.
  { eapply kernel_frame_trans; [apply kernel_frame_move |].
    eapply kernel_frame_trans; [apply kernel_frame_square |].
    eapply kernel_frame_trans; [| apply kernel_frame_cards].
    fold m sq. unfold s3. destruct (_ <? 0);
      [apply kernel_frame_done | apply kernel_frame_refl]. }
  exact H.
Qed.

Lemma kernel_init_spec a c :
  k_steps_taken (kernel_init a c) = 0
  /\ k_done (kernel_init a c) = false
  /\ k_property_houses (kernel_init a c) = replicate (Z.to_nat BOARD_SIZE) 0.
Proof.
  unfold kernel_init. cbv zeta.
  set (s0 := mkCuda _ _ _ _ _ _ _ _ _ _).
  set (P := fun s : CUDAEnvState =>
              k_steps_taken s = 0 /\ k_done s = false
              /\ k_property_houses s = replicate (Z.to_nat BOARD_SIZE) 0).
  assert (P (for_range 0 (a_num_players a)
               (fun i s =>
                  k_set_jail_counters (wr (k_jail_counters s) i 0)
                    (k_set_in_jail (wr (k_in_jail s) i 0)
                       (k_set_money (wr (k_money s) i (a_start_money a))
                          (k_set_positions (wr (k_positions s) i 0) s)))) s0)) as H1.
  { apply (for_range_inv P); [done |]. intros j s _ Hs. exact Hs. }
  apply (for_range_inv P); [exact H1 |].
  intros j s _ (Hs1 & Hs2 & Hs3). unfold P. cbn. split_and!; try done.
  rewrite Hs3. unfold wr. destruct (j <? 0); [done |]. apply insert_replicate.
Qed.

Lemma kernel_move_steps a tape p s :
  k_steps_taken (fst (fst (kernel_move RAND_MAX a tape p s))) = k_steps_taken s.
Proof.
  unfold kernel_move, cuda_rand. cbv zeta. cbn [fst]. by destruct (_ && _).
Qed.

Lemma kernel_square_steps a tape p new_position s :
  k_steps_taken
    (fst (fst (kernel_square RAND_MAX curand_uniform a tape p new_position s)))
  = k_steps_taken s.
Proof.
  unfold kernel_square, cuda_rand, cuda_rand_float. cbv zeta.
  destruct ((rd 0 (a_property_prices a) new_position >? 0)
            && (rd 0 (k_property_owners s) new_position =? -1)
            && (k_money_of s p >=? rd 0 (a_property_prices a) new_position)).
  - destruct (Qlt_le_dec _ _); cbn [fst snd].
    + by destruct (_ =? 1).
    + done.
  - by destruct (_ && _).
Qed.

Lemma kernel_cards_steps a tape p new_position s :
  k_steps_taken (fst (kernel_cards RAND_MAX a tape p new_position s))
  = k_steps_taken s.
Proof.
  unfold kernel_cards, cuda_rand. cbv zeta.
  repeat match goal with
         | |- context [if ?b then _ else _] => destruct b
         end; reflexivity.
Qed.

(** The state of the episode loop after [step_count] iterations. *)
Lemma kernel_step_count a tape step_count st :
  0 <= step_count < MAX_EPISODE_STEPS ->
  Z.of_nat (length (ep_steps (snd st))) = step_count ->
  length (ep_logs (snd st)) = length (ep_steps (snd st)) ->
  k_steps_taken (fst st) = step_count ->
  forallb valid_action (ep_steps (snd st)) = true ->
  let st' := kernel_step RAND_MAX curand_uniform a tape step_count st in
  Z.of_nat (length (ep_steps (snd st'))) = step_count + 1
  /\ length (ep_logs (snd st')) = length (ep_steps (snd st'))
  /\ k_steps_taken (fst st') = step_count + 1
  /\ forallb valid_action (ep_steps (snd st')) = true
  /\ ep_episode_id (snd st') = ep_episode_id (snd st)
  /\ k_property_houses (fst st') = k_property_houses (fst st).
Proof.
  intros Hsc Hlen Hlogs Hsteps Hvalid. cbv zeta.
  pose proof (kernel_frame_step a tape step_count st) as (Hh & _).
  destruct st as [s ep]. cbn [fst snd] in *.
  destruct (kernel_step_unfold a tape step_count s ep)
    as (log & step & Heq & _ & _ & Hv).
  cbv zeta in Heq. rewrite Heq in *. cbn [fst snd ep_steps ep_logs ep_episode_id] in *.
  destruct (Z.ltb_spec (Z.of_nat (length (ep_steps ep))) MAX_EPISODE_STEPS); [| lia].
  rewrite !length_app. cbn [length]. split; [lia |]. split; [lia |].
  split.
  { cbn [k_steps_taken].
    rewrite kernel_cards_steps.
    assert (forall x, k_steps_taken (if k_money_of x (k_current_player s) <? 0
                                     then k_set_done true x else x)
                      = k_steps_taken x) as ->.
    { intros x. by destruct (k_money_of x (k_current_player s) <? 0). }
    rewrite kernel_square_steps, kernel_move_steps. lia. }
  split; [| done].
  rewrite forallb_app, Hvalid. cbn [forallb]. by rewrite Hv.
Qed.

Lemma kernel_loop_spec a tape fuel : forall step_count st,
  0 <= step_count ->
  step_count + Z.of_nat fuel = MAX_EPISODE_STEPS ->
  Z.of_nat (length (ep_steps (snd st))) = step_count ->
  length (ep_logs (snd st)) = length (ep_steps (snd st)) ->
  k_steps_taken (fst st) = step_count ->
  forallb valid_action (ep_steps (snd st)) = true ->
  let r := kernel_loop RAND_MAX curand_uniform fuel a tape step_count st in
  Z.of_nat (length (ep_steps (snd r))) <= MAX_EPISODE_STEPS
  /\ length (ep_logs (snd r)) = length (ep_steps (snd r))
  /\ k_steps_taken (fst r) = Z.of_nat (length (ep_steps (snd r)))
  /\ forallb valid_action (ep_steps (snd r)) = true
  /\ ep_episode_id (snd r) = ep_episode_id (snd st)
  /\ k_property_houses (fst r) = k_property_houses (fst st)
  /\ (k_done (fst r) = false ->
      Z.of_nat (length (ep_steps (snd r))) = MAX_EPISODE_STEPS).
Proof.
  induction fuel as [| fuel IH]; intros step_count st H0 Hfuel Hlen Hlogs Hsteps Hvalid;
    cbv zeta.
  - cbn [kernel_loop]. split_and!; try done; lia.
  - cbn [kernel_loop].
    destruct (Z.ltb_spec step_count MAX_EPISODE_STEPS); [| lia].
    rewrite andb_true_r.
    destruct (k_done (fst st)) eqn:Hd; cbn [negb].
    + split_and!; try done; try lia. congruence.
    + destruct (kernel_step_count a tape step_count st ltac:(lia)
                  Hlen Hlogs Hsteps Hvalid)
        as (Hl' & Hlogs' & Hsteps' & Hvalid' & Hid' & Hh').
      destruct (IH (step_count + 1)
                  (kernel_step RAND_MAX curand_uniform a tape step_count st)
                  ltac:(lia) ltac:(lia) Hl' Hlogs' Hsteps' Hvalid')
        as (R1 & R2 & R3 & R4 & R5 & R6 & R7).
      split_and!; try done; congruence.
Qed.

(** X16: an iteration of the episode loop of the kernel touches the player
    who moves only, and only takes.  It changes no house count; it leaves
    the cash, the position, the jail flag and the jail counter of every
    other player as they are, so the rent a player pays reaches nobody; a
    jail flag is set and never cleared; and a square goes from the bank to
    the player who moves and never back. *)
Theorem kernel_step_touches_the_mover_only (a : KernelArgs) (tape : Tape)
    (step_count : Z) (st : CUDAEnvState * CUDAEpisodeData) :
  let s := fst st in
  let p := k_current_player s in
  let s' := fst (kernel_step RAND_MAX curand_uniform a tape step_count st) in
  k_property_houses s' = k_property_houses s
  /\ (forall q, q <> p ->
        k_money_of s' q = k_money_of s q
        /\ rd 0 (k_positions s') q = rd 0 (k_positions s) q
        /\ rd 0 (k_in_jail s') q = rd 0 (k_in_jail s) q
        /\ rd 0 (k_jail_counters s') q = rd 0 (k_jail_counters s) q)
  /\ (rd 0 (k_in_jail s') p = rd 0 (k_in_jail s) p \/ rd 0 (k_in_jail s') p = 1)
  /\ (forall i, rd 0 (k_property_owners s') i = rd 0 (k_property_owners s) i
                \/ (rd 0 (k_property_owners s) i = -1
                    /\ rd 0 (k_property_owners s') i = p)).
Proof. cbv zeta. apply kernel_frame_step. Qed.

(** X17: an episode of the kernel fits its buffers.  The episode loop makes
    at most [MAX_EPISODE_STEPS] iterations; it writes one log entry and one
    step of the history in each, so both counts are equal, they are the
    number of iterations and never exceed the size of the arrays; it stops
    before that bound only when a player is bankrupt.  Every action recorded
    is 0 or 1, and no house is ever built. *)
Theorem kernel_episode_fits_its_buffers (a : KernelArgs) (tape : Tape) (c : nat)
    (episode_id : Z) :
  let r := simulate_episode RAND_MAX curand_uniform a tape c episode_id in
  Z.of_nat (length (ep_steps (snd r))) <= MAX_EPISODE_STEPS
  /\ length (ep_logs (snd r)) = length (ep_steps (snd r))
  /\ k_steps_taken (fst r) = Z.of_nat (length (ep_steps (snd r)))
  /\ forallb valid_action (ep_steps (snd r)) = true
  /\ ep_episode_id (snd r) = episode_id
  /\ k_property_houses (fst r) = replicate (Z.to_nat BOARD_SIZE) 0
  /\ (k_done (fst r) = false ->
      Z.of_nat (length (ep_steps (snd r))) = MAX_EPISODE_STEPS).
Proof.
  cbv zeta. unfold simulate_episode.
  destruct (kernel_init_spec a c) as (Hs & Hd & Hh).
  destruct (kernel_loop_spec a tape (Z.to_nat MAX_EPISODE_STEPS) 0
              (kernel_init a c, mkEpisode [] [] episode_id)
              ltac:(lia) ltac:(by vm_compute) eq_refl eq_refl Hs eq_refl)
    as (R1 & R2 & R3 & R4 & R5 & R6 & R7).
  cbn [fst snd ep_episode_id] in *.
  split_and!; try done. by rewrite R6.
Qed.
End KernelFacts.

(** ** Device strings *)

Lemma while_do_inv {T : Type} (P : T -> Prop) (m : T -> nat) fuel cond body (s : T) :
  P s -> (m s <= fuel)%nat ->
  (forall t, P t -> cond t = true -> P (body t) /\ (m (body t) < m t)%nat) ->
  P (while_do fuel cond body s) /\ cond (while_do fuel cond body s) = false.
Proof.
  intros Hs Hm Hstep. revert s Hs Hm.
  induction fuel as [| k IH]; intros s Hs Hm; cbn [while_do].
  - split; [exact Hs |]. destruct (cond s) eqn:Hc; [| reflexivity].
    destruct (Hstep s Hs Hc) as [_ Hlt]. lia.
  - destruct (cond s) eqn:Hc.
    + destruct (Hstep s Hs Hc) as [Hb Hlt]. apply IH; [exact Hb | lia].
    + split; [exact Hs | exact Hc].
Qed.

Lemma while_do_ext {T : Type} fuel cond cond' body body' (s : T) :
  (forall t, cond t = cond' t) -> (forall t, body t = body' t) ->
  while_do fuel cond body s = while_do fuel cond' body' s.
Proof.
  intros Hc Hb. revert s. induction fuel as [| k IH]; intros s; cbn [while_do]; [reflexivity |].
  rewrite <- Hc. destruct (cond s); [| reflexivity]. rewrite <- Hb. apply IH.
Qed.

Lemma is_nul_false c : c <> NUL -> is_nul c = false.
Proof. intros H. unfold is_nul. by apply Ascii.eqb_neq. Qed.

Lemma is_nul_true c : is_nul c = true -> c = NUL.
Proof. unfold is_nul. by intros H%Ascii.eqb_eq. Qed.

Lemma rd_cstring_in (s t : list ascii) (i : Z) :
  NUL ∉ s -> 0 <= i < Z.of_nat (length s) ->
  rd NUL (s ++ t) i <> NUL /\ s !! Z.to_nat i = Some (rd NUL (s ++ t) i).
Proof.
  intros Hs Hi. unfold rd. destruct (Z.ltb_spec i 0) as [E | E]; [lia |].
  rewrite lookup_app_l by lia.
  destruct (s !! Z.to_nat i) as [c |] eqn:Hc.
  - cbn. split; [| reflexivity]. intros ->. apply Hs. by eapply list_elem_of_lookup_2.
  - apply lookup_ge_None in Hc. lia.
Qed.

Lemma rd_cstring_end (s rest : list ascii) :
  rd NUL (s ++ NUL :: rest) (Z.of_nat (length s)) = NUL.
Proof.
  unfold rd. destruct (Z.ltb_spec (Z.of_nat (length s)) 0) as [E | E]; [lia |].
  rewrite Nat2Z.id, lookup_app_r by lia. by rewrite Nat.sub_diag.
Qed.

Lemma wr_middle (a b : list ascii) (i : Z) (c : ascii) (n : nat) :
  i = Z.of_nat (length a + n) -> (n < length b)%nat ->
  forall pre, length pre = n ->
  wr (a ++ pre ++ drop n b) i c = a ++ (pre ++ [c]) ++ drop (S n) b.
Proof.
  intros -> Hn pre Hpre. unfold wr.
  destruct (Z.ltb_spec (Z.of_nat (length a + n)) 0) as [E | E]; [lia |].
  rewrite Nat2Z.id, insert_app_r_alt by lia.
  replace (length a + n - length a)%nat with (length pre + 0)%nat by lia.
  rewrite insert_app_r.
  destruct (drop n b) as [| x l] eqn:Hd.
  { apply (f_equal length) in Hd. rewrite length_drop in Hd. cbn in Hd. lia. }
  cbn [insert list_insert]. rewrite <- app_assoc. cbn.
  replace (drop (S n) b) with l; [reflexivity |].
  rewrite <- (Nat.add_1_r n), <- drop_drop, Hd. reflexivity.
Qed.

(** The copy loop shared by [d_strcpy] and [d_strcat]: [k] characters of the
    source land behind the first [off] characters of the destination. *)
Lemma copy_loop_spec (a b s rest : list ascii) (bound : Z) (fuel : nat) :
  NUL ∉ s ->
  let k := Nat.min (length s) (Z.to_nat bound) in
  (k <= fuel)%nat -> (k < length b)%nat ->
  while_do fuel
    (fun '(_, i) => (i <? bound) && negb (is_nul (rd NUL (s ++ NUL :: rest) i)))
    (fun '(dest, i) => (wr dest (Z.of_nat (length a) + i) (rd NUL (s ++ NUL :: rest) i), i + 1))
    (a ++ b, 0)
  = (a ++ take k s ++ drop k b, Z.of_nat k).
Proof.
  intros Hs k Hfuel Hb.
  set (cond := fun '(_, i) => _). set (body := fun '(dest, i) => _).
  pose (P := fun st : list ascii * Z =>
    exists n : nat, (n <= k)%nat /\ st = (a ++ take n s ++ drop n b, Z.of_nat n)).
  destruct (while_do_inv P (fun st => (k - Z.to_nat (snd st))%nat) fuel cond body (a ++ b, 0))
    as [(n & Hn & Hst) Hexit].
  - exists 0%nat. split; [lia |]. by rewrite take_0, drop_0.
  - cbn. lia.
  - intros [d i] (n & Hn & [= -> ->]) Hc. cbn [cond] in Hc.
    apply andb_true_iff in Hc as [Hlt Hnz]. apply Z.ltb_lt in Hlt.
    apply negb_true_iff in Hnz.
    assert (n < length s)%nat as Hns.
    { destruct (decide (n < length s)%nat) as [| Hge]; [done |].
      assert (n = length s) as -> by lia.
      rewrite rd_cstring_end in Hnz. done. }
    destruct (rd_cstring_in s (NUL :: rest) (Z.of_nat n) Hs ltac:(lia)) as [_ Hget].
    rewrite Nat2Z.id in Hget.
    split.
    + exists (S n). split; [lia |]. cbn [body]. f_equal; [| lia].
      rewrite (wr_middle a b _ _ n); [| lia | lia | rewrite length_take; lia].
      do 2 f_equal. by erewrite take_S_r.
    + cbn [body snd]. lia.
  - rewrite Hst in Hexit |- *. cbn [cond] in Hexit.
    assert (n = k) as ->; [| reflexivity].
    apply andb_false_iff in Hexit as [Hge | Hz].
    + apply Z.ltb_ge in Hge. lia.
    + apply negb_false_iff, is_nul_true in Hz.
      destruct (decide (n < length s)%nat) as [Hlt | Hge]; [| lia].
      destruct (rd_cstring_in s (NUL :: rest) (Z.of_nat n) Hs ltac:(lia)) as [Hne _]. done.
Qed.

Lemma strlen_loop_spec (s t : list ascii) (max_len : Z) :
  NUL ∉ s ->
  (Z.of_nat (length s) < max_len -> rd NUL (s ++ t) (Z.of_nat (length s)) = NUL) ->
  while_do (Z.to_nat max_len)
    (fun len => (len <? max_len) && negb (is_nul (rd NUL (s ++ t) len)))
    (fun len => len + 1) 0
  = Z.of_nat (Nat.min (length s) (Z.to_nat max_len)).
Proof.
  intros Hs Hend. set (k := Nat.min _ _).
  set (cond := fun len : Z => _). set (body := fun len : Z => _).
  destruct (while_do_inv (fun len => 0 <= len <= Z.of_nat k)
    (fun len => (Z.to_nat max_len - Z.to_nat len)%nat) (Z.to_nat max_len) cond body 0)
    as [Hr Hexit].
  - lia.
  - lia.
  - intros len Hlen Hc. unfold cond in Hc.
    apply andb_true_iff in Hc as [Hlt Hnz]. apply Z.ltb_lt in Hlt.
    apply negb_true_iff in Hnz. unfold body.
    assert (len < Z.of_nat (length s)).
    { destruct (decide (len < Z.of_nat (length s))) as [| Hge]; [done |].
      assert (len = Z.of_nat (length s)) as -> by lia.
      rewrite Hend in Hnz by lia. done. }
    lia.
  - set (r := while_do _ _ _ _) in *. unfold cond in Hexit.
    apply andb_false_iff in Hexit as [Hge | Hz].
    + apply Z.ltb_ge in Hge. lia.
    + apply negb_false_iff, is_nul_true in Hz.
      destruct (decide (r < Z.of_nat (length s))) as [Hlt | Hge]; [| lia].
      destruct (rd_cstring_in s t r Hs ltac:(lia)) as [Hne _]. done.
Qed.

Lemma wr_end (a b : list ascii) (i : Z) (c : ascii) :
  i = Z.of_nat (length a) -> b <> [] ->
  wr (a ++ b) i c = a ++ c :: drop 1 b.
Proof.
  intros -> Hb. unfold wr.
  destruct (Z.ltb_spec (Z.of_nat (length a)) 0) as [E | E]; [lia |].
  rewrite Nat2Z.id. destruct b as [| x b]; [done |].
  replace (length a) with (length a + 0)%nat by lia.
  by rewrite insert_app_r.
Qed.

Lemma take_min_length (s : list ascii) (k : nat) :
  take (Nat.min (length s) k) s = take k s.
Proof.
  destruct (decide (k <= length s)%nat).
  - by replace (Nat.min (length s) k) with k by lia.
  - replace (Nat.min (length s) k) with (length s) by lia.
    by rewrite firstn_all, take_ge by lia.
Qed.

Lemma d_strcpy_spec (dest s rest : list ascii) (max_len : Z) :
  NUL ∉ s -> dest <> [] -> max_len <= Z.of_nat (length dest) ->
  let k := Nat.min (length s) (Z.to_nat (max_len - 1)) in
  d_strcpy dest (s ++ NUL :: rest) max_len = take k s ++ NUL :: drop (S k) dest.
Proof.
  intros Hs Hne Hlen k. unfold d_strcpy.
  assert (length dest <> 0)%nat as Hl by (by destruct dest).
  rewrite (while_do_ext _ _
    (fun '(_, i) => (i <? max_len - 1) && negb (is_nul (rd NUL (s ++ NUL :: rest) i)))
    _ (fun '(dest, i) => (wr dest (Z.of_nat (length (@nil ascii)) + i)
                            (rd NUL (s ++ NUL :: rest) i), i + 1)) (dest, 0)).
  2: { by intros [? ?]. }
  2: { by intros [? ?]. }
  rewrite (copy_loop_spec [] dest s rest (max_len - 1) _ Hs) by (fold k; lia).
  fold k. cbn [app].
  rewrite (wr_end (take k s) (drop k dest)).
  - by rewrite drop_drop, Nat.add_1_r.
  - rewrite length_take. lia.
  - intros Hd. apply (f_equal length) in Hd. rewrite length_drop in Hd. cbn in Hd. lia.
Qed.

(** X18: [d_strcpy] copies the source string up to [max_len - 1] characters,
    always writes a terminator behind them and leaves the rest of the
    destination as it was; with [max_len <= 1], also zero or negative, it still
    writes the terminator at [dest[0]]. *)
Theorem d_strcpy_truncating_copy (dest s rest : list ascii) (max_len : Z) :
  NUL ∉ s -> dest <> [] -> max_len <= Z.of_nat (length dest) ->
  d_strcpy dest (s ++ NUL :: rest) max_len
  = take (Z.to_nat (max_len - 1)) s ++ NUL
      :: drop (S (Nat.min (length s) (Z.to_nat (max_len - 1)))) dest.
Proof.
  intros Hs Hne Hlen. rewrite (d_strcpy_spec dest s rest max_len Hs Hne Hlen).
  f_equal. apply take_min_length.
Qed.

Lemma d_strcpy_truncating_copy_witness :
  ((NUL ∉ list_ascii_of_string "Chance") /\ replicate 8 "x"%char <> []
   /\ 4 <= Z.of_nat (length (replicate 8 "x"%char)))
  /\ d_strcpy (replicate 8 "x"%char) (list_ascii_of_string "Chance" ++ NUL :: []) 4
     = take (Z.to_nat (4 - 1)) (list_ascii_of_string "Chance") ++ NUL
         :: drop (S (Nat.min (length (list_ascii_of_string "Chance")) (Z.to_nat (4 - 1))))
              (replicate 8 "x"%char).
Proof.
  assert (NUL ∉ list_ascii_of_string "Chance") as H1.
  { apply (bool_decide_unpack _). by vm_compute. }
  assert (replicate 8 "x"%char <> []) as H2 by done.
  assert (4 <= Z.of_nat (length (replicate 8 "x"%char))) as H3 by (by vm_compute).
  split; [by split_and! |].
  exact (d_strcpy_truncating_copy _ _ [] 4 H1 H2 H3).
Defined.

(** X19: [d_strlen] returns the length of the string, capped at [max_len]. *)
Theorem d_strlen_capped (s rest : list ascii) (max_len : Z) :
  NUL ∉ s ->
  d_strlen (s ++ NUL :: rest) max_len = Z.min (Z.of_nat (length s)) (Z.max 0 max_len).
Proof.
  intros Hs. unfold d_strlen.
  rewrite (strlen_loop_spec s (NUL :: rest) max_len Hs (fun _ => rd_cstring_end s rest)). lia.
Qed.

Lemma d_strlen_capped_witness :
  (NUL ∉ list_ascii_of_string "Chance")
  /\ d_strlen (list_ascii_of_string "Chance" ++ NUL :: []) 4
     = Z.min (Z.of_nat (length (list_ascii_of_string "Chance"))) (Z.max 0 4).
Proof.
  assert (NUL ∉ list_ascii_of_string "Chance") as H1.
  { apply (bool_decide_unpack _). by vm_compute. }
  split; [exact H1 |].
  exact (d_strlen_capped _ [] 4 H1).
Defined.

Lemma d_strcat_spec (d rest_d s rest_s : list ascii) (max_len : Z) :
  NUL ∉ d -> NUL ∉ s ->
  Z.of_nat (length d) < max_len <= Z.of_nat (length d + 1 + length rest_d) ->
  let k := Nat.min (length s) (Z.to_nat (max_len - Z.of_nat (length d) - 1)) in
  d_strcat (d ++ NUL :: rest_d) (s ++ NUL :: rest_s) max_len
  = d ++ take k s ++ NUL :: drop k rest_d.
Proof.
  intros Hd Hs Hlen k. unfold d_strcat.
  rewrite (strlen_loop_spec d (NUL :: rest_d) max_len Hd (fun _ => rd_cstring_end d rest_d)).
  replace (Nat.min (length d) (Z.to_nat max_len)) with (length d) by lia.
  rewrite (copy_loop_spec d (NUL :: rest_d) s rest_s _ _ Hs) by (cbn [length]; lia).
  fold k.
  rewrite app_assoc, (wr_end (d ++ take k s) (drop k (NUL :: rest_d))).
  - rewrite <- app_assoc. do 3 f_equal. by rewrite drop_drop, Nat.add_1_r.
  - rewrite length_app, length_take. lia.
  - intros H. apply (f_equal length) in H. rewrite length_drop in H. cbn in H. lia.
Qed.

(** X20: [d_strcat] on a terminated destination appends the source string,
    cut so that the whole stays within [max_len - 1] characters, writes the
    terminator behind it, and leaves the rest of the buffer as it was. *)
Theorem d_strcat_appends (d rest_d s rest_s : list ascii) (max_len : Z) :
  NUL ∉ d -> NUL ∉ s ->
  Z.of_nat (length d) < max_len <= Z.of_nat (length d + 1 + length rest_d) ->
  let k := Z.to_nat (max_len - Z.of_nat (length d) - 1) in
  d_strcat (d ++ NUL :: rest_d) (s ++ NUL :: rest_s) max_len
  = d ++ take k s ++ NUL :: drop (Nat.min (length s) k) rest_d.
Proof.
  intros Hd Hs Hlen k.
  rewrite (d_strcat_spec d rest_d s rest_s max_len Hd Hs Hlen).
  fold k. by rewrite take_min_length.
Qed.

Lemma d_strcat_appends_witness :
  ((NUL ∉ list_ascii_of_string "Paid $") /\ (NUL ∉ list_ascii_of_string "150")
   /\ Z.of_nat (length (list_ascii_of_string "Paid $")) < 9
       <= Z.of_nat (length (list_ascii_of_string "Paid $") + 1
                    + length (replicate 5 "x"%char)))
  /\ d_strcat (list_ascii_of_string "Paid $" ++ NUL :: replicate 5 "x"%char)
       (list_ascii_of_string "150" ++ NUL :: []) 9
     = list_ascii_of_string "Paid $"
       ++ take (Z.to_nat (9 - Z.of_nat (length (list_ascii_of_string "Paid $")) - 1))
            (list_ascii_of_string "150")
       ++ NUL :: drop (Nat.min (length (list_ascii_of_string "150"))
                    (Z.to_nat (9 - Z.of_nat (length (list_ascii_of_string "Paid $")) - 1)))
                 (replicate 5 "x"%char).
Proof.
  assert (NUL ∉ list_ascii_of_string "Paid $") as H1.
  { apply (bool_decide_unpack _). by vm_compute. }
  assert (NUL ∉ list_ascii_of_string "150") as H2.
  { apply (bool_decide_unpack _). by vm_compute. }
  assert (Z.of_nat (length (list_ascii_of_string "Paid $")) < 9
          <= Z.of_nat (length (list_ascii_of_string "Paid $") + 1
                       + length (replicate 5 "x"%char))) as H3 by (by vm_compute).
  split; [by split_and! |].
  exact (d_strcat_appends _ _ _ [] 9 H1 H2 H3).
Defined.

(** X21: when the first [max_len] characters of the destination hold no
    terminator, [d_strcat] copies nothing and writes a terminator at index
    [max_len], one position past the [max_len] characters it was given. *)
Theorem d_strcat_unterminated_writes_past_bound (pre post src : list ascii) (c : ascii) (max_len : Z) :
  NUL ∉ pre -> Z.of_nat (length pre) = max_len ->
  d_strcat (pre ++ c :: post) src max_len = pre ++ NUL :: post.
Proof.
  intros Hpre Hlen. unfold d_strcat.
  rewrite (strlen_loop_spec pre (c :: post) max_len Hpre) by lia.
  replace (Nat.min (length pre) (Z.to_nat max_len)) with (length pre) by lia.
  replace (Z.to_nat (max_len - Z.of_nat (length pre) - 1)) with 0%nat by lia.
  cbn [while_do]. rewrite Z.add_0_r.
  by rewrite (wr_end pre (c :: post)).
Qed.

Lemma d_strcat_unterminated_writes_past_bound_witness :
  ((NUL ∉ list_ascii_of_string "abcd") /\ Z.of_nat (length (list_ascii_of_string "abcd")) = 4)
  /\ d_strcat (list_ascii_of_string "abcd" ++ "x"%char :: list_ascii_of_string "yz")
       (list_ascii_of_string "!" ++ [NUL]) 4
     = list_ascii_of_string "abcd" ++ NUL :: list_ascii_of_string "yz".
Proof.
  assert (NUL ∉ list_ascii_of_string "abcd") as H1.
  { apply (bool_decide_unpack _). by vm_compute. }
  assert (Z.of_nat (length (list_ascii_of_string "abcd")) = 4) as H2 by (by vm_compute).
  split; [by split_and! |].
  exact (d_strcat_unterminated_writes_past_bound _ _ _ _ 4 H1 H2).
Defined.

Lemma lu_chars_revapp (d acc : Decimal.uint) :
  lu_chars (Decimal.revapp d acc) = reverse (lu_chars d) ++ lu_chars acc.
Proof.
  unfold lu_chars. revert acc.
  induction d as [| d IH | d IH | d IH | d IH | d IH | d IH | d IH | d IH | d IH | d IH];
    intros acc; cbn [Decimal.revapp DecimalString.NilEmpty.string_of_uint list_ascii_of_string];
    [reflexivity | ..];
    rewrite IH, reverse_cons, <- app_assoc; reflexivity.
Qed.

Lemma lu_chars_digit (v : Z) :
  0 <= v ->
  lu_chars (DecimalPos.Unsigned.to_lu (Z.to_N v))
  = char_of_int (48 + Z.rem v 10)
    :: (if 0 <? Z.quot v 10
        then lu_chars (DecimalPos.Unsigned.to_lu (Z.to_N (Z.quot v 10))) else []).
Proof.
  intros Hv.
  pose proof (Z.quot_rem' v 10) as Hqr.
  pose proof (Z.rem_bound_pos v 10 Hv ltac:(lia)) as Hr.
  pose proof (Z.quot_pos v 10 Hv ltac:(lia)) as Hq.
  set (q := Z.quot v 10) in *. set (r := Z.rem v 10) in *. clearbody q r.
  destruct (Z.ltb_spec 0 q) as [Hq0 | Hq0].
  - destruct q as [| p | p]; [lia | | lia].
    assert (r = 0 \/ r = 1 \/ r = 2 \/ r = 3 \/ r = 4 \/ r = 5 \/ r = 6 \/ r = 7
            \/ r = 8 \/ r = 9) as Hcases by lia.
    destruct Hcases as [E | [E | [E | [E | [E | [E | [E | [E | [E | E]]]]]]]]];
      rewrite E in Hqr |- *.
    + replace (Z.to_N v) with (10 * N.pos p)%N by lia.
      by rewrite DecimalPos.Unsigned.to_ldec_tenfold.
    + replace (Z.to_N v) with (N.succ (10 * N.pos p))%N by lia.
      by rewrite !DecimalPos.Unsigned.to_lu_succ, DecimalPos.Unsigned.to_ldec_tenfold.
    + replace (Z.to_N v) with (N.succ (N.succ (10 * N.pos p)))%N by lia.
      by rewrite !DecimalPos.Unsigned.to_lu_succ, DecimalPos.Unsigned.to_ldec_tenfold.
    + replace (Z.to_N v) with (N.succ (N.succ (N.succ (10 * N.pos p))))%N by lia.
      by rewrite !DecimalPos.Unsigned.to_lu_succ, DecimalPos.Unsigned.to_ldec_tenfold.
    + replace (Z.to_N v) with (N.succ (N.succ (N.succ (N.succ (10 * N.pos p)))))%N by lia.
      by rewrite !DecimalPos.Unsigned.to_lu_succ, DecimalPos.Unsigned.to_ldec_tenfold.
    + replace (Z.to_N v)
        with (N.succ (N.succ (N.succ (N.succ (N.succ (10 * N.pos p))))))%N by lia.
      by rewrite !DecimalPos.Unsigned.to_lu_succ, DecimalPos.Unsigned.to_ldec_tenfold.
    + replace (Z.to_N v)
        with (N.succ (N.succ (N.succ (N.succ (N.succ (N.succ (10 * N.pos p)))))))%N by lia.
      by rewrite !DecimalPos.Unsigned.to_lu_succ, DecimalPos.Unsigned.to_ldec_tenfold.
    + replace (Z.to_N v)
        with (N.succ (N.succ (N.succ (N.succ (N.succ (N.succ (N.succ (10 * N.pos p))))))))%N
        by lia.
      by rewrite !DecimalPos.Unsigned.to_lu_succ, DecimalPos.Unsigned.to_ldec_tenfold.
    + replace (Z.to_N v)
        with (N.succ (N.succ (N.succ (N.succ (N.succ (N.succ (N.succ (N.succ
               (10 * N.pos p)))))))))%N by lia.
      by rewrite !DecimalPos.Unsigned.to_lu_succ, DecimalPos.Unsigned.to_ldec_tenfold.
    + replace (Z.to_N v)
        with (N.succ (N.succ (N.succ (N.succ (N.succ (N.succ (N.succ (N.succ (N.succ
               (10 * N.pos p))))))))))%N by lia.
      by rewrite !DecimalPos.Unsigned.to_lu_succ, DecimalPos.Unsigned.to_ldec_tenfold.
  - assert (v = r) as -> by lia. clear Hqr.
    assert (r = 0 \/ r = 1 \/ r = 2 \/ r = 3 \/ r = 4 \/ r = 5 \/ r = 6 \/ r = 7
            \/ r = 8 \/ r = 9) as Hcases by lia.
    destruct Hcases as [E | [E | [E | [E | [E | [E | [E | [E | [E | E]]]]]]]]];
      rewrite E; reflexivity.
Qed.

Lemma lu_chars_length_bound (v : Z) (n : nat) :
  0 <= v < 10 ^ Z.of_nat (S n) ->
  (1 <= length (lu_chars (DecimalPos.Unsigned.to_lu (Z.to_N v))) <= S n)%nat.
Proof.
  revert v. induction n as [| n IH]; intros v Hv; rewrite (lu_chars_digit v) by lia.
  - destruct (Z.ltb_spec 0 (Z.quot v 10)) as [Hq | Hq]; [| cbn; lia].
    assert (Z.quot v 10 = 0); [| lia]. apply Z.quot_small. change (10 ^ Z.of_nat 1) with 10 in Hv. lia.
  - destruct (Z.ltb_spec 0 (Z.quot v 10)) as [Hq | Hq]; [| cbn; lia].
    cbn [length].
    assert (0 <= Z.quot v 10 < 10 ^ Z.of_nat (S n)) as Hb.
    { split; [lia |]. apply Z.quot_lt_upper_bound; [lia | lia |].
      rewrite <- Z.pow_succ_r by lia. rewrite <- Nat2Z.inj_succ. lia. }
    specialize (IH _ Hb). lia.
Qed.

Lemma wr_push (b pre : list ascii) (c : ascii) (n : nat) :
  length pre = n -> (n < length b)%nat ->
  wr (pre ++ drop n b) (Z.of_nat n) c = (pre ++ [c]) ++ drop (S n) b.
Proof. intros Hpre Hn. by apply (wr_middle [] b (Z.of_nat n) c n). Qed.

Lemma rd_prefix (s t : list ascii) (i : Z) :
  0 <= i < Z.of_nat (length s) -> s !! Z.to_nat i = Some (rd NUL (s ++ t) i).
Proof.
  intros Hi. unfold rd. destruct (Z.ltb_spec i 0) as [E | E]; [lia |].
  rewrite lookup_app_l by lia.
  destruct (s !! Z.to_nat i) as [c |] eqn:Hc; [reflexivity |].
  apply lookup_ge_None in Hc. lia.
Qed.

(** The digit loop of [d_sprintf_int] leaves the numeral of [V] in [temp],
    least significant digit first. *)
Lemma sprintf_digits_spec (V : Z) :
  0 <= V < 10 ^ 10 ->
  let L := lu_chars (DecimalPos.Unsigned.to_lu (Z.to_N V)) in
  exists v',
  while_do 11 (fun '(_, idx, value) => (0 <? value) && (idx <? 11)) sprintf_digit
    (sprintf_digit (replicate 12 NUL, 0, V))
  = (L ++ drop (length L) (replicate 12 NUL), Z.of_nat (length L), v')
  /\ (length L <= 10)%nat.
Proof.
  intros HV L.
  set (temp0 := replicate 12 NUL).
  set (cond := fun '(_, idx, value) => _).
  pose (P := fun st : list ascii * Z * Z =>
    let '(temp, idx, v) := st in
    exists cs : list ascii,
      temp = cs ++ drop (length cs) temp0 /\ idx = Z.of_nat (length cs)
      /\ 0 <= v /\ v * 10 ^ idx <= V /\ (1 <= length cs <= 10)%nat
      /\ L = cs ++ (if 0 <? v
                    then lu_chars (DecimalPos.Unsigned.to_lu (Z.to_N v)) else [])).
  assert (forall cs v, (length cs < 12)%nat ->
    sprintf_digit (cs ++ drop (length cs) temp0, Z.of_nat (length cs), v)
    = ((cs ++ [char_of_int (48 + Z.rem v 10)])
         ++ drop (length (cs ++ [char_of_int (48 + Z.rem v 10)])) temp0,
       Z.of_nat (length (cs ++ [char_of_int (48 + Z.rem v 10)])), Z.quot v 10)) as Hstep.
  { intros cs v Hcs. unfold sprintf_digit.
    rewrite (wr_push temp0 cs _ (length cs)); [| reflexivity | cbn; lia].
    rewrite length_app. cbn [app length]. rewrite Nat.add_1_r. do 2 f_equal. lia. }
  assert (forall v, 0 <= v -> 0 <= Z.quot v 10 /\ Z.quot v 10 * 10 <= v) as Hquot.
  { intros v Hv. pose proof (Z.quot_rem' v 10). pose proof (Z.rem_bound_pos v 10 Hv ltac:(lia)).
    pose proof (Z.quot_pos v 10 Hv ltac:(lia)). lia. }
  pose proof (Hstep [] V ltac:(cbn; lia)) as Hinit.
  change (sprintf_digit (temp0, 0, V) = ([char_of_int (48 + Z.rem V 10)] ++ drop 1 temp0, 1, Z.quot V 10)) in Hinit.
  rewrite Hinit.
  destruct (while_do_inv P (fun st => (11 - Z.to_nat (snd (fst st)))%nat) 11 cond sprintf_digit
              ([char_of_int (48 + Z.rem V 10)] ++ drop 1 temp0, 1, Z.quot V 10)) as [HP Hexit].
  - cbn [P]. exists [char_of_int (48 + Z.rem V 10)].
    destruct (Hquot V ltac:(lia)).
    split_and!; try done; try (cbn [length]; lia).
    unfold L. by rewrite (lu_chars_digit V) by lia.
  - cbn. lia.
  - intros [[temp idx] v] (cs & -> & -> & Hv & Hle & Hcs & HL) Hc.
    cbn [cond] in Hc. apply andb_true_iff in Hc as [Hpos _]. apply Z.ltb_lt in Hpos.
    assert (length cs <= 9)%nat as Hlen.
    { destruct (decide (length cs <= 9)%nat) as [| Hgt]; [done |].
      assert (length cs = 10%nat) as E by lia. rewrite E in Hle.
      change (10 ^ Z.of_nat 10) with (10 ^ 10) in Hle. lia. }
    rewrite (Hstep cs v) by lia. split.
    + cbn [P]. eexists. split; [reflexivity |]. split; [reflexivity |].
      rewrite length_app. cbn [length]. destruct (Hquot v Hv) as [Hq0 Hq1].
      split_and!; try lia.
      * rewrite Nat.add_1_r, Nat2Z.inj_succ, Z.pow_succ_r by lia.
        assert (0 < 10 ^ Z.of_nat (length cs)) by (apply Z.pow_pos_nonneg; lia). nia.
      * rewrite HL. destruct (Z.ltb_spec 0 v) as [_ |]; [| lia].
        rewrite (lu_chars_digit v) by lia. by rewrite <- app_assoc.
    + cbn [fst snd]. rewrite length_app. cbn [length]. lia.
  - destruct (while_do 11 cond sprintf_digit _) as [[temp idx] v].
    destruct HP as (cs & -> & -> & Hv & Hle & Hcs & HL).
    cbn [cond] in Hexit. apply andb_false_iff in Hexit as [Hz | Hge].
    + rewrite Hz, app_nil_r in HL. subst cs. exists v. split; [reflexivity | lia].
    + apply Z.ltb_ge in Hge. lia.
Qed.

(** The copy back into [dest], most significant character first. *)
Lemma sprintf_reverse_spec (tcs junk dest : list ascii) (max_len : Z) :
  (length tcs <= 12)%nat ->
  let k := Nat.min (length tcs) (Z.to_nat (max_len - 1)) in
  (k < length dest)%nat ->
  exists idx',
  while_do 12
    (fun '(_, idx, dest_idx) => (0 <? idx) && (dest_idx <? max_len - 1))
    (fun '(dest, idx, dest_idx) =>
       (wr dest dest_idx (rd NUL (tcs ++ junk) (idx - 1)), idx - 1, dest_idx + 1))
    (dest, Z.of_nat (length tcs), 0)
  = (take k (reverse tcs) ++ drop k dest, idx', Z.of_nat k).
Proof.
  intros Hlen k Hk.
  set (cond := fun '(_, idx, dest_idx) => _). set (body := fun '(dest, idx, dest_idx) => _).
  pose (P := fun st : list ascii * Z * Z =>
    exists j : nat, (j <= k)%nat
      /\ st = (take j (reverse tcs) ++ drop j dest, Z.of_nat (length tcs) - Z.of_nat j,
               Z.of_nat j)).
  destruct (while_do_inv P (fun st => Z.to_nat (snd (fst st))) 12 cond body
              (dest, Z.of_nat (length tcs), 0)) as [(j & Hj & Hst) Hexit].
  - exists 0%nat. split; [lia |]. rewrite take_0, drop_0. cbn [app]. do 2 f_equal. lia.
  - cbn. lia.
  - intros st (j & Hj & ->) Hc. cbn [cond] in Hc.
    apply andb_true_iff in Hc as [Hidx Hd]. apply Z.ltb_lt in Hidx. apply Z.ltb_lt in Hd.
    split.
    + exists (S j). split; [lia |]. cbn [body]. f_equal; [f_equal |]; [| lia | lia].
      rewrite (wr_push dest _ _ j); [| rewrite length_take, length_reverse; lia | lia].
      f_equal. symmetry. apply take_S_r.
      rewrite reverse_lookup by lia.
      rewrite <- (rd_prefix tcs junk (Z.of_nat (length tcs) - Z.of_nat j - 1)) by lia.
      f_equal. lia.
    + cbn [body fst snd]. lia.
  - rewrite Hst in Hexit |- *. cbn [cond] in Hexit. exists (Z.of_nat (length tcs) - Z.of_nat j).
    assert (j = k) as ->; [| reflexivity].
    apply andb_false_iff in Hexit as [Hge | Hge]; apply Z.ltb_ge in Hge; lia.
Qed.

Lemma decimal_eq (value : Z) :
  decimal value
  = (if value <? 0 then ["-"%char] else [])
    ++ reverse (lu_chars (DecimalPos.Unsigned.to_lu (Z.to_N (Z.abs value)))).
Proof.
  assert (forall p, list_ascii_of_string
            (DecimalString.NilZero.string_of_uint (Pos.to_uint p))
          = reverse (lu_chars (Pos.to_little_uint p))) as Hpos.
  { intros p. pose proof (DecimalPos.Unsigned.to_uint_nonnil p) as Hnn.
    unfold Pos.to_uint, Decimal.rev in *.
    transitivity (lu_chars (Decimal.revapp (Pos.to_little_uint p) Decimal.Nil)).
    - unfold lu_chars. by destruct (Decimal.revapp (Pos.to_little_uint p) Decimal.Nil).
    - rewrite lu_chars_revapp. apply app_nil_r. }
  unfold decimal. destruct value as [| p | p].
  - reflexivity.
  - cbn [Z.to_int DecimalString.NilZero.string_of_int Z.ltb Z.compare Z.abs Z.to_N
         DecimalPos.Unsigned.to_lu app].
    apply Hpos.
  - cbn [Z.to_int DecimalString.NilZero.string_of_int Z.ltb Z.compare Z.abs Z.to_N
         DecimalPos.Unsigned.to_lu app list_ascii_of_string].
    f_equal. apply Hpos.
Qed.

Lemma d_sprintf_int_spec (dest : list ascii) (value max_len : Z) :
  - 2 ^ 31 < value < 2 ^ 31 ->
  1 <= max_len <= Z.of_nat (length dest) ->
  let k := Nat.min (length (decimal value)) (Z.to_nat (max_len - 1)) in
  d_sprintf_int dest value max_len = take k (decimal value) ++ NUL :: drop (S k) dest
  /\ (length (decimal value) <= 11)%nat.
Proof.
  intros Hv Hlen k.
  assert (0 <= Z.abs value < 10 ^ 10) as HV.
  { change (10 ^ 10) with 10000000000. change (2 ^ 31) with 2147483648 in Hv. lia. }
  destruct (sprintf_digits_spec (Z.abs value) HV) as (v' & Hloop & HL).
  pose proof (decimal_eq value) as Hdec.
  set (L := lu_chars (DecimalPos.Unsigned.to_lu (Z.to_N (Z.abs value)))) in *.
  assert (length (decimal value) <= 11)%nat as Hlen11.
  { rewrite Hdec, length_app, length_reverse. destruct (value <? 0); cbn [length]; lia. }
  split; [| exact Hlen11].
  assert (dest <> []) as Hne by (destruct dest; [cbn in Hlen; lia | done]).
  unfold d_sprintf_int.
  destruct (Z.leb_spec max_len 1) as [Hsmall | Hbig].
  { assert (max_len = 1) as -> by lia. cbn [Z.eqb Pos.eqb].
    subst k. replace (Nat.min _ (Z.to_nat (1 - 1))) with 0%nat by lia.
    rewrite take_0. exact (wr_end [] dest 0 NUL eq_refl Hne). }
  assert (forall tcs junk, (length tcs <= 12)%nat -> reverse tcs = decimal value ->
    (let '(dest0, _, dest_idx) :=
       while_do 12 (fun '(_, idx, dest_idx) => (0 <? idx) && (dest_idx <? max_len - 1))
         (fun '(dest0, idx, dest_idx) =>
            (wr dest0 dest_idx (rd NUL (tcs ++ junk) (idx - 1)), idx - 1, dest_idx + 1))
         (dest, Z.of_nat (length tcs), 0) in
     wr dest0 dest_idx NUL) = take k (decimal value) ++ NUL :: drop (S k) dest) as Hcopy.
  { intros tcs junk Htcs Hrev.
    assert (length tcs = length (decimal value)) as Hl by (by rewrite <- Hrev, length_reverse).
    destruct (sprintf_reverse_spec tcs junk dest max_len Htcs) as (idx' & ->).
    { lia. }
    rewrite Hl, Hrev. fold k.
    rewrite (wr_end (take k (decimal value)) (drop k dest)).
    - by rewrite drop_drop, Nat.add_1_r.
    - rewrite length_take. lia.
    - intros Hd. apply (f_equal length) in Hd. rewrite length_drop in Hd. cbn in Hd. lia. }
  destruct (Z.ltb_spec value 0) as [Hneg | Hpos].
  - replace (- value) with (Z.abs value) by lia. rewrite Hloop.
    destruct (Z.ltb_spec (Z.of_nat (length L)) 11) as [_ | Hge]; [| lia].
    cbn [andb].
    rewrite (wr_push (replicate 12 NUL) L "-"%char (length L) eq_refl) by (cbn; lia).
    replace (Z.of_nat (length L) + 1) with (Z.of_nat (length (L ++ ["-"%char])))
      by (rewrite length_app; cbn [length]; lia).
    apply Hcopy.
    + rewrite length_app. cbn [length]. lia.
    + rewrite Hdec, reverse_app.
      destruct (Z.ltb_spec value 0) as [_ |]; [reflexivity | lia].
  - replace value with (Z.abs value) at 1 by lia. rewrite Hloop.
    cbn [andb].
    apply Hcopy.
    + lia.
    + rewrite Hdec. destruct (Z.ltb_spec value 0) as [| _]; [lia | reflexivity].
Qed.

(** X22: for a value above [INT_MIN], [d_sprintf_int] writes the decimal
    numeral of the value, cut to [max_len - 1] characters from its most
    significant end, and the terminator behind it; the numeral has at most
    11 characters, so from [max_len = 12] on nothing is cut. *)
Theorem d_sprintf_int_prints_decimal (dest : list ascii) (value max_len : Z) :
  - 2 ^ 31 < value < 2 ^ 31 ->
  1 <= max_len <= Z.of_nat (length dest) ->
  d_sprintf_int dest value max_len
  = take (Z.to_nat (max_len - 1)) (decimal value) ++ NUL
      :: drop (S (Nat.min (length (decimal value)) (Z.to_nat (max_len - 1)))) dest
  /\ (length (decimal value) <= 11)%nat.
Proof.
  intros Hv Hlen. destruct (d_sprintf_int_spec dest value max_len Hv Hlen) as [-> Hl].
  split; [| exact Hl]. f_equal. apply take_min_length.
Qed.

Lemma d_sprintf_int_prints_decimal_witness :
  (- 2 ^ 31 < -1500 < 2 ^ 31 /\ 1 <= 4 <= Z.of_nat (length (replicate 8 "x"%char)))
  /\ d_sprintf_int (replicate 8 "x"%char) (-1500) 4
     = take (Z.to_nat (4 - 1)) (decimal (-1500)) ++ NUL
         :: drop (S (Nat.min (length (decimal (-1500))) (Z.to_nat (4 - 1))))
              (replicate 8 "x"%char).
Proof.
  assert (- 2 ^ 31 < -1500 < 2 ^ 31) as H1 by (by vm_compute).
  assert (1 <= 4 <= Z.of_nat (length (replicate 8 "x"%char))) as H2 by (by vm_compute).
  split; [by split |].
  exact (proj1 (d_sprintf_int_prints_decimal _ (-1500) 4 H1 H2)).
Defined.

Lemma lu_chars_no_nul (d : Decimal.uint) : NUL ∉ lu_chars d.
Proof.
  unfold lu_chars.
  induction d as [| d IH | d IH | d IH | d IH | d IH | d IH | d IH | d IH | d IH | d IH];
    cbn [DecimalString.NilEmpty.string_of_uint list_ascii_of_string];
    [apply not_elem_of_nil | ..];
    (apply not_elem_of_cons; split; [done | exact IH]).
Qed.

Lemma decimal_no_nul (v : Z) : NUL ∉ decimal v.
Proof.
  rewrite decimal_eq. apply not_elem_of_app. split.
  - destruct (v <? 0); [| apply not_elem_of_nil].
    apply not_elem_of_cons. split; [done | apply not_elem_of_nil].
  - rewrite elem_of_reverse. apply lu_chars_no_nul.
Qed.

Lemma sprintf_temp (temp : list ascii) (v : Z) :
  - 2 ^ 31 < v < 2 ^ 31 -> length temp = 256%nat ->
  d_sprintf_int temp v MAX_DESC_LEN
  = decimal v ++ NUL :: drop (S (length (decimal v))) temp
  /\ length (d_sprintf_int temp v MAX_DESC_LEN) = 256%nat.
Proof.
  intros Hv Hlen.
  destruct (d_sprintf_int_spec temp v MAX_DESC_LEN Hv) as [E Hl].
  { rewrite Hlen. unfold MAX_DESC_LEN. lia. }
  replace (Nat.min (length (decimal v)) (Z.to_nat (MAX_DESC_LEN - 1)))
    with (length (decimal v)) in E by (unfold MAX_DESC_LEN; lia).
  rewrite firstn_all in E. split; [exact E |].
  rewrite E, length_app. cbn [length]. rewrite length_drop. lia.
Qed.

(** Copy and append in a buffer whose tail is zeroed. *)
Lemma strcpy_zero (s rest : list ascii) (n : nat) (max_len : Z) :
  NUL ∉ s -> Z.of_nat (length s) < max_len <= Z.of_nat n ->
  d_strcpy (replicate n NUL) (s ++ NUL :: rest) max_len
  = s ++ replicate (n - length s) NUL.
Proof.
  intros Hs Hlen.
  rewrite (d_strcpy_spec _ s rest max_len Hs).
  - replace (Nat.min (length s) (Z.to_nat (max_len - 1))) with (length s) by lia.
    rewrite firstn_all. f_equal. rewrite drop_replicate.
    replace (n - length s)%nat with (S (n - S (length s))) by lia. reflexivity.
  - destruct n; [lia | done].
  - rewrite length_replicate. lia.
Qed.

Lemma strcat_zero (d s rest : list ascii) (n : nat) (max_len : Z) :
  NUL ∉ d -> NUL ∉ s ->
  Z.of_nat (length d + length s) < max_len <= Z.of_nat (length d + n) ->
  d_strcat (d ++ replicate n NUL) (s ++ NUL :: rest) max_len
  = (d ++ s) ++ replicate (n - length s) NUL.
Proof.
  intros Hd Hs Hlen.
  destruct n as [| n]; [lia |]. cbn [replicate].
  rewrite (d_strcat_spec d _ s rest max_len Hd Hs) by (rewrite length_replicate; lia).
  replace (Nat.min (length s) (Z.to_nat (max_len - Z.of_nat (length d) - 1)))
    with (length s) by lia.
  rewrite firstn_all, <- app_assoc. do 2 f_equal. rewrite drop_replicate.
  replace (S n - length s)%nat with (S (n - length s)) by lia. reflexivity.
Qed.

Lemma decimal_length (v : Z) : - 2 ^ 31 < v < 2 ^ 31 -> (length (decimal v) <= 11)%nat.
Proof.
  intros Hv. apply (d_sprintf_int_spec [NUL] v 1 Hv). cbn. lia.
Qed.

Lemma copy_step (s rest : list ascii) :
  NUL ∉ s -> (length s < 256)%nat ->
  d_strcpy (replicate 512 NUL) (s ++ NUL :: rest) MAX_DESC_LEN
  = s ++ replicate (512 - length s) NUL.
Proof. intros Hs Hl. apply strcpy_zero; [exact Hs |]. unfold MAX_DESC_LEN. lia. Qed.

Lemma append_step (text s rest : list ascii) :
  NUL ∉ text -> NUL ∉ s -> (length text + length s < 256)%nat ->
  d_strcat (text ++ replicate (512 - length text) NUL) (s ++ NUL :: rest) MAX_DESC_LEN
  = (text ++ s) ++ replicate (512 - length (text ++ s)) NUL.
Proof.
  intros Ht Hs Hl. rewrite strcat_zero; [| exact Ht | exact Hs | unfold MAX_DESC_LEN; lia].
  f_equal. rewrite length_app. f_equal. lia.
Qed.

Lemma literal_no_nul (s : string) :
  forallb (fun c => negb (is_nul c)) (list_ascii_of_string s) = true ->
  NUL ∉ list_ascii_of_string s.
Proof.
  induction (list_ascii_of_string s) as [| c l IH]; cbn [forallb]; intros H.
  - apply not_elem_of_nil.
  - apply andb_true_iff in H as [Hc Hl]. apply not_elem_of_cons. split; [| by apply IH].
    intros E. rewrite <- E in Hc. unfold is_nul in Hc. by rewrite Ascii.eqb_refl in Hc.
Qed.

Ltac text_side :=
  repeat (apply not_elem_of_app; split);
  first [ apply decimal_no_nul
        | by apply literal_no_nul
        | apply not_elem_of_nil
        | idtac ].

(** X23: written into a zeroed log entry, the description of a kernel step is
    the full text of its branch (purchase, pass, rent, or nothing) with the
    numbers in decimal and the bankruptcy mark when the mover ends below zero;
    it has at most 79 characters, so [MAX_DESC_LEN] never cuts it. *)
Theorem kernel_action_desc_is_never_cut (p new_position prop_owner prop_price prop_rent : Z)
    (money action money_after : Z) (temp : list ascii) :
  - 2 ^ 31 < new_position < 2 ^ 31 -> - 2 ^ 31 < prop_owner < 2 ^ 31 ->
  - 2 ^ 31 < prop_price < 2 ^ 31 -> - 2 ^ 31 < prop_rent < 2 ^ 31 ->
  length temp = 256%nat ->
  let text := action_text p new_position prop_owner prop_price prop_rent
                          money action money_after in
  fst (kernel_action_desc p new_position prop_owner prop_price prop_rent
         money action money_after (replicate 512 NUL) temp)
  = text ++ replicate (512 - length text) NUL
  /\ (length text <= 79)%nat.
Proof.
  intros Hpos Hown Hprice Hrent Htemp text.
  pose proof (decimal_length _ Hpos) as Lpos. pose proof (decimal_length _ Hown) as Lown.
  pose proof (decimal_length _ Hprice) as Lprice. pose proof (decimal_length _ Hrent) as Lrent.
  assert (forall ad tp t : list ascii,
    NUL ∉ t -> (length t <= 68)%nat ->
    ad = t ++ replicate (512 - length t) NUL ->
    let text' := t ++ (if money_after <? 0 then list_ascii_of_string " (BANKRUPT)" else []) in
    fst (if money_after <? 0
         then (d_strcat ad (c_literal " (BANKRUPT)") MAX_DESC_LEN, tp)
         else (ad, tp))
    = text' ++ replicate (512 - length text') NUL /\ (length text' <= 79)%nat) as Hmark.
  { intros ad tp t Ht Hl E text'. subst ad text'.
    destruct (money_after <? 0); cbn [fst].
    - unfold c_literal. rewrite append_step; [| exact Ht | by apply literal_no_nul | cbn; lia].
      split; [reflexivity |]. rewrite length_app. cbn [length list_ascii_of_string]. lia.
    - rewrite app_nil_r. split; [reflexivity | lia]. }
  unfold kernel_action_desc, action_text in *. subst text.
  destruct ((prop_price >? 0) && (prop_owner =? -1) && (money >=? prop_price)).
  - destruct (action =? 1).
    + apply (Hmark _ _ (list_ascii_of_string "Bought property at position "
                      ++ decimal new_position
                      ++ list_ascii_of_string " for $" ++ decimal prop_price)).
      * text_side.
      * rewrite !length_app. cbn [length list_ascii_of_string]. lia.
      * unfold c_literal.
        destruct (sprintf_temp temp new_position Hpos Htemp) as [E1 Hl1].
        rewrite E1 in Hl1 |- *.
        destruct (sprintf_temp _ prop_price Hprice Hl1) as [E2 _]. rewrite E2.
        rewrite copy_step; [| text_side | cbn; lia].
        rewrite append_step; [| text_side | text_side | cbn [length list_ascii_of_string]; lia].
        rewrite append_step;
          [| text_side | text_side
           | rewrite !length_app; cbn [length list_ascii_of_string]; lia].
        rewrite append_step;
          [| text_side | text_side
           | rewrite !length_app; cbn [length list_ascii_of_string]; lia].
        by rewrite <- !app_assoc.
    + apply (Hmark _ _ (list_ascii_of_string "Passed on buying property at position "
                      ++ decimal new_position)).
      * text_side.
      * rewrite !length_app. cbn [length list_ascii_of_string]. lia.
      * unfold c_literal.
        destruct (sprintf_temp temp new_position Hpos Htemp) as [E1 Hl1]. rewrite E1.
        rewrite copy_step; [| text_side | cbn; lia].
        rewrite append_step; [| text_side | text_side | cbn [length list_ascii_of_string]; lia].
        reflexivity.
  - destruct (negb (prop_owner =? -1) && negb (prop_owner =? p)).
    + apply (Hmark _ _ (list_ascii_of_string "Paid $" ++ decimal prop_rent
                      ++ list_ascii_of_string " rent at position " ++ decimal new_position
                      ++ list_ascii_of_string " to player " ++ decimal prop_owner)).
      * text_side.
      * rewrite !length_app. cbn [length list_ascii_of_string]. lia.
      * unfold c_literal.
        destruct (sprintf_temp temp prop_rent Hrent Htemp) as [E1 Hl1].
        rewrite E1 in Hl1 |- *.
        destruct (sprintf_temp _ new_position Hpos Hl1) as [E2 Hl2].
        rewrite E2 in Hl2 |- *.
        destruct (sprintf_temp _ prop_owner Hown Hl2) as [E3 _]. rewrite E3.
        rewrite copy_step; [| text_side | cbn; lia].
        rewrite append_step; [| text_side | text_side | cbn [length list_ascii_of_string]; lia].
        do 4 (rewrite append_step;
          [| text_side | text_side
           | rewrite !length_app; cbn [length list_ascii_of_string]; lia]).
        by rewrite <- !app_assoc.
    + apply (Hmark _ _ []).
      * apply not_elem_of_nil.
      * cbn. lia.
      * reflexivity.
Qed.

Lemma kernel_action_desc_is_never_cut_witness :
  (- 2 ^ 31 < 39 < 2 ^ 31 /\ - 2 ^ 31 < 1 < 2 ^ 31 /\ - 2 ^ 31 < 400 < 2 ^ 31
   /\ - 2 ^ 31 < 50 < 2 ^ 31 /\ length (replicate 256 "x"%char) = 256%nat)
  /\ fst (kernel_action_desc 0 39 1 400 50 20 0 (-30) (replicate 512 NUL)
            (replicate 256 "x"%char))
     = action_text 0 39 1 400 50 20 0 (-30)
       ++ replicate (512 - length (action_text 0 39 1 400 50 20 0 (-30))) NUL.
Proof.
  assert (- 2 ^ 31 < 39 < 2 ^ 31) as H1 by (by vm_compute).
  assert (- 2 ^ 31 < 1 < 2 ^ 31) as H2 by (by vm_compute).
  assert (- 2 ^ 31 < 400 < 2 ^ 31) as H3 by (by vm_compute).
  assert (- 2 ^ 31 < 50 < 2 ^ 31) as H4 by (by vm_compute).
  assert (length (replicate 256 "x"%char) = 256%nat) as H5 by (by vm_compute).
  split; [by split_and! |].
  exact (proj1 (kernel_action_desc_is_never_cut 0 39 1 400 50 20 0 (-30) _ H1 H2 H3 H4 H5)).
Defined.

(** ** CSV quoting *)

Lemma strlen_cstring (s rest : list ascii) :
  NUL ∉ s -> strlen (s ++ NUL :: rest) = Z.of_nat (length s).
Proof.
  induction s as [| c s IH]; intros Hs.
  - reflexivity.
  - apply not_elem_of_cons in Hs as [Hc Hs].
    cbn [app strlen length]. rewrite is_nul_false by done. rewrite IH by done. lia.
Qed.

Lemma escaped_snoc (l : list ascii) (c : ascii) :
  (l ++ [c]) ≫= (fun c => if Ascii.eqb c QUOTE then [QUOTE; QUOTE] else [c])
  = (l ≫= (fun c => if Ascii.eqb c QUOTE then [QUOTE; QUOTE] else [c]))
    ++ (if Ascii.eqb c QUOTE then [QUOTE; QUOTE] else [c]).
Proof. rewrite bind_app. cbn. by rewrite app_nil_r. Qed.

Lemma escaped_take_length (s : list ascii) (n : nat) :
  (length (take n s ≫= (fun c => if Ascii.eqb c QUOTE then [QUOTE; QUOTE] else [c]))
   + length (drop n s ≫= (fun c => if Ascii.eqb c QUOTE then [QUOTE; QUOTE] else [c]))
   = length (s ≫= (fun c => if Ascii.eqb c QUOTE then [QUOTE; QUOTE] else [c])))%nat.
Proof. by rewrite <- length_app, <- bind_app, take_drop. Qed.

Lemma escape_csv_string_spec (malloc_ok : bool) (s rest : list ascii) :
  NUL ∉ s ->
  escape_csv_string malloc_ok (Some (s ++ NUL :: rest))
  = if malloc_ok then Some (csv_quoted s ++ [NUL]) else None.
Proof.
  intros Hs. unfold escape_csv_string.
  set (input := s ++ NUL :: rest).
  set (esc := fun l : list ascii =>
                l ≫= (fun c => if Ascii.eqb c QUOTE then [QUOTE; QUOTE] else [c])).
  assert (forall n, (length (esc (take n s)) + length (esc (drop n s))
                     = length (esc s))%nat) as Hsplit.
  { intros n. apply escaped_take_length. }
  assert (forall n c, s !! n = Some c -> esc (take (S n) s)
            = esc (take n s) ++ (if Ascii.eqb c QUOTE then [QUOTE; QUOTE] else [c])) as Hsnoc.
  { intros n c Hc. rewrite (take_S_r s n c Hc). apply escaped_snoc. }
  assert (forall p : Z, forall n : nat, p = Z.of_nat n -> (n <= length s)%nat ->
            negb (is_nul (rd NUL input p)) = true ->
            (n < length s)%nat /\ s !! n = Some (rd NUL input p)) as Hin.
  { intros p n -> Hle Hnz. apply negb_true_iff in Hnz.
    assert (n < length s)%nat as Hlt.
    { destruct (decide (n < length s)%nat) as [| Hge]; [done |].
      exfalso. unfold input in Hnz.
      assert (n = length s) as -> by lia.
      by rewrite rd_cstring_end in Hnz. }
    split; [exact Hlt |].
    destruct (rd_cstring_in s (NUL :: rest) (Z.of_nat n) Hs ltac:(lia)) as [_ Hget].
    by rewrite Nat2Z.id in Hget. }
  assert (forall p : Z, forall n : nat, p = Z.of_nat n -> (n <= length s)%nat ->
            negb (is_nul (rd NUL input p)) = false -> n = length s) as Hout.
  { intros p n -> Hle Hz. apply negb_false_iff, is_nul_true in Hz.
    destruct (decide (n < length s)%nat) as [Hlt | Hge]; [| lia].
    destruct (rd_cstring_in s (NUL :: rest) (Z.of_nat n) Hs ltac:(lia)) as [Hne _]. done. }
  (* the counting loop *)
  set (cond1 := fun '(_, p) => _). set (body1 := fun '(quotes, p) => _).
  pose (P1 := fun st : Z * Z =>
    exists n : nat, (n <= length s)%nat
      /\ st = (Z.of_nat (length (esc (take n s))) - Z.of_nat n, Z.of_nat n)).
  destruct (while_do_inv P1 (fun st => (length s - Z.to_nat (snd st))%nat) (length input)
              cond1 body1 (0, 0)) as [(n & Hn & Hst) Hexit].
  { exists 0%nat. split; [lia |]. by rewrite take_0. }
  { unfold input. rewrite length_app. cbn. lia. }
  { intros [quotes p] (n & Hn & [= -> ->]) Hc. cbn [cond1] in Hc.
    destruct (Hin _ n eq_refl Hn Hc) as [Hlt Hget]. split.
    - exists (S n). split; [lia |]. cbn [body1]. rewrite (Hsnoc n _ Hget), length_app.
      f_equal; [| lia]. destruct (Ascii.eqb _ QUOTE); cbn [length]; lia.
    - cbn [body1 snd]. lia. }
  rewrite Hst in Hexit |- *. cbn [cond1] in Hexit.
  rewrite (Hout _ n eq_refl Hn Hexit). clear n Hn Hst Hexit.
  rewrite firstn_all. change (strlen input) with (strlen (s ++ NUL :: rest)).
  rewrite (strlen_cstring s rest Hs).
  destruct malloc_ok; [| reflexivity]. cbn [negb].
  replace (Z.to_nat (Z.of_nat (length s) + (Z.of_nat (length (esc s)) - Z.of_nat (length s))
                     + 2 + 1)) with (length (esc s) + 3)%nat by lia.
  set (zeros := replicate (length (esc s) + 3) NUL).
  assert (length zeros = (length (esc s) + 3)%nat) as Hz by apply length_replicate.
  (* the copying loop *)
  set (cond2 := fun '(_, _, p) => _). set (body2 := fun '(output, q, p) => _).
  pose (P2 := fun st : list ascii * Z * Z =>
    exists n : nat, (n <= length s)%nat
      /\ st = ((QUOTE :: esc (take n s)) ++ drop (S (length (esc (take n s)))) zeros,
               Z.of_nat (S (length (esc (take n s)))), Z.of_nat n)).
  assert (wr zeros 0 QUOTE = [QUOTE] ++ drop 1 zeros) as Hfirst.
  { apply (wr_push zeros [] QUOTE 0 eq_refl). lia. }
  rewrite Hfirst.
  destruct (while_do_inv P2 (fun st => (length s - Z.to_nat (snd st))%nat) (length input)
              cond2 body2 ([QUOTE] ++ drop 1 zeros, 1, 0)) as [(n & Hn & Hst) Hexit].
  { exists 0%nat. split; [lia |]. by rewrite take_0. }
  { unfold input. rewrite length_app. cbn. lia. }
  { intros [[output q] p] (n & Hn & [= -> -> ->]) Hc. cbn [cond2] in Hc.
    destruct (Hin _ n eq_refl Hn Hc) as [Hlt Hget]. split.
    - exists (S n). split; [lia |]. cbn [body2]. rewrite (Hsnoc n _ Hget).
      pose proof (Hsplit (S n)) as Hlen.
      rewrite (Hsnoc n _ Hget), length_app in Hlen.
      set (c := rd NUL input (Z.of_nat n)) in *.
      set (pre := esc (take n s)) in *.
      clearbody c pre.
      destruct (Ascii.eqb_spec c QUOTE) as [-> | _].
      + cbn [length] in Hlen. rewrite app_comm_cons.
        rewrite (wr_push zeros (QUOTE :: pre) QUOTE (S (length pre)) eq_refl) by lia.
        replace (Z.of_nat (S (length pre)) + 1) with (Z.of_nat (S (S (length pre)))) by lia.
        rewrite (wr_push zeros _ QUOTE (S (S (length pre)))); [| | lia].
        2: { rewrite length_app. cbn [length]. lia. }
        f_equal; [f_equal |]; [| | lia].
        * rewrite length_app. cbn [length app]. rewrite <- !app_assoc. cbn [app].
          repeat f_equal. lia.
        * rewrite length_app. cbn [length]. lia.
      + cbn [length] in Hlen. rewrite app_comm_cons.
        rewrite (wr_push zeros (QUOTE :: pre) c (S (length pre)) eq_refl) by lia.
        f_equal; [f_equal |]; [| | lia].
        * rewrite length_app. cbn [length app]. rewrite <- !app_assoc. cbn [app].
          repeat f_equal. lia.
        * rewrite length_app. cbn [length]. lia.
    - cbn [body2]. destruct (Ascii.eqb _ QUOTE); cbn [snd]; lia. }
  rewrite Hst in Hexit |- *. cbn [cond2] in Hexit.
  rewrite (Hout _ n eq_refl Hn Hexit). clear n Hn Hst Hexit.
  rewrite firstn_all.
  rewrite (wr_push zeros (QUOTE :: esc s) QUOTE (S (length (esc s))) eq_refl) by lia.
  replace (Z.of_nat (S (length (esc s))) + 1) with (Z.of_nat (S (S (length (esc s))))) by lia.
  rewrite (wr_push zeros _ NUL (S (S (length (esc s))))); [| | lia].
  2: { rewrite length_app. cbn [length]. lia. }
  rewrite drop_ge by lia. rewrite app_nil_r. reflexivity.
Qed.

Lemma escaped_inj (s1 s2 : list ascii) :
  s1 ≫= (fun c => if Ascii.eqb c QUOTE then [QUOTE; QUOTE] else [c])
  = s2 ≫= (fun c => if Ascii.eqb c QUOTE then [QUOTE; QUOTE] else [c]) ->
  s1 = s2.
Proof.
  revert s2. induction s1 as [| c1 s1 IH]; intros [| c2 s2]; cbn [mbind list_bind].
  - done.
  - by destruct (Ascii.eqb_spec c2 QUOTE).
  - by destruct (Ascii.eqb_spec c1 QUOTE).
  - destruct (Ascii.eqb_spec c1 QUOTE) as [-> | H1], (Ascii.eqb_spec c2 QUOTE) as [-> | H2];
      cbn [app].
    + intros [= E]. by rewrite (IH _ E).
    + intros [= E _]. by rewrite E in H2.
    + intros [= E _]. done.
    + intros [= -> E]. by rewrite (IH _ E).
Qed.

(** X24: on a string, [escape_csv_string] returns the field in quotes with
    every quote inside it doubled, and the terminator in the last of the
    [strlen + quotes + 3] characters it allocated; it returns the null pointer
    when the allocation fails. *)
Theorem escape_csv_string_quotes_the_field (malloc_ok : bool) (s rest : list ascii) :
  NUL ∉ s ->
  escape_csv_string malloc_ok (Some (s ++ NUL :: rest))
  = if malloc_ok then Some (csv_quoted s ++ [NUL]) else None.
Proof. apply escape_csv_string_spec. Qed.

Lemma escape_csv_string_quotes_the_field_witness :
  (NUL ∉ list_ascii_of_string "Paid $50 rent" ++ [QUOTE])
  /\ escape_csv_string true (Some ((list_ascii_of_string "Paid $50 rent" ++ [QUOTE]) ++ NUL :: []))
     = (if true then Some (csv_quoted (list_ascii_of_string "Paid $50 rent" ++ [QUOTE]) ++ [NUL])
        else None).
Proof.
  assert (NUL ∉ list_ascii_of_string "Paid $50 rent" ++ [QUOTE]) as H1.
  { apply (bool_decide_unpack _). by vm_compute. }
  split; [exact H1 |].
  exact (escape_csv_string_quotes_the_field true _ [] H1).
Defined.

(** X25: [escape_csv_string] loses nothing: two strings with the same escaped
    form are the same string. *)
Theorem escape_csv_string_injective (s1 s2 rest1 rest2 : list ascii) :
  NUL ∉ s1 -> NUL ∉ s2 ->
  escape_csv_string true (Some (s1 ++ NUL :: rest1))
  = escape_csv_string true (Some (s2 ++ NUL :: rest2)) ->
  s1 = s2.
Proof.
  intros H1 H2. rewrite (escape_csv_string_spec true s1 rest1 H1).
  rewrite (escape_csv_string_spec true s2 rest2 H2).
  intros [= E]. apply app_inv_tail in E. apply app_inv_tail in E.
  by apply escaped_inj.
Qed.

Lemma escape_csv_string_injective_witness :
  ((NUL ∉ list_ascii_of_string "Go") /\ (NUL ∉ list_ascii_of_string "Go")
   /\ escape_csv_string true (Some (list_ascii_of_string "Go" ++ NUL :: []))
      = escape_csv_string true (Some (list_ascii_of_string "Go" ++ NUL :: [QUOTE])))
  /\ list_ascii_of_string "Go" = list_ascii_of_string "Go".
Proof.
  assert (NUL ∉ list_ascii_of_string "Go") as H1.
  { apply (bool_decide_unpack _). by vm_compute. }
  assert (escape_csv_string true (Some (list_ascii_of_string "Go" ++ NUL :: []))
          = escape_csv_string true (Some (list_ascii_of_string "Go" ++ NUL :: [QUOTE]))) as H3
    by (by vm_compute).
  split; [by split_and! |].
  exact (escape_csv_string_injective _ _ [] [QUOTE] H1 H1 H3).
Defined.

(** ** Episode generation and training *)

Section TrainingFacts.

Variable RAND_MAX : Z.
Variable history_ok : Z -> bool.
Variable obs_ok : Z -> bool.
Variable realloc_ok : Z -> Z -> bool.
Variable lookup_ok : Z -> Z -> bool.
Variable update_alloc : Z -> UpdateAlloc.

Lemma coin_bit tape c : fst (coin tape c) = 0 \/ fst (coin tape c) = 1.
Proof.
  unfold coin, rand. cbn [fst].
  pose proof (Z.rem_bound_pos (Z.of_N (tape c)) 2 ltac:(lia) ltac:(lia)). lia.
Qed.

Lemma select_action_spec malloc_ok agent state_tuple e tape c :
  let r := select_action_mc RAND_MAX malloc_ok agent state_tuple e tape c in
  (fst (fst r) = 0 \/ fst (fst r) = 1)
  /\ epsilon (snd (fst r)) = epsilon agent
  /\ agent_num_players (snd (fst r)) = agent_num_players agent
  /\ (TableOk (q_table agent) ->
      TableOk (q_table (snd (fst r)))
      /\ forall k a, q_stat (q_table (snd (fst r))) k a = q_stat (q_table agent) k a).
Proof.
  cbv zeta. unfold select_action_mc.
  destruct (negb (is_buyable e)).
  { cbn [fst snd]. split_and!; try done. by left. }
  unfold epsilon_greedy.
  destruct (rand tape c) as [r c1].
  destruct (Qlt_le_dec _ (epsilon agent)).
  { pose proof (coin_bit tape c1) as Hb. destruct (coin tape c1) as [a c2].
    cbn [fst snd] in *. by split_and!. }
  assert (exists ht1 entry,
            find_or_create_q_entry malloc_ok (q_table agent) state_tuple = (ht1, entry)
            /\ (TableOk (q_table agent) ->
                TableOk ht1
                /\ forall k a, q_stat ht1 k a = q_stat (q_table agent) k a))
    as (ht1 & entry & E & Hok).
  { destruct malloc_ok.
    - eexists _, _. split; [apply find_or_create_true |]. intros H.
      destruct (find_or_create_spec _ state_tuple H) as (H1 & _ & _ & _ & H5).
      split; [exact H1 | exact H5].
    - eexists _, _. split; [apply find_or_create_false |]. intros H.
      split; [exact H | reflexivity]. }
  rewrite E. clear E.
  destruct entry as [ref |].
  - destruct (Qlt_le_dec _ (1 # 1000000000)).
    { pose proof (coin_bit tape c1) as Hb. destruct (coin tape c1) as [a c2].
      cbn [fst snd q_table epsilon agent_num_players] in *. by split_and!. }
    destruct (Qlt_le_dec _ _); cbn [fst snd q_table epsilon agent_num_players];
      split_and!; try done; first [by left | by right].
  - pose proof (coin_bit tape c1) as Hb. destruct (coin tape c1) as [a c2].
    cbn [fst snd q_table epsilon agent_num_players] in *. by split_and!.
Qed.

Lemma add_episode_step_spec ok history state action rew :
  eh_count history = Z.of_nat (length (eh_steps history)) ->
  let h := add_episode_step ok history state action rew in
  eh_count h = Z.of_nat (length (eh_steps h))
  /\ (h = history \/ eh_steps h = eh_steps history ++ [mkStep state action rew])
  /\ ((forall n, ok n = true) -> eh_steps h = eh_steps history ++ [mkStep state action rew]).
Proof.
  intros Hc. cbv zeta. unfold add_episode_step.
  destruct (eh_count history >=? eh_capacity history).
  - destruct (ok _) eqn:Hok; cbn [negb].
    + cbn [eh_count eh_steps]. rewrite length_app. cbn [length].
      split_and!; [lia | by right | done].
    + split_and!; [done | by left |]. intros Hall. by rewrite Hall in Hok.
  - cbn [eh_count eh_steps]. rewrite length_app. cbn [length].
    split_and!; [lia | by right | done].
Qed.

Lemma episode_body_inv agent e ep tape st :
  episode_inv realloc_ok agent e ep st ->
  lp_step_count st < MAX_EPISODE_STEPS ->
  episode_inv realloc_ok agent e ep
    (episode_body RAND_MAX realloc_ok lookup_ok ep tape st).
Proof.
  intros (Hc & Hle & Hlog & Hsc & Hval & Hall & Heps & Hnp & Htab & Hwf) Hlt.
  unfold episode_body.
  pose proof (select_action_spec (lookup_ok ep (lp_step_count st)) (lp_agent st)
                (get_state_tuple (lp_obs st) (agent_num_players (lp_agent st))
                   (board_size (lp_env st))) (lp_env st) tape (lp_cursor st)) as Hsel.
  cbv zeta in Hsel.
  destruct (select_action_mc RAND_MAX _ _ _ _ _ _) as [[action agent'] c'].
  cbn [fst snd] in Hsel. destruct Hsel as (Hact & Heps' & Hnp' & Htab').
  pose proof (add_episode_step_spec (realloc_ok ep) (lp_history st)
                (get_state_tuple (lp_obs st) (agent_num_players (lp_agent st))
                   (board_size (lp_env st))) action
                (reward (out_result (step_monopoly_env tape (lp_env st) c' action))) Hc)
    as Hadd.
  cbv zeta in Hadd. destruct Hadd as (Hc' & Hstep & Hfull).
  unfold episode_inv. cbn [lp_history lp_logs lp_step_count lp_agent lp_env].
  assert ((Z.of_nat (length (lp_logs st)) <? MAX_LOG_ENTRIES) = true) as ->.
  { apply Z.ltb_lt. unfold MAX_LOG_ENTRIES, MAX_EPISODE_STEPS in *. lia. }
  rewrite length_app. cbn [length].
  split_and!.
  - exact Hc'.
  - destruct Hstep as [-> | ->]; [lia |]. rewrite length_app. cbn [length]. lia.
  - lia.
  - lia.
  - lia.
  - destruct Hstep as [-> | ->]; [done |].
    rewrite forallb_app, Hval. cbn [forallb es_action valid_action andb].
    unfold valid_action. cbn [es_action]. destruct Hact as [-> | ->]; reflexivity.
  - intros Hok. rewrite (Hfull Hok), length_app. cbn [length]. specialize (Hall Hok). lia.
  - congruence.
  - congruence.
  - intros Hok. destruct (Htab Hok) as [Hok1 Hst1]. destruct (Htab' Hok1) as [Hok2 Hst2].
    split; [exact Hok2 |]. intros k a. by rewrite Hst2.
  - intros H. apply step_Wf. by apply Hwf.
Qed.

Lemma generate_episode_spec agent e ep tape c :
  obs_ok ep = true ->
  let st := generate_episode_mc RAND_MAX history_ok obs_ok realloc_ok lookup_ok
              agent e ep tape c in
  episode_inv realloc_ok agent e ep st
  /\ (lp_done st = true \/ lp_step_count st = MAX_EPISODE_STEPS).
Proof.
  intros Hobs. cbv zeta. unfold generate_episode_mc. rewrite Hobs. cbn [negb].
  pose proof (Wf_reset e) as Hreset.
  destruct (reset_monopoly_env e) as [e0 obs]. cbn [fst] in Hreset.
  set (cond := fun st : EpisodeLoop => _).
  destruct (while_do_inv (episode_inv realloc_ok agent e ep)
              (fun st => Z.to_nat (MAX_EPISODE_STEPS - lp_step_count st))
              (Z.to_nat MAX_EPISODE_STEPS) cond
              (episode_body RAND_MAX realloc_ok lookup_ok ep tape)
              (mkLoop agent e0 obs (init_episode_history (history_ok ep) 100) [] c false 0))
    as [Hinv Hexit].
  - unfold episode_inv, init_episode_history.
    cbn [lp_history lp_logs lp_step_count lp_agent lp_env eh_count eh_steps length forallb].
    unfold MAX_EPISODE_STEPS. split_and!; try done.
  - cbn [lp_step_count]. lia.
  - intros st Hst Hc. unfold cond in Hc. apply andb_true_iff in Hc as [_ Hlt].
    apply Z.ltb_lt in Hlt. split; [by apply episode_body_inv |].
    unfold episode_body. destruct (select_action_mc _ _ _ _ _ _ _) as [[? ?] ?].
    cbn [lp_step_count]. destruct Hst as (_ & _ & _ & Hsc & _). lia.
  - set (r := while_do _ _ _ _) in *. clearbody r.
    split; [exact Hinv |]. unfold cond in Hexit.
    apply andb_false_iff in Hexit as [Hd | Hge].
    + left. by apply negb_false_iff in Hd.
    + right. apply Z.ltb_ge in Hge. destruct Hinv as (_ & _ & _ & Hsc & _). lia.
Qed.

Lemma train_q_stat_ext alloc episodes : forall ep A B,
  (forall i, allocated (alloc i)) ->
  TableOk (q_table A) -> TableOk (q_table B) ->
  (forall k a, a = 0 \/ a = 1 -> q_stat (q_table A) k a = q_stat (q_table B) k a) ->
  forallb (forallb valid_action) episodes = true ->
  TableOk (q_table (train alloc ep A episodes))
  /\ forall k a, a = 0 \/ a = 1 ->
       q_stat (q_table (train alloc ep A episodes)) k a
       = q_stat (q_table (train alloc ep B episodes)) k a.
Proof.
  induction episodes as [| steps episodes IH]; intros ep A B Hal HA HB Heq Hvalid.
  - rewrite !train_nil. by split.
  - cbn [forallb] in Hvalid. apply andb_true_iff in Hvalid as [Hv1 Hv2].
    rewrite !train_cons, !(update_mc_allocated (alloc ep)) by apply Hal.
    destruct (update_mc_spec A steps HA Hv1) as [HA' HsA].
    destruct (update_mc_spec B steps HB Hv1) as [HB' HsB].
    apply IH; [done | done | done | | done].
    intros k a Ha. by rewrite (HsA k a Ha), (HsB k a Ha), (Heq k a Ha).
Qed.

Lemma training_loop_spec n : forall ep tape agent e c,
  (forall i, allocated (update_alloc i)) ->
  TableOk (q_table agent) ->
  let r := training_loop RAND_MAX history_ok obs_ok realloc_ok lookup_ok update_alloc
             n ep tape agent e c in
  let agent' := fst (fst (fst r)) in
  let hs := snd r in
  TableOk (q_table agent')
  /\ (length hs <= n)%nat
  /\ forallb (forallb valid_action) hs = true
  /\ Forall (fun h => Z.of_nat (length h) <= MAX_EPISODE_STEPS) hs
  /\ (forall k a, a = 0 \/ a = 1 ->
        q_stat (q_table agent') k a
        = q_stat (q_table (train update_alloc ep agent hs)) k a)
  /\ (Wf e -> Wf (snd (fst (fst r))))
  /\ ((forall i, obs_ok i = true) -> length hs = n).
Proof.
  induction n as [| n IH]; intros ep tape agent e c Hal Hok; cbv zeta;
    cbn [training_loop].
  - cbn [fst snd length forallb]. rewrite train_nil. by split_and!.
  - destruct (obs_ok ep) eqn:Hobs.
    + destruct (generate_episode_spec agent e ep tape c Hobs) as [Hinv _].
      set (st := generate_episode_mc _ _ _ _ _ _ _ _ _ _) in *. clearbody st.
      destruct Hinv as (Hc & Hle & _ & Hsc & Hval & _ & _ & _ & Htab & Hwf).
      destruct (Htab Hok) as [Hok1 Hst1].
      destruct (Z.ltb_spec (eh_count (lp_history st)) 0) as [Hneg | _]; [lia |].
      rewrite (update_mc_allocated (update_alloc ep)) by apply Hal.
      destruct (update_mc_spec (lp_agent st) (eh_steps (lp_history st)) Hok1 Hval)
        as [Hok2 Hst2].
      specialize (IH (ep + 1) tape
                     (update_mc all_ok (lp_agent st) (eh_steps (lp_history st)))
                     (lp_env st) (lp_cursor st) Hal Hok2).
      cbv zeta in IH.
      destruct (training_loop _ _ _ _ _ _ n _ _ _ _ _) as [[[a e'] c'] hs].
      cbn [fst snd] in IH |- *.
      destruct IH as (Hok3 & Hlen & Hvalid & Hall & Hstat & Hwf' & Hfull).
      cbn [length forallb]. rewrite Hval, Hvalid.
      split_and!; try done.
      * lia.
      * apply Forall_cons. split; [lia | done].
      * intros k x Hx.
        rewrite (Hstat k x Hx), train_cons,
          (update_mc_allocated (update_alloc ep)) by apply Hal.
        destruct (update_mc_spec agent (eh_steps (lp_history st)) Hok Hval) as [Hok4 Hst4].
        apply train_q_stat_ext; [done | done | done | | done | done].
        intros k' x' Hx'. by rewrite (Hst2 k' x' Hx'), (Hst4 k' x' Hx'), Hst1.
      * intros H. apply Hwf'. by apply Hwf.
      * intros H. by rewrite (Hfull H).
    + unfold generate_episode_mc. rewrite Hobs.
      cbn [negb lp_history eh_count lp_agent lp_env lp_cursor].
      change (-1 <? 0) with true. cbv iota.
      cbn [fst snd length forallb].
      rewrite train_nil. split_and!; try done.
      * lia.
      * intros H. by rewrite H in Hobs.
Qed.

(** X26: the history that [generate_episode_mc] returns.  When the
    observation buffer can be allocated, [count] is the number of stored
    steps, at most one per turn played and at most 500; every stored action is
    0 or 1; one log entry is kept per turn, so the buffer of 1000 entries
    never overflows; the loop stops on a finished game or after 500 turns;
    and when every growth of the array succeeds no step is lost. *)
Theorem generated_history_is_valid agent e ep tape c :
  obs_ok ep = true ->
  let st := generate_episode_mc RAND_MAX history_ok obs_ok realloc_ok lookup_ok
              agent e ep tape c in
  let h := lp_history st in
  eh_count h = Z.of_nat (length (eh_steps h))
  /\ (length (eh_steps h) <= length (lp_logs st))%nat
  /\ Z.of_nat (length (lp_logs st)) <= MAX_EPISODE_STEPS
  /\ forallb valid_action (eh_steps h) = true
  /\ (lp_done st = true \/ Z.of_nat (length (lp_logs st)) = MAX_EPISODE_STEPS)
  /\ ((forall n, realloc_ok ep n = true) -> length (eh_steps h) = length (lp_logs st)).
Proof.
  intros Hobs. cbv zeta.
  destruct (generate_episode_spec agent e ep tape c Hobs) as [Hinv Hend].
  set (st := generate_episode_mc _ _ _ _ _ _ _ _ _ _) in *. clearbody st.
  destruct Hinv as (Hc & Hle & Hlog & Hsc & Hval & Hall & _).
  split_and!; try done; try lia.
  - destruct Hend as [Hd | Hs]; [by left | right; lia].
  - intros Hok. specialize (Hall Hok). lia.
Qed.

(** X27: playing an episode changes no stored statistic.  The agent that
    [generate_episode_mc] leaves has a well-formed table that reads, for
    every state and action, the sum, count and value it read before (the
    lookups of the policy only add empty entries), the same epsilon and
    number of players, and the environment stays well formed. *)
Theorem playing_changes_no_statistic agent e ep tape c :
  table_ok (q_table agent) = true ->
  let st := generate_episode_mc RAND_MAX history_ok obs_ok realloc_ok lookup_ok
              agent e ep tape c in
  table_ok (q_table (lp_agent st)) = true
  /\ (forall k a, q_stat (q_table (lp_agent st)) k a = q_stat (q_table agent) k a)
  /\ epsilon (lp_agent st) = epsilon agent
  /\ agent_num_players (lp_agent st) = agent_num_players agent
  /\ (wf_env e = true -> wf_env (lp_env st) = true).
Proof.
  intros Hok. cbv zeta. destruct (obs_ok ep) eqn:Hobs.
  - destruct (generate_episode_spec agent e ep tape c Hobs) as [Hinv _].
    set (st := generate_episode_mc _ _ _ _ _ _ _ _ _ _) in *. clearbody st.
    destruct Hinv as (_ & _ & _ & _ & _ & _ & Heps & Hnp & Htab & Hwf).
    apply table_ok_iff in Hok. destruct (Htab Hok) as [Hok' Hst].
    split_and!; try done.
    + by apply table_ok_iff.
    + intros H. apply wf_env_iff. apply Hwf. by apply wf_env_iff.
  - unfold generate_episode_mc. rewrite Hobs. cbn [negb lp_agent lp_env]. by split_and!.
Qed.

(** X28: what the training loop of [main] learns.  Starting from a fresh
    agent, every allocation of the updates succeeding, after the loop the
    table holds for every state and action the number of played episodes in
    which the pair occurs, the [double] sum of the returns that follow its
    last occurrence in each of them, and the [double] quotient of that sum by
    that count; a pair that never occurred reads as zero.  At most [n]
    episodes are played, and all [n] when no observation buffer fails to
    allocate. *)
Theorem training_loop_learns_means (n : nat) (ep : Z) tape (num_players : Z) (eps : Q)
    e c (k : StateTuple) (a : Z) :
  (forall i, allocated (update_alloc i)) ->
  a = 0 \/ a = 1 ->
  let r := training_loop RAND_MAX history_ok obs_ok realloc_ok lookup_ok update_alloc
             n ep tape (create_monte_carlo_agent num_players eps) e c in
  let v := q_stat (q_table (fst (fst (fst r)))) k a in
  let rs := recorded_returns (snd r) k a in
  count v = Z.of_nat (length rs)
  /\ sum_returns v = double_sum double_zero rs
  /\ (rs = [] -> v = zero_value)
  /\ (rs <> [] ->
      q_value v = double_div (double_sum double_zero rs)
                             (double_of_int (Z.of_nat (length rs))))
  /\ (length (snd r) <= n)%nat
  /\ ((forall i, obs_ok i = true) -> length (snd r) = n).
Proof.
  intros Hal Ha. cbv zeta.
  assert (TableOk (q_table (create_monte_carlo_agent num_players eps))) as Hok.
  { apply TableOk_create. by vm_compute. }
  pose proof (training_loop_spec n ep tape (create_monte_carlo_agent num_players eps)
                e c Hal Hok) as Hloop.
  cbv zeta in Hloop.
  set (r := training_loop _ _ _ _ _ _ _ _ _ _ _ _) in *. clearbody r.
  destruct Hloop as (_ & Hlen & Hvalid & _ & Hstat & _ & Hfull).
  rewrite (Hstat k a Ha).
  pose proof (train_spec update_alloc (snd r) ep
                (create_monte_carlo_agent num_players eps) k a
                Hal Hok Hvalid Ha) as Hs.
  cbv zeta in Hs. destruct Hs as (_ & Hs).
  assert (q_stat (q_table (create_monte_carlo_agent num_players eps)) k a = zero_value) as Hz.
  { apply q_stat_create. }
  rewrite Hz in Hs.
  generalize dependent
    (q_stat (q_table (train update_alloc ep
                        (create_monte_carlo_agent num_players eps) (snd r))) k a).
  intros v (Hcount & Hsum & Hnil & Hcons). cbn [count sum_returns zero_value] in *.
  split_and!; [lia | done | done | | done | done].
  intros Hne. rewrite (Hcons Hne), Hsum. do 2 f_equal. lia.
Qed.
End TrainingFacts.

Lemma generated_history_is_valid_witness :
  (fun _ : Z => true) 0 = true
  /\ eh_count (lp_history (generate_episode_mc 32767 (fun _ => true) (fun _ => true)
                             (fun _ _ => true) (fun _ _ => true) fresh_agent game2 0
                             rent_tape 0))
     = Z.of_nat (length (eh_steps (lp_history
         (generate_episode_mc 32767 (fun _ => true) (fun _ => true)
            (fun _ _ => true) (fun _ _ => true) fresh_agent game2 0 rent_tape 0)))).
Proof.
  assert ((fun _ : Z => true) 0 = true) as H1 by reflexivity.
  split; [exact H1 |].
  exact (proj1 (generated_history_is_valid 32767 (fun _ => true) (fun _ => true)
                  (fun _ _ => true) (fun _ _ => true) fresh_agent game2 0
                  rent_tape 0 H1)).
Defined.

Lemma playing_changes_no_statistic_witness :
  table_ok (q_table fresh_agent) = true
  /\ table_ok (q_table (lp_agent (generate_episode_mc 32767 (fun _ => true) (fun _ => true)
                                    (fun _ _ => true) (fun _ _ => false) fresh_agent
                                    game2 0 rent_tape 0)))
     = true.
Proof.
  assert (table_ok (q_table fresh_agent) = true) as H1 by (by vm_compute).
  split; [exact H1 |].
  exact (proj1 (playing_changes_no_statistic 32767 (fun _ => true) (fun _ => true)
                  (fun _ _ => true) (fun _ _ => false) fresh_agent game2 0
                  rent_tape 0 H1)).
Defined.

Lemma training_loop_learns_means_witness :
  (forall i, allocated ((fun _ : Z => all_ok) i))
  /\ (1 = 0 \/ 1 = 1)
  /\ count (q_stat (q_table (fst (fst (fst
        (training_loop 32767 (fun _ => true) (fun _ => true) (fun _ _ => true)
           (fun _ _ => true) (fun _ => all_ok) 3 0
           rent_tape (create_monte_carlo_agent 2 (1 # 10)) game2 0))))) key_a 1)
     = Z.of_nat (length (recorded_returns (snd
        (training_loop 32767 (fun _ => true) (fun _ => true) (fun _ _ => true)
           (fun _ _ => true) (fun _ => all_ok) 3 0
           rent_tape (create_monte_carlo_agent 2 (1 # 10)) game2 0)) key_a 1)).
Proof.
  assert (forall i, allocated ((fun _ : Z => all_ok) i)) as H0
    by (intros i; split; [| split]; reflexivity).
  assert (1 = 0 \/ 1 = 1) as H1 by (by right).
  split; [exact H0 |]. split; [exact H1 |].
  exact (proj1 (training_loop_learns_means 32767 (fun _ => true) (fun _ => true)
                  (fun _ _ => true) (fun _ _ => true) (fun _ => all_ok)
                  3 0 rent_tape 2 (1 # 10) game2 0 key_a 1 H0 H1)).
Defined.

(** ** The update from the episodes of the kernel *)

Lemma copy_cuda_episode_spec (realloc_ok : Z -> bool) (episode : CUDAEpisodeData) :
  copy_cuda_episode true realloc_ok episode
  = mkHistory (ep_steps episode) (Z.of_nat (length (ep_steps episode)))
              (Z.of_nat (length (ep_steps episode))).
Proof.
  unfold copy_cuda_episode. cbv zeta.
  set (steps := ep_steps episode). set (count := Z.of_nat (length steps)).
  pose (P := fun (j : Z) (h : EpisodeHistory) =>
              h = mkHistory (take (Z.to_nat j) steps) j count).
  assert (P count (for_range 0 count
            (fun i history =>
               add_episode_step realloc_ok history (es_state (rd no_step steps i))
                 (es_action (rd no_step steps i)) (es_reward (rd no_step steps i)))
            (init_episode_history true count))) as H.
  { apply for_range_ind.
    - lia.
    - reflexivity.
    - intros j h Hj ->. unfold P, add_episode_step. cbn [eh_count eh_capacity eh_steps].
      destruct (Z.geb_spec j count) as [Hge | _]; [lia |].
      f_equal. replace (Z.to_nat (j + 1)) with (S (Z.to_nat j)) by lia.
      symmetry. unfold rd. destruct (Z.ltb_spec j 0) as [| _]; [lia |].
      destruct (steps !! Z.to_nat j) as [s |] eqn:Hs.
      + rewrite (take_S_r steps _ s Hs). cbn [default]. by destruct s.
      + apply lookup_ge_None in Hs. lia. }
  unfold P in H. rewrite H. f_equal. apply firstn_all2. lia.
Qed.

Lemma update_from_cuda_episodes_fold malloc_ok realloc_ok update_alloc episodes :
  forall agent ep,
  (forall i, malloc_ok i = true) ->
  fst (fold_left
         (fun st episode =>
            let '(agent, ep) := st in
            (update_mc (update_alloc ep) agent
               (eh_steps (copy_cuda_episode (malloc_ok ep) (realloc_ok ep) episode)),
             ep + 1))
         episodes (agent, ep))
  = train update_alloc ep agent (map ep_steps episodes).
Proof.
  induction episodes as [| episode episodes IH]; intros agent ep Hok.
  - reflexivity.
  - cbn [fold_left map]. rewrite train_cons, IH by done.
    by rewrite Hok, copy_cuda_episode_spec.
Qed.

(** X29: when the temporary history of every episode can be allocated,
    [update_q_table_from_cuda_episodes] copies every step of every episode
    (the allocated capacity is the count, so the array never grows) and is
    the update [update_mc] applied to the episodes in order, each with the
    allocations of its own update. *)
Theorem update_from_cuda_episodes_is_training malloc_ok realloc_ok update_alloc
    agent episodes :
  (forall i, malloc_ok i = true) ->
  update_q_table_from_cuda_episodes malloc_ok realloc_ok update_alloc agent episodes
  = train update_alloc 0 agent (map ep_steps episodes).
Proof. intros Hok. by apply update_from_cuda_episodes_fold. Qed.

Lemma update_from_cuda_episodes_is_training_witness :
  (forall i : Z, (fun _ : Z => true) i = true)
  /\ update_q_table_from_cuda_episodes (fun _ => true) (fun _ _ => false)
       (fun _ => all_ok) fresh_agent [mkEpisode sample_episode [] 0]
     = train (fun _ => all_ok) 0 fresh_agent
         (map ep_steps [mkEpisode sample_episode [] 0]).
Proof.
  assert (forall i : Z, (fun _ : Z => true) i = true) as H1 by reflexivity.
  split; [exact H1 |].
  exact (update_from_cuda_episodes_is_training (fun _ => true) (fun _ _ => false)
           (fun _ => all_ok) fresh_agent [mkEpisode sample_episode [] 0] H1).
Defined.

Section CudaTraining.
Variable RAND_MAX : Z.
Variable curand_uniform : N -> Q.

Lemma kernel_episode_valid (a : KernelArgs) (tape : Tape) (c : nat) (episode_id : Z) :
  forallb valid_action
    (ep_steps (snd (simulate_episode RAND_MAX curand_uniform a tape c episode_id))) = true.
Proof.
  unfold simulate_episode.
  destruct (kernel_init_spec a c) as (Hs & Hd & Hh).
  by destruct (kernel_loop_spec RAND_MAX curand_uniform a tape (Z.to_nat MAX_EPISODE_STEPS) 0
              (kernel_init a c, mkEpisode [] [] episode_id)
              ltac:(lia) ltac:(by vm_compute) eq_refl eq_refl Hs eq_refl)
    as (_ & _ & _ & R4 & _).
Qed.

(** X30: what the parallel trainer learns.  After the update of a fresh agent
    from episodes played by the kernel, the temporary histories and every
    allocation of the updates succeeding, the table holds for every state and
    action the number of those episodes in which the pair occurs, the
    [double] sum of the returns following its last occurrence in each, and
    the [double] quotient of that sum by that count; a pair that never
    occurred reads as zero. *)
Theorem cuda_training_learns_means malloc_ok realloc_ok update_alloc
    (runs : list (KernelArgs * Tape * nat * Z)) (num_players : Z) (eps : Q)
    (k : StateTuple) (a : Z) :
  (forall i, malloc_ok i = true) ->
  (forall i, allocated (update_alloc i)) ->
  a = 0 \/ a = 1 ->
  let episodes :=
    map (fun '(args, tape, c, id) =>
           snd (simulate_episode RAND_MAX curand_uniform args tape c id)) runs in
  let agent :=
    update_q_table_from_cuda_episodes malloc_ok realloc_ok update_alloc
      (create_monte_carlo_agent num_players eps) episodes in
  let v := q_stat (q_table agent) k a in
  let rs := recorded_returns (map ep_steps episodes) k a in
  count v = Z.of_nat (length rs)
  /\ sum_returns v = double_sum double_zero rs
  /\ (rs = [] -> v = zero_value)
  /\ (rs <> [] ->
      q_value v = double_div (double_sum double_zero rs)
                             (double_of_int (Z.of_nat (length rs)))).
Proof.
  intros Hok Hal Ha. cbv zeta.
  unfold update_q_table_from_cuda_episodes.
  rewrite update_from_cuda_episodes_fold by done.
  set (episodes := map _ runs).
  assert (forallb (forallb valid_action) (map ep_steps episodes) = true) as Hvalid.
  { subst episodes. induction runs as [| [[[args tape] c] id] runs' IH]; [done |].
    cbn [map forallb]. by rewrite kernel_episode_valid, IH. }
  clearbody episodes.
  assert (TableOk (q_table (create_monte_carlo_agent num_players eps))) as Htab.
  { apply TableOk_create. by vm_compute. }
  pose proof (train_spec update_alloc (map ep_steps episodes) 0
                (create_monte_carlo_agent num_players eps)
                k a Hal Htab Hvalid Ha) as Hs.
  cbv zeta in Hs. destruct Hs as (_ & Hs).
  assert (q_stat (q_table (create_monte_carlo_agent num_players eps)) k a = zero_value) as Hz.
  { apply q_stat_create. }
  rewrite Hz in Hs.
  generalize dependent
    (q_stat (q_table (train update_alloc 0 (create_monte_carlo_agent num_players eps)
                        (map ep_steps episodes))) k a).
  intros v (Hcount & Hsum & Hnil & Hcons). cbn [count sum_returns zero_value] in *.
  split_and!; [lia | done | done |].
  intros Hne. rewrite (Hcons Hne), Hsum. do 2 f_equal. lia.
Qed.
End CudaTraining.

Lemma cuda_training_learns_means_witness :
  ((forall i : Z, (fun _ : Z => true) i = true)
   /\ (forall i, allocated ((fun _ : Z => all_ok) i))
   /\ (1 = 0 \/ 1 = 1))
  /\ count (q_stat (q_table
       (update_q_table_from_cuda_episodes (fun _ => true) (fun _ _ => true)
          (fun _ => all_ok) (create_monte_carlo_agent 2 (1 # 10))
          (map (fun '(args, tape, c, id) =>
                  snd (simulate_episode 32767 (fun _ => 0%Q) args tape c id))
               [(mkArgs 2 1500 200 40 10 30 3 (replicate 40 60) (replicate 40 4)
                        (replicate 40 50) (1 # 10), rent_tape, O, 0)]))) key_a 1)
     = Z.of_nat (length (recorded_returns (map ep_steps
         (map (fun '(args, tape, c, id) =>
                 snd (simulate_episode 32767 (fun _ => 0%Q) args tape c id))
              [(mkArgs 2 1500 200 40 10 30 3 (replicate 40 60) (replicate 40 4)
                       (replicate 40 50) (1 # 10), rent_tape, O, 0)])) key_a 1)).
Proof.
  assert (forall i : Z, (fun _ : Z => true) i = true) as H1 by reflexivity.
  assert (forall i, allocated ((fun _ : Z => all_ok) i)) as H0
    by (intros i; split; [| split]; reflexivity).
  assert (1 = 0 \/ 1 = 1) as H2 by (by right).
  split; [by split_and! |].
  exact (proj1 (cuda_training_learns_means 32767 (fun _ => 0%Q) (fun _ => true)
                  (fun _ _ => true) (fun _ => all_ok) _ 2 (1 # 10) key_a 1
                  H1 H0 H2)).
Defined.
